(** * Barnes-Hut simulation of a star cloud: [world.c]

    A shallow embedding of [world.c] (the force kernel [get_accel], the
    worker body [update_stars_job], [get_quadrant] and the frame driver
    [world_frame]) and the properties of it that the specification states;
    then the rest of the file ([frand], [mass_ascending], the seeding of
    [init_world], [finalize_world]) and what the code itself shows of it.

    Conventions of the embedding.

    - A C [double] is a rational ([Q]), and [+], [-], [*], [/] on doubles
      are those of [Q].  The rationals have no infinity and no NaN: a
      division whose divisor is zero ends the run with the fault
      [NonFinite], and the initial bounds [INFINITY] and [-INFINITY] of
      the bounding box are [None].  The C comparison [>] is [Qgtb], a
      double as a condition is [Qtruth].
    - The rationals do not round.  The statements that carry a claim of
      the specification or a property of the code are therefore of two
      kinds only.  Where they equate values, they use the equality [=] of
      Rocq between the very expressions that the code computes, operation
      by operation and in its order ([add_node], [node_of_members],
      [fold_left add_vecd2]), and so read the same whether an operation is
      exact or rounded.  Where they use the order or [==] of [Q], it is on
      signs, zero tests and comparisons that the code makes itself, or on a
      sum of a non-negative and a positive mass.  The geometry of the tree
      ([tree_ok]) and the two sections marked "in exact arithmetic" are the
      exception: they prove the sums and the halving argument of the
      specification for the rationals, and no claim rests on them.
    - [Binary64] embeds the tree builder a second time, over the binary64
      floats of the kernel, to run it on the inputs where rounding decides.
    - [sqrt], [atan2], [cos] and [sin] come from the C library, not from the
      repository; they are the fields of a record [libm] that every function
      using them takes as an argument, together with the narrowing of a
      [double] to a [float].
    - The two arrays [stars] and [quads] are lists, indexed with stdpp's
      lookup and insert; an access outside an array is a fault.  A
      [struct quad*] is [option ptr]: [None] is [NULL], [PStar i] is
      [(struct quad* )&stars[i]] and [PQuad i] is [&quads[i]].  Both structs
      start with a [struct node], so the node fields can be read through
      either pointer.
    - Loops that C leaves unbounded ([do ... while] of the tree builder, the
      recursion of [get_accel]) take a [fuel] and end with [OutOfFuel] when
      it is used up.
    - The threads of the pool are a schedule: the list of the threads that
      take the tokens of [job_start] of one frame, in the order in which
      they take them ([run_pool]). *)

From Stdlib Require Import Floats ZArith QArith Qminmax Qround Lia Lra Lqa Psatz String.
From stdpp Require Import base list sorting.

Local Open Scope Q_scope.

(** ** Outcomes *)

Inductive fault : Type :=
| OutOfArena            (* [quads[quad_count]] past the end of the arena *)
| WildPointer           (* an index outside [stars], or a child outside both arrays *)
| TypePun               (* a quad field read or written through a star *)
| NonFinite             (* zero divisor, or an infinite bound: inf or NaN in C *)
| IntOverflow           (* an [int] product outside [INT_MIN .. INT_MAX] *)
| OutOfFuel             (* the loop bound of the model is used up *)
| Aborted (diagnostic : string).  (* a failed [assert] *)

Inductive outcome (A : Type) : Type :=
| Done (a : A)
| Fault (f : fault).
Arguments Done {A} a.
Arguments Fault {A} f.

Definition bind {A B : Type} (m : outcome A) (k : A -> outcome B) : outcome B :=
  match m with
  | Done a => k a
  | Fault f => Fault f
  end.

Notation "'let*' x ':=' m 'in' k" := (bind m (fun x => k))
  (at level 10, x pattern, m at level 100, k at level 200).

(** [for (int i = a; i < b; i++) body] over a state, as the fold of the body
    over the indices [a, a+1, ..., b-1]. *)
Fixpoint for_each {S : Type} (body : nat -> S -> outcome S) (l : list nat) (s : S)
  : outcome S :=
  match l with
  | [] => Done s
  | i :: l' => let* s' := body i s in for_each body l' s'
  end.

Definition for_range {S : Type} (a b : nat) (body : nat -> S -> outcome S) (s : S)
  : outcome S :=
  for_each body (seq a (b - a)) s.

(** ** Numbers *)

(** [a > b] on doubles. *)
Definition Qgtb (a b : Q) : bool :=
  match a ?= b with
  | Gt => true
  | _ => false
  end.

(** The truth value of a double used as a condition: [if (d)], [while (d)]. *)
Definition Qtruth (d : Q) : bool := negb (Qeq_bool d 0).

(** [a / b] on doubles; the quotient by zero is infinite or NaN. *)
Definition fdiv (a b : Q) : outcome Q :=
  if Qeq_bool b 0 then Fault NonFinite else Done (a / b).

Definition INT_MAX : Z := 2147483647.
Definition INT_MIN : Z := -2147483648.

(** [a * b] on [int]: signed overflow is undefined. *)
Definition int_mul (a b : Z) : outcome Z :=
  if ((INT_MIN <=? a * b) && (a * b <=? INT_MAX))%Z then Done (a * b)%Z
  else Fault IntOverflow.

(** [a / b] on [int]: truncation towards zero. *)
Definition int_div (a b : Z) : outcome Z :=
  if (b =? 0)%Z then Fault IntOverflow else Done (a ÷ b)%Z.

(** The functions on doubles that are not arithmetic of the numbers: the
    functions of [math.h] that [get_accel] calls, and the narrowing of a
    [double] to a [GLfloat] that an assignment to the display buffer makes
    (lines 297-298). *)
Record libm : Type := mklibm {
  sqrt : Q -> Q;
  atan2 : Q -> Q -> Q;
  cos : Q -> Q;
  sin : Q -> Q;
  to_float : Q -> Q
}.

(** ** Data *)

(** [struct vecd2 { double x, y; }] *)
Record vecd2 : Type := mkvecd2 { vec_x : Q; vec_y : Q }.

(** [struct node]: a star or a quadrant.  It inherits [vecd2]: [node_x] and
    [node_y] are the centre of mass [x], [y]. *)
Record node : Type := mknode {
  node_x : Q;
  node_y : Q;
  mass : Q;
  size : Q          (* zero for a star *)
}.

(** [struct star]: inherits [struct node]. *)
Record star : Type := mkstar {
  star_node : node;
  speed : vecd2;
  accel : vecd2     (* already multiplied by t/2 *)
}.

(** A non-null [struct quad*]. *)
Inductive ptr : Type :=
| PStar (i : nat)   (* [(struct quad* )&stars[i]] *)
| PQuad (i : nat).  (* [&quads[i]] *)

(** [struct quad]: inherits [struct node]; [center] is the geometrical
    centre, [child0 .. child3] are [children[0 .. 3]]. *)
Record quad : Type := mkquad {
  quad_node : node;
  center : vecd2;
  child0 : option ptr;
  child1 : option ptr;
  child2 : option ptr;
  child3 : option ptr
}.

(** [q->children[k]] for a quadrant [k] in [0 .. 3]. *)
Definition children (q : quad) (k : Z) : option ptr :=
  match k with
  | 0%Z => child0 q
  | 1%Z => child1 q
  | 2%Z => child2 q
  | _ => child3 q
  end.

(** [q->children[k] = p] *)
Definition set_children (q : quad) (k : Z) (p : option ptr) : quad :=
  match k with
  | 0%Z => mkquad (quad_node q) (center q) p (child1 q) (child2 q) (child3 q)
  | 1%Z => mkquad (quad_node q) (center q) (child0 q) p (child2 q) (child3 q)
  | 2%Z => mkquad (quad_node q) (center q) (child0 q) (child1 q) p (child3 q)
  | _ => mkquad (quad_node q) (center q) (child0 q) (child1 q) (child2 q) p
  end.

Definition set_quad_node (q : quad) (n : node) : quad :=
  mkquad n (center q) (child0 q) (child1 q) (child2 q) (child3 q).

(** What [calloc] and [memset(.., 0, ..)] leave in one [struct quad] and one
    [struct star]. *)
Definition zero_node : node := mknode 0 0 0 0.
Definition zero_vecd2 : vecd2 := mkvecd2 0 0.
Definition zero_quad : quad := mkquad zero_node zero_vecd2 None None None None.
Definition zero_star : star := mkstar zero_node zero_vecd2 zero_vecd2.

(** Modelled from the spec: the global [config] is declared in [common.h],
    which is not among the sources.  These are the options that [world.c]
    reads: [config.stars], [config.accuracy], [config.epsilon],
    [config.gravity], [config.speed] and [config.min_fps]. *)
Record configuration : Type := mkconfiguration {
  config_stars : Z;
  config_accuracy : Q;
  config_epsilon : Q;
  config_gravity : Q;
  config_speed : Q;
  config_min_fps : Q
}.

(** The globals of [world.c]: the two arrays, the display buffer
    [disp_stars], [cores] and [frame_time].  The thread handles, the
    semaphores and the two timers are left out. *)
Record world : Type := mkworld {
  stars : list star;
  quads : list quad;
  disp_stars : list (Q * Q);
  cores : Z;
  frame_time : Q
}.

(** [p->x], [p->y], [p->mass], [p->size] through a child pointer. *)
Definition deref (stars : list star) (quads : list quad) (p : ptr) : outcome node :=
  match p with
  | PStar i =>
      match stars !! i with
      | Some s => Done (star_node s)
      | None => Fault WildPointer
      end
  | PQuad i =>
      match quads !! i with
      | Some q => Done (quad_node q)
      | None => Fault WildPointer
      end
  end.

(** ** [get_quadrant]

<<
   // 2 3
   // 0 1
>>
    The second argument is a [struct star*] in C; the callers also pass a
    child pointer cast to it, and only [x] and [y] are read, so the
    embedding takes the node. *)
Definition get_quadrant (quad : quad) (star : node) : Z :=
  let quadrant := 0%Z in
  let quadrant :=
    if Qgtb (node_x star) (vec_x (center quad)) then (quadrant + 1)%Z else quadrant in
  let quadrant :=
    if Qgtb (node_y star) (vec_y (center quad)) then (quadrant + 2)%Z else quadrant in
  quadrant.

(** ** [get_accel]: the recursive walk through the tree *)

Section Kernel.

Variable config : configuration.
Variable M : libm.

Section Walk.

Variable stars : list star.
Variable quads : list quad.

Fixpoint get_accel (fuel : nat) (star : node) (node : ptr) (accel : vecd2)
  : outcome vecd2 :=
  match fuel with
  | O => Fault OutOfFuel
  | S fuel' =>
      let* n := deref stars quads node in
      let dx := node_x n - node_x star in
      let dy := node_y n - node_y star in
      let distance_sqr := dx * dx + dy * dy in
      if Qgtb (sqrt M distance_sqr) (size n * config_accuracy config) then
        let angle := atan2 M dy dx in
        let* accel_abs := fdiv (mass n) (distance_sqr + config_epsilon config) in
        Done (mkvecd2 (vec_x accel + accel_abs * cos M angle)
                      (vec_y accel + accel_abs * sin M angle))
      else if Qtruth (size n) then
        match node with
        | PStar _ => Fault TypePun
        | PQuad i =>
            match quads !! i with
            | None => Fault WildPointer
            | Some q =>
                let visit (c : option ptr) (accel : vecd2) : outcome vecd2 :=
                  match c with
                  | Some p => get_accel fuel' star p accel
                  | None => Done accel
                  end in
                let* accel := visit (child0 q) accel in
                let* accel := visit (child1 q) accel in
                let* accel := visit (child2 q) accel in
                visit (child3 q) accel
            end
        end
      else Done accel   (* the same star or another star with the same coordinates *)
  end.

End Walk.

(** ** The acceleration phase *)

(** The body of the loop of [update_stars_job] (lines 110-116). *)
Definition job_body (fuel : nat) (frame_time : Q) (quads : list quad)
  (i : nat) (stars : list star) : outcome (list star) :=
  match stars !! i with
  | None => Fault WildPointer
  | Some s =>
      let* a := get_accel stars quads fuel (star_node s) (PQuad 0) zero_vecd2 in
      let accel_x := vec_x a * (frame_time * config_gravity config / 2) in
      let accel_y := vec_y a * (frame_time * config_gravity config / 2) in
      let speed_x := vec_x (speed s) + (vec_x (accel s) + accel_x) in
      let speed_y := vec_y (speed s) + (vec_y (accel s) + accel_y) in
      Done (<[i := mkstar (star_node s) (mkvecd2 speed_x speed_y)
                          (mkvecd2 accel_x accel_y)]> stars)
  end.

(** One wake-up of the pool thread [part]: from [sem_wait(&job_start)] to
    [sem_post(&job_finish)]. *)
Definition update_stars_job (fuel : nat) (cores : Z) (frame_time : Q)
  (quads : list quad) (part : Z) (stars : list star) : outcome (list star) :=
  let* lo := int_mul (config_stars config) part in
  let* part_start := int_div lo cores in
  let* hi := int_mul (config_stars config) (part + 1) in
  let* part_end := int_div hi cores in
  for_range (Z.to_nat part_start) (Z.to_nat part_end)
    (job_body fuel frame_time quads) stars.

(** The pool at work (lines 273-277 and 107-119): [cores] posts of
    [job_start], then [cores] waits on [job_finish].  A token of [job_start]
    is taken by whichever thread is waiting or comes back to [sem_wait]
    first, so a thread can take several tokens of one frame and another
    none: [sched] lists, token by token, the number of the thread that takes
    it.  A thread runs its own part once for each token it takes.  Passes
    for different stars do not touch the same fields, and the runs of one
    thread follow each other, so the embedding runs the jobs one after the
    other in the order of [sched]. *)
Definition run_pool (fuel : nat) (cores : Z) (frame_time : Q)
  (quads : list quad) (sched : list nat) (stars : list star) : outcome (list star) :=
  for_each (fun part => update_stars_job fuel cores frame_time quads (Z.of_nat part))
    sched stars.

(** The body of the single-threaded loop of [world_frame] (lines 280-286). *)
Definition inline_body (fuel : nat) (frame_time : Q) (quads : list quad)
  (i : nat) (stars : list star) : outcome (list star) :=
  match stars !! i with
  | None => Fault WildPointer
  | Some s =>
      let* a := get_accel stars quads fuel (star_node s) (PQuad 0) zero_vecd2 in
      let accel_x := vec_x a * (frame_time * config_gravity config / 2) in
      let accel_y := vec_y a * (frame_time * config_gravity config / 2) in
      let speed_x := vec_x (speed s) + (vec_x (accel s) + accel_x) in
      let speed_y := vec_y (speed s) + (vec_y (accel s) + accel_y) in
      Done (<[i := mkstar (star_node s) (mkvecd2 speed_x speed_y)
                          (mkvecd2 accel_x accel_y)]> stars)
  end.

Definition run_inline (fuel : nat) (frame_time : Q) (quads : list quad)
  (stars : list star) : outcome (list star) :=
  for_range 0 (Z.to_nat (config_stars config)) (inline_body fuel frame_time quads) stars.

End Kernel.

(** ** The tree builder *)

(** The bounding box while it is computed: [None] is the initial
    [INFINITY] of a minimum and [-INFINITY] of a maximum. *)
Record bounds : Type := mkbounds {
  xmin_world : option Q;
  ymin_world : option Q;
  xmax_world : option Q;
  ymax_world : option Q
}.

(** [if (min > v) min = v;] *)
Definition lower_bound (min : option Q) (v : Q) : option Q :=
  match min with
  | None => Some v
  | Some b => if Qgtb b v then Some v else Some b
  end.

(** [if (max < v) max = v;] *)
Definition upper_bound (max : option Q) (v : Q) : option Q :=
  match max with
  | None => Some v
  | Some b => if Qgtb v b then Some v else Some b
  end.

Definition bounds_body (stars : list star) (i : nat) (b : bounds) : outcome bounds :=
  match stars !! i with
  | None => Fault WildPointer
  | Some s =>
      Done (mkbounds (lower_bound (xmin_world b) (node_x (star_node s)))
                     (lower_bound (ymin_world b) (node_y (star_node s)))
                     (upper_bound (xmax_world b) (node_x (star_node s)))
                     (upper_bound (ymax_world b) (node_y (star_node s))))
  end.

Definition world_bounds (n : nat) (stars : list star) : outcome bounds :=
  for_range 0 n (bounds_body stars) (mkbounds None None None None).

Definition finite (b : option Q) : outcome Q :=
  match b with
  | Some v => Done v
  | None => Fault NonFinite
  end.

(** The root node: [quads[0].center] and [quads[0].size] are written, the
    other fields of [quads[0]] are left as they are. *)
Definition set_root (b : bounds) (quads : list quad) : outcome (list quad) :=
  let* xmin := finite (xmin_world b) in
  let* ymin := finite (ymin_world b) in
  let* xmax := finite (xmax_world b) in
  let* ymax := finite (ymax_world b) in
  match quads !! 0%nat with
  | None => Fault OutOfArena
  | Some q =>
      let center_x := (xmin + xmax) / 2 in
      let center_y := (ymin + ymax) / 2 in
      let size_x := xmax - xmin in
      let size_y := ymax - ymin in
      let n := quad_node q in
      let root_size := if Qgtb size_x size_y then size_x else size_y in
      Done (<[0%nat := mkquad (mknode (node_x n) (node_y n) (mass n) root_size)
                              (mkvecd2 center_x center_y)
                              (child0 q) (child1 q) (child2 q) (child3 q)]> quads)
  end.

(** The arena while the tree is built: the array and [quad_count]. *)
Definition arena : Type := (list quad * nat)%type.

(** One pass through the body of the [do ... while] loop (lines 239-261) for
    the star [stars[star_i]], whose node is [star], at the quad [quad].  It
    returns the arena and the new value of [quad]. *)
Definition insert_body (stars : list star) (star_i : nat) (star : node)
  (a : arena) (quad : ptr) : outcome (arena * ptr) :=
  let '(quads, quad_count) := a in
  match quad with
  | PStar _ => Fault TypePun
  | PQuad qi =>
      match quads !! qi with
      | None => Fault WildPointer
      | Some q =>
          (* Add star to current quad *)
          let n := quad_node q in
          let mass_sum := mass n + mass star in
          let* x := fdiv (node_x n * mass n + node_x star * mass star) mass_sum in
          let* y := fdiv (node_y n * mass n + node_y star * mass star) mass_sum in
          let q := set_quad_node q (mknode x y mass_sum (size n)) in
          let quads := <[qi := q]> quads in
          let quadrant := get_quadrant q star in
          match children q quadrant with
          | None =>
              let q := set_children q quadrant (Some (PStar star_i)) in
              Done (<[qi := q]> quads, quad_count, PStar star_i)
          | Some child =>
              let* old_star := deref stars quads child in
              if Qeq_bool (size old_star) 0 then
                match quads !! quad_count with
                | None => Fault OutOfArena
                | Some new_quad =>
                    let shift := size (quad_node q) / 4 in
                    let new_quad :=
                      mkquad (mknode (node_x old_star) (node_y old_star) (mass old_star)
                                (size (quad_node q) / 2))
                        (mkvecd2
                           (vec_x (center q)
                            + (if (Z.land quadrant 1 =? 0)%Z then - shift else shift))
                           (vec_y (center q)
                            + (if (Z.land quadrant 2 =? 0)%Z then - shift else shift)))
                        (child0 new_quad) (child1 new_quad)
                        (child2 new_quad) (child3 new_quad) in
                    let new_quad :=
                      set_children new_quad (get_quadrant new_quad old_star) (Some child) in
                    let quads := <[quad_count := new_quad]> quads in
                    let q := set_children q quadrant (Some (PQuad quad_count)) in
                    Done (<[qi := q]> quads, S quad_count, PQuad quad_count)
                end
              else Done (quads, quad_count, child)
          end
      end
  end.

(** The [do ... while (quad->size)] loop for one star. *)
Fixpoint insert_loop (fuel : nat) (stars : list star) (star_i : nat) (star : node)
  (a : arena) (quad : ptr) : outcome arena :=
  match fuel with
  | O => Fault OutOfFuel
  | S fuel' =>
      let* r := insert_body stars star_i star a quad in
      let '(a', quad') := r in
      let* n := deref stars (fst a') quad' in
      if Qtruth (size n) then insert_loop fuel' stars star_i star a' quad'
      else Done a'
  end.

(** The body of the [for] loop over the stars (line 236): one insertion,
    starting at the root. *)
Definition insert_star (fuel : nat) (stars : list star) (star_i : nat) (a : arena)
  : outcome arena :=
  match stars !! star_i with
  | None => Fault WildPointer
  | Some s => insert_loop fuel stars star_i (star_node s) a (PQuad 0)
  end.

(** The build phase: bounds, root, then every star in turn. *)
Definition build_tree (fuel : nat) (n : nat) (stars : list star) (quads : list quad)
  : outcome arena :=
  let* b := world_bounds n stars in
  let* quads := set_root b quads in
  for_range 0 n (insert_star fuel stars) (quads, 1%nat).

(** ** The frame *)

(** Line 290-291: the position step of one star. *)
Definition move_body (frame_time : Q) (i : nat) (stars : list star)
  : outcome (list star) :=
  match stars !! i with
  | None => Fault WildPointer
  | Some s =>
      let n := star_node s in
      let x := node_x n + frame_time * (vec_x (speed s) + vec_x (accel s)) in
      let y := node_y n + frame_time * (vec_y (speed s) + vec_y (accel s)) in
      Done (<[i := mkstar (mknode x y (mass n) (size n)) (speed s) (accel s)]> stars)
  end.

(** Lines 297-298: [disp_stars] is an array of [vec2], two [float]s; the
    assignment narrows the [double]. *)
Definition display_body (M : libm) (stars : list star) (i : nat)
  (disp : list (Q * Q)) : outcome (list (Q * Q)) :=
  match stars !! i with
  | None => Fault WildPointer
  | Some s =>
      if (i <? length disp)%nat
      then Done (<[i := (to_float M (node_x (star_node s)),
                         to_float M (node_y (star_node s)))]> disp)
      else Fault WildPointer
  end.

(** [memset(quads, 0, quad_count * sizeof(struct quad))] *)
Definition clear_quads (a : arena) : outcome (list quad) :=
  let '(quads, quad_count) := a in
  if (quad_count <=? length quads)%nat
  then Done (replicate quad_count zero_quad ++ drop quad_count quads)
  else Fault OutOfArena.

(** [frame_time] as lines 202-205 leave it. *)
Definition clamp_time (config : configuration) (time : Q) : outcome Q :=
  let frame_time := time in
  let* limit := fdiv 1 (config_min_fps config) in
  let frame_time := if Qgtb frame_time limit then limit else frame_time in
  Done (frame_time * config_speed config).

(** [world_frame].  [sched] is the order in which the threads of the pool
    take the tokens of this frame (see [run_pool]); the single-threaded
    path does not read it. *)
Definition world_frame (config : configuration) (M : libm) (fuel : nat)
  (sched : list nat) (w : world) (time : Q) : outcome world :=
  let* frame_time := clamp_time config time in
  let n := Z.to_nat (config_stars config) in
  (* Build Barnes-Hut qtree *)
  let* a := build_tree fuel n (stars w) (quads w) in
  (* Calculate acceleration and position *)
  let* stars :=
    if (1 <? cores w)%Z
    then run_pool config M fuel (cores w) frame_time (fst a) sched (stars w)
    else run_inline config M fuel frame_time (fst a) (stars w) in
  let* stars := for_range 0 n (move_body frame_time) stars in
  (* Display coordinates *)
  let* disp := for_range 0 n (display_body M stars) (disp_stars w) in
  let* quads := clear_quads a in
  Done (mkworld stars quads disp (cores w) frame_time).

(** [init_world]: the assertion and the three allocations.  The seeding
    ([rand], the polar formulas, [qsort]) is not modelled: [seed i] is the
    position, the mass and the speed that it leaves in [stars[i]]; the [size]
    and the [accel] of a star stay as [calloc] made them.  The arena has
    room for [2 * config.stars] quads (line 157). *)
Definition quad_capacity (config : configuration) : nat :=
  Z.to_nat (2 * config_stars config).

Definition init_world (config : configuration) (cores : Z)
  (seed : nat -> Q * Q * Q * vecd2) : outcome world :=
  if (1 <? config_stars config)%Z then
    let n := Z.to_nat (config_stars config) in
    Done (mkworld
            (map (fun i => let '(x, y, m, v) := seed i in
                           mkstar (mknode x y m 0) v zero_vecd2) (seq 0 n))
            (replicate (quad_capacity config) zero_quad)
            (replicate n (0, 0))
            cores 0)
  else Fault (Aborted "config.stars > 1").

(** ** Definitions used by the statements *)

(** The non-null child slots of a quad, in the order [get_accel] visits them. *)
Definition non_null_children (q : quad) : list ptr :=
  omap id [child0 q; child1 q; child2 q; child3 q].

(** A walk applied to each pointer of a list in turn, threading the
    accumulator. *)
Fixpoint walk_each (walk : ptr -> vecd2 -> outcome vecd2) (l : list ptr) (accel : vecd2)
  : outcome vecd2 :=
  match l with
  | [] => Done accel
  | p :: l' => let* accel := walk p accel in walk_each walk l' accel
  end.

(** A C library for the examples: only the shape matters there. *)
Definition libm0 : libm :=
  mklibm (fun d => d) (fun _ _ => 0) (fun _ => 1) (fun _ => 0) (fun d => d).

Definition star_at (x y m : Q) : star := mkstar (mknode x y m 0) zero_vecd2 zero_vecd2.

(** What a frame may not change in a star: its mass (and the [size] that
    marks it as a star). *)
Definition star_identity (s : star) : Q * Q :=
  (mass (star_node s), size (star_node s)).

(** The world with another number of cores. *)
Definition with_cores (w : world) (c : Z) : world :=
  mkworld (stars w) (quads w) (disp_stars w) c (frame_time w).

(** *** The tree builder, piecewise *)

(** The quad after lines 240-243 added the star to it. *)
Definition add_star (q : quad) (star : node) : quad :=
  let n := quad_node q in
  let mass_sum := mass n + mass star in
  set_quad_node q
    (mknode ((node_x n * mass n + node_x star * mass star) / mass_sum)
            ((node_y n * mass n + node_y star * mass star) / mass_sum)
            mass_sum (size n)).

(** The quad that lines 249-258 write into the slot [slot] of the arena,
    when the quadrant [quadrant] of [q] held the leaf [child], whose node is
    [old_star]. *)
Definition split_off (q : quad) (quadrant : Z) (old_star : node) (child : ptr)
  (slot : quad) : quad :=
  let shift := size (quad_node q) / 4 in
  let new_quad :=
    mkquad (mknode (node_x old_star) (node_y old_star) (mass old_star)
              (size (quad_node q) / 2))
      (mkvecd2
         (vec_x (center q) + (if (Z.land quadrant 1 =? 0)%Z then - shift else shift))
         (vec_y (center q) + (if (Z.land quadrant 2 =? 0)%Z then - shift else shift)))
      (child0 slot) (child1 slot) (child2 slot) (child3 slot) in
  set_children new_quad (get_quadrant new_quad old_star) (Some child).

(** *** Geometry *)

(** The node lies in the closed square of the quad. *)
Definition in_square (q : quad) (s : node) : Prop :=
  vec_x (center q) - size (quad_node q) / 2 <= node_x s /\
  node_x s <= vec_x (center q) + size (quad_node q) / 2 /\
  vec_y (center q) - size (quad_node q) / 2 <= node_y s /\
  node_y s <= vec_y (center q) + size (quad_node q) / 2.

(** [c] covers the quadrant [k] of [q]: half the side, the centre moved by a
    quarter of the side along each axis, towards the side the bits of [k]
    name. *)
Definition child_geometry (q c : quad) (k : Z) : Prop :=
  size (quad_node c) == size (quad_node q) / 2 /\
  vec_x (center c) ==
    vec_x (center q) + (if (Z.land k 1 =? 0)%Z then - (size (quad_node q) / 4)
                        else size (quad_node q) / 4) /\
  vec_y (center c) ==
    vec_y (center q) + (if (Z.land k 2 =? 0)%Z then - (size (quad_node q) / 4)
                        else size (quad_node q) / 4).

(** Two nodes at different places. *)
Definition apart (s t : node) : Prop :=
  ~ (node_x s == node_x t /\ node_y s == node_y t).

(** What the builder expects of the star array: every [size] is zero (the
    array comes from [calloc] and no line writes the [size] of a star) and
    every mass is positive. *)
Definition stars_ok (stars : list star) : Prop :=
  forall a s, stars !! a = Some s ->
    size (star_node s) == 0 /\ 0 < mass (star_node s).

(** No two stars share their coordinates. *)
Definition distinct_positions (stars : list star) : Prop :=
  forall a b s t, stars !! a = Some s -> stars !! b = Some t -> a <> b ->
    apart (star_node s) (star_node t).

(** The arena as [calloc] and the [memset] at the end of a frame leave it. *)
Definition zeroed (quads : list quad) : Prop :=
  forall i q, quads !! i = Some q -> q = zero_quad.

(** *** The shape of the tree while it is built

    [tree_ok stars n quads count]: the first [count] quads form a tree whose
    leaves are stars of index below [n]. *)
Record tree_ok (stars : list star) (n : nat) (quads : list quad) (count : nat)
  : Prop := mk_tree_ok {
  (* the root exists and the counter is inside the arena *)
  ok_count : (1 <= count <= length quads)%nat;
  (* the slots beyond the counter are untouched *)
  ok_fresh : forall i q, quads !! i = Some q -> (count <= i)%nat -> q = zero_quad;
  (* a quad in use has a positive side and a non-negative mass, positive
     below the root *)
  ok_size : forall i q, quads !! i = Some q -> (i < count)%nat ->
    0 < size (quad_node q) /\ 0 <= mass (quad_node q) /\
    ((0 < i)%nat -> 0 < mass (quad_node q));
  (* a child quad was allocated after its parent and covers its quadrant *)
  ok_child_quad : forall i q k j,
    quads !! i = Some q -> (i < count)%nat -> (0 <= k < 4)%Z ->
    children q k = Some (PQuad j) ->
    (i < j < count)%nat /\
    exists c, quads !! j = Some c /\ child_geometry q c k;
  (* a leaf is an inserted star, inside the quad, in its quadrant *)
  ok_child_star : forall i q k a,
    quads !! i = Some q -> (i < count)%nat -> (0 <= k < 4)%Z ->
    children q k = Some (PStar a) ->
    (a < n)%nat /\
    exists s, stars !! a = Some s /\ in_square q (star_node s) /\
              get_quadrant q (star_node s) = k;
  (* a quad is the child of one slot only *)
  ok_parent : forall i i' q q' k k' j,
    quads !! i = Some q -> quads !! i' = Some q' ->
    (i < count)%nat -> (i' < count)%nat -> (0 <= k < 4)%Z -> (0 <= k' < 4)%Z ->
    children q k = Some (PQuad j) -> children q' k' = Some (PQuad j) ->
    i = i' /\ k = k'
}.

(** The quads in use keep their squares from [a] to [a']; the arena keeps
    its length and the counter does not go back. *)
Definition frames_kept (a a' : arena) : Prop :=
  (snd a <= snd a')%nat /\
  length (fst a') = length (fst a) /\
  forall i q, fst a !! i = Some q -> (i < snd a)%nat ->
    exists q', fst a' !! i = Some q' /\ center q' = center q /\
               size (quad_node q') = size (quad_node q).

(** *** Worlds for the examples *)

(** Two stars of mass 1 at (-1, 0) and (1, 0), one core, an arena of
    [2 * 2] quads. *)
Definition two_body_config : configuration := mkconfiguration 2 1 1 1 1 30.

Definition two_body : world :=
  mkworld [star_at (-1) 0 1; star_at 1 0 1] (replicate 4 zero_quad)
    [(0, 0); (0, 0)] 1 0.

(** Three stars, two of them one unit apart and the third far away: the
    arena of [2 * 3] quads is too small for their tree. *)
Definition crowded_config : configuration := mkconfiguration 3 1 1 1 1 30.

Definition crowded_seed (i : nat) : Q * Q * Q * vecd2 :=
  match i with
  | 0%nat => (0, 0, 1, zero_vecd2)
  | 1%nat => (1, 0, 1, zero_vecd2)
  | _ => (1024, 1024, 1, zero_vecd2)
  end.

Definition crowded : world :=
  mkworld [star_at 0 0 1; star_at 1 0 1; star_at 1024 1024 1]
    (replicate 6 zero_quad) [(0, 0); (0, 0); (0, 0)] 1 0.

(** The run ends in a fatal abort with a diagnostic. *)
Definition aborts {A : Type} (o : outcome A) : Prop :=
  exists diagnostic, o = Fault (Aborted diagnostic).

(** The star after lines 112-116 (and 282-286): [a] is what [get_accel]
    summed up for it. *)
Definition accelerated (config : configuration) (frame_time : Q) (s : star)
  (a : vecd2) : star :=
  let accel_x := vec_x a * (frame_time * config_gravity config / 2) in
  let accel_y := vec_y a * (frame_time * config_gravity config / 2) in
  mkstar (star_node s)
    (mkvecd2 (vec_x (speed s) + (vec_x (accel s) + accel_x))
             (vec_y (speed s) + (vec_y (accel s) + accel_y)))
    (mkvecd2 accel_x accel_y).

(** [distance_sqr] of line 80, for the target [star] and the node [n]. *)
Definition distance_sqr (star n : node) : Q :=
  (node_x n - node_x star) * (node_x n - node_x star)
  + (node_y n - node_y star) * (node_y n - node_y star).

(** A pointer into one of the two arrays. *)
Definition valid_ptr (stars : list star) (quads : list quad) (p : ptr) : Prop :=
  match p with
  | PStar a => (a < length stars)%nat
  | PQuad i => (i < length quads)%nat
  end.

(** An arena that [get_accel] can walk: the stars have size zero, and
    every child pointer is a star of the array or a quad further up the
    arena than its parent. *)
Definition walkable (stars : list star) (quads : list quad) : Prop :=
  (forall a s, stars !! a = Some s -> size (star_node s) == 0) /\
  (forall i q k c, quads !! i = Some q -> (0 <= k < 4)%Z -> children q k = Some c ->
     match c with
     | PStar a => (a < length stars)%nat
     | PQuad j => (i < j < length quads)%nat
     end).

(** *** The root

    The side and the quad that lines 228-232 leave in a zeroed [quads[0]],
    for the bounding box [x0 .. x1] by [y0 .. y1]. *)
Definition root_size (x0 y0 x1 y1 : Q) : Q :=
  if Qgtb (x1 - x0) (y1 - y0) then x1 - x0 else y1 - y0.

Definition root_quad (x0 y0 x1 y1 : Q) : quad :=
  mkquad (mknode 0 0 0 (root_size x0 y0 x1 y1))
    (mkvecd2 ((x0 + x1) / 2) ((y0 + y1) / 2)) None None None None.

(** Two of the first [n] stars are at different places. *)
Definition spread (stars : list star) (n : nat) : Prop :=
  exists a b s t,
    (a < n)%nat /\ (b < n)%nat /\ stars !! a = Some s /\ stars !! b = Some t /\
    apart (star_node s) (star_node t).

(** *** Masses and moments

    The node behind a child slot; an empty slot weighs nothing. *)
Definition slot_node (stars : list star) (quads : list quad) (c : option ptr) : node :=
  match c with
  | None => zero_node
  | Some p =>
      match deref stars quads p with
      | Done n => n
      | Fault _ => zero_node
      end
  end.

(** The slot holds [&quads[j]]. *)
Definition points_to (c : option ptr) (j : nat) : bool :=
  match c with
  | Some (PQuad i) => (i =? j)%nat
  | _ => false
  end.

Definition sum4 (g : option ptr -> Q) (q : quad) : Q :=
  g (child0 q) + g (child1 q) + g (child2 q) + g (child3 q).

(** The three quantities that a quad accumulates: the mass and the two
    first moments. *)
Definition weight_m (n : node) : Q := mass n.
Definition weight_x (n : node) : Q := node_x n * mass n.
Definition weight_y (n : node) : Q := node_y n * mass n.

(** [slot_weight] is the quantity [f] of the node behind a slot, and
    [balanced f stars quads count cur extra]: in every quad in use, the
    quantity [f] is the sum of [f] over the four child slots, where the
    slot that holds [&quads[cur]] counts [extra] more (the share of the
    star on its way down, already added to the ancestors of [quads[cur]]
    and not yet to [quads[cur]]). *)
Definition slot_weight (f : node -> Q) (stars : list star) (quads : list quad)
  (cur : nat) (extra : Q) (c : option ptr) : Q :=
  f (slot_node stars quads c) + (if points_to c cur then extra else 0).

Definition balanced (f : node -> Q) (stars : list star) (quads : list quad)
  (count cur : nat) (extra : Q) : Prop :=
  forall i q, quads !! i = Some q -> (i < count)%nat ->
    f (quad_node q) == sum4 (slot_weight f stars quads cur extra) q.

(** The stars below a pointer, by their indices, in slot order. *)
Fixpoint leaves (fuel : nat) (quads : list quad) (p : ptr) : list nat :=
  match p with
  | PStar a => [a]
  | PQuad i =>
      match fuel with
      | O => []
      | S fuel' =>
          match quads !! i with
          | None => []
          | Some q => flat_map (leaves fuel' quads) (non_null_children q)
          end
      end
  end.

(** The sum of [f] over the stars of the indices [l]. *)
Definition sum_stars (f : node -> Q) (stars : list star) (l : list nat) : Q :=
  fold_right (fun a acc => f (slot_node stars [] (Some (PStar a))) + acc) 0 l.

(** *** Depth of the descent *)

Fixpoint pow2 (k : nat) : Q :=
  match k with
  | O => 1
  | S k' => 2 * pow2 k'
  end.

(** The two nodes are further apart, along one axis, than a square of
    side [side / 2^F] is wide. *)
Definition separated (F : nat) (side : Q) (s t : node) : Prop :=
  side < pow2 F * (node_x s - node_x t) \/
  side < pow2 F * (node_x t - node_x s) \/
  side < pow2 F * (node_y s - node_y t) \/
  side < pow2 F * (node_y t - node_y s).

(** Every quad below the root has two different stars in its square. *)
Definition pairs_ok (stars : list star) (quads : list quad) (count : nat) : Prop :=
  forall i q, quads !! i = Some q -> (1 <= i < count)%nat ->
    exists a b s t,
      a <> b /\ stars !! a = Some s /\ stars !! b = Some t /\
      in_square q (star_node s) /\ in_square q (star_node t).

(** ** Seeding the stars ([init_world], lines 155-169)

    [a < b] on doubles. *)
Definition Qltb (a b : Q) : bool :=
  match a ?= b with
  | Lt => true
  | _ => false
  end.

(** [mass_ascending]: assists qsorting. *)
Definition mass_ascending (a b : star) : Z :=
  if Qltb (mass (star_node a)) (mass (star_node b)) then (-1)%Z
  else if Qgtb (mass (star_node a)) (mass (star_node b)) then 1%Z
  else 0%Z.

(** The C library as the seeding uses it.  [rand] is the sequence of the
    results of its calls: [rand k] is what the call number [k] returns. *)
Record libc : Type := mklibc {
  RAND_MAX : Z;
  rand : nat -> Z;
  pow : Q -> Q -> Q;
  M_PI : Q;
  qsort : (star -> star -> Z) -> list star -> list star
}.

(** [frand]: [(double)rand()/RAND_MAX * (max-min) + min].  [calls] counts
    the calls of [rand] so far. *)
Definition frand (C : libc) (calls : nat) (min max : Q) : outcome (Q * nat) :=
  let* u := fdiv (inject_Z (rand C calls)) (inject_Z (RAND_MAX C)) in
  Done (u * (max - min) + min, S calls).

(** The body of the loop of lines 160-168.  [star_speed] is
    [config.star_speed]; [size] and [accel] of the star are not written. *)
Definition seed_body (C : libc) (M : libm) (star_speed rmax : Q) (i : nat)
  (st : list star * nat) : outcome (list star * nat) :=
  let '(stars, calls) := st in
  match stars !! i with
  | None => Fault WildPointer
  | Some s =>
      let* (r, calls) := frand C calls 0 rmax in
      let* (dir, calls) := frand C calls 0 (2 * M_PI C) in
      let x := r * cos M dir in
      let y := r * sin M dir in
      let speed_x := star_speed * pow C r (1 # 4) * sin M dir in
      let speed_y := - star_speed * pow C r (1 # 4) * cos M dir in
      let* (m, calls) := frand C calls 1 10 in
      Done (<[i := mkstar (mknode x y m (size (star_node s)))
                          (mkvecd2 speed_x speed_y) (accel s)]> stars, calls)
  end.

(** Lines 156 and 159-169: the star array from [calloc], the seeding loop
    and the sort by mass.  [galaxy_density] and [star_speed] are the two
    options of [config] that only the seeding reads. *)
Definition init_stars (C : libc) (M : libm) (config : configuration)
  (galaxy_density star_speed : Q) : outcome (list star) :=
  let n := Z.to_nat (config_stars config) in
  let stars := replicate n zero_star in
  let* rmax := fdiv (sqrt M (inject_Z (config_stars config))) galaxy_density in
  let* st := for_range 0 n (seed_body C M star_speed rmax) (stars, 0%nat) in
  Done (qsort C mass_ascending (fst st)).

(** The order that [mass_ascending] gives to [qsort]. *)
Definition mass_le (a b : star) : Prop := (mass_ascending a b <= 0)%Z.

(** What the C standard says of [qsort], for the comparison
    [mass_ascending]: the array is permuted into ascending order. *)
Definition qsort_contract (C : libc) : Prop :=
  forall l, qsort C mass_ascending l ≡ₚ l /\
            StronglySorted mass_le (qsort C mass_ascending l).

(** A C library for the examples of the seeding: a [rand] that answers in
    [0 .. 32767] and a sort for [qsort]. *)
Definition libc0 : libc :=
  mklibc 32767 (fun k => (Z.of_nat k * 7919 mod 32768)%Z) (fun r _ => r) (355 # 113)
    (fun cmp => @merge_sort star (fun a b => (cmp a b <= 0)%Z)
                  (fun a b => Z_le_dec (cmp a b) 0)).

(** The slots of the arena from [count] on are as [calloc] or [memset]
    left them. *)
Definition fresh_beyond (quads : list quad) (count : nat) : Prop :=
  forall i q, quads !! i = Some q -> (count <= i)%nat -> q = zero_quad.

(** Every child that is a quad is one of the first [count] quads. *)
Definition links_below (quads : list quad) (count : nat) : Prop :=
  forall i q k j, quads !! i = Some q -> (0 <= k < 4)%Z ->
    children q k = Some (PQuad j) -> (j < count)%nat.


(** ** The pool and the arrays as resources ([init_world], [finalize_world]) *)

Inductive array : Type := Threads | Stars | Quads | DispStars.
Inductive semaphore : Type := JobStart | JobFinish.

(** What the two functions ask of the C library, in the order of the
    calls. *)
Inductive event : Type :=
| SemInit (s : semaphore)
| SemDestroy (s : semaphore)
| PthreadCreate (i : nat)
| PthreadCancel (i : nat)
| PthreadJoin (i : nat)
| Alloc (a : array)           (* [malloc] or [calloc] *)
| Free (a : array).

(** The static [cores] and the four static pointers; [true] is a pointer
    that is not [NULL]. *)
Record handles : Type := mkhandles {
  h_cores : Z;
  h_threads : bool;
  h_stars : bool;
  h_quads : bool;
  h_disp_stars : bool
}.

(** The statics before the first call: the pointers are [NULL]. *)
Definition no_handles : handles := mkhandles 0 false false false false.

(** [finalize_world] (lines 49-73). *)
Definition finalize_world (h : handles) : list event * handles :=
  let '(e1, h) :=
    if h_threads h then
      let n := Z.to_nat (h_cores h) in
      (map PthreadCancel (seq 0 n) ++ map PthreadJoin (seq 0 n)
         ++ [SemDestroy JobStart; SemDestroy JobFinish; Free Threads],
       mkhandles (h_cores h) false (h_stars h) (h_quads h) (h_disp_stars h))
    else ([], h) in
  let '(e2, h) :=
    if h_stars h then
      ([Free Stars],
       mkhandles (h_cores h) (h_threads h) false (h_quads h) (h_disp_stars h))
    else ([], h) in
  let '(e3, h) :=
    if h_quads h then
      ([Free Quads],
       mkhandles (h_cores h) (h_threads h) (h_stars h) false (h_disp_stars h))
    else ([], h) in
  let '(e4, h) :=
    if h_disp_stars h then
      ([Free DispStars],
       mkhandles (h_cores h) (h_threads h) (h_stars h) (h_quads h) false)
    else ([], h) in
  (e1 ++ e2 ++ e3 ++ e4, h).

(** The calls of [init_world] (lines 139-158) that take resources;
    [online] is what [sysconf(_SC_NPROCESSORS_ONLN)] returns.  The pointers
    are assigned without a look at what they held. *)
Definition init_world_resources (config : configuration) (online : Z) (h : handles)
  : outcome (list event * handles) :=
  if (1 <? config_stars config)%Z then
    let cores := online in
    let '(e1, threads) :=
      if (1 <? cores)%Z then
        ([SemInit JobStart; SemInit JobFinish; Alloc Threads]
           ++ map PthreadCreate (seq 0 (Z.to_nat cores)), true)
      else ([], h_threads h) in
    Done (e1 ++ [Alloc Stars; Alloc Quads; Alloc DispStars],
          mkhandles cores threads true true true)
  else Fault (Aborted "config.stars > 1").

(** ** The schedules of the pool *)

(** The star indices of the part of thread [part]: [part_start .. part_end - 1]
    (lines 103-104 and 109). *)
Definition part_indices (config : configuration) (P : Z) (part : nat) : list nat :=
  let part_start := Z.to_nat (config_stars config * Z.of_nat part ÷ P) in
  let part_end := Z.to_nat (config_stars config * (Z.of_nat part + 1) ÷ P) in
  seq part_start (part_end - part_start).

(** Two stars on the move, each with a stored acceleration, and a pool of two
    threads. *)
Definition drifting : world :=
  mkworld [mkstar (mknode (-1) 0 1 0) (mkvecd2 1 0) (mkvecd2 (1 # 2) 0);
           mkstar (mknode 1 0 1 0) (mkvecd2 1 0) (mkvecd2 (1 # 2) 0)]
    (replicate 4 zero_quad) [(0, 0); (0, 0)] 2 0.

(** A library whose narrowing to [float] keeps the quarters: the next
    multiple of 1/4 below. *)
Definition libm_coarse : libm :=
  mklibm (fun d => d) (fun _ _ => 0) (fun _ => 1) (fun _ => 0)
    (fun d => inject_Z (Qfloor (d * 4)) / 4).

(** [drifting] on the single-threaded path. *)
Definition drifting_alone : world :=
  mkworld (stars drifting) (quads drifting) (disp_stars drifting) 1 0.

(** *** The arena, as far as the arithmetic has no say

    [flat quads j]: the quad [j] has size zero; line 247 and the loop
    condition of line 261 then take it for a star. *)
Definition flat (quads : list quad) (j : nat) : Prop :=
  exists q, quads !! j = Some q /\ size (quad_node q) == 0.

(** The arena while the tree is built: the counter is inside the arena, the
    slots from the counter on are untouched, no mass is negative, and a
    child is a star of the array or a quad in use other than the root,
    allocated after its parent unless its size is zero. *)
Definition arena_ok (stars : list star) (quads : list quad) (count : nat) : Prop :=
  (1 <= count <= length quads)%nat /\
  fresh_beyond quads count /\
  (forall i q, quads !! i = Some q -> 0 <= mass (quad_node q)) /\
  (forall i q k c, quads !! i = Some q -> (0 <= k < 4)%Z -> children q k = Some c ->
     match c with
     | PStar a => (a < length stars)%nat
     | PQuad j => (1 <= j < count)%nat /\ ((i < j)%nat \/ flat quads j)
     end).

(** The star [a] is a leaf of the tree: the child of one of its quads. *)
Definition is_leaf (quads : list quad) (count a : nat) : Prop :=
  exists i q k, (i < count)%nat /\ quads !! i = Some q /\ (0 <= k < 4)%Z /\
    children q k = Some (PStar a).

(** Lines 240-243 on the node of a quad. *)
Definition add_node (n star : node) : node :=
  let mass_sum := mass n + mass star in
  mknode ((node_x n * mass n + node_x star * mass star) / mass_sum)
         ((node_y n * mass n + node_y star * mass star) / mass_sum)
         mass_sum (size n).

(** ** The tree builder on binary64

    Lines 190-198 and 214-263 once more, with every [double] a binary64
    float and every operation the correctly rounded one ([PrimFloat]):
    [INFINITY] is a value, a division never fails, [size / 2] can
    underflow to zero and [center + shift] can round back to [center].
    The embedding above is the same text over the rationals; this one runs
    the builder on inputs where the rounding decides. *)
Module Binary64.

Local Open Scope float_scope.

Record vecd2 : Type := mkvecd2 { vec_x : float; vec_y : float }.

Record node : Type := mknode {
  node_x : float;
  node_y : float;
  mass : float;
  size : float
}.

Record star : Type := mkstar {
  star_node : node;
  speed : vecd2;
  accel : vecd2
}.

Record quad : Type := mkquad {
  quad_node : node;
  center : vecd2;
  child0 : option ptr;
  child1 : option ptr;
  child2 : option ptr;
  child3 : option ptr
}.

Definition children (q : quad) (k : Z) : option ptr :=
  match k with
  | 0%Z => child0 q
  | 1%Z => child1 q
  | 2%Z => child2 q
  | _ => child3 q
  end.

Definition set_children (q : quad) (k : Z) (p : option ptr) : quad :=
  match k with
  | 0%Z => mkquad (quad_node q) (center q) p (child1 q) (child2 q) (child3 q)
  | 1%Z => mkquad (quad_node q) (center q) (child0 q) p (child2 q) (child3 q)
  | 2%Z => mkquad (quad_node q) (center q) (child0 q) (child1 q) p (child3 q)
  | _ => mkquad (quad_node q) (center q) (child0 q) (child1 q) (child2 q) p
  end.

Definition set_quad_node (q : quad) (n : node) : quad :=
  mkquad n (center q) (child0 q) (child1 q) (child2 q) (child3 q).

Definition zero_node : node := mknode 0 0 0 0.
Definition zero_vecd2 : vecd2 := mkvecd2 0 0.
Definition zero_quad : quad := mkquad zero_node zero_vecd2 None None None None.

Definition star_at (x y m : float) : star :=
  mkstar (mknode x y m 0) zero_vecd2 zero_vecd2.

Definition deref (stars : list star) (quads : list quad) (p : ptr) : outcome node :=
  match p with
  | PStar i =>
      match stars !! i with
      | Some s => Done (star_node s)
      | None => Fault WildPointer
      end
  | PQuad i =>
      match quads !! i with
      | Some q => Done (quad_node q)
      | None => Fault WildPointer
      end
  end.

(** [a > b], and a double as a condition. *)
Definition gt (a b : float) : bool := PrimFloat.ltb b a.
Definition truth (d : float) : bool := negb (PrimFloat.eqb d 0).

Definition get_quadrant (quad : quad) (star : node) : Z :=
  let quadrant := 0%Z in
  let quadrant :=
    if gt (node_x star) (vec_x (center quad)) then (quadrant + 1)%Z else quadrant in
  let quadrant :=
    if gt (node_y star) (vec_y (center quad)) then (quadrant + 2)%Z else quadrant in
  quadrant.

Record bounds : Type := mkbounds {
  xmin_world : float;
  ymin_world : float;
  xmax_world : float;
  ymax_world : float
}.

Definition bounds_body (stars : list star) (i : nat) (b : bounds) : outcome bounds :=
  match stars !! i with
  | None => Fault WildPointer
  | Some s =>
      let x := node_x (star_node s) in
      let y := node_y (star_node s) in
      Done (mkbounds (if gt (xmin_world b) x then x else xmin_world b)
                     (if gt (ymin_world b) y then y else ymin_world b)
                     (if gt x (xmax_world b) then x else xmax_world b)
                     (if gt y (ymax_world b) then y else ymax_world b))
  end.

Definition world_bounds (n : nat) (stars : list star) : outcome bounds :=
  for_range 0 n (bounds_body stars)
    (mkbounds infinity infinity neg_infinity neg_infinity).

Definition set_root (b : bounds) (quads : list quad) : outcome (list quad) :=
  match quads !! 0%nat with
  | None => Fault OutOfArena
  | Some q =>
      let center_x := (xmin_world b + xmax_world b) / 2 in
      let center_y := (ymin_world b + ymax_world b) / 2 in
      let size_x := xmax_world b - xmin_world b in
      let size_y := ymax_world b - ymin_world b in
      let n := quad_node q in
      let root_size := if gt size_x size_y then size_x else size_y in
      Done (<[0%nat := mkquad (mknode (node_x n) (node_y n) (mass n) root_size)
                              (mkvecd2 center_x center_y)
                              (child0 q) (child1 q) (child2 q) (child3 q)]> quads)
  end.

Definition arena : Type := (list quad * nat)%type.

Definition insert_body (stars : list star) (star_i : nat) (star : node)
  (a : arena) (quad : ptr) : outcome (arena * ptr) :=
  let '(quads, quad_count) := a in
  match quad with
  | PStar _ => Fault TypePun
  | PQuad qi =>
      match quads !! qi with
      | None => Fault WildPointer
      | Some q =>
          (* Add star to current quad *)
          let n := quad_node q in
          let mass_sum := mass n + mass star in
          let x := (node_x n * mass n + node_x star * mass star) / mass_sum in
          let y := (node_y n * mass n + node_y star * mass star) / mass_sum in
          let q := set_quad_node q (mknode x y mass_sum (size n)) in
          let quads := <[qi := q]> quads in
          let quadrant := get_quadrant q star in
          match children q quadrant with
          | None =>
              let q := set_children q quadrant (Some (PStar star_i)) in
              Done (<[qi := q]> quads, quad_count, PStar star_i)
          | Some child =>
              let* old_star := deref stars quads child in
              if PrimFloat.eqb (size old_star) 0 then
                match quads !! quad_count with
                | None => Fault OutOfArena
                | Some new_quad =>
                    let shift := size (quad_node q) / 4 in
                    let new_quad :=
                      mkquad (mknode (node_x old_star) (node_y old_star) (mass old_star)
                                (size (quad_node q) / 2))
                        (mkvecd2
                           (vec_x (center q)
                            + (if (Z.land quadrant 1 =? 0)%Z then - shift else shift))
                           (vec_y (center q)
                            + (if (Z.land quadrant 2 =? 0)%Z then - shift else shift)))
                        (child0 new_quad) (child1 new_quad)
                        (child2 new_quad) (child3 new_quad) in
                    let new_quad :=
                      set_children new_quad (get_quadrant new_quad old_star) (Some child) in
                    let quads := <[quad_count := new_quad]> quads in
                    let q := set_children q quadrant (Some (PQuad quad_count)) in
                    Done (<[qi := q]> quads, S quad_count, PQuad quad_count)
                end
              else Done (quads, quad_count, child)
          end
      end
  end.

Fixpoint insert_loop (fuel : nat) (stars : list star) (star_i : nat) (star : node)
  (a : arena) (quad : ptr) : outcome arena :=
  match fuel with
  | O => Fault OutOfFuel
  | S fuel' =>
      let* r := insert_body stars star_i star a quad in
      let '(a', quad') := r in
      let* n := deref stars (fst a') quad' in
      if truth (size n) then insert_loop fuel' stars star_i star a' quad'
      else Done a'
  end.

Definition insert_star (fuel : nat) (stars : list star) (star_i : nat) (a : arena)
  : outcome arena :=
  match stars !! star_i with
  | None => Fault WildPointer
  | Some s => insert_loop fuel stars star_i (star_node s) a (PQuad 0)
  end.

Definition build_tree (fuel : nat) (n : nat) (stars : list star) (quads : list quad)
  : outcome arena :=
  let* b := world_bounds n stars in
  let* quads := set_root b quads in
  for_range 0 n (insert_star fuel stars) (quads, 1%nat).

(** The star [a] is the child of one of the first [count] quads. *)
Definition has_leaf (quads : list quad) (count a : nat) : bool :=
  existsb (fun q =>
             existsb (fun c => match c with
                               | Some (PStar b) => (a =? b)%nat
                               | _ => false
                               end)
               [child0 q; child1 q; child2 q; child3 q])
    (take count quads).

(** The quad after lines 240-243 added the star to it, and the quad that
    lines 249-258 write into the slot [slot] of the arena. *)
Definition add_star (q : quad) (star : node) : quad :=
  let n := quad_node q in
  let mass_sum := mass n + mass star in
  set_quad_node q
    (mknode ((node_x n * mass n + node_x star * mass star) / mass_sum)
            ((node_y n * mass n + node_y star * mass star) / mass_sum)
            mass_sum (size n)).

Definition split_off (q : quad) (quadrant : Z) (old_star : node) (child : ptr)
  (slot : quad) : quad :=
  let shift := size (quad_node q) / 4 in
  let new_quad :=
    mkquad (mknode (node_x old_star) (node_y old_star) (mass old_star)
              (size (quad_node q) / 2))
      (mkvecd2
         (vec_x (center q) + (if (Z.land quadrant 1 =? 0)%Z then - shift else shift))
         (vec_y (center q) + (if (Z.land quadrant 2 =? 0)%Z then - shift else shift)))
      (child0 slot) (child1 slot) (child2 slot) (child3 slot) in
  set_children new_quad (get_quadrant new_quad old_star) (Some child).

(** What the builder expects of the star array: every [size] is zero. *)
Definition stars_ok (stars : list star) : Prop :=
  forall a s, stars !! a = Some s -> PrimFloat.eqb (size (star_node s)) 0 = true.

Definition zeroed (quads : list quad) : Prop :=
  forall i q, quads !! i = Some q -> q = zero_quad.

Definition fresh_beyond (quads : list quad) (count : nat) : Prop :=
  forall i q, quads !! i = Some q -> (count <= i)%nat -> q = zero_quad.

(** The quad [j] has size zero: the test of line 247 and the loop condition
    of line 261 take it for a star. *)
Definition flat (quads : list quad) (j : nat) : Prop :=
  exists q, quads !! j = Some q /\ PrimFloat.eqb (size (quad_node q)) 0 = true.

(** The arena while the tree is built: the counter is inside the arena, the
    slots from the counter on are untouched, and a child is a star of the
    array or a quad in use other than the root, allocated after its parent
    unless its size is zero. *)
Definition arena_ok (stars : list star) (quads : list quad) (count : nat) : Prop :=
  (1 <= count <= length quads)%nat /\
  fresh_beyond quads count /\
  (forall i q k c, quads !! i = Some q -> (0 <= k < 4)%Z -> children q k = Some c ->
     match c with
     | PStar a => (a < length stars)%nat
     | PQuad j => (1 <= j < count)%nat /\ ((i < j)%nat \/ flat quads j)
     end).

(** The star [a] is a leaf of the tree: the child of one of its quads. *)
Definition is_leaf (quads : list quad) (count a : nat) : Prop :=
  exists i q k, (i < count)%nat /\ quads !! i = Some q /\ (0 <= k < 4)%Z /\
    children q k = Some (PStar a).

End Binary64.

(** Two stars two units apart at [2^53]: the doubles between them are
    [2^53 + 2] and [2^53 + 4] only. *)
Definition close_pair : list Binary64.star :=
  [Binary64.star_at 9007199254740994 0 1; Binary64.star_at 9007199254740996 0 1].

(** Two stars at the two smallest positive doubles. *)
Definition tiny_pair : list Binary64.star :=
  [Binary64.star_at 0x1p-1074 0 1; Binary64.star_at 0x1p-1073 0 1].

(** Three stars on a diagonal; the first two share a quadrant of the
    root. *)
Definition far_apart : list Binary64.star :=
  [Binary64.star_at (-1) (-1) 1; Binary64.star_at 1 1 2; Binary64.star_at 3 3 1].

(** *** The stars that a quad took

    The node of the star [a]. *)
Definition node_at (stars : list star) (a : nat) : node :=
  match stars !! a with
  | Some s => star_node s
  | None => zero_node
  end.

(** The node of a quad of size [sz] that took the stars [l], one after the
    other: the root takes each of them by lines 240-243, starting from the
    cleared node; any other quad takes the first by the copy of lines
    251-253 and the others by lines 240-243. *)
Definition node_of_members (stars : list star) (root : bool) (sz : Q) (l : list nat)
  : node :=
  match root, l with
  | false, a :: rest =>
      fold_left add_node (map (node_at stars) rest)
        (mknode (node_x (node_at stars a)) (node_y (node_at stars a))
           (mass (node_at stars a)) sz)
  | _, _ => fold_left add_node (map (node_at stars) l) (mknode 0 0 0 sz)
  end.

(** The stars behind a child slot, when [members j] are those of the quad
    [j]; and the stars behind the four slots of a quad. *)
Definition slot_members (members : nat -> list nat) (c : option ptr) : list nat :=
  match c with
  | None => []
  | Some (PStar a) => [a]
  | Some (PQuad j) => members j
  end.

Definition quad_members (members : nat -> list nat) (q : quad) : list nat :=
  slot_members members (child0 q) ++ slot_members members (child1 q) ++
  slot_members members (child2 q) ++ slot_members members (child3 q).

(** The star [si] on its way down has been added to the quads above
    [quads[cur]] and not yet to [quads[cur]]. *)
Definition on_the_way (members : nat -> list nat) (cur si : nat) (extra : bool)
  (j : nat) : list nat :=
  if extra && (j =? cur)%nat then members j ++ [si] else members j.

(** What the builder keeps while no quad below the root has size zero:
    [members i] are the stars that [quads[i]] took, in the order of the
    array; its node is what they add up to; they are the stars behind its
    four slots (and the star on its way down, for the quads above the
    current one); and every quad is the child of one slot. *)
Record members_ok (stars : list star) (quads : list quad) (count : nat)
  (cur si : nat) (extra : bool) (members : nat -> list nat) : Prop := {
  mo_node : forall i q, (i < count)%nat -> quads !! i = Some q ->
    quad_node q
    = node_of_members stars (i =? 0)%nat (size (quad_node q)) (members i);
  mo_slots : forall i q, (i < count)%nat -> quads !! i = Some q ->
    members i ≡ₚ quad_members (on_the_way members cur si extra) q;
  mo_sorted : forall i, (i < count)%nat -> StronglySorted lt (members i);
  mo_bound : forall i a, (i < count)%nat -> a ∈ members i ->
    (a < si)%nat \/ (extra = true /\ a = si /\ (i < cur)%nat);
  mo_nonempty : forall i, (1 <= i < count)%nat -> members i <> [];
  mo_parent : forall i i' q q' k k' j,
    quads !! i = Some q -> quads !! i' = Some q' ->
    (0 <= k < 4)%Z -> (0 <= k' < 4)%Z ->
    children q k = Some (PQuad j) -> children q' k' = Some (PQuad j) ->
    i = i' /\ k = k'
}.

(** No quad below the root has size zero. *)
Definition no_flat (quads : list quad) (count : nat) : Prop :=
  forall j, (1 <= j < count)%nat -> ~ flat quads j.

(** [no_flat], computed. *)
Definition all_sized (quads : list quad) (count : nat) : bool :=
  forallb (fun q => Qtruth (size (quad_node q))) (drop 1 (take count quads)).

(** The configuration of the examples with a pool: with [epsilon] = 4 and
    [min_fps] = 32 every number that the frames of [drifting] compute is a
    dyadic rational. *)
Definition dyadic_config : configuration := mkconfiguration 2 1 4 1 1 32.

(** * Properties *)

(** ** Basic facts *)

Lemma bind_Done {A B : Type} (m : outcome A) (k : A -> outcome B) (b : B) :
  bind m k = Done b -> exists a, m = Done a /\ k a = Done b.
Proof. destruct m as [a|f]; simpl; [eauto | discriminate]. Qed.

Lemma Qgtb_true (a b : Q) : Qgtb a b = true <-> b < a.
Proof.
  unfold Qgtb. split; intros H.
  - apply Qgt_alt. destruct (a ?= b); congruence.
  - apply Qgt_alt in H. rewrite H. reflexivity.
Qed.

Lemma Qgtb_false (a b : Q) : Qgtb a b = false <-> a <= b.
Proof.
  unfold Qgtb, Qle, Qcompare.
  rewrite <- Z.compare_le_iff.
  destruct (Qnum a * QDen b ?= Qnum b * QDen a)%Z; split; congruence.
Qed.

Lemma Qtruth_true (d : Q) : Qtruth d = true <-> ~ d == 0.
Proof.
  unfold Qtruth. rewrite negb_true_iff. split.
  - intros H E. apply Qeq_bool_iff in E. congruence.
  - intros H. destruct (Qeq_bool d 0) eqn:E; [|reflexivity].
    apply Qeq_bool_iff in E. contradiction.
Qed.

Lemma Qtruth_false (d : Q) : Qtruth d = false <-> d == 0.
Proof.
  unfold Qtruth. rewrite negb_false_iff. apply Qeq_bool_iff.
Qed.

Lemma fdiv_Done (a b : Q) : ~ b == 0 -> fdiv a b = Done (a / b).
Proof.
  intros H. unfold fdiv. destruct (Qeq_bool b 0) eqn:E; [|reflexivity].
  apply Qeq_bool_iff in E. contradiction.
Qed.

Lemma fdiv_Done_inv (a b c : Q) : fdiv a b = Done c -> ~ b == 0 /\ c = a / b.
Proof.
  unfold fdiv. destruct (Qeq_bool b 0) eqn:E; [discriminate|].
  intros [= <-]. split; [|reflexivity]. now apply Qeq_bool_neq.
Qed.

(** Linear arithmetic over [Q] with the halves and quarters of the code:
    [d / 2] and [d / 4] are [d * (1 # 2)] and [d * (1 # 4)]. *)
Ltac qlra :=
  unfold Qdiv in *;
  change (/ 2) with (1 # 2) in *; change (/ 4) with (1 # 4) in *;
  lra.

(** ** C2: ties in [get_quadrant] *)

(** C2, as the specification states it, fails: a star whose coordinate
    equals the centre's gets the bit cleared, not set.  Here the star and
    the centre are both at the origin and the quadrant is 0. *)
Lemma get_quadrant_tie_counterexample :
  node_x zero_node == vec_x (center zero_quad) /\
  node_y zero_node == vec_y (center zero_quad) /\
  Z.testbit (get_quadrant zero_quad zero_node) 0 = false /\
  Z.testbit (get_quadrant zero_quad zero_node) 1 = false /\
  ~ (forall (q : quad) (s : node),
       (node_x s == vec_x (center q) -> Z.testbit (get_quadrant q s) 0 = true) /\
       (node_y s == vec_y (center q) -> Z.testbit (get_quadrant q s) 1 = true)).
Proof.
  repeat split; try reflexivity.
  intros H. destruct (H zero_quad zero_node) as [H0 _].
  specialize (H0 (Qeq_refl _)). discriminate H0.
Qed.

(** C2 (amended): bit 0 of the quadrant is set exactly when the star's [x]
    is strictly greater than the centre's, bit 1 exactly when its [y] is; a
    coordinate equal to the centre's is on the lesser side (bit clear). *)
Theorem get_quadrant_bits (q : quad) (s : node) :
  (Z.testbit (get_quadrant q s) 0 = true <-> vec_x (center q) < node_x s) /\
  (Z.testbit (get_quadrant q s) 1 = true <-> vec_y (center q) < node_y s) /\
  (node_x s == vec_x (center q) -> Z.testbit (get_quadrant q s) 0 = false) /\
  (node_y s == vec_y (center q) -> Z.testbit (get_quadrant q s) 1 = false).
Proof.
  unfold get_quadrant.
  destruct (Qgtb (node_x s) (vec_x (center q))) eqn:Ex;
    destruct (Qgtb (node_y s) (vec_y (center q))) eqn:Ey;
    first [apply Qgtb_true in Ex | apply Qgtb_false in Ex];
    first [apply Qgtb_true in Ey | apply Qgtb_false in Ey];
    repeat match goal with
      | |- context [Z.testbit ?a ?b] =>
          let v := eval vm_compute in (Z.testbit a b) in change (Z.testbit a b) with v
      end;
    repeat split; intros; try congruence; try assumption; try lra.
Qed.

(** ** C7: the clamp of the time step *)

Lemma clamp_time_Done (config : configuration) (time : Q) :
  ~ config_min_fps config == 0 ->
  clamp_time config time
    = Done (Qmin time (1 / config_min_fps config) * config_speed config).
Proof.
  intros Hfps. unfold clamp_time. rewrite fdiv_Done by assumption. simpl.
  unfold Qmin, GenericMinMax.gmin, Qgtb.
  destruct (time ?= 1 / config_min_fps config); reflexivity.
Qed.

(** C7: with a non-zero [min_fps], the time step of the frame is
    [min(time, 1/min_fps) * speed]; once [time] reaches [1/min_fps] it is
    [(1/min_fps) * speed], and for a non-negative [speed] it never exceeds
    that; it is the [frame_time] that a completed frame leaves behind. *)
Theorem clamp_time_min (config : configuration) (time : Q) :
  ~ config_min_fps config == 0 ->
  clamp_time config time
    = Done (Qmin time (1 / config_min_fps config) * config_speed config) /\
  (1 / config_min_fps config <= time ->
   Qmin time (1 / config_min_fps config) * config_speed config
     == (1 / config_min_fps config) * config_speed config) /\
  (0 <= config_speed config ->
   Qmin time (1 / config_min_fps config) * config_speed config
     <= (1 / config_min_fps config) * config_speed config) /\
  (forall M fuel sched w w',
     world_frame config M fuel sched w time = Done w' ->
     frame_time w' = Qmin time (1 / config_min_fps config) * config_speed config).
Proof.
  intros Hfps.
  assert (Hc := clamp_time_Done config time Hfps).
  split; [exact Hc|]. split; [|split].
  - intros Hle. rewrite Q.min_r by assumption. reflexivity.
  - intros Hs. apply Qmult_le_compat_r; [apply Q.le_min_r | assumption].
  - intros M fuel sched w w' Hw. unfold world_frame in Hw. rewrite Hc in Hw.
    simpl in Hw.
    repeat (apply bind_Done in Hw; destruct Hw as [? [_ Hw]]).
    injection Hw as <-. reflexivity.
Qed.

Lemma clamp_time_min_witness :
  clamp_time (mkconfiguration 2 1 1 1 2 30) 5 = Done (Qmin 5 (1 / 30) * 2).
Proof.
  apply (clamp_time_min (mkconfiguration 2 1 1 1 2 30) 5).
  simpl. intros H. discriminate H.
Defined.

(** ** C3: one step of the force kernel *)

Lemma walk_children_unfold (walk : ptr -> vecd2 -> outcome vecd2) (q : quad)
  (accel : vecd2) :
  (let visit (c : option ptr) (accel : vecd2) :=
     match c with
     | Some p => walk p accel
     | None => Done accel
     end in
   let* accel := visit (child0 q) accel in
   let* accel := visit (child1 q) accel in
   let* accel := visit (child2 q) accel in
   visit (child3 q) accel)
  = walk_each walk (non_null_children q) accel.
Proof.
  unfold non_null_children.
  destruct (child0 q) as [c0|], (child1 q) as [c1|], (child2 q) as [c2|],
    (child3 q) as [c3|]; cbn;
    repeat match goal with
      | |- context [bind (walk ?p ?a) _] => destruct (walk p a); cbn
      end;
    try reflexivity;
    match goal with |- ?o = _ => destruct o; reflexivity end.
Qed.

(** C3: for a target star [star] and a node [n] read through the pointer
    [p], with [d = n.com - star.pos], [r2 = d.d] and [r = sqrt r2]: if
    [r > n.size * accuracy] the kernel adds exactly
    [(|a| cos phi, |a| sin phi)], [|a| = n.mass / (r2 + epsilon)],
    [phi = atan2 (d.y, d.x)], to the accumulator (the divisor being
    non-zero); otherwise, if [n.size] is not zero, it walks exactly the
    non-null child slots of the quad, in order; otherwise it adds nothing. *)
Theorem get_accel_step (config : configuration) (M : libm) (stars : list star)
  (quads : list quad) (fuel : nat) (star : node) (p : ptr) (accel : vecd2) (n : node) :
  deref stars quads p = Done n ->
  let dx := node_x n - node_x star in
  let dy := node_y n - node_y star in
  let r2 := dx * dx + dy * dy in
  let r := sqrt M r2 in
  let phi := atan2 M dy dx in
  let a := mass n / (r2 + config_epsilon config) in
  (size n * config_accuracy config < r ->
   ~ r2 + config_epsilon config == 0 ->
   get_accel config M stars quads (S fuel) star p accel
     = Done (mkvecd2 (vec_x accel + a * cos M phi) (vec_y accel + a * sin M phi))) /\
  (r <= size n * config_accuracy config ->
   ~ size n == 0 ->
   forall i q, p = PQuad i -> quads !! i = Some q ->
   get_accel config M stars quads (S fuel) star p accel
     = walk_each (get_accel config M stars quads fuel star) (non_null_children q) accel) /\
  (r <= size n * config_accuracy config ->
   size n == 0 ->
   get_accel config M stars quads (S fuel) star p accel = Done accel).
Proof.
  intros Hn dx dy r2 r phi a. subst dx dy r2 r phi a.
  split; [|split].
  - intros Hfar Hden. simpl. rewrite Hn. simpl.
    apply Qgtb_true in Hfar. rewrite Hfar.
    rewrite fdiv_Done by assumption. reflexivity.
  - intros Hnear Hsize i q -> Hq. simpl. simpl in Hn. rewrite Hq in *.
    injection Hn as <-. simpl.
    apply Qgtb_false in Hnear. rewrite Hnear.
    apply Qtruth_true in Hsize. rewrite Hsize.
    apply walk_children_unfold.
  - intros Hnear Hsize. simpl. rewrite Hn. simpl.
    apply Qgtb_false in Hnear. rewrite Hnear.
    apply Qtruth_false in Hsize. rewrite Hsize. reflexivity.
Qed.

Lemma get_accel_step_witness :
  deref [star_at 3 4 2] [zero_quad] (PStar 0) = Done (mknode 3 4 2 0) /\
  get_accel (mkconfiguration 2 1 1 1 1 30) libm0 [star_at 3 4 2] [zero_quad] 1
    zero_node (PStar 0) zero_vecd2
  = Done (mkvecd2 (0 + 2 / ((3 - 0) * (3 - 0) + (4 - 0) * (4 - 0) + 1) * 1)
                  (0 + 2 / ((3 - 0) * (3 - 0) + (4 - 0) * (4 - 0) + 1) * 0)).
Proof.
  split; [reflexivity|].
  apply (get_accel_step (mkconfiguration 2 1 1 1 1 30) libm0 [star_at 3 4 2]
           [zero_quad] 0 zero_node (PStar 0) zero_vecd2 (mknode 3 4 2 0)).
  - reflexivity.
  - reflexivity.
  - simpl. intros H. discriminate H.
Defined.

(** ** Loops *)

Lemma for_each_app {S : Type} (body : nat -> S -> outcome S) (l1 l2 : list nat) (s : S) :
  for_each body (l1 ++ l2) s = let* s' := for_each body l1 s in for_each body l2 s'.
Proof.
  revert s. induction l1 as [|i l1 IH]; intros s; simpl; [reflexivity|].
  destruct (body i s) as [s1|f]; simpl; [apply IH | reflexivity].
Qed.

Lemma for_each_invariant {S : Type} (P : S -> Prop) (body : nat -> S -> outcome S)
  (l : list nat) :
  (forall i s s', i ∈ l -> P s -> body i s = Done s' -> P s') ->
  forall s s', P s -> for_each body l s = Done s' -> P s'.
Proof.
  induction l as [|i l IH]; intros Hstep s s' Hs Hrun; simpl in Hrun.
  - injection Hrun as <-. exact Hs.
  - apply bind_Done in Hrun. destruct Hrun as (s1 & H1 & H2).
    apply (IH (fun j t t' Hj => Hstep j t t' (list_elem_of_further _ _ _ Hj)) s1 s');
      [|exact H2].
    apply (Hstep i s s1); [apply list_elem_of_here | exact Hs | exact H1].
Qed.

Lemma for_each_ext {S : Type} (body1 body2 : nat -> S -> outcome S) (l : list nat) :
  (forall i s, i ∈ l -> body1 i s = body2 i s) ->
  forall s, for_each body1 l s = for_each body2 l s.
Proof.
  induction l as [|i l IH]; intros Hext s; simpl; [reflexivity|].
  rewrite (Hext i s) by apply list_elem_of_here.
  destruct (body2 i s) as [s1|f]; simpl; [|reflexivity].
  apply IH. intros j t Hj. apply Hext. now apply list_elem_of_further.
Qed.

(** ** The force kernel, unfolded once *)

Lemma get_accel_S (config : configuration) (M : libm) (stars : list star)
  (quads : list quad) (fuel : nat) (star : node) (p : ptr) (accel : vecd2) :
  get_accel config M stars quads (S fuel) star p accel
  = let* n := deref stars quads p in
    let dx := node_x n - node_x star in
    let dy := node_y n - node_y star in
    let distance_sqr := dx * dx + dy * dy in
    if Qgtb (sqrt M distance_sqr) (size n * config_accuracy config) then
      let* accel_abs := fdiv (mass n) (distance_sqr + config_epsilon config) in
      Done (mkvecd2 (vec_x accel + accel_abs * cos M (atan2 M dy dx))
                    (vec_y accel + accel_abs * sin M (atan2 M dy dx)))
    else if Qtruth (size n) then
      match p with
      | PStar _ => Fault TypePun
      | PQuad i =>
          match quads !! i with
          | None => Fault WildPointer
          | Some q =>
              walk_each (get_accel config M stars quads fuel star)
                (non_null_children q) accel
          end
      end
    else Done accel.
Proof.
  simpl. destruct (deref stars quads p) as [n|f]; simpl; [|reflexivity].
  destruct (Qgtb _ _); [reflexivity|].
  destruct (Qtruth _); [|reflexivity].
  destruct p as [i|i]; [reflexivity|].
  destruct (quads !! i) as [q|]; [|reflexivity].
  apply walk_children_unfold.
Qed.

Lemma deref_ext (stars1 stars2 : list star) (quads : list quad) (p : ptr) :
  map star_node stars1 = map star_node stars2 ->
  deref stars1 quads p = deref stars2 quads p.
Proof.
  intros H. destruct p as [i|i]; simpl; [|reflexivity].
  assert (E : (map star_node stars1) !! i = (map star_node stars2) !! i) by now rewrite H.
  rewrite !list_lookup_fmap in E.
  destruct (stars1 !! i), (stars2 !! i); simpl in E; congruence.
Qed.

Lemma walk_each_ext (walk1 walk2 : ptr -> vecd2 -> outcome vecd2) (l : list ptr) :
  (forall p a, p ∈ l -> walk1 p a = walk2 p a) ->
  forall a, walk_each walk1 l a = walk_each walk2 l a.
Proof.
  induction l as [|p l IH]; intros Hext a; simpl; [reflexivity|].
  rewrite (Hext p a) by apply list_elem_of_here.
  destruct (walk2 p a) as [a1|f]; simpl; [|reflexivity].
  apply IH. intros p' a' Hp. apply Hext. now apply list_elem_of_further.
Qed.

(** The walk reads the stars only through their node fields. *)
Lemma get_accel_ext (config : configuration) (M : libm) (stars1 stars2 : list star)
  (quads : list quad) (fuel : nat) :
  map star_node stars1 = map star_node stars2 ->
  forall star p accel,
    get_accel config M stars1 quads fuel star p accel
    = get_accel config M stars2 quads fuel star p accel.
Proof.
  intros H. induction fuel as [|fuel IH]; intros star p accel; [reflexivity|].
  rewrite !get_accel_S. rewrite (deref_ext stars1 stars2 quads p H).
  destruct (deref stars2 quads p) as [n|f]; simpl; [|reflexivity].
  destruct (Qgtb _ _); [reflexivity|].
  destruct (Qtruth _); [|reflexivity].
  destruct p as [i|i]; [reflexivity|].
  destruct (quads !! i) as [q|]; [|reflexivity].
  apply walk_each_ext. intros; apply IH.
Qed.

(** ** The bodies of the star loops *)

Lemma inline_body_job_body (config : configuration) (M : libm) :
  inline_body config M = job_body config M.
Proof. reflexivity. Qed.

Lemma job_body_Done (config : configuration) (M : libm) (fuel : nat) (ft : Q)
  (quads : list quad) (i : nat) (stars stars' : list star) :
  job_body config M fuel ft quads i stars = Done stars' ->
  exists s a,
    stars !! i = Some s /\
    get_accel config M stars quads fuel (star_node s) (PQuad 0) zero_vecd2 = Done a /\
    stars' =
      <[i := mkstar (star_node s)
               (mkvecd2
                  (vec_x (speed s)
                   + (vec_x (accel s) + vec_x a * (ft * config_gravity config / 2)))
                  (vec_y (speed s)
                   + (vec_y (accel s) + vec_y a * (ft * config_gravity config / 2))))
               (mkvecd2 (vec_x a * (ft * config_gravity config / 2))
                        (vec_y a * (ft * config_gravity config / 2)))]> stars.
Proof.
  unfold job_body. destruct (stars !! i) as [s|]; [|discriminate].
  intros H. apply bind_Done in H. destruct H as (a & Ha & H).
  injection H as <-. eauto.
Qed.

Lemma move_body_Done (ft : Q) (i : nat) (stars stars' : list star) :
  move_body ft i stars = Done stars' ->
  exists s,
    stars !! i = Some s /\
    stars' =
      <[i := mkstar
               (mknode
                  (node_x (star_node s) + ft * (vec_x (speed s) + vec_x (accel s)))
                  (node_y (star_node s) + ft * (vec_y (speed s) + vec_y (accel s)))
                  (mass (star_node s)) (size (star_node s)))
               (speed s) (accel s)]> stars.
Proof.
  unfold move_body. destruct (stars !! i) as [s|]; [|discriminate].
  intros [= <-]. eauto.
Qed.

(** Writing at [i] a star that agrees with the old one under [f] leaves the
    image of the array under [f] as it was. *)
Lemma map_insert_same {A B : Type} (f : A -> B) (l : list A) (i : nat) (x y : A) :
  l !! i = Some x -> f y = f x -> map f (<[i := y]> l) = map f l.
Proof.
  intros Hx Hf. change (f <$> <[i := y]> l = f <$> l).
  rewrite list_fmap_insert. apply list_insert_id.
  rewrite list_lookup_fmap, Hx. simpl. now rewrite Hf.
Qed.

Lemma job_body_nodes (config : configuration) (M : libm) (fuel : nat) (ft : Q)
  (quads : list quad) (i : nat) (stars stars' : list star) :
  job_body config M fuel ft quads i stars = Done stars' ->
  map star_node stars' = map star_node stars.
Proof.
  intros H. apply job_body_Done in H. destruct H as (s & a & Hs & _ & ->).
  now apply (map_insert_same star_node _ _ s).
Qed.

(** ** C10: what a frame leaves alone *)

Lemma run_inline_nodes (config : configuration) (M : libm) (fuel : nat) (ft : Q)
  (quads : list quad) (l : list nat) (stars stars' : list star) :
  for_each (job_body config M fuel ft quads) l stars = Done stars' ->
  map star_node stars' = map star_node stars.
Proof.
  intros H.
  apply (for_each_invariant (fun t => map star_node t = map star_node stars)
           (job_body config M fuel ft quads) l) with (s := stars); auto.
  intros i s s' _ Hs Hb. rewrite <- Hs. eapply job_body_nodes; eauto.
Qed.

Lemma update_stars_job_nodes (config : configuration) (M : libm) (fuel : nat)
  (P : Z) (ft : Q) (quads : list quad) (part : Z) (stars stars' : list star) :
  update_stars_job config M fuel P ft quads part stars = Done stars' ->
  map star_node stars' = map star_node stars.
Proof.
  unfold update_stars_job. intros H.
  repeat (apply bind_Done in H; destruct H as (? & _ & H)).
  unfold for_range in H. eapply run_inline_nodes; eauto.
Qed.

Lemma run_pool_nodes (config : configuration) (M : libm) (fuel : nat)
  (P : Z) (ft : Q) (quads : list quad) (sched : list nat)
  (stars stars' : list star) :
  run_pool config M fuel P ft quads sched stars = Done stars' ->
  map star_node stars' = map star_node stars.
Proof.
  unfold run_pool. intros H.
  apply (for_each_invariant (fun t => map star_node t = map star_node stars)
           _ _) with (s := stars) (3 := H); auto.
  intros i s s' _ Hs Hb. rewrite <- Hs. eapply update_stars_job_nodes; eauto.
Qed.

Lemma star_identity_nodes (stars stars' : list star) :
  map star_node stars' = map star_node stars ->
  map star_identity stars' = map star_identity stars.
Proof.
  intros H.
  change (map star_identity) with (map ((fun n => (mass n, size n)) ∘ star_node)).
  rewrite <- !(map_map star_node (fun n => (mass n, size n))). now rewrite H.
Qed.

Lemma move_body_identity (ft : Q) (l : list nat) (stars stars' : list star) :
  for_each (move_body ft) l stars = Done stars' ->
  map star_identity stars' = map star_identity stars.
Proof.
  intros H.
  apply (for_each_invariant (fun t => map star_identity t = map star_identity stars)
           _ _) with (s := stars) (3 := H); auto.
  intros i s s' _ Hs Hb. rewrite <- Hs.
  apply move_body_Done in Hb. destruct Hb as (s0 & Hs0 & ->).
  now apply (map_insert_same star_identity _ _ s0).
Qed.

Lemma display_body_length (M : libm) (stars : list star) (l : list nat)
  (disp disp' : list (Q * Q)) :
  for_each (display_body M stars) l disp = Done disp' ->
  length disp' = length disp.
Proof.
  intros H.
  apply (for_each_invariant (fun d => length d = length disp) _ _)
    with (s := disp) (3 := H); auto.
  intros i d d' _ Hd Hb. rewrite <- Hd. unfold display_body in Hb.
  destruct (stars !! i); [|discriminate].
  destruct (i <? length d)%nat; [|discriminate].
  injection Hb as <-. apply length_insert.
Qed.

Lemma clear_quads_length (a : arena) (quads' : list quad) :
  clear_quads a = Done quads' -> length quads' = length (fst a).
Proof.
  destruct a as [quads count]. unfold clear_quads.
  destruct (count <=? length quads)%nat eqn:E; [|discriminate].
  intros [= <-]. apply Nat.leb_le in E. simpl.
  rewrite length_app, length_replicate, length_drop. lia.
Qed.

(** ** Quadrants and child slots *)

Lemma get_quadrant_cases (q : quad) (s : node) :
  (get_quadrant q s = 0%Z /\
   node_x s <= vec_x (center q) /\ node_y s <= vec_y (center q)) \/
  (get_quadrant q s = 1%Z /\
   vec_x (center q) < node_x s /\ node_y s <= vec_y (center q)) \/
  (get_quadrant q s = 2%Z /\
   node_x s <= vec_x (center q) /\ vec_y (center q) < node_y s) \/
  (get_quadrant q s = 3%Z /\
   vec_x (center q) < node_x s /\ vec_y (center q) < node_y s).
Proof.
  unfold get_quadrant.
  destruct (Qgtb (node_x s) (vec_x (center q))) eqn:Ex;
    destruct (Qgtb (node_y s) (vec_y (center q))) eqn:Ey;
    first [apply Qgtb_true in Ex | apply Qgtb_false in Ex];
    first [apply Qgtb_true in Ey | apply Qgtb_false in Ey];
    simpl; tauto.
Qed.

Lemma get_quadrant_range (q : quad) (s : node) : (0 <= get_quadrant q s < 4)%Z.
Proof.
  destruct (get_quadrant_cases q s) as [H|[H|[H|H]]];
    destruct H as [-> _]; lia.
Qed.

Lemma get_quadrant_center (q q' : quad) (s : node) :
  center q = center q' -> get_quadrant q s = get_quadrant q' s.
Proof. unfold get_quadrant. now intros ->. Qed.

Lemma quadrant_cases (k : Z) :
  (0 <= k < 4)%Z -> k = 0%Z \/ k = 1%Z \/ k = 2%Z \/ k = 3%Z.
Proof. lia. Qed.

Ltac quadrants k H :=
  destruct (quadrant_cases k H) as [?|[?|[?|?]]]; subst k.

Lemma children_set_same (q : quad) (k : Z) (v : option ptr) :
  (0 <= k < 4)%Z -> children (set_children q k v) k = v.
Proof. intros H. quadrants k H; reflexivity. Qed.

Lemma children_set_other (q : quad) (k k' : Z) (v : option ptr) :
  (0 <= k < 4)%Z -> (0 <= k' < 4)%Z -> k <> k' ->
  children (set_children q k v) k' = children q k'.
Proof.
  intros H H' Hne. quadrants k H; quadrants k' H'; try reflexivity; congruence.
Qed.

Lemma set_children_node (q : quad) (k : Z) (v : option ptr) :
  quad_node (set_children q k v) = quad_node q.
Proof. unfold set_children. destruct k as [|[?|[?|?|]|]|?]; reflexivity. Qed.

Lemma set_children_center (q : quad) (k : Z) (v : option ptr) :
  center (set_children q k v) = center q.
Proof. unfold set_children. destruct k as [|[?|[?|?|]|]|?]; reflexivity. Qed.

Lemma add_star_center (q : quad) (s : node) : center (add_star q s) = center q.
Proof. reflexivity. Qed.

Lemma add_star_size (q : quad) (s : node) :
  size (quad_node (add_star q s)) = size (quad_node q).
Proof. reflexivity. Qed.

Lemma add_star_mass (q : quad) (s : node) :
  mass (quad_node (add_star q s)) = mass (quad_node q) + mass s.
Proof. reflexivity. Qed.

Lemma add_star_children (q : quad) (s : node) (k : Z) :
  children (add_star q s) k = children q k.
Proof. unfold children. destruct k as [|[?|[?|?|]|]|?]; reflexivity. Qed.

Lemma in_square_same (q q' : quad) (s : node) :
  center q' = center q -> size (quad_node q') = size (quad_node q) ->
  in_square q s -> in_square q' s.
Proof. unfold in_square. intros -> ->. tauto. Qed.

Lemma child_geometry_same (q q' c c' : quad) (k : Z) :
  center q' = center q -> size (quad_node q') = size (quad_node q) ->
  center c' = center c -> size (quad_node c') = size (quad_node c) ->
  child_geometry q c k -> child_geometry q' c' k.
Proof. unfold child_geometry. intros -> -> -> ->. tauto. Qed.

(** A node in the square of [q], in its quadrant [k], is in the square of
    the child that covers [k]. *)
Lemma in_square_child (q c : quad) (s : node) :
  in_square q s -> child_geometry q c (get_quadrant q s) -> in_square c s.
Proof.
  unfold in_square, child_geometry. intros (H1 & H2 & H3 & H4) (Hs & Hx & Hy).
  destruct (get_quadrant_cases q s) as [H|[H|[H|H]]];
    destruct H as (Hk & Hqx & Hqy); rewrite Hk in Hx, Hy; simpl in Hx, Hy;
    repeat split; qlra.
Qed.

(** ** One pass of the insertion loop, by cases *)

Lemma insert_body_Done (stars : list star) (si : nat) (star : node)
  (quads : list quad) (count : nat) (p : ptr) (a' : arena) (p' : ptr) :
  insert_body stars si star (quads, count) p = Done (a', p') ->
  exists qi q,
    p = PQuad qi /\ quads !! qi = Some q /\
    ~ mass (quad_node q) + mass star == 0 /\
    let q1 := add_star q star in
    let quads1 := <[qi := q1]> quads in
    let k := get_quadrant q star in
    (* the slot is empty: the star becomes its leaf *)
    (children q k = None /\
     a' = (<[qi := set_children q1 k (Some (PStar si))]> quads, count) /\
     p' = PStar si) \/
    (* the slot holds a leaf: a new quad takes it over *)
    (exists child old_star slot,
       children q k = Some child /\
       deref stars quads1 child = Done old_star /\
       size old_star == 0 /\
       quads1 !! count = Some slot /\
       a' = (<[qi := set_children q1 k (Some (PQuad count))]>
               (<[count := split_off q1 k old_star child slot]> quads1),
             S count) /\
       p' = PQuad count) \/
    (* the slot holds a quad: descend *)
    (exists child n,
       children q k = Some child /\
       deref stars quads1 child = Done n /\
       ~ size n == 0 /\
       a' = (quads1, count) /\ p' = child).
Proof.
  unfold insert_body. destruct p as [i|qi]; [discriminate|].
  destruct (quads !! qi) as [q|] eqn:Hq; [|discriminate].
  intros H. apply bind_Done in H. destruct H as (x & Hx & H).
  apply bind_Done in H. destruct H as (y & Hy & H).
  apply fdiv_Done_inv in Hx. destruct Hx as [Hm ->].
  apply fdiv_Done_inv in Hy. destruct Hy as [_ ->].
  fold (add_star q star) in H.
  rewrite add_star_children in H.
  rewrite (get_quadrant_center (add_star q star) q star) in H by reflexivity.
  exists qi, q. split; [reflexivity|]. split; [exact Hq|]. split; [exact Hm|].
  cbv zeta.
  destruct (children q (get_quadrant q star)) as [child|] eqn:Hc.
  - right. apply bind_Done in H. destruct H as (old & Hold & H).
    destruct (Qeq_bool (size old) 0) eqn:Hsz.
    + left. destruct (<[qi:=add_star q star]> quads !! count) as [slot|] eqn:Hslot;
        [|discriminate].
      injection H as <- <-. exists child, old, slot.
      apply Qeq_bool_iff in Hsz. repeat split; auto.
    + right. injection H as <- <-. exists child, old.
      apply Qeq_bool_neq in Hsz. repeat split; auto.
  - left. injection H as <- <-.
    rewrite list_insert_insert_eq. repeat split; auto.
Qed.

(** ** The shape of the tree is kept by every pass *)

Lemma tree_ok_lookup (stars : list star) (n : nat) (quads : list quad) (count i : nat) :
  tree_ok stars n quads count -> (i < count)%nat -> exists q, quads !! i = Some q.
Proof.
  intros H Hi. apply lookup_lt_is_Some_2. destruct (ok_count _ _ _ _ H). lia.
Qed.

Lemma tree_ok_more_stars (stars : list star) (n n' : nat) (quads : list quad)
  (count : nat) :
  (n <= n')%nat -> tree_ok stars n quads count -> tree_ok stars n' quads count.
Proof.
  intros Hn [Hc Hf Hs Hq Hst Hp]. constructor; auto.
  intros i q k a Hi Hlt Hk Hch.
  destruct (Hst i q k a Hi Hlt Hk Hch) as [Ha Hex]. split; [lia | exact Hex].
Qed.

(** Lines 240-243 change the centre of mass and the mass of the quad only. *)
Lemma tree_ok_add_star (stars : list star) (n : nat) (quads : list quad)
  (count cur : nat) (q : quad) (star : node) :
  tree_ok stars n quads count ->
  quads !! cur = Some q -> (cur < count)%nat -> 0 <= mass star ->
  tree_ok stars n (<[cur := add_star q star]> quads) count.
Proof.
  intros [Hc Hf Hs Hq Hst Hp] Hcur Hlt Hm.
  assert (Hold : forall i q',
             <[cur := add_star q star]> quads !! i = Some q' ->
             exists q0, quads !! i = Some q0 /\ center q' = center q0 /\
                        size (quad_node q') = size (quad_node q0) /\
                        (forall k, children q' k = children q0 k) /\
                        (mass (quad_node q') = mass (quad_node q0) \/
                         mass (quad_node q') = mass (quad_node q0) + mass star)).
  { intros i q' Hi. apply list_lookup_insert_Some in Hi.
    destruct Hi as [(-> & <- & _)|(Hne & Hi)].
    - exists q. repeat split; auto using add_star_children.
    - exists q'. repeat split; auto. }
  assert (Hnew : forall j c, quads !! j = Some c ->
             exists c', <[cur := add_star q star]> quads !! j = Some c' /\
                        center c' = center c /\
                        size (quad_node c') = size (quad_node c)).
  { intros j c Hj. destruct (decide (cur = j)) as [->|Hne].
    - exists (add_star q star). rewrite list_lookup_insert_eq
        by (apply lookup_lt_is_Some_1; eauto).
      assert (c = q) by congruence. subst c. auto.
    - exists c. rewrite list_lookup_insert_ne by assumption. auto. }
  constructor.
  - rewrite length_insert. exact Hc.
  - intros i q' Hi Hge. apply list_lookup_insert_Some in Hi.
    destruct Hi as [(-> & <- & _)|(Hne & Hi)]; [lia | eauto].
  - intros i q' Hi Hlt'. destruct (Hold i q' Hi) as (q0 & H0 & _ & Hsz & _ & Hms).
    destruct (Hs i q0 H0 Hlt') as (Hpos & Hnn & Hip). rewrite Hsz.
    split; [exact Hpos|].
    destruct Hms as [-> | ->]; (split; [lra|]); intros Hi0; specialize (Hip Hi0); lra.
  - intros i q' k j Hi Hlt' Hk Hch.
    destruct (Hold i q' Hi) as (q0 & H0 & Hce & Hsz & Hchs & _).
    rewrite Hchs in Hch.
    destruct (Hq i q0 k j H0 Hlt' Hk Hch) as [Hj (c & Hjc & Hg)].
    split; [exact Hj|].
    destruct (Hnew j c Hjc) as (c' & Hc' & Hcc & Hcs).
    exists c'. split; [exact Hc'|].
    eapply child_geometry_same; eauto.
  - intros i q' k a Hi Hlt' Hk Hch.
    destruct (Hold i q' Hi) as (q0 & H0 & Hce & Hsz & Hchs & _).
    rewrite Hchs in Hch.
    destruct (Hst i q0 k a H0 Hlt' Hk Hch) as [Ha (s & Hsa & Hin & Hgq)].
    split; [exact Ha|]. exists s. split; [exact Hsa|]. split.
    + eapply in_square_same; eauto.
    + rewrite <- Hgq. now apply get_quadrant_center.
  - intros i i' q1 q1' k k' j Hi Hi' Hlt1 Hlt1' Hk Hk' Hch Hch'.
    destruct (Hold i q1 Hi) as (q0 & H0 & _ & _ & Hchs & _).
    destruct (Hold i' q1' Hi') as (q0' & H0' & _ & _ & Hchs' & _).
    rewrite Hchs in Hch. rewrite Hchs' in Hch'. eauto.
Qed.

(** The quad that a split writes into a zeroed slot. *)
Lemma split_off_node (q : quad) (k : Z) (old_star : node) (child : ptr) (slot : quad) :
  quad_node (split_off q k old_star child slot)
  = mknode (node_x old_star) (node_y old_star) (mass old_star)
      (size (quad_node q) / 2).
Proof. unfold split_off. cbv zeta. now rewrite set_children_node. Qed.

Lemma split_off_geometry (q : quad) (k : Z) (old_star : node) (child : ptr)
  (slot : quad) :
  child_geometry q (split_off q k old_star child slot) k.
Proof.
  unfold child_geometry, split_off. cbv zeta.
  rewrite set_children_node, set_children_center. simpl.
  repeat split; reflexivity.
Qed.

Lemma split_off_children (q : quad) (k : Z) (old_star : node) (child : ptr)
  (k' : Z) (p : ptr) :
  (0 <= k' < 4)%Z ->
  children (split_off q k old_star child zero_quad) k' = Some p ->
  k' = get_quadrant (split_off q k old_star child zero_quad) old_star /\ p = child.
Proof.
  intros Hk'. unfold split_off. cbv zeta.
  set (base := mkquad _ _ _ _ _ _).
  rewrite (get_quadrant_center (set_children base (get_quadrant base old_star)
                                  (Some child)) base old_star)
    by apply set_children_center.
  assert (Hbase : children base k' = None) by (quadrants k' Hk'; reflexivity).
  assert (Hk2 : (0 <= get_quadrant base old_star < 4)%Z) by apply get_quadrant_range.
  revert Hk2. generalize (get_quadrant base old_star). intros k2 Hk2 Hp.
  destruct (decide (k' = k2)) as [->|Hne].
  - rewrite children_set_same in Hp by assumption. split; congruence.
  - rewrite children_set_other in Hp by auto. congruence.
Qed.

(** Line 246: the star becomes the leaf of an empty slot. *)
Lemma tree_ok_set_leaf (stars : list star) (si : nat) (s : star) (quads : list quad)
  (count cur : nat) (q : quad) (k : Z) :
  tree_ok stars si quads count ->
  quads !! cur = Some q -> (cur < count)%nat ->
  stars !! si = Some s -> in_square q (star_node s) ->
  k = get_quadrant q (star_node s) -> children q k = None ->
  tree_ok stars (S si) (<[cur := set_children q k (Some (PStar si))]> quads) count.
Proof.
  intros [Hc Hf Hs Hq Hst Hp] Hcur Hlt Hsi Hin Hk Hnone.
  assert (Hkr : (0 <= k < 4)%Z) by (subst k; apply get_quadrant_range).
  set (new := <[cur := set_children q k (Some (PStar si))]> quads).
  assert (Hedge : forall i q' k' p,
             new !! i = Some q' -> (0 <= k' < 4)%Z -> children q' k' = Some p ->
             exists q0, quads !! i = Some q0 /\ center q' = center q0 /\
                        quad_node q' = quad_node q0 /\
                        (children q0 k' = Some p \/
                         (i = cur /\ k' = k /\ q0 = q /\ p = PStar si))).
  { intros i q' k' p Hi Hk' Hch. apply list_lookup_insert_Some in Hi.
    destruct Hi as [(-> & <- & _)|(Hne & Hi)].
    - exists q. rewrite set_children_center, set_children_node.
      repeat split; auto.
      destruct (decide (k' = k)) as [->|Hkk].
      + rewrite children_set_same in Hch by assumption.
        injection Hch as <-. right. auto.
      + rewrite children_set_other in Hch by auto. left. exact Hch.
    - exists q'. repeat split; auto. }
  assert (Hnew : forall j c, quads !! j = Some c ->
             exists c', new !! j = Some c' /\ center c' = center c /\
                        quad_node c' = quad_node c).
  { intros j c Hj. destruct (decide (cur = j)) as [->|Hne].
    - exists (set_children q k (Some (PStar si))). unfold new.
      rewrite list_lookup_insert_eq by (apply lookup_lt_is_Some_1; eauto).
      assert (c = q) by congruence. subst c.
      rewrite set_children_center, set_children_node. auto.
    - exists c. unfold new. rewrite list_lookup_insert_ne by assumption. auto. }
  constructor.
  - unfold new. rewrite length_insert. exact Hc.
  - intros i q' Hi Hge. apply list_lookup_insert_Some in Hi.
    destruct Hi as [(-> & <- & _)|(Hne & Hi)]; [lia | eauto].
  - intros i q' Hi Hlt'. apply list_lookup_insert_Some in Hi.
    destruct Hi as [(-> & <- & _)|(Hne & Hi)]; [|eauto].
    rewrite set_children_node. eauto.
  - intros i q' k' j Hi Hlt' Hk' Hch.
    destruct (Hedge i q' k' _ Hi Hk' Hch) as (q0 & H0 & Hce & Hno & [Hold|Hleaf]).
    + destruct (Hq i q0 k' j H0 Hlt' Hk' Hold) as [Hj (c & Hjc & Hg)].
      split; [exact Hj|].
      destruct (Hnew j c Hjc) as (c' & Hc' & Hcc & Hcn).
      exists c'. split; [exact Hc'|].
      eapply child_geometry_same; eauto; congruence.
    + destruct Hleaf as (_ & _ & _ & [=]).
  - intros i q' k' a Hi Hlt' Hk' Hch.
    destruct (Hedge i q' k' _ Hi Hk' Hch) as (q0 & H0 & Hce & Hno & [Hold|Hleaf]).
    + destruct (Hst i q0 k' a H0 Hlt' Hk' Hold) as [Ha (s0 & Hsa & Hin0 & Hgq)].
      split; [lia|]. exists s0. split; [exact Hsa|]. split.
      * eapply in_square_same; eauto; congruence.
      * rewrite <- Hgq. now apply get_quadrant_center.
    + destruct Hleaf as (-> & -> & -> & [= ->]).
      split; [lia|]. exists s. split; [exact Hsi|]. split.
      * eapply in_square_same; eauto; congruence.
      * rewrite Hk. now apply get_quadrant_center.
  - intros i i' q1 q1' k1 k1' j Hi Hi' Hlt1 Hlt1' Hk1 Hk1' Hch Hch'.
    destruct (Hedge i q1 k1 _ Hi Hk1 Hch) as (q0 & H0 & _ & _ & [Hold|Hleaf]);
      [|destruct Hleaf as (_ & _ & _ & [=])].
    destruct (Hedge i' q1' k1' _ Hi' Hk1' Hch') as (q0' & H0' & _ & _ & [Hold'|Hleaf]);
      [|destruct Hleaf as (_ & _ & _ & [=])].
    eauto.
Qed.

(** Lines 248-259: a new quad takes over the leaf of the slot. *)
Lemma tree_ok_split (stars : list star) (si : nat) (quads : list quad)
  (count cur : nat) (q : quad) (k : Z) (a : nat) (sa : star) (slot : quad) :
  tree_ok stars si quads count ->
  quads !! cur = Some q -> (cur < count)%nat -> (0 <= k < 4)%Z ->
  children q k = Some (PStar a) -> stars !! a = Some sa ->
  0 < mass (star_node sa) ->
  quads !! count = Some slot ->
  tree_ok stars si
    (<[cur := set_children q k (Some (PQuad count))]>
       (<[count := split_off q k (star_node sa) (PStar a) slot]> quads))
    (S count).
Proof.
  intros [Hc Hf Hs Hq Hst Hpar] Hcur Hlt Hk Hch Hsa Hma Hslot.
  assert (Hz : slot = zero_quad) by (eapply Hf; eauto).
  subst slot.
  set (nq := split_off q k (star_node sa) (PStar a) zero_quad).
  set (q2 := set_children q k (Some (PQuad count))).
  set (new := <[cur := q2]> (<[count := nq]> quads)).
  assert (Hcl : (count < length quads)%nat) by (apply lookup_lt_is_Some_1; eauto).
  assert (Hcurl : (cur < length quads)%nat) by lia.
  assert (Hnq_node : quad_node nq
            = mknode (node_x (star_node sa)) (node_y (star_node sa))
                (mass (star_node sa)) (size (quad_node q) / 2))
    by apply split_off_node.
  assert (Hgeo : child_geometry q nq k) by apply split_off_geometry.
  assert (Hnq_ch : forall k' p, (0 <= k' < 4)%Z -> children nq k' = Some p ->
             k' = get_quadrant nq (star_node sa) /\ p = PStar a)
    by apply split_off_children.
  assert (Hlook : forall i q', new !! i = Some q' ->
             (i = cur /\ q' = q2) \/ (i = count /\ i <> cur /\ q' = nq) \/
             (i <> cur /\ i <> count /\ quads !! i = Some q')).
  { intros i q' Hi. unfold new in Hi. apply list_lookup_insert_Some in Hi.
    destruct Hi as [(-> & <- & _)|(Hne & Hi)]; [left; auto|].
    apply list_lookup_insert_Some in Hi.
    destruct Hi as [(-> & <- & _)|(Hne' & Hi)]; [right; left; auto|].
    right; right; auto. }
  assert (Hnew : forall j c, quads !! j = Some c -> (j < count)%nat ->
             exists c', new !! j = Some c' /\ center c' = center c /\
                        quad_node c' = quad_node c).
  { intros j c Hj Hjlt. destruct (decide (cur = j)) as [->|Hne].
    - exists q2. unfold new.
      rewrite list_lookup_insert_eq by (rewrite length_insert; lia).
      assert (c = q) by congruence. subst c. unfold q2.
      rewrite set_children_center, set_children_node. auto.
    - exists c. unfold new. rewrite list_lookup_insert_ne by assumption.
      rewrite list_lookup_insert_ne by lia. auto. }
  assert (Hnewq : new !! count = Some nq).
  { unfold new. rewrite list_lookup_insert_ne by lia.
    apply list_lookup_insert_eq. exact Hcl. }
  assert (Hedge : forall i q' k' p,
             new !! i = Some q' -> (i < S count)%nat -> (0 <= k' < 4)%Z ->
             children q' k' = Some p ->
             (exists q0, quads !! i = Some q0 /\ (i < count)%nat /\
                         center q' = center q0 /\ quad_node q' = quad_node q0 /\
                         children q0 k' = Some p /\ (i = cur -> k' <> k)) \/
             (i = cur /\ k' = k /\ p = PQuad count) \/
             (i = count /\ q' = nq /\ k' = get_quadrant nq (star_node sa) /\
              p = PStar a)).
  { intros i q' k' p Hi Hlt' Hk' Hp.
    destruct (Hlook i q' Hi) as [(-> & ->)|[(-> & Hne & ->)|(Hne & Hne' & Hi0)]].
    - destruct (decide (k' = k)) as [->|Hkk].
      + unfold q2 in Hp. rewrite children_set_same in Hp by assumption.
        injection Hp as <-. right; left; auto.
      + unfold q2 in Hp. rewrite children_set_other in Hp by auto.
        left. exists q. unfold q2.
        rewrite set_children_center, set_children_node. repeat split; auto.
    - destruct (Hnq_ch k' p Hk' Hp) as [-> ->]. right; right; auto.
    - left. exists q'. repeat split; auto; try lia. }
  constructor.
  - unfold new. rewrite !length_insert. lia.
  - intros i q' Hi Hge.
    destruct (Hlook i q' Hi) as [(-> & ->)|[(-> & Hne & ->)|(Hne & Hne' & Hi0)]];
      [lia | lia |].
    eapply Hf; eauto. lia.
  - intros i q' Hi Hlt'.
    destruct (Hlook i q' Hi) as [(-> & ->)|[(-> & Hne & ->)|(Hne & Hne' & Hi0)]].
    + unfold q2. rewrite set_children_node. eauto.
    + rewrite Hnq_node. simpl. destruct (Hs cur q Hcur Hlt) as [Hpos _].
      split; [qlra|]. split; [lra | intros _; exact Hma].
    + apply (Hs i q' Hi0). lia.
  - intros i q' k' j Hi Hlt' Hk' Hp.
    destruct (Hedge i q' k' _ Hi Hlt' Hk' Hp)
      as [(q0 & H0 & Hlt0 & Hce & Hno & Hold & _)|[(-> & -> & [= ->])|(_ & _ & _ & [=])]].
    + destruct (Hq i q0 k' j H0 Hlt0 Hk' Hold) as [Hj (c & Hjc & Hg)].
      split; [lia|].
      destruct (Hnew j c Hjc ltac:(lia)) as (c' & Hc' & Hcc & Hcn).
      exists c'. split; [exact Hc'|].
      eapply child_geometry_same; eauto; congruence.
    + split; [lia|]. exists nq. split; [exact Hnewq|].
      destruct (Hlook cur q' Hi) as [(_ & ->)|[(-> & Hne & _)|(Hne & _)]];
        [|lia|congruence].
      eapply child_geometry_same; try exact Hgeo; auto.
      * unfold q2. apply set_children_center.
      * unfold q2. now rewrite set_children_node.
  - intros i q' k' a' Hi Hlt' Hk' Hp.
    destruct (Hedge i q' k' _ Hi Hlt' Hk' Hp)
      as [(q0 & H0 & Hlt0 & Hce & Hno & Hold & _)|[(_ & _ & [=])|(-> & -> & -> & [= ->])]].
    + destruct (Hst i q0 k' a' H0 Hlt0 Hk' Hold) as [Ha (s0 & Hsa0 & Hin0 & Hgq)].
      split; [exact Ha|]. exists s0. split; [exact Hsa0|]. split.
      * eapply in_square_same; eauto; congruence.
      * rewrite <- Hgq. now apply get_quadrant_center.
    + destruct (Hst cur q k a Hcur Hlt Hk Hch) as [Ha (s0 & Hsa0 & Hin0 & Hgq)].
      assert (s0 = sa) by congruence. subst s0.
      split; [exact Ha|]. exists sa. split; [exact Hsa|]. split; [|reflexivity].
      apply (in_square_child q nq); [exact Hin0 | now rewrite Hgq].
  - intros i i' q1 q1' k1 k1' j Hi Hi' Hlt1 Hlt1' Hk1 Hk1' Hp Hp'.
    destruct (Hedge i q1 k1 _ Hi Hlt1 Hk1 Hp)
      as [(q0 & H0 & Hlt0 & _ & _ & Hold & _)|[(Hi1 & Hi2 & Hi3)|(_ & _ & _ & [=])]];
      destruct (Hedge i' q1' k1' _ Hi' Hlt1' Hk1' Hp')
        as [(q0' & H0' & Hlt0' & _ & _ & Hold' & _)|[(Hj1 & Hj2 & Hj3)|(_ & _ & _ & [=])]].
    + eauto.
    + assert (j = count) by congruence. subst j.
      destruct (Hq i q0 k1 count H0 Hlt0 Hk1 Hold) as [? _]. lia.
    + assert (j = count) by congruence. subst j.
      destruct (Hq i' q0' k1' count H0' Hlt0' Hk1' Hold') as [? _]. lia.
    + split; congruence.
Qed.

(** One pass from a well-shaped tree: the three cases, with the kind of the
    child pointer settled (a child of size zero is a star, any other child
    is a quad). *)
Lemma insert_body_cases (stars : list star) (si : nat) (star : node)
  (quads : list quad) (count cur : nat) (a' : arena) (p' : ptr) :
  stars_ok stars -> tree_ok stars si quads count -> (cur < count)%nat ->
  insert_body stars si star (quads, count) (PQuad cur) = Done (a', p') ->
  exists q,
    quads !! cur = Some q /\
    ~ mass (quad_node q) + mass star == 0 /\
    let q1 := add_star q star in
    let k := get_quadrant q star in
    (children q k = None /\
     a' = (<[cur := set_children q1 k (Some (PStar si))]> quads, count) /\
     p' = PStar si) \/
    (exists a sa,
       children q k = Some (PStar a) /\ stars !! a = Some sa /\
       (count < length quads)%nat /\
       a' = (<[cur := set_children q1 k (Some (PQuad count))]>
               (<[count := split_off q1 k (star_node sa) (PStar a) zero_quad]>
                  (<[cur := q1]> quads)),
             S count) /\
       p' = PQuad count) \/
    (exists j c,
       children q k = Some (PQuad j) /\ (cur < j < count)%nat /\
       quads !! j = Some c /\ child_geometry q c k /\
       a' = (<[cur := q1]> quads, count) /\ p' = PQuad j).
Proof.
  intros Hstars Htree Hlt Hbody.
  apply insert_body_Done in Hbody.
  destruct Hbody as (qi & q & [= <-] & Hq & Hm & Hcases).
  exists q. split; [exact Hq|]. split; [exact Hm|]. cbv zeta in *.
  assert (Hk : (0 <= get_quadrant q star < 4)%Z) by apply get_quadrant_range.
  destruct Hcases as [Hleaf|[Hsplit|Hdesc]].
  - left. exact Hleaf.
  - right. left.
    destruct Hsplit as (child & old & slot & Hch & Hold & Hsz & Hslot & -> & ->).
    destruct child as [a|j].
    + simpl in Hold. destruct (stars !! a) as [sa|] eqn:Hsa; [|discriminate].
      injection Hold as <-.
      assert (Hne : cur <> count) by lia.
      rewrite list_lookup_insert_ne in Hslot by assumption.
      assert (slot = zero_quad) by (eapply (ok_fresh _ _ _ _ Htree); eauto).
      subst slot. exists a, sa. repeat split; auto.
      apply lookup_lt_is_Some_1; eauto.
    + exfalso.
      destruct (ok_child_quad _ _ _ _ Htree cur q _ j Hq Hlt Hk Hch)
        as [Hj (c & Hc & _)].
      simpl in Hold. rewrite list_lookup_insert_ne in Hold by lia.
      rewrite Hc in Hold. injection Hold as <-.
      destruct (ok_size _ _ _ _ Htree j c Hc ltac:(lia)) as [Hpos _]. lra.
  - right. right.
    destruct Hdesc as (child & n & Hch & Hn & Hsz & -> & ->).
    destruct child as [a|j].
    + exfalso. simpl in Hn. destruct (stars !! a) as [sa|] eqn:Hsa; [|discriminate].
      injection Hn as <-. destruct (Hstars a sa Hsa) as [Hz _]. contradiction.
    + destruct (ok_child_quad _ _ _ _ Htree cur q _ j Hq Hlt Hk Hch)
        as [Hj (c & Hc & Hg)].
      exists j, c. split; [exact Hch|]. split; [exact Hj|]. split; [exact Hc|].
      split; [exact Hg|]. split; reflexivity.
Qed.

(** The shape is kept by one pass; the pass ends the insertion with the
    star as a leaf, or moves to a child quad that contains the star. *)
Lemma insert_body_shape (stars : list star) (si : nat) (s : star)
  (quads : list quad) (count cur : nat) (a' : arena) (p' : ptr) :
  stars_ok stars -> stars !! si = Some s ->
  tree_ok stars si quads count -> (cur < count)%nat ->
  (forall q, quads !! cur = Some q -> in_square q (star_node s)) ->
  insert_body stars si (star_node s) (quads, count) (PQuad cur) = Done (a', p') ->
  (p' = PStar si /\ snd a' = count /\ tree_ok stars (S si) (fst a') (snd a')) \/
  (exists cur', p' = PQuad cur' /\ (cur < cur' < snd a')%nat /\
     (snd a' = count \/ snd a' = S count) /\
     tree_ok stars si (fst a') (snd a') /\
     forall q', fst a' !! cur' = Some q' -> in_square q' (star_node s)).
Proof.
  intros Hstars Hsi Htree Hlt Hin Hbody.
  destruct (insert_body_cases _ _ _ _ _ _ _ _ Hstars Htree Hlt Hbody)
    as (q & Hq & Hm & Hcases).
  cbv zeta in Hcases. specialize (Hin q Hq).
  destruct (Hstars si s Hsi) as [_ Hmpos].
  assert (Hk : (0 <= get_quadrant q (star_node s) < 4)%Z) by apply get_quadrant_range.
  assert (Htree1 : tree_ok stars si (<[cur := add_star q (star_node s)]> quads) count)
    by (apply tree_ok_add_star; auto; lra).
  assert (Hcurl : (cur < length quads)%nat)
    by (apply lookup_lt_is_Some_1; eauto).
  assert (Hq1 : <[cur := add_star q (star_node s)]> quads !! cur
                = Some (add_star q (star_node s)))
    by (apply list_lookup_insert_eq; exact Hcurl).
  destruct Hcases as [(Hnone & -> & ->)|[Hsplit|Hdesc]].
  - left. cbn [fst snd]. split; [reflexivity|]. split; [reflexivity|].
    rewrite <- (list_insert_insert_eq quads cur _ (add_star q (star_node s))).
    apply (tree_ok_set_leaf stars si s _ count cur (add_star q (star_node s)));
      auto.
  - right. destruct Hsplit as (a & sa & Hch & Hsa & Hcl & -> & ->).
    exists count. cbn [fst snd]. split; [reflexivity|]. split; [lia|]. split; [auto|].
    destruct (Hstars a sa Hsa) as [_ Hapos].
    assert (Hnew : tree_ok stars si
              (<[cur := set_children (add_star q (star_node s))
                          (get_quadrant q (star_node s)) (Some (PQuad count))]>
                 (<[count := split_off (add_star q (star_node s))
                               (get_quadrant q (star_node s)) (star_node sa)
                               (PStar a) zero_quad]>
                    (<[cur := add_star q (star_node s)]> quads)))
              (S count)).
    { apply tree_ok_split; auto; try lra.
      rewrite list_lookup_insert_ne by lia.
      destruct (lookup_lt_is_Some_2 quads count Hcl) as [z Hz].
      rewrite Hz. f_equal. eapply (ok_fresh _ _ _ _ Htree); eauto. }
    split; [exact Hnew|].
    intros q' Hq'.
    rewrite list_lookup_insert_ne in Hq' by lia.
    rewrite list_lookup_insert_eq in Hq' by (rewrite length_insert; lia).
    injection Hq' as <-.
    apply (in_square_child (add_star q (star_node s))).
    + eapply in_square_same; eauto.
    + rewrite (get_quadrant_center (add_star q (star_node s)) q) by reflexivity.
      apply split_off_geometry.
  - right. destruct Hdesc as (j & c & Hch & Hj & Hc & Hg & -> & ->).
    exists j. cbn [fst snd]. split; [reflexivity|]. split; [lia|]. split; [auto|].
    split; [exact Htree1|].
    intros q' Hq'. rewrite list_lookup_insert_ne in Hq' by lia.
    assert (q' = c) by congruence. subst q'.
    apply (in_square_child q c); assumption.
Qed.

Lemma for_range_invariant {S : Type} (P : nat -> S -> Prop)
  (body : nat -> S -> outcome S) (b : nat) :
  (forall i s s', (i < b)%nat -> P i s -> body i s = Done s' -> P (Datatypes.S i) s') ->
  forall (a : nat) (s s' : S),
    (a <= b)%nat -> P a s -> for_range a b body s = Done s' -> P b s'.
Proof.
  intros Hstep a s s' Hab. unfold for_range.
  remember (b - a)%nat as n eqn:Hn. revert a s Hab Hn.
  induction n as [|n IH]; intros a s Hab Hn Ha Hrun; simpl in Hrun.
  - injection Hrun as <-. replace b with a by lia. exact Ha.
  - apply bind_Done in Hrun. destruct Hrun as (s1 & H1 & H2).
    apply (IH (Datatypes.S a) s1); [lia | lia | | exact H2].
    apply (Hstep a s s1); [lia | exact Ha | exact H1].
Qed.

(** The insertion loop keeps what every pass keeps. *)
Lemma insert_loop_invariant (stars : list star) (si : nat) (s : star)
  (I : list quad -> nat -> nat -> Prop) (Post : arena -> Prop) :
  stars !! si = Some s -> size (star_node s) == 0 ->
  (forall quads count cur, I quads count cur ->
     exists q, quads !! cur = Some q /\ ~ size (quad_node q) == 0) ->
  (forall quads count cur a' p',
     I quads count cur ->
     insert_body stars si (star_node s) (quads, count) (PQuad cur) = Done (a', p') ->
     (p' = PStar si /\ Post a') \/
     (exists cur', p' = PQuad cur' /\ I (fst a') (snd a') cur')) ->
  forall fuel quads count cur a',
    I quads count cur ->
    insert_loop fuel stars si (star_node s) (quads, count) (PQuad cur) = Done a' ->
    Post a'.
Proof.
  intros Hsi Hsz Hsize Hstep.
  induction fuel as [|fuel IH]; intros quads count cur a' HI Hrun; [discriminate|].
  simpl in Hrun. apply bind_Done in Hrun. destruct Hrun as ([a1 p1] & Hbody & Hrun).
  destruct (Hstep quads count cur a1 p1 HI Hbody) as [[-> HP]|(cur' & -> & HI')].
  - simpl in Hrun. rewrite Hsi in Hrun. simpl in Hrun.
    apply Qtruth_false in Hsz. rewrite Hsz in Hrun. injection Hrun as <-. exact HP.
  - destruct a1 as [quads1 count1]. simpl in HI'.
    destruct (Hsize _ _ _ HI') as (q & Hq & Hnz).
    simpl in Hrun. rewrite Hq in Hrun. simpl in Hrun.
    apply Qtruth_true in Hnz. rewrite Hnz in Hrun.
    eapply IH; eauto.
Qed.

(** ** The bounding box and the root *)

Lemma lower_bound_Some (m : option Q) (v : Q) :
  exists b, lower_bound m v = Some b /\ b <= v /\
            (forall m0, m = Some m0 -> b <= m0).
Proof.
  destruct m as [m0|]; simpl.
  - destruct (Qgtb m0 v) eqn:E.
    + apply Qgtb_true in E. exists v. repeat split; [lra|].
      intros ? [= <-]. lra.
    + apply Qgtb_false in E. exists m0. repeat split; [lra|].
      intros ? [= <-]. lra.
  - exists v. repeat split; [lra | discriminate].
Qed.

Lemma upper_bound_Some (m : option Q) (v : Q) :
  exists b, upper_bound m v = Some b /\ v <= b /\
            (forall m0, m = Some m0 -> m0 <= b).
Proof.
  destruct m as [m0|]; simpl.
  - destruct (Qgtb v m0) eqn:E.
    + apply Qgtb_true in E. exists v. repeat split; [lra|].
      intros ? [= <-]. lra.
    + apply Qgtb_false in E. exists m0. repeat split; [lra|].
      intros ? [= <-]. lra.
  - exists v. repeat split; [lra | discriminate].
Qed.

(** After [n >= 1] stars, the four bounds are finite and enclose them. *)
Lemma world_bounds_cover (stars : list star) (n : nat) (b : bounds) :
  world_bounds (S n) stars = Done b ->
  exists x0 y0 x1 y1,
    b = mkbounds (Some x0) (Some y0) (Some x1) (Some y1) /\
    forall a s, (a <= n)%nat -> stars !! a = Some s ->
      x0 <= node_x (star_node s) /\ node_x (star_node s) <= x1 /\
      y0 <= node_y (star_node s) /\ node_y (star_node s) <= y1.
Proof.
  unfold world_bounds, for_range. rewrite Nat.sub_0_r.
  revert b. induction n as [|n IH]; intros b Hrun.
  - simpl in Hrun. unfold bounds_body in Hrun.
    destruct (stars !! 0%nat) as [s0|] eqn:H0; [|discriminate].
    simpl in Hrun. injection Hrun as <-.
    exists (node_x (star_node s0)), (node_y (star_node s0)),
      (node_x (star_node s0)), (node_y (star_node s0)).
    split; [reflexivity|].
    intros a s Ha Hs. assert (a = 0%nat) by lia. subst a.
    assert (s = s0) by congruence. subst s. repeat split; lra.
  - rewrite seq_S, for_each_app in Hrun.
    apply bind_Done in Hrun. destruct Hrun as (b1 & H1 & H2).
    destruct (IH b1 H1) as (x0 & y0 & x1 & y1 & -> & Hcov).
    cbn [for_each] in H2. unfold bounds_body in H2.
    change (0 + S n)%nat with (S n) in H2.
    destruct (stars !! S n) as [sn|] eqn:Hn; [|discriminate].
    destruct (lower_bound_Some (Some x0) (node_x (star_node sn))) as (x0' & E1 & ? & Hx0).
    destruct (lower_bound_Some (Some y0) (node_y (star_node sn))) as (y0' & E2 & ? & Hy0).
    destruct (upper_bound_Some (Some x1) (node_x (star_node sn))) as (x1' & E3 & ? & Hx1).
    destruct (upper_bound_Some (Some y1) (node_y (star_node sn))) as (y1' & E4 & ? & Hy1).
    cbn [xmin_world ymin_world xmax_world ymax_world] in H2.
    rewrite E1, E2, E3, E4 in H2. injection H2 as <-.
    specialize (Hx0 _ eq_refl). specialize (Hy0 _ eq_refl).
    specialize (Hx1 _ eq_refl). specialize (Hy1 _ eq_refl).
    exists x0', y0', x1', y1'. split; [reflexivity|].
    intros a s Ha Hs. destruct (decide (a = S n)) as [->|Hne].
    + assert (s = sn) by congruence. subst s. repeat split; lra.
    + destruct (Hcov a s ltac:(lia) Hs) as (? & ? & ? & ?). repeat split; lra.
Qed.

(** ** Squares are never moved *)

Lemma frames_kept_refl (a : arena) : frames_kept a a.
Proof. repeat split; auto. intros i q Hq _. exists q. auto. Qed.

Lemma frames_kept_trans (a b c : arena) :
  frames_kept a b -> frames_kept b c -> frames_kept a c.
Proof.
  intros (H1 & H2 & H3) (H4 & H5 & H6). repeat split; [lia | congruence |].
  intros i q Hq Hi. destruct (H3 i q Hq Hi) as (q' & Hq' & Hc & Hs).
  destruct (H6 i q' Hq' ltac:(lia)) as (q'' & Hq'' & Hc' & Hs').
  exists q''. repeat split; congruence.
Qed.

Lemma insert_body_frames (stars : list star) (si : nat) (star : node)
  (a : arena) (p : ptr) (a' : arena) (p' : ptr) :
  insert_body stars si star a p = Done (a', p') -> frames_kept a a'.
Proof.
  destruct a as [quads count]. intros H. apply insert_body_Done in H.
  destruct H as (qi & q & -> & Hq & Hm & Hcases). cbv zeta in Hcases.
  assert (Hqi : (qi < length quads)%nat) by (apply lookup_lt_is_Some_1; eauto).
  destruct Hcases as [(_ & -> & _)|[(c & o & sl & _ & _ & _ & Hsl & -> & _)|(c & n & _ & _ & _ & -> & _)]];
    unfold frames_kept; cbn [fst snd]; rewrite ?length_insert;
    (split; [lia|]); (split; [reflexivity|]); intros i q0 Hi Hlt.
  - destruct (decide (qi = i)) as [->|Hne].
    + rewrite list_lookup_insert_eq by assumption.
      eexists; split; [reflexivity|].
      rewrite set_children_center, set_children_node.
      assert (q0 = q) by congruence. subst q0. auto.
    + rewrite list_lookup_insert_ne by assumption. eauto.
  - destruct (decide (qi = i)) as [->|Hne].
    + rewrite list_lookup_insert_eq by (rewrite !length_insert; assumption).
      eexists; split; [reflexivity|].
      rewrite set_children_center, set_children_node.
      assert (q0 = q) by congruence. subst q0. auto.
    + rewrite list_lookup_insert_ne by assumption.
      rewrite list_lookup_insert_ne by lia.
      rewrite list_lookup_insert_ne by assumption. eauto.
  - destruct (decide (qi = i)) as [->|Hne].
    + rewrite list_lookup_insert_eq by assumption.
      eexists; split; [reflexivity|].
      assert (q0 = q) by congruence. subst q0. auto.
    + rewrite list_lookup_insert_ne by assumption. eauto.
Qed.

Lemma insert_loop_frames (stars : list star) (si : nat) (star : node) (fuel : nat) :
  forall (a : arena) (p : ptr) (a' : arena),
    insert_loop fuel stars si star a p = Done a' -> frames_kept a a'.
Proof.
  induction fuel as [|fuel IH]; intros a p a' H; [discriminate|].
  simpl in H. apply bind_Done in H. destruct H as ([a1 p1] & Hb & H).
  apply insert_body_frames in Hb.
  apply bind_Done in H. destruct H as (n & _ & H).
  destruct (Qtruth (size n)).
  - eapply frames_kept_trans; eauto.
  - injection H as <-. exact Hb.
Qed.

Lemma insert_star_frames (stars : list star) (fuel si : nat) (a a' : arena) :
  insert_star fuel stars si a = Done a' -> frames_kept a a'.
Proof.
  unfold insert_star. destruct (stars !! si); [|discriminate].
  apply insert_loop_frames.
Qed.

Lemma set_root_length (b : bounds) (quads quads' : list quad) :
  set_root b quads = Done quads' -> length quads' = length quads.
Proof.
  unfold set_root. intros H.
  repeat (apply bind_Done in H; destruct H as (? & _ & H)).
  destruct (quads !! 0%nat); [|discriminate].
  injection H as <-. apply length_insert.
Qed.

Lemma insert_body_count (stars : list star) (si : nat) (star : node)
  (a : arena) (p : ptr) (a' : arena) (p' : ptr) :
  insert_body stars si star a p = Done (a', p') ->
  (snd a <= length (fst a))%nat -> (snd a' <= length (fst a'))%nat.
Proof.
  destruct a as [quads count]. intros H Hc. apply insert_body_Done in H.
  destruct H as (qi & q & _ & Hq & _ & Hcases). cbv zeta in Hcases.
  destruct Hcases as [(_ & -> & _)|[(ch & o & sl & _ & _ & _ & Hsl & -> & _)|(ch & nn & _ & _ & _ & -> & _)]];
    cbn [fst snd] in *; rewrite ?length_insert in *; try lia.
  apply lookup_lt_Some in Hsl. rewrite length_insert in Hsl. lia.
Qed.

Lemma insert_loop_count (stars : list star) (si : nat) (star : node) (fuel : nat) :
  forall (a : arena) (p : ptr) (a' : arena),
    insert_loop fuel stars si star a p = Done a' ->
    (snd a <= length (fst a))%nat -> (snd a' <= length (fst a'))%nat.
Proof.
  induction fuel as [|fuel IH]; intros a p a' H Hc; [discriminate|].
  simpl in H. apply bind_Done in H. destruct H as ([a1 p1] & Hb & H).
  apply insert_body_count in Hb; [|exact Hc].
  apply bind_Done in H. destruct H as (n & _ & H).
  destruct (Qtruth (size n)).
  - eapply IH; eauto.
  - injection H as <-. exact Hb.
Qed.

Lemma build_tree_length (fuel n : nat) (stars : list star) (quads : list quad)
  (a : arena) :
  build_tree fuel n stars quads = Done a ->
  length (fst a) = length quads /\ (snd a <= length (fst a))%nat.
Proof.
  unfold build_tree. intros H.
  apply bind_Done in H. destruct H as (b & _ & H).
  apply bind_Done in H. destruct H as (quads0 & H0 & H).
  assert (H1 : (1 <= length quads0)%nat).
  { unfold set_root in H0.
    repeat (apply bind_Done in H0; destruct H0 as (? & _ & H0)).
    destruct (quads !! 0%nat) eqn:E; [|discriminate].
    injection H0 as <-. rewrite length_insert.
    apply lookup_lt_Some in E. lia. }
  apply set_root_length in H0. rewrite <- H0.
  unfold for_range in H.
  apply (for_each_invariant
           (fun a => length (fst a) = length quads0 /\ (snd a <= length (fst a))%nat)
           _ _) with (s := (quads0, 1%nat)) (3 := H); [|simpl; lia].
  intros i s s' _ [Hl Hc] Hb.
  assert (Hf := insert_star_frames _ _ _ _ _ Hb).
  destruct Hf as (_ & Hlen & _). split; [congruence|].
  unfold insert_star in Hb. destruct (stars !! i); [|discriminate].
  eapply insert_loop_count; eauto.
Qed.

(** ** C10: the frame and the stars *)

(** C10: a frame that completes leaves the mass (and the zero [size]) of
    every star where it was, star by star: the array keeps its length and
    its order.  The number of cores and the lengths of the arena and of the
    display buffer are kept as well; what changes is the position, the
    speed and the stored acceleration of the stars, the contents of the
    arena and of the display buffer, and [frame_time]. *)
Theorem world_frame_keeps_stars (config : configuration) (M : libm) (fuel : nat) (sched : list nat)
  (w : world) (time : Q) (w' : world) :
  world_frame config M fuel sched w time = Done w' ->
  map star_identity (stars w') = map star_identity (stars w) /\
  length (stars w') = length (stars w) /\
  cores w' = cores w /\
  length (quads w') = length (quads w) /\
  length (disp_stars w') = length (disp_stars w).
Proof.
  intros H. unfold world_frame in H.
  apply bind_Done in H. destruct H as (ft & _ & H).
  apply bind_Done in H. destruct H as (a & Ha & H).
  apply bind_Done in H. destruct H as (stars1 & H1 & H).
  apply bind_Done in H. destruct H as (stars2 & H2 & H).
  apply bind_Done in H. destruct H as (disp & Hd & H).
  apply bind_Done in H. destruct H as (quads' & Hq & H).
  injection H as <-. cbn [stars cores quads disp_stars].
  assert (E1 : map star_node stars1 = map star_node (stars w)).
  { destruct (1 <? cores w)%Z.
    - eapply run_pool_nodes; eauto.
    - unfold run_inline, for_range in H1. rewrite inline_body_job_body in H1.
      eapply run_inline_nodes; eauto. }
  assert (E2 : map star_identity stars2 = map star_identity (stars w)).
  { unfold for_range in H2. apply move_body_identity in H2.
    rewrite H2. now apply star_identity_nodes. }
  split; [exact E2|]. split.
  - rewrite <- (length_map star_identity stars2), E2. apply length_map.
  - split; [reflexivity|]. split.
    + apply clear_quads_length in Hq. rewrite Hq.
      apply build_tree_length in Ha. tauto.
    + unfold for_range in Hd. eapply display_body_length; eauto.
Qed.

Lemma world_frame_keeps_stars_witness :
  exists w',
    world_frame two_body_config libm0 8 [] two_body 1 = Done w' /\
    map star_identity (stars w') = map star_identity (stars two_body).
Proof.
  eexists. split; [vm_compute; reflexivity|].
  apply (world_frame_keeps_stars two_body_config libm0 8 [] two_body 1).
  vm_compute. reflexivity.
Defined.

(** ** C1: no line of the frame aborts *)

Lemma not_aborts_Done {A : Type} (a : A) : ~ aborts (Done a).
Proof. intros [d H]. discriminate. Qed.

Lemma not_aborts_bind {A B : Type} (m : outcome A) (k : A -> outcome B) :
  ~ aborts m -> (forall a, ~ aborts (k a)) -> ~ aborts (bind m k).
Proof.
  intros Hm Hk. destruct m as [a|f]; simpl; [apply Hk|].
  intros [d H]. apply Hm. exists d. congruence.
Qed.

Lemma not_aborts_for_each {S : Type} (body : nat -> S -> outcome S) (l : list nat) :
  (forall i s, ~ aborts (body i s)) -> forall s, ~ aborts (for_each body l s).
Proof.
  intros Hb. induction l as [|i l IH]; intros s; simpl.
  - apply not_aborts_Done.
  - apply not_aborts_bind; auto.
Qed.

Ltac no_abort :=
  repeat first
    [ apply not_aborts_Done
    | apply not_aborts_bind; [|intros]
    | apply not_aborts_for_each; intros
    | match goal with
      | |- ~ aborts (match ?x with _ => _ end) => destruct x
      | |- ~ aborts (Fault _) => let d := fresh in intros [d ?]; discriminate
      end ].

Lemma not_aborts_deref (stars : list star) (quads : list quad) (p : ptr) :
  ~ aborts (deref stars quads p).
Proof. unfold deref. no_abort. Qed.

Lemma not_aborts_fdiv (a b : Q) : ~ aborts (fdiv a b).
Proof. unfold fdiv. no_abort. Qed.

Lemma not_aborts_walk_each (walk : ptr -> vecd2 -> outcome vecd2) (l : list ptr) :
  (forall p a, ~ aborts (walk p a)) -> forall a, ~ aborts (walk_each walk l a).
Proof.
  intros Hw. induction l as [|p l IH]; intros a; simpl.
  - apply not_aborts_Done.
  - apply not_aborts_bind; auto.
Qed.

Lemma not_aborts_get_accel (config : configuration) (M : libm) (stars : list star)
  (quads : list quad) (fuel : nat) :
  forall star p accel, ~ aborts (get_accel config M stars quads fuel star p accel).
Proof.
  induction fuel as [|fuel IH]; intros star p accel.
  - simpl. no_abort.
  - rewrite get_accel_S. apply not_aborts_bind; [apply not_aborts_deref|].
    intros n. cbv zeta.
    destruct (Qgtb _ _).
    + apply not_aborts_bind; [apply not_aborts_fdiv|]. intros. apply not_aborts_Done.
    + destruct (Qtruth _); [|apply not_aborts_Done].
      destruct p as [i|i]; [no_abort|].
      destruct (quads !! i); [|no_abort].
      apply not_aborts_walk_each. intros. apply IH.
Qed.

Lemma not_aborts_job_body (config : configuration) (M : libm) (fuel : nat) (ft : Q)
  (quads : list quad) (i : nat) (stars : list star) :
  ~ aborts (job_body config M fuel ft quads i stars).
Proof.
  unfold job_body. destruct (stars !! i); [|no_abort].
  apply not_aborts_bind; [apply not_aborts_get_accel|]. intros. apply not_aborts_Done.
Qed.

Lemma not_aborts_update_stars_job (config : configuration) (M : libm) (fuel : nat)
  (P : Z) (ft : Q) (quads : list quad) (part : Z) (stars : list star) :
  ~ aborts (update_stars_job config M fuel P ft quads part stars).
Proof.
  unfold update_stars_job, int_mul, int_div, for_range.
  no_abort. apply not_aborts_job_body.
Qed.

Lemma not_aborts_insert_body (stars : list star) (si : nat) (star : node)
  (a : arena) (p : ptr) :
  ~ aborts (insert_body stars si star a p).
Proof.
  unfold insert_body. destruct a as [quads count].
  destruct p as [i|qi]; [no_abort|].
  destruct (quads !! qi); [|no_abort].
  apply not_aborts_bind; [apply not_aborts_fdiv|]. intros x.
  apply not_aborts_bind; [apply not_aborts_fdiv|]. intros y.
  cbv zeta.
  match goal with |- ~ aborts (match ?c with _ => _ end) => destruct c end;
    [|no_abort].
  apply not_aborts_bind; [apply not_aborts_deref|]. intros old.
  no_abort.
Qed.

Lemma not_aborts_insert_loop (stars : list star) (si : nat) (star : node) (fuel : nat) :
  forall a p, ~ aborts (insert_loop fuel stars si star a p).
Proof.
  induction fuel as [|fuel IH]; intros a p; simpl; [no_abort|].
  apply not_aborts_bind; [apply not_aborts_insert_body|]. intros [a1 p1].
  apply not_aborts_bind; [apply not_aborts_deref|]. intros n.
  destruct (Qtruth (size n)); [apply IH | apply not_aborts_Done].
Qed.

Lemma not_aborts_build_tree (fuel n : nat) (stars : list star) (quads : list quad) :
  ~ aborts (build_tree fuel n stars quads).
Proof.
  unfold build_tree, world_bounds, for_range.
  apply not_aborts_bind.
  { apply not_aborts_for_each. intros. unfold bounds_body. no_abort. }
  intros b. apply not_aborts_bind.
  { unfold set_root, finite. no_abort. }
  intros quads0. apply not_aborts_for_each. intros i a.
  unfold insert_star. destruct (stars !! i); [|no_abort].
  apply not_aborts_insert_loop.
Qed.

Lemma not_aborts_world_frame (config : configuration) (M : libm) (fuel : nat) (sched : list nat)
  (w : world) (time : Q) :
  ~ aborts (world_frame config M fuel sched w time).
Proof.
  unfold world_frame.
  apply not_aborts_bind.
  { unfold clamp_time. apply not_aborts_bind; [apply not_aborts_fdiv|].
    intros. apply not_aborts_Done. }
  intros ft. apply not_aborts_bind; [apply not_aborts_build_tree|]. intros a.
  apply not_aborts_bind.
  { destruct (1 <? cores w)%Z.
    - unfold run_pool. apply not_aborts_for_each. intros.
      apply not_aborts_update_stars_job.
    - unfold run_inline, for_range. apply not_aborts_for_each. intros.
      rewrite inline_body_job_body. apply not_aborts_job_body. }
  intros stars1. apply not_aborts_bind.
  { unfold for_range. apply not_aborts_for_each. intros. unfold move_body. no_abort. }
  intros stars2. apply not_aborts_bind.
  { unfold for_range. apply not_aborts_for_each. intros. unfold display_body. no_abort. }
  intros disp. apply not_aborts_bind.
  { unfold clear_quads. no_abort. }
  intros. apply not_aborts_Done.
Qed.

(** C1, as the specification states it, fails: the arena of the three stars
    of [crowded] has the [2 * 3] quads that [init_world] gives it, the tree
    of their first frame needs a seventh, and the frame does not abort: it
    writes [quads[6]], past the end of the arena. *)
Lemma quad_capacity_counterexample :
  init_world crowded_config 1 crowded_seed = Done crowded /\
  length (quads crowded) = quad_capacity crowded_config /\
  world_frame crowded_config libm0 64 [] crowded 0 = Fault OutOfArena /\
  ~ aborts (world_frame crowded_config libm0 64 [] crowded 0).
Proof.
  split; [reflexivity|]. split; [reflexivity|]. split; [vm_compute; reflexivity|].
  apply not_aborts_world_frame.
Qed.

(** C1 (amended): the build phase has no capacity check and no fatal exit.
    No frame ends in an abort.  The arena that [init_world] allocates has
    [2 * config.stars] quads; a pass of the insertion loop that completes
    leaves the counter as it was or takes the slot [quad_count], inside the
    arena, and advances the counter by one; a build phase that completes
    has used no more quads than the arena holds. *)
Theorem quad_allocation_unchecked (config : configuration) (M : libm) (fuel : nat) (sched : list nat)
  (w : world) (time : Q) :
  ~ aborts (world_frame config M fuel sched w time) /\
  (forall cores seed w0,
     init_world config cores seed = Done w0 ->
     length (quads w0) = quad_capacity config /\
     quad_capacity config = (2 * Z.to_nat (config_stars config))%nat) /\
  (forall stars si star quads count p quads' count' p',
     insert_body stars si star (quads, count) p = Done (quads', count', p') ->
     length quads' = length quads /\
     (count' = count \/
      (count' = S count /\ p' = PQuad count /\ (count < length quads)%nat))) /\
  (forall n stars quads quads' count,
     build_tree fuel n stars quads = Done (quads', count) ->
     length quads' = length quads /\ (count <= length quads)%nat).
Proof.
  split; [apply not_aborts_world_frame|]. split; [|split].
  - intros c seed w0 H. unfold init_world in H.
    destruct (1 <? config_stars config)%Z eqn:E; [|discriminate].
    injection H as <-. cbn [quads]. rewrite length_replicate.
    split; [reflexivity|]. unfold quad_capacity. apply Z.ltb_lt in E. lia.
  - intros stars si star quads count p quads' count' p' H.
    assert (Hf := insert_body_frames _ _ _ _ _ _ _ H).
    destruct Hf as (_ & Hlen & _). split; [exact Hlen|].
    apply insert_body_Done in H.
    destruct H as (qi & q & _ & Hq & _ & Hcases). cbv zeta in Hcases.
    destruct Hcases as [(_ & [= _ <-] & _)|[(ch & o & sl & _ & _ & _ & Hsl & [= _ <-] & ->)|(ch & nn & _ & _ & _ & [= _ <-] & _)]].
    + left; reflexivity.
    + right. apply lookup_lt_Some in Hsl. rewrite length_insert in Hsl. auto.
    + left; reflexivity.
  - intros n stars quads quads' count H.
    apply build_tree_length in H. cbn [fst snd] in H. destruct H as [H1 H2].
    split; [exact H1|]. now rewrite <- H1.
Qed.

(** ** C6: the pool and the single-threaded loop *)

Lemma job_body_unfold (config : configuration) (M : libm) (fuel : nat) (ft : Q)
  (quads : list quad) (i : nat) (stars : list star) :
  job_body config M fuel ft quads i stars
  = match stars !! i with
    | None => Fault WildPointer
    | Some s =>
        let* a := get_accel config M stars quads fuel (star_node s) (PQuad 0)
                    zero_vecd2 in
        Done (<[i := accelerated config ft s a]> stars)
    end.
Proof. reflexivity. Qed.

Lemma accelerated_nodes (config : configuration) (ft : Q) (stars : list star)
  (i : nat) (s : star) (a : vecd2) :
  stars !! i = Some s ->
  map star_node (<[i := accelerated config ft s a]> stars) = map star_node stars.
Proof. intros H. now apply (map_insert_same star_node _ _ s). Qed.

(** Two passes of the loop body for different stars commute: each reads
    the node fields, which no pass writes, and writes its own star. *)
Lemma job_body_commute (config : configuration) (M : libm) (fuel : nat) (ft : Q)
  (quads : list quad) (i j : nat) (stars stars' : list star) :
  i <> j ->
  (let* s1 := job_body config M fuel ft quads i stars in
   job_body config M fuel ft quads j s1) = Done stars' ->
  (let* s1 := job_body config M fuel ft quads j stars in
   job_body config M fuel ft quads i s1) = Done stars'.
Proof.
  intros Hne H. apply bind_Done in H. destruct H as (s1 & Hi & Hj).
  rewrite job_body_unfold in Hi, Hj.
  destruct (stars !! i) as [si|] eqn:Ei; [|discriminate].
  apply bind_Done in Hi. destruct Hi as (ai & Hai & [= <-]).
  rewrite list_lookup_insert_ne in Hj by assumption.
  destruct (stars !! j) as [sj|] eqn:Ej; [|discriminate].
  apply bind_Done in Hj. destruct Hj as (aj & Haj & [= <-]).
  rewrite (get_accel_ext config M _ stars) in Haj
    by (eapply accelerated_nodes; eauto).
  rewrite (job_body_unfold config M fuel ft quads j stars), Ej, Haj.
  cbn [bind]. rewrite job_body_unfold.
  rewrite list_lookup_insert_ne by auto. rewrite Ei.
  rewrite (get_accel_ext config M _ stars) by (eapply accelerated_nodes; eauto).
  rewrite Hai. cbn [bind]. f_equal. apply list_insert_insert_ne. auto.
Qed.

(** The passes of the loop body in any order of the star indices. *)
Lemma job_body_permutation (config : configuration) (M : libm) (fuel : nat) (ft : Q)
  (quads : list quad) (l l' : list nat) :
  Permutation l l' ->
  forall stars stars',
    for_each (job_body config M fuel ft quads) l stars = Done stars' ->
    for_each (job_body config M fuel ft quads) l' stars = Done stars'.
Proof.
  induction 1 as [|x l l' Hp IH|x y l|l l' l'' Hp1 IH1 Hp2 IH2];
    intros stars stars' H.
  - exact H.
  - simpl in *. apply bind_Done in H. destruct H as (s1 & H1 & H2).
    rewrite H1. simpl. auto.
  - destruct (decide (x = y)) as [->|Hne]; [exact H|].
    simpl in *. apply bind_Done in H. destruct H as (s1 & H1 & H).
    apply bind_Done in H. destruct H as (s2 & H2 & H3).
    assert (Hc : (let* t := job_body config M fuel ft quads y stars in
                  job_body config M fuel ft quads x t) = Done s2).
    { rewrite H1. simpl. exact H2. }
    apply job_body_commute in Hc; [|auto].
    apply bind_Done in Hc. destruct Hc as (t1 & Ht1 & Ht2).
    rewrite Ht1. simpl. rewrite Ht2. simpl. exact H3.
  - auto.
Qed.

Lemma update_stars_job_range (config : configuration) (M : libm) (fuel : nat)
  (P : Z) (ft : Q) (quads : list quad) (part : Z) (stars : list star) :
  (0 <= config_stars config)%Z -> (0 < P)%Z -> (0 <= part < P)%Z ->
  (config_stars config * P <= INT_MAX)%Z ->
  update_stars_job config M fuel P ft quads part stars
  = for_range (Z.to_nat (config_stars config * part ÷ P))
      (Z.to_nat (config_stars config * (part + 1) ÷ P))
      (job_body config M fuel ft quads) stars.
Proof.
  intros HN HP Hpart Hmax. unfold update_stars_job, int_mul, int_div.
  assert (H1 : (0 <= config_stars config * part <= INT_MAX)%Z) by nia.
  assert (H2 : (0 <= config_stars config * (part + 1) <= INT_MAX)%Z) by nia.
  assert (Hmin : (INT_MIN <= 0)%Z) by (unfold INT_MIN; lia).
  replace ((INT_MIN <=? config_stars config * part)%Z) with true
    by (symmetry; apply Z.leb_le; lia).
  replace ((config_stars config * part <=? INT_MAX)%Z) with true
    by (symmetry; apply Z.leb_le; lia).
  replace ((INT_MIN <=? config_stars config * (part + 1))%Z) with true
    by (symmetry; apply Z.leb_le; lia).
  replace ((config_stars config * (part + 1) <=? INT_MAX)%Z) with true
    by (symmetry; apply Z.leb_le; lia).
  replace ((P =? 0)%Z) with false by (symmetry; apply Z.eqb_neq; lia).
  reflexivity.
Qed.

Lemma run_pool_prefix (config : configuration) (M : libm) (fuel : nat)
  (P : Z) (ft : Q) (quads : list quad) (stars : list star) :
  (0 <= config_stars config)%Z -> (0 < P)%Z ->
  (config_stars config * P <= INT_MAX)%Z ->
  forall k, (k <= Z.to_nat P)%nat ->
    for_each (fun part => update_stars_job config M fuel P ft quads (Z.of_nat part))
      (seq 0 k) stars
    = for_each (job_body config M fuel ft quads)
        (seq 0 (Z.to_nat (config_stars config * Z.of_nat k ÷ P))) stars.
Proof.
  intros HN HP Hmax. induction k as [|k IH]; intros Hk.
  - rewrite Z.mul_0_r. reflexivity.
  - rewrite seq_S, for_each_app, IH by lia. cbn [for_each plus].
    set (lo := Z.to_nat (config_stars config * Z.of_nat k ÷ P)).
    set (hi := Z.to_nat (config_stars config * Z.of_nat (S k) ÷ P)).
    assert (Hle : (lo <= hi)%nat).
    { unfold lo, hi. apply Z2Nat.inj_le.
      - apply Z.quot_pos; nia.
      - apply Z.quot_pos; nia.
      - apply Z.quot_le_mono; nia. }
    replace hi with (lo + (hi - lo))%nat by lia.
    rewrite seq_app, for_each_app. cbn [plus].
    destruct (for_each (job_body config M fuel ft quads) (seq 0 lo) stars) as [s1|f];
      cbn [bind]; [|reflexivity].
    rewrite update_stars_job_range by lia.
    replace (Z.of_nat k + 1)%Z with (Z.of_nat (S k)) by lia.
    fold lo. fold hi. unfold for_range.
    destruct (for_each (job_body config M fuel ft quads) (seq lo (hi - lo)) s1);
      reflexivity.
Qed.

(** The pool when every thread takes one token of the frame, thread 0
    first. *)
Lemma run_pool_in_turn (config : configuration) (M : libm) (fuel : nat)
  (P : Z) (ft : Q) (quads : list quad) (stars : list star) :
  (0 <= config_stars config)%Z -> (0 < P)%Z ->
  (config_stars config * P <= INT_MAX)%Z ->
  run_pool config M fuel P ft quads (seq 0 (Z.to_nat P)) stars
  = run_inline config M fuel ft quads stars.
Proof.
  intros HN HP Hmax. unfold run_pool, run_inline, for_range.
  rewrite run_pool_prefix by (auto; lia).
  rewrite Z2Nat.id by lia. rewrite Z.quot_mul by lia.
  rewrite Nat.sub_0_r. reflexivity.
Qed.

(** The pool runs the loop body for the stars of the parts of its schedule,
    token by token. *)
Lemma run_pool_passes (config : configuration) (M : libm) (fuel : nat)
  (P : Z) (ft : Q) (quads : list quad) (sched : list nat) :
  (0 <= config_stars config)%Z -> (0 < P)%Z ->
  (config_stars config * P <= INT_MAX)%Z ->
  Forall (fun part => (Z.of_nat part < P)%Z) sched ->
  forall stars,
    run_pool config M fuel P ft quads sched stars
    = for_each (job_body config M fuel ft quads)
        (flat_map (part_indices config P) sched) stars.
Proof.
  intros HN HP Hmax Hs. unfold run_pool.
  induction Hs as [|part sched Hpart Hs IH]; intros stars; [reflexivity|].
  cbn [for_each flat_map]. rewrite for_each_app.
  rewrite update_stars_job_range by lia.
  unfold for_range, part_indices.
  destruct (for_each _ (seq _ _) stars) as [s1|f]; cbn [bind]; [|reflexivity].
  apply IH.
Qed.

Lemma part_indices_in_turn (config : configuration) (P : Z) :
  (0 <= config_stars config)%Z -> (0 < P)%Z ->
  forall k,
    flat_map (part_indices config P) (seq 0 k)
    = seq 0 (Z.to_nat (config_stars config * Z.of_nat k ÷ P)).
Proof.
  intros HN HP. induction k as [|k IH].
  - rewrite Z.mul_0_r. reflexivity.
  - rewrite seq_S, flat_map_app, IH. cbn [flat_map plus]. rewrite app_nil_r.
    unfold part_indices.
    replace (Z.of_nat k + 1)%Z with (Z.of_nat (S k)) by lia.
    set (lo := Z.to_nat (config_stars config * Z.of_nat k ÷ P)).
    set (hi := Z.to_nat (config_stars config * Z.of_nat (S k) ÷ P)).
    assert (Hle : (lo <= hi)%nat).
    { unfold lo, hi. apply Z2Nat.inj_le.
      - apply Z.quot_pos; nia.
      - apply Z.quot_pos; nia.
      - apply Z.quot_le_mono; nia. }
    replace hi with (lo + (hi - lo))%nat at 2 by lia.
    rewrite seq_app. reflexivity.
Qed.

(** When every thread of the pool takes one token of the frame, in whatever
    order, the pool leaves the stars that the single-threaded loop leaves. *)
Lemma run_pool_fair (config : configuration) (M : libm) (fuel : nat)
  (P : Z) (ft : Q) (quads : list quad) (sched : list nat) (stars stars' : list star) :
  (0 <= config_stars config)%Z -> (0 < P)%Z ->
  (config_stars config * P <= INT_MAX)%Z ->
  Permutation sched (seq 0 (Z.to_nat P)) ->
  run_pool config M fuel P ft quads sched stars = Done stars' <->
  run_inline config M fuel ft quads stars = Done stars'.
Proof.
  intros HN HP Hmax Hperm.
  assert (Hs : Forall (fun part => (Z.of_nat part < P)%Z) sched).
  { apply Forall_forall. intros part Hin.
    rewrite Hperm in Hin. apply list_elem_of_In, in_seq in Hin. lia. }
  rewrite run_pool_passes by assumption.
  assert (Hflat : Permutation (flat_map (part_indices config P) sched)
                    (seq 0 (Z.to_nat (config_stars config)))).
  { rewrite Hperm.
    rewrite part_indices_in_turn by assumption.
    rewrite Z2Nat.id by lia. rewrite Z.quot_mul by lia. reflexivity. }
  unfold run_inline, for_range. rewrite Nat.sub_0_r.
  change (inline_body config M) with (job_body config M).
  split; apply job_body_permutation; [exact Hflat | symmetry; exact Hflat].
Qed.

(** X16: when every thread of the pool takes one token of the frame, in
    whatever order, the parts that the schedule runs are the stars
    [0 .. config.stars - 1], each once; the pool runs the loop body for
    them in the order of the schedule, and it completes with the stars with
    which the single-threaded loop completes. *)
Theorem pool_in_turn (config : configuration) (M : libm) (fuel : nat)
  (P : Z) (ft : Q) (tree : list quad) (sched : list nat) (bodies : list star) :
  (0 <= config_stars config)%Z -> (0 < P)%Z ->
  (config_stars config * P <= INT_MAX)%Z ->
  Permutation sched (seq 0 (Z.to_nat P)) ->
  Permutation (flat_map (part_indices config P) sched)
    (seq 0 (Z.to_nat (config_stars config))) /\
  run_pool config M fuel P ft tree sched bodies
  = for_each (job_body config M fuel ft tree)
      (flat_map (part_indices config P) sched) bodies /\
  forall stars',
    run_pool config M fuel P ft tree sched bodies = Done stars' <->
    run_inline config M fuel ft tree bodies = Done stars'.
Proof.
  intros HN HP Hmax Hperm. split; [|split].
  - rewrite Hperm. rewrite part_indices_in_turn by assumption.
    rewrite Z2Nat.id by lia. rewrite Z.quot_mul by lia. reflexivity.
  - apply run_pool_passes; try assumption.
    apply Forall_forall. intros part Hin.
    rewrite Hperm in Hin. apply list_elem_of_In, in_seq in Hin. lia.
  - intros stars'. apply run_pool_fair; assumption.
Qed.

Lemma pool_in_turn_witness :
  exists tree count stars',
    build_tree 8 2 (stars drifting) (quads drifting) = Done (tree, count) /\
    run_inline dyadic_config libm0 8 (1 # 32) tree (stars drifting) = Done stars' /\
    run_pool dyadic_config libm0 8 2 (1 # 32) tree [1; 0]%nat (stars drifting)
    = Done stars' /\
    stars' <> stars drifting.
Proof.
  do 3 eexists. split; [vm_compute; reflexivity|].
  split; [vm_compute; reflexivity|]. split.
  - apply (pool_in_turn dyadic_config libm0 8 2 (1 # 32) _ [1; 0]%nat (stars drifting)
             ltac:(vm_compute; congruence) ltac:(reflexivity)
             ltac:(vm_compute; congruence) ltac:(apply perm_swap)).
    vm_compute. reflexivity.
  - intros H. apply (f_equal (fun l => l !! 1%nat)) in H. vm_compute in H.
    discriminate H.
Defined.

(** C6: a pool of two threads in which thread 0 takes both tokens of the
    frame.  On the tree of the two stars of [drifting], with the time step
    1/32, the single-threaded loop gives both stars the speed
    [1 + (1/2 + g)] and the stored acceleration [g] = 1/8 * (1/32 * 1 / 2);
    the pool runs part 0 twice and part 1 never: star 0 is advanced twice
    and star 1 is left as it was, so the two paths do not agree.  When each
    thread takes one token ([0; 1] or [1; 0]) the pool leaves the stars of
    the single-threaded loop. *)
Theorem pool_token_taken_twice :
  exists tree count inline pool,
    build_tree 8 2 (stars drifting) (quads drifting) = Done (tree, count) /\
    run_inline dyadic_config libm0 8 (1 # 32) tree (stars drifting) = Done inline /\
    run_pool dyadic_config libm0 8 2 (1 # 32) tree [0; 0]%nat (stars drifting)
    = Done pool /\
    run_pool dyadic_config libm0 8 2 (1 # 32) tree [0; 1]%nat (stars drifting)
    = Done inline /\
    run_pool dyadic_config libm0 8 2 (1 # 32) tree [1; 0]%nat (stars drifting)
    = Done inline /\
    Forall (fun s => vec_x (speed s) == 1 + ((1 # 2) + (1 # 512)) /\
                     vec_x (accel s) == 1 # 512) inline /\
    pool !! 1%nat = stars drifting !! 1%nat /\
    (exists s, pool !! 0%nat = Some s /\
       vec_x (speed s) == 1 + ((1 # 2) + (1 # 512)) + ((1 # 512) + (1 # 512)) /\
       vec_x (accel s) == 1 # 512) /\
    pool <> inline.
Proof.
  do 4 eexists.
  split; [vm_compute; reflexivity|].
  split; [vm_compute; reflexivity|].
  split; [vm_compute; reflexivity|].
  split; [vm_compute; reflexivity|].
  split; [vm_compute; reflexivity|].
  split; [repeat constructor; vm_compute; reflexivity|].
  split; [reflexivity|].
  split; [eexists; split; [reflexivity | split; vm_compute; reflexivity]|].
  intros H. apply (f_equal (fun l => l !! 1%nat)) in H. vm_compute in H.
  discriminate H.
Qed.

(** ** C8: a frame of zero duration *)

(** A loop whose pass [i] replaces the star [i] by one related to it by
    [R], over indices without repetition: every star of the list is
    replaced once by a related one, the others stay. *)
Lemma for_each_pointwise (R : star -> star -> Prop)
  (body : nat -> list star -> outcome (list star)) (l : list nat) :
  NoDup l ->
  (forall i st st', body i st = Done st' ->
     exists s s', st !! i = Some s /\ st' = <[i := s']> st /\ R s s') ->
  forall st st',
    for_each body l st = Done st' ->
    forall i s, st !! i = Some s ->
      (i ∈ l -> exists s', st' !! i = Some s' /\ R s s') /\
      (i ∉ l -> st' !! i = Some s).
Proof.
  intros Hnd Hbody. induction Hnd as [|x l Hx Hnd IH]; intros st st' Hrun i s Hi.
  - simpl in Hrun. injection Hrun as <-. split; [|auto].
    intros Hin. apply elem_of_nil in Hin. contradiction.
  - simpl in Hrun. apply bind_Done in Hrun. destruct Hrun as (st1 & H1 & H2).
    destruct (Hbody x st st1 H1) as (sx & sx' & Hsx & -> & HR).
    destruct (decide (i = x)) as [->|Hne].
    + assert (s = sx) by congruence. subst sx.
      assert (H1x : <[x := sx']> st !! x = Some sx').
      { apply list_lookup_insert_eq. eapply lookup_lt_Some; eauto. }
      destruct (IH _ _ H2 x sx' H1x) as [_ Hout].
      split.
      * intros _. exists sx'. split; [apply Hout; exact Hx | exact HR].
      * intros Hnot. exfalso. apply Hnot. apply list_elem_of_here.
    + assert (H1i : <[x := sx']> st !! i = Some s)
        by (rewrite list_lookup_insert_ne; auto).
      destruct (IH _ _ H2 i s H1i) as [Hin Hout].
      split.
      * intros Hil. apply elem_of_cons in Hil. destruct Hil as [?|Hil]; [congruence|].
        auto.
      * intros Hnot. apply Hout. intros Hil. apply Hnot.
        now apply list_elem_of_further.
Qed.

Lemma Qmin_zero_clamp (m s : Q) : 0 < m -> Qmin 0 (1 / m) * s == 0.
Proof.
  intros Hm. rewrite Q.min_l.
  - ring.
  - unfold Qdiv. rewrite Qmult_1_l. apply Qlt_le_weak. now apply Qinv_lt_0_compat.
Qed.

(** In the arithmetic of the rationals: with a positive [min_fps],
    [config.stars] stars in the array and the products of the pool inside
    the range of [int], a frame of duration 0
    that completes on the single-threaded path, or with a pool in which
    every thread takes one token, leaves [x] and [y] of every star as they
    were, adds the stored acceleration to its speed, and stores the
    acceleration zero. *)
Lemma frame_of_zero_duration_in_turn (config : configuration) (M : libm)
  (fuel : nat) (sched : list nat) (w w' : world) :
  0 < config_min_fps config ->
  Z.to_nat (config_stars config) = length (stars w) ->
  (config_stars config * cores w <= INT_MAX)%Z ->
  ((cores w <= 1)%Z \/ Permutation sched (seq 0 (Z.to_nat (cores w)))) ->
  world_frame config M fuel sched w 0 = Done w' ->
  forall i s, stars w !! i = Some s ->
    exists s', stars w' !! i = Some s' /\
      node_x (star_node s') == node_x (star_node s) /\
      node_y (star_node s') == node_y (star_node s) /\
      vec_x (speed s') == vec_x (speed s) + vec_x (accel s) /\
      vec_y (speed s') == vec_y (speed s) + vec_y (accel s) /\
      vec_x (accel s') == 0 /\ vec_y (accel s') == 0.
Proof.
  intros Hfps Hlen Hmax Hfair H i s Hi.
  assert (HN : (0 <= config_stars config)%Z).
  { apply lookup_lt_Some in Hi. lia. }
  unfold world_frame in H.
  rewrite clamp_time_Done in H by lra. cbn [bind] in H.
  set (ft := Qmin 0 (1 / config_min_fps config) * config_speed config) in *.
  assert (Hft : ft == 0) by (apply Qmin_zero_clamp; assumption).
  apply bind_Done in H. destruct H as (a & Ha & H).
  apply bind_Done in H. destruct H as (stars1 & H1 & H).
  apply bind_Done in H. destruct H as (stars2 & H2 & H).
  apply bind_Done in H. destruct H as (disp & Hd & H).
  apply bind_Done in H. destruct H as (quads' & Hq & H).
  injection H as <-. cbn [stars].
  assert (H1' : for_each (job_body config M fuel ft (fst a))
                  (seq 0 (Z.to_nat (config_stars config))) (stars w) = Done stars1).
  { destruct (1 <? cores w)%Z eqn:Ec.
    - apply Z.ltb_lt in Ec. destruct Hfair as [Hc|Hperm]; [lia|].
      apply run_pool_fair in H1; [|auto; lia..].
      unfold run_inline, for_range in H1. now rewrite Nat.sub_0_r in H1.
    - unfold run_inline, for_range in H1. now rewrite Nat.sub_0_r in H1. }
  assert (Hin : i ∈ seq 0 (Z.to_nat (config_stars config))).
  { apply list_elem_of_In, in_seq. apply lookup_lt_Some in Hi. lia. }
  destruct (for_each_pointwise
              (fun s s1 => star_node s1 = star_node s /\
                 vec_x (speed s1) == vec_x (speed s) + vec_x (accel s) /\
                 vec_y (speed s1) == vec_y (speed s) + vec_y (accel s) /\
                 vec_x (accel s1) == 0 /\ vec_y (accel s1) == 0)
              (job_body config M fuel ft (fst a))
              (seq 0 (Z.to_nat (config_stars config)))
              (NoDup_seq 0 _)) with (st := stars w) (st' := stars1) (i := i) (s := s)
    as [Hacc _]; auto.
  { intros j st st' Hb. rewrite job_body_unfold in Hb.
    destruct (st !! j) as [sj|] eqn:Ej; [|discriminate].
    apply bind_Done in Hb. destruct Hb as (aj & _ & [= <-]).
    exists sj, (accelerated config ft sj aj). split; [reflexivity|].
    split; [reflexivity|]. unfold accelerated. cbn.
    rewrite Hft. repeat split; try reflexivity; qlra. }
  destruct (Hacc Hin) as (s1 & Hs1 & Hn1 & Hvx & Hvy & Hax & Hay).
  unfold for_range in H2. rewrite Nat.sub_0_r in H2.
  destruct (for_each_pointwise
              (fun s1 s2 => speed s2 = speed s1 /\ accel s2 = accel s1 /\
                 node_x (star_node s2) == node_x (star_node s1) /\
                 node_y (star_node s2) == node_y (star_node s1))
              (move_body ft)
              (seq 0 (Z.to_nat (config_stars config)))
              (NoDup_seq 0 _)) with (st := stars1) (st' := stars2) (i := i) (s := s1)
    as [Hmov _]; auto.
  { intros j st st' Hb. apply move_body_Done in Hb. destruct Hb as (sj & Ej & ->).
    exists sj. eexists. split; [exact Ej|]. split; [reflexivity|]. cbn.
    rewrite Hft. repeat split; ring. }
  destruct (Hmov Hin) as (s2 & Hs2 & Hsp & Hac & Hx & Hy).
  exists s2. split; [exact Hs2|]. rewrite Hsp, Hac, Hx, Hy, Hn1.
  repeat split; auto; reflexivity.
Qed.

(** C8: a frame of duration 0 of a pool of two threads in which thread 0
    takes both tokens.  The positions stay, star 0 gets its stored
    acceleration added and stores zero; star 1, whose part no thread runs,
    keeps the speed 1 and the stored acceleration 1/2 that it had.  The same
    frame with one token for each thread advances both stars. *)
Theorem zero_duration_token_taken_twice :
  exists w' w'',
    world_frame dyadic_config libm0 8 [0; 0]%nat drifting 0 = Done w' /\
    Forall2 (fun s' s => node_x (star_node s') == node_x (star_node s) /\
                         node_y (star_node s') == node_y (star_node s))
      (stars w') (stars drifting) /\
    (exists s, stars w' !! 0%nat = Some s /\
       vec_x (speed s) == 1 + (1 # 2) /\ vec_x (accel s) == 0) /\
    (exists s, stars w' !! 1%nat = Some s /\
       vec_x (speed s) == 1 /\ vec_x (accel s) == 1 # 2) /\
    world_frame dyadic_config libm0 8 [0; 1]%nat drifting 0 = Done w'' /\
    Forall (fun s => vec_x (speed s) == 1 + (1 # 2) /\ vec_x (accel s) == 0)
      (stars w'').
Proof.
  do 2 eexists.
  split; [vm_compute; reflexivity|].
  split; [repeat constructor; vm_compute; reflexivity|].
  split; [eexists; split; [reflexivity | split; vm_compute; reflexivity]|].
  split; [eexists; split; [reflexivity | split; vm_compute; reflexivity]|].
  split; [vm_compute; reflexivity|].
  repeat constructor; vm_compute; reflexivity.
Qed.

(** ** C5: the force kernel is total and never divides by zero *)

Lemma distance_sqr_nonneg (star n : node) : 0 <= distance_sqr star n.
Proof.
  unfold distance_sqr.
  generalize (node_x n - node_x star) (node_y n - node_y star). intros u v. nra.
Qed.

Lemma non_null_children_elem (q : quad) (c : ptr) :
  c ∈ non_null_children q <-> exists k, (0 <= k < 4)%Z /\ children q k = Some c.
Proof.
  unfold non_null_children. split.
  - intros H. apply list_elem_of_omap in H. destruct H as (o & Ho & Hc).
    unfold id in Hc. subst o.
    repeat (apply elem_of_cons in Ho; destruct Ho as [Ho|Ho]);
      [exists 0%Z | exists 1%Z | exists 2%Z | exists 3%Z |
       apply elem_of_nil in Ho; contradiction];
      (split; [lia | simpl; congruence]).
  - intros (k & Hk & Hc). apply list_elem_of_omap. exists (Some c).
    split; [|reflexivity]. rewrite <- Hc.
    quadrants k Hk; simpl; repeat first [apply list_elem_of_here | apply list_elem_of_further].
Qed.

Lemma walk_each_total (walk : ptr -> vecd2 -> outcome vecd2) (l : list ptr) :
  (forall p a, p ∈ l -> exists v, walk p a = Done v) ->
  forall a, exists v, walk_each walk l a = Done v.
Proof.
  induction l as [|p l IH]; intros Hw a; simpl; [eauto|].
  destruct (Hw p a (list_elem_of_here _ _)) as (v & ->). simpl.
  apply IH. intros p' a' Hp. apply Hw. now apply list_elem_of_further.
Qed.

Lemma get_accel_never_divides_by_zero (config : configuration) (M : libm)
  (stars : list star) (quads : list quad) (fuel : nat) :
  0 < config_epsilon config ->
  forall star p accel,
    get_accel config M stars quads fuel star p accel <> Fault NonFinite.
Proof.
  intros Heps. induction fuel as [|fuel IH]; intros star p accel; [discriminate|].
  rewrite get_accel_S. destruct (deref stars quads p) as [n|f] eqn:Hn; simpl.
  - destruct (Qgtb _ _).
    + fold (distance_sqr star n). rewrite fdiv_Done.
      * discriminate.
      * pose proof (distance_sqr_nonneg star n). intros E. lra.
    + destruct (Qtruth _); [|discriminate].
      destruct p as [i|i]; [discriminate|].
      destruct (quads !! i) as [q|]; [|discriminate].
      generalize (non_null_children q) accel. intros l.
      induction l as [|c l IHl]; intros a; simpl; [discriminate|].
      destruct (get_accel config M stars quads fuel star c a) as [v|f] eqn:E;
        simpl; [apply IHl|].
      intros [= ->]. apply (IH star c a). exact E.
  - destruct p as [i|i]; simpl in Hn.
    + destruct (stars !! i); [discriminate|]. injection Hn as <-. discriminate.
    + destruct (quads !! i); [discriminate|]. injection Hn as <-. discriminate.
Qed.

Lemma get_accel_total_fuel (config : configuration) (M : libm)
  (stars : list star) (quads : list quad) (star : node) :
  0 < config_epsilon config -> walkable stars quads ->
  forall fuel p accel,
    match p with
    | PStar a => (a < length stars)%nat /\ (1 <= fuel)%nat
    | PQuad i => (i < length quads)%nat /\ (length quads - i + 1 <= fuel)%nat
    end ->
    exists v, get_accel config M stars quads fuel star p accel = Done v.
Proof.
  intros Heps [Hstars Hquads]. induction fuel as [|fuel IH]; intros p accel Hp.
  - destruct p; lia.
  - rewrite get_accel_S.
    assert (Hd : exists n, deref stars quads p = Done n).
    { destruct p as [a|i]; destruct Hp as [Hp _]; simpl.
      - destruct (lookup_lt_is_Some_2 stars a Hp) as [s ->]. eauto.
      - destruct (lookup_lt_is_Some_2 quads i Hp) as [q ->]. eauto. }
    destruct Hd as (n & Hn). rewrite Hn. simpl.
    destruct (Qgtb _ _).
    + fold (distance_sqr star n). rewrite fdiv_Done; [simpl; eauto|].
      pose proof (distance_sqr_nonneg star n). intros E. lra.
    + destruct (Qtruth (size n)) eqn:Hsz; [|eauto].
      destruct p as [a|i].
      * exfalso. simpl in Hn. destruct (stars !! a) as [s|] eqn:Hs; [|discriminate].
        injection Hn as <-. apply Qtruth_true in Hsz. apply Hsz. eauto.
      * destruct Hp as [Hi Hfuel].
        destruct (lookup_lt_is_Some_2 quads i Hi) as [q Hq]. rewrite Hq.
        apply walk_each_total. intros c a Hc.
        apply non_null_children_elem in Hc. destruct Hc as (k & Hk & Hc).
        apply IH. specialize (Hquads i q k c Hq Hk Hc).
        destruct c as [b|j]; lia.
Qed.

(** C5: with [epsilon > 0] the divisor [distance_sqr + epsilon] of the
    accepted branch is positive, and no walk ends in a division by zero,
    whatever the star, the node and the arena hold; on an arena that can
    be walked, the walk from any valid pointer returns; and a node of size
    0 at the very position of the target (where [sqrt] of zero is not
    positive) adds nothing to the accumulator. *)
Theorem get_accel_total (config : configuration) (M : libm) (stars : list star)
  (quads : list quad) (star : node) :
  0 < config_epsilon config ->
  (forall n, 0 < distance_sqr star n + config_epsilon config) /\
  (forall fuel p accel,
     get_accel config M stars quads fuel star p accel <> Fault NonFinite) /\
  (walkable stars quads ->
   forall p accel, valid_ptr stars quads p ->
     exists v, get_accel config M stars quads (S (length quads)) star p accel = Done v) /\
  (forall fuel p accel n,
     deref stars quads p = Done n ->
     node_x n == node_x star -> node_y n == node_y star -> size n == 0 ->
     (forall d, d == 0 -> sqrt M d <= 0) ->
     get_accel config M stars quads (S fuel) star p accel = Done accel).
Proof.
  intros Heps. split; [|split; [|split]].
  - intros n. pose proof (distance_sqr_nonneg star n). lra.
  - intros fuel. now apply get_accel_never_divides_by_zero.
  - intros Hw p accel Hp. apply get_accel_total_fuel; auto.
    destruct p as [a|i]; simpl in Hp; lia.
  - intros fuel p accel n Hn Hx Hy Hsz Hsqrt.
    rewrite get_accel_S, Hn. simpl.
    assert (Hd : (node_x n - node_x star) * (node_x n - node_x star)
                 + (node_y n - node_y star) * (node_y n - node_y star) == 0)
      by (rewrite Hx, Hy; ring).
    specialize (Hsqrt _ Hd).
    replace (Qgtb _ _) with false.
    + apply Qtruth_false in Hsz. now rewrite Hsz.
    + symmetry. apply Qgtb_false. rewrite Hsz. lra.
Qed.

Lemma get_accel_total_witness :
  0 < config_epsilon two_body_config /\
  get_accel two_body_config libm0 (stars two_body) [zero_quad] 1
    (star_node (star_at (-1) 0 1)) (PStar 0) zero_vecd2 = Done zero_vecd2.
Proof.
  split; [reflexivity|].
  apply (get_accel_total two_body_config libm0 (stars two_body) [zero_quad]
           (star_node (star_at (-1) 0 1)) ltac:(reflexivity))
    with (n := star_node (star_at (-1) 0 1)); try reflexivity.
  intros d Hd. simpl. rewrite Hd. apply Qle_refl.
Defined.

(** ** The build phase keeps the shape of the tree *)

Lemma set_root_zeroed (quads quads0 : list quad) (x0 y0 x1 y1 : Q) :
  zeroed quads ->
  set_root (mkbounds (Some x0) (Some y0) (Some x1) (Some y1)) quads = Done quads0 ->
  quads0 = <[0%nat := root_quad x0 y0 x1 y1]> quads /\ (1 <= length quads)%nat.
Proof.
  intros Hz H. unfold set_root in H. cbn in H.
  destruct (quads !! 0%nat) as [q|] eqn:Hq; [|discriminate].
  assert (q = zero_quad) by (eapply Hz; eauto). subst q.
  injection H as <-. split; [reflexivity|].
  apply lookup_lt_Some in Hq. lia.
Qed.

Lemma root_quad_covers (x0 y0 x1 y1 : Q) (s : node) :
  x0 <= node_x s -> node_x s <= x1 -> y0 <= node_y s -> node_y s <= y1 ->
  in_square (root_quad x0 y0 x1 y1) s.
Proof.
  intros. unfold in_square, root_quad, root_size. cbn.
  destruct (Qgtb (x1 - x0) (y1 - y0)) eqn:E;
    [apply Qgtb_true in E | apply Qgtb_false in E]; repeat split; qlra.
Qed.

Lemma root_size_pos (x0 y0 x1 y1 : Q) (s t : node) :
  x0 <= node_x s -> node_x s <= x1 -> y0 <= node_y s -> node_y s <= y1 ->
  x0 <= node_x t -> node_x t <= x1 -> y0 <= node_y t -> node_y t <= y1 ->
  apart s t -> 0 < root_size x0 y0 x1 y1.
Proof.
  intros ? ? ? ? ? ? ? ? Hap. unfold root_size.
  assert (Hd : ~ node_x s == node_x t \/ ~ node_y s == node_y t).
  { destruct (Qeq_dec (node_x s) (node_x t)) as [Ex|Ex]; [|auto].
    destruct (Qeq_dec (node_y s) (node_y t)) as [Ey|Ey]; [|auto].
    exfalso. apply Hap. auto. }
  destruct (Qgtb (x1 - x0) (y1 - y0)) eqn:E;
    [apply Qgtb_true in E | apply Qgtb_false in E];
    destruct Hd as [Hd|Hd];
    try (destruct (Q_dec (node_x s) (node_x t)) as [[?|?]|?]; [lra | lra | contradiction]);
    try (destruct (Q_dec (node_y s) (node_y t)) as [[?|?]|?]; [lra | lra | contradiction]).
Qed.

Lemma tree_ok_root (stars : list star) (quads : list quad) (x0 y0 x1 y1 : Q) :
  zeroed quads -> (1 <= length quads)%nat -> 0 < root_size x0 y0 x1 y1 ->
  tree_ok stars 0 (<[0%nat := root_quad x0 y0 x1 y1]> quads) 1.
Proof.
  intros Hz Hlen Hpos.
  assert (Hlook : forall i q, <[0%nat := root_quad x0 y0 x1 y1]> quads !! i = Some q ->
             (i < 1)%nat -> q = root_quad x0 y0 x1 y1).
  { intros i q Hi Hlt. assert (i = 0%nat) by lia. subst i.
    rewrite list_lookup_insert_eq in Hi by lia. congruence. }
  constructor.
  - rewrite length_insert. lia.
  - intros i q Hi Hge. rewrite list_lookup_insert_ne in Hi by lia. eauto.
  - intros i q Hi Hlt. rewrite (Hlook i q Hi Hlt). cbn.
    split; [exact Hpos|]. split; [lra | lia].
  - intros i q k j Hi Hlt Hk Hch. rewrite (Hlook i q Hi Hlt) in Hch.
    quadrants k Hk; discriminate.
  - intros i q k a Hi Hlt Hk Hch. rewrite (Hlook i q Hi Hlt) in Hch.
    quadrants k Hk; discriminate.
  - intros i i' q q' k k' j Hi Hi' Hlt Hlt' Hk Hk' Hch Hch'.
    rewrite (Hlook i q Hi Hlt) in Hch. quadrants k Hk; discriminate.
Qed.

(** The build phase, taken apart: the bounds of the [n >= 1] stars, the
    root, and the loop over the stars. *)
Lemma build_tree_Done (fuel n : nat) (stars : list star) (quads : list quad)
  (a : arena) :
  zeroed quads -> spread stars n ->
  build_tree fuel n stars quads = Done a ->
  exists x0 y0 x1 y1,
    (1 <= length quads)%nat /\
    0 < root_size x0 y0 x1 y1 /\
    (forall i s, (i < n)%nat -> stars !! i = Some s ->
       in_square (root_quad x0 y0 x1 y1) (star_node s)) /\
    for_range 0 n (insert_star fuel stars)
      (<[0%nat := root_quad x0 y0 x1 y1]> quads, 1%nat) = Done a.
Proof.
  intros Hz (ia & ib & sa & sb & Hia & Hib & Hsa & Hsb & Hap) H.
  unfold build_tree in H.
  apply bind_Done in H. destruct H as (b & Hb & H).
  apply bind_Done in H. destruct H as (quads0 & H0 & H).
  destruct n as [|n]; [lia|].
  apply world_bounds_cover in Hb.
  destruct Hb as (x0 & y0 & x1 & y1 & -> & Hcov).
  apply set_root_zeroed in H0; [|exact Hz]. destruct H0 as [-> Hlen].
  exists x0, y0, x1, y1. split; [exact Hlen|].
  destruct (Hcov ia sa ltac:(lia) Hsa) as (? & ? & ? & ?).
  destruct (Hcov ib sb ltac:(lia) Hsb) as (? & ? & ? & ?).
  split; [eapply (root_size_pos x0 y0 x1 y1 (star_node sa) (star_node sb)); eauto|].
  split; [|exact H].
  intros i s Hi Hs. destruct (Hcov i s ltac:(lia) Hs) as (? & ? & ? & ?).
  now apply root_quad_covers.
Qed.

(** ** Masses and moments in exact arithmetic *)

Lemma sum4_ext (g g' : option ptr -> Q) (q : quad) :
  (forall k, (0 <= k < 4)%Z -> g (children q k) == g' (children q k)) ->
  sum4 g q == sum4 g' q.
Proof.
  intros H. unfold sum4.
  rewrite (H 0%Z), (H 1%Z), (H 2%Z), (H 3%Z) by lia. reflexivity.
Qed.

Lemma sum4_one (g g' : option ptr -> Q) (q : quad) (k : Z) (e : Q) :
  (0 <= k < 4)%Z ->
  (forall k', (0 <= k' < 4)%Z -> k' <> k -> g (children q k') == g' (children q k')) ->
  g (children q k) == g' (children q k) + e ->
  sum4 g q == sum4 g' q + e.
Proof.
  intros Hk H He. unfold sum4.
  quadrants k Hk; simpl in He.
  - rewrite He, (H 1%Z), (H 2%Z), (H 3%Z) by lia. simpl. ring.
  - rewrite He, (H 0%Z), (H 2%Z), (H 3%Z) by lia. simpl. ring.
  - rewrite He, (H 0%Z), (H 1%Z), (H 3%Z) by lia. simpl. ring.
  - rewrite He, (H 0%Z), (H 1%Z), (H 2%Z) by lia. simpl. ring.
Qed.

Lemma sum4_set (g g' : option ptr -> Q) (q : quad) (k : Z) (v : option ptr) :
  (0 <= k < 4)%Z ->
  (forall k', (0 <= k' < 4)%Z -> k' <> k -> g (children q k') == g' (children q k')) ->
  sum4 g (set_children q k v) == sum4 g' q - g' (children q k) + g v.
Proof.
  intros Hk H. unfold sum4.
  quadrants k Hk; simpl.
  - rewrite (H 1%Z), (H 2%Z), (H 3%Z) by lia. simpl. ring.
  - rewrite (H 0%Z), (H 2%Z), (H 3%Z) by lia. simpl. ring.
  - rewrite (H 0%Z), (H 1%Z), (H 3%Z) by lia. simpl. ring.
  - rewrite (H 0%Z), (H 1%Z), (H 2%Z) by lia. simpl. ring.
Qed.

Lemma sum4_add_star (g : option ptr -> Q) (q : quad) (s : node) :
  sum4 g (add_star q s) = sum4 g q.
Proof. reflexivity. Qed.

Lemma weight_m_add_star (q : quad) (s : node) :
  ~ mass (quad_node q) + mass s == 0 ->
  weight_m (quad_node (add_star q s)) == weight_m (quad_node q) + weight_m s.
Proof. intros _. reflexivity. Qed.

Lemma weight_x_add_star (q : quad) (s : node) :
  ~ mass (quad_node q) + mass s == 0 ->
  weight_x (quad_node (add_star q s)) == weight_x (quad_node q) + weight_x s.
Proof. intros H. unfold weight_x. cbn. field. exact H. Qed.

Lemma weight_y_add_star (q : quad) (s : node) :
  ~ mass (quad_node q) + mass s == 0 ->
  weight_y (quad_node (add_star q s)) == weight_y (quad_node q) + weight_y s.
Proof. intros H. unfold weight_y. cbn. field. exact H. Qed.

Lemma sum4_split_off (g : option ptr -> Q) (q : quad) (k : Z) (old_star : node)
  (child : ptr) :
  sum4 g (split_off q k old_star child zero_quad)
  == g None + g None + g None + g (Some child).
Proof.
  unfold split_off. cbv zeta.
  match goal with
  | |- context [set_children ?b (get_quadrant ?b' ?o) _] =>
      assert (Hk : (0 <= get_quadrant b' o < 4)%Z) by apply get_quadrant_range;
      revert Hk; generalize (get_quadrant b' o)
  end.
  intros k2 Hk2. unfold sum4. quadrants k2 Hk2; simpl; ring.
Qed.

Section Weights.

Variable f : node -> Q.
Hypothesis f_zero : f zero_node == 0.
Hypothesis f_add : forall q s,
  ~ mass (quad_node q) + mass s == 0 ->
  f (quad_node (add_star q s)) == f (quad_node q) + f s.
Hypothesis f_node : forall n n',
  node_x n = node_x n' -> node_y n = node_y n' -> mass n = mass n' -> f n = f n'.

Variable stars : list star.

Lemma slot_weight_None (quads : list quad) (cur : nat) (e : Q) :
  slot_weight f stars quads cur e None == 0.
Proof. unfold slot_weight. simpl. rewrite f_zero. ring. Qed.

Lemma slot_weight_star (quads : list quad) (cur : nat) (e : Q) (a : nat) (s : star) :
  stars !! a = Some s ->
  slot_weight f stars quads cur e (Some (PStar a)) == f (star_node s).
Proof. intros H. unfold slot_weight. simpl. rewrite H. ring. Qed.

Lemma slot_weight_quad (quads : list quad) (cur : nat) (e : Q) (j : nat) (q : quad) :
  quads !! j = Some q ->
  slot_weight f stars quads cur e (Some (PQuad j))
  == f (quad_node q) + (if (j =? cur)%nat then e else 0).
Proof. intros H. unfold slot_weight. simpl. rewrite H. reflexivity. Qed.

(** A slot weighs the same in two arenas that agree on the quad it points
    to, when it is not the slot that carries the extra share. *)
Lemma slot_weight_same (quads quads' : list quad) (cur cur' : nat) (e e' : Q)
  (c : option ptr) :
  (forall j, c = Some (PQuad j) ->
     j <> cur /\ (j <> cur' \/ e' == 0) /\
     exists q q', quads !! j = Some q /\ quads' !! j = Some q' /\
                  f (quad_node q') == f (quad_node q)) ->
  slot_weight f stars quads' cur' e' c == slot_weight f stars quads cur e c.
Proof.
  intros H. destruct c as [[a|j]|].
  - unfold slot_weight. simpl. reflexivity.
  - destruct (H j eq_refl) as (Hne & Hne' & q & q' & Hq & Hq' & Hf).
    rewrite (slot_weight_quad quads' cur' e' j q' Hq').
    rewrite (slot_weight_quad quads cur e j q Hq).
    rewrite Hf.
    replace (j =? cur)%nat with false by (symmetry; apply Nat.eqb_neq; exact Hne).
    destruct (j =? cur')%nat eqn:E; [|reflexivity].
    apply Nat.eqb_eq in E. destruct Hne' as [?|He]; [contradiction|].
    rewrite He. reflexivity.
  - rewrite !slot_weight_None. reflexivity.
Qed.

(** One pass moves the arena from [quads] to [quads']: the quad [cur] has
    taken the share [e]; the other quads in use are as they were.  A slot
    that does not carry the new extra share weighs in [quads'] what it
    weighed in [quads], where the slot of [cur] carried [e]. *)
Lemma slot_weight_step (quads quads' : list quad) (count cur cur' : nat) (e e' : Q)
  (q qc' : quad) (c : option ptr) :
  quads !! cur = Some q -> quads' !! cur = Some qc' ->
  f (quad_node qc') == f (quad_node q) + e ->
  (forall j qj, j <> cur -> (j < count)%nat -> quads !! j = Some qj ->
     quads' !! j = Some qj) ->
  (count <= length quads)%nat ->
  (cur <> cur' \/ e' == 0) ->
  (forall j, c = Some (PQuad j) -> (j < count)%nat /\ (j <> cur' \/ e' == 0)) ->
  slot_weight f stars quads' cur' e' c == slot_weight f stars quads cur e c.
Proof.
  intros Hq Hq' Hf Hsame Hlen Hcur Hc.
  destruct c as [[a|j]|].
  - unfold slot_weight. simpl. reflexivity.
  - destruct (Hc j eq_refl) as [Hj Hj'].
    destruct (decide (j = cur)) as [->|Hne].
    + rewrite (slot_weight_quad quads' cur' e' cur qc' Hq').
      rewrite (slot_weight_quad quads cur e cur q Hq).
      rewrite Hf, Nat.eqb_refl.
      destruct (cur =? cur')%nat eqn:E; [|ring].
      apply Nat.eqb_eq in E. destruct Hcur as [?|He]; [contradiction|].
      rewrite He. ring.
    + destruct (lookup_lt_is_Some_2 quads j ltac:(lia)) as [qj Hqj].
      apply slot_weight_same. intros j0 [= <-].
      split; [exact Hne|]. split; [exact Hj'|].
      exists qj, qj. split; [exact Hqj|]. split; [eauto | reflexivity].
  - rewrite !slot_weight_None. reflexivity.
Qed.

(** One pass of the insertion loop keeps the quads balanced: the share of
    the star moves from the slot of the current quad into that quad, and
    on to the slot of the next one. *)
Lemma balanced_step (si : nat) (s : star) (quads : list quad) (count cur : nat)
  (a' : arena) (p' : ptr) :
  stars_ok stars -> stars !! si = Some s ->
  tree_ok stars si quads count -> (cur < count)%nat ->
  balanced f stars quads count cur (f (star_node s)) ->
  insert_body stars si (star_node s) (quads, count) (PQuad cur) = Done (a', p') ->
  (p' = PStar si -> forall c', balanced f stars (fst a') (snd a') c' 0) /\
  (forall cur', p' = PQuad cur' ->
     balanced f stars (fst a') (snd a') cur' (f (star_node s))).
Proof.
  intros Hstars Hsi Htree Hlt Hbal Hbody.
  destruct (insert_body_cases _ _ _ _ _ _ _ _ Hstars Htree Hlt Hbody)
    as (q & Hq & Hm & Hcases).
  cbv zeta in Hcases.
  set (e := f (star_node s)) in *.
  set (q1 := add_star q (star_node s)) in *.
  set (k := get_quadrant q (star_node s)) in *.
  assert (Hk : (0 <= k < 4)%Z) by apply get_quadrant_range.
  assert (Hq1 : f (quad_node q1) == f (quad_node q) + e) by (apply f_add; exact Hm).
  assert (Hbq := Hbal cur q Hq Hlt).
  destruct (ok_count _ _ _ _ Htree) as [Hc1 Hc2].
  assert (Hkids : forall i qi k' j, quads !! i = Some qi -> (i < count)%nat ->
             (0 <= k' < 4)%Z -> children qi k' = Some (PQuad j) ->
             (i < j < count)%nat).
  { intros i qi k' j Hi Hil Hk' Hch.
    destruct (ok_child_quad _ _ _ _ Htree i qi k' j Hi Hil Hk' Hch) as [? _]. auto. }
  destruct Hcases
    as [(Hnone & -> & ->)|[(a & sa & Hch & Hsa & Hcl & -> & ->)|(j & c & Hch & Hj & Hc & Hg & -> & ->)]].
  - (* the star becomes a leaf *)
    split; [|intros cur' [=]]. intros _ c'. cbn [fst snd].
    set (q2 := set_children q1 k (Some (PStar si))).
    set (Q' := <[cur := q2]> quads).
    assert (HQcur : Q' !! cur = Some q2)
      by (apply list_lookup_insert_eq; lia).
    assert (Hf2 : f (quad_node q2) == f (quad_node q) + e).
    { unfold q2. rewrite set_children_node. exact Hq1. }
    assert (Hsame : forall j qj, j <> cur -> (j < count)%nat ->
               quads !! j = Some qj -> Q' !! j = Some qj).
    { intros j qj Hne _ Hj. unfold Q'. rewrite list_lookup_insert_ne; auto. }
    assert (PW : forall i qi k', quads !! i = Some qi -> (i < count)%nat ->
               (0 <= k' < 4)%Z ->
               slot_weight f stars Q' c' 0 (children qi k')
               == slot_weight f stars quads cur e (children qi k')).
    { intros i qi k' Hi Hil Hk'.
      apply (slot_weight_step quads Q' count cur c' e 0 q q2); auto.
      - right; reflexivity.
      - intros j0 Hj0. split; [|right; reflexivity].
        destruct (Hkids i qi k' j0 Hi Hil Hk' Hj0). lia. }
    intros i qi Hi Hil.
    destruct (decide (i = cur)) as [->|Hne].
    + rewrite HQcur in Hi. injection Hi as <-. rewrite Hf2.
      unfold q2.
      rewrite (sum4_set _ (slot_weight f stars quads cur e) q1 k _ Hk).
      * unfold q1. rewrite sum4_add_star, add_star_children, Hnone.
        rewrite slot_weight_None, (slot_weight_star _ _ _ si s Hsi).
        rewrite <- Hbq. fold e. ring.
      * intros k' Hk' Hkk. unfold q1. rewrite add_star_children.
        apply (PW cur q k'); auto.
    + unfold Q' in Hi. rewrite list_lookup_insert_ne in Hi by auto.
      rewrite (Hbal i qi Hi Hil). apply sum4_ext. intros k' Hk'.
      symmetry. apply (PW i qi k'); auto.
  - (* a new quad takes over the leaf *)
    split; [intros [=]|]. intros cur' [= <-]. cbn [fst snd].
    set (q2 := set_children q1 k (Some (PQuad count))).
    set (nq := split_off q1 k (star_node sa) (PStar a) zero_quad).
    set (Q' := <[cur := q2]> (<[count := nq]> (<[cur := q1]> quads))).
    assert (HQcur : Q' !! cur = Some q2)
      by (apply list_lookup_insert_eq; rewrite !length_insert; lia).
    assert (HQnew : Q' !! count = Some nq).
    { unfold Q'. rewrite list_lookup_insert_ne by lia.
      apply list_lookup_insert_eq. rewrite length_insert. lia. }
    assert (Hf2 : f (quad_node q2) == f (quad_node q) + e).
    { unfold q2. rewrite set_children_node. exact Hq1. }
    assert (HfN : f (quad_node nq) = f (star_node sa)).
    { unfold nq. rewrite split_off_node. apply f_node; reflexivity. }
    assert (Hsame : forall j qj, j <> cur -> (j < count)%nat ->
               quads !! j = Some qj -> Q' !! j = Some qj).
    { intros j qj Hne Hjl Hj. unfold Q'. rewrite list_lookup_insert_ne by auto.
      rewrite list_lookup_insert_ne by lia. rewrite list_lookup_insert_ne; auto. }
    assert (PW : forall i qi k', quads !! i = Some qi -> (i < count)%nat ->
               (0 <= k' < 4)%Z ->
               slot_weight f stars Q' count e (children qi k')
               == slot_weight f stars quads cur e (children qi k')).
    { intros i qi k' Hi Hil Hk'.
      apply (slot_weight_step quads Q' count cur count e e q q2); auto.
      - left; lia.
      - intros j0 Hj0. destruct (Hkids i qi k' j0 Hi Hil Hk' Hj0).
        split; [lia | left; lia]. }
    intros i qi Hi Hil.
    destruct (decide (i = cur)) as [->|Hne];
      [|destruct (decide (i = count)) as [->|Hne']].
    + rewrite HQcur in Hi. injection Hi as <-. rewrite Hf2.
      unfold q2.
      rewrite (sum4_set _ (slot_weight f stars quads cur e) q1 k _ Hk).
      * unfold q1. rewrite sum4_add_star, add_star_children, Hch.
        rewrite (slot_weight_star _ _ _ a sa Hsa).
        rewrite (slot_weight_quad Q' count e count nq HQnew).
        rewrite Nat.eqb_refl, HfN, <- Hbq. ring.
      * intros k' Hk' Hkk. unfold q1. rewrite add_star_children.
        apply (PW cur q k'); auto.
    + rewrite HQnew in Hi. injection Hi as <-. rewrite HfN.
      unfold nq. rewrite sum4_split_off.
      rewrite slot_weight_None, (slot_weight_star _ _ _ a sa Hsa). ring.
    + assert (Hil' : (i < count)%nat) by lia.
      destruct (lookup_lt_is_Some_2 quads i ltac:(lia)) as [qi' Hqi'].
      rewrite (Hsame i qi' Hne Hil' Hqi') in Hi. injection Hi as <-.
      rewrite (Hbal i qi' Hqi' Hil'). apply sum4_ext. intros k' Hk'.
      symmetry. apply (PW i qi' k'); auto.
  - (* descent into the child quad *)
    split; [intros [=]|]. intros cur' [= <-]. cbn [fst snd].
    set (Q' := <[cur := q1]> quads).
    assert (HQcur : Q' !! cur = Some q1)
      by (apply list_lookup_insert_eq; lia).
    assert (HQj : Q' !! j = Some c).
    { unfold Q'. rewrite list_lookup_insert_ne by lia. exact Hc. }
    assert (Hsame : forall j0 qj, j0 <> cur -> (j0 < count)%nat ->
               quads !! j0 = Some qj -> Q' !! j0 = Some qj).
    { intros j0 qj Hne _ Hj0. unfold Q'. rewrite list_lookup_insert_ne; auto. }
    assert (PW : forall i qi k', quads !! i = Some qi -> (i < count)%nat ->
               (0 <= k' < 4)%Z -> children qi k' <> Some (PQuad j) ->
               slot_weight f stars Q' j e (children qi k')
               == slot_weight f stars quads cur e (children qi k')).
    { intros i qi k' Hi Hil Hk' Hnj.
      apply (slot_weight_step quads Q' count cur j e e q q1); auto.
      - left; lia.
      - intros j0 Hj0. destruct (Hkids i qi k' j0 Hi Hil Hk' Hj0).
        split; [lia|]. left. intros ->. contradiction. }
    intros i qi Hi Hil.
    destruct (decide (i = cur)) as [->|Hne].
    + rewrite HQcur in Hi. injection Hi as <-. rewrite Hq1.
      unfold q1. rewrite sum4_add_star.
      rewrite (sum4_one _ (slot_weight f stars quads cur e) q k e Hk).
      * rewrite <- Hbq. reflexivity.
      * intros k' Hk' Hkk. apply (PW cur q k'); auto.
        intros Hsame_child.
        destruct (ok_parent _ _ _ _ Htree cur cur q q k' k j Hq Hq Hlt Hlt Hk' Hk
                    Hsame_child Hch) as [_ ?].
        contradiction.
      * rewrite Hch.
        rewrite (slot_weight_quad Q' j e j c HQj), (slot_weight_quad quads cur e j c Hc).
        rewrite Nat.eqb_refl.
        replace (j =? cur)%nat with false by (symmetry; apply Nat.eqb_neq; lia).
        ring.
    + unfold Q' in Hi. rewrite list_lookup_insert_ne in Hi by auto.
      rewrite (Hbal i qi Hi Hil). apply sum4_ext. intros k' Hk'.
      symmetry. apply (PW i qi k'); auto.
      intros Hsame_child.
      destruct (ok_parent _ _ _ _ Htree i cur qi q k' k j Hi Hq Hil Hlt Hk' Hk
                  Hsame_child Hch) as [? _].
      contradiction.
Qed.

(** At the start of an insertion the current quad is the root, and no slot
    points to the root: the extra share counts nowhere. *)
Lemma balanced_start (n : nat) (quads : list quad) (count c0 : nat) (e : Q) :
  tree_ok stars n quads count ->
  balanced f stars quads count c0 0 -> balanced f stars quads count 0 e.
Proof.
  intros Htree Hbal i q Hi Hil. rewrite (Hbal i q Hi Hil).
  apply sum4_ext. intros k Hk. unfold slot_weight.
  destruct (children q k) as [[a|j]|] eqn:Hc; simpl; try reflexivity.
  destruct (ok_child_quad _ _ _ _ Htree i q k j Hi Hil Hk Hc) as [Hj _].
  replace (j =? 0)%nat with false by (symmetry; apply Nat.eqb_neq; lia).
  destruct (j =? c0)%nat; reflexivity.
Qed.

Lemma balanced_root (quads : list quad) (x0 y0 x1 y1 : Q) (c : nat) :
  (1 <= length quads)%nat ->
  balanced f stars (<[0%nat := root_quad x0 y0 x1 y1]> quads) 1 c 0.
Proof.
  intros Hlen i q Hi Hil. assert (i = 0%nat) by lia. subst i.
  rewrite list_lookup_insert_eq in Hi by lia. injection Hi as <-.
  unfold sum4. cbn [root_quad quad_node child0 child1 child2 child3].
  rewrite !slot_weight_None.
  rewrite (f_node _ zero_node) by reflexivity. rewrite f_zero. ring.
Qed.

Lemma sum_stars_app (l1 l2 : list nat) :
  sum_stars f stars (l1 ++ l2) == sum_stars f stars l1 + sum_stars f stars l2.
Proof.
  induction l1 as [|a l1 IH]; simpl; [ring|]. rewrite IH. ring.
Qed.

Lemma sum_stars_children (L : ptr -> list nat) (q : quad) :
  sum_stars f stars (flat_map L (non_null_children q))
  == sum4 (fun c => match c with
                    | None => 0
                    | Some p => sum_stars f stars (L p)
                    end) q.
Proof.
  unfold non_null_children, sum4.
  destruct (child0 q), (child1 q), (child2 q), (child3 q); simpl;
    rewrite ?sum_stars_app; simpl; ring.
Qed.

(** In a balanced tree, [f] of a quad is the sum of [f] over the stars
    below it. *)
Lemma balanced_leaves (n : nat) (quads : list quad) (count c0 : nat) :
  tree_ok stars n quads count -> balanced f stars quads count c0 0 ->
  forall m i q, quads !! i = Some q -> (i < count)%nat -> (count - i <= m)%nat ->
    f (quad_node q) == sum_stars f stars (leaves m quads (PQuad i)).
Proof.
  intros Htree Hbal. induction m as [|m IH]; intros i q Hi Hil Hm; [lia|].
  cbn [leaves]. rewrite Hi, sum_stars_children.
  rewrite (Hbal i q Hi Hil). apply sum4_ext. intros k Hk.
  destruct (children q k) as [[a|j]|] eqn:Hc.
  - destruct (ok_child_star _ _ _ _ Htree i q k a Hi Hil Hk Hc) as [_ (s & Hs & _)].
    rewrite (slot_weight_star _ _ _ a s Hs).
    replace (leaves m quads (PStar a)) with [a] by (destruct m; reflexivity).
    simpl. rewrite Hs. ring.
  - destruct (ok_child_quad _ _ _ _ Htree i q k j Hi Hil Hk Hc) as [Hj (c & Hcj & _)].
    rewrite (slot_weight_quad _ _ _ j c Hcj).
    rewrite <- (IH j c Hcj) by lia.
    destruct (j =? c0)%nat; ring.
  - apply slot_weight_None.
Qed.

End Weights.

(** What one pass does to the arena, seen from any quad in use. *)
Lemma insert_body_arena (stars : list star) (si : nat) (star : node)
  (quads : list quad) (count cur : nat) (a' : arena) (p' : ptr) :
  stars_ok stars -> tree_ok stars si quads count -> (cur < count)%nat ->
  insert_body stars si star (quads, count) (PQuad cur) = Done (a', p') ->
  exists q qc',
    quads !! cur = Some q /\ ~ mass (quad_node q) + mass star == 0 /\
    fst a' !! cur = Some qc' /\ quad_node qc' = quad_node (add_star q star) /\
    (forall j qj, j <> cur -> (j < count)%nat -> quads !! j = Some qj ->
       fst a' !! j = Some qj) /\
    (p' = PStar si \/ exists cur', p' = PQuad cur' /\ (cur < cur')%nat).
Proof.
  intros Hstars Htree Hlt Hbody.
  destruct (insert_body_cases _ _ _ _ _ _ _ _ Hstars Htree Hlt Hbody)
    as (q & Hq & Hm & Hcases).
  cbv zeta in Hcases.
  destruct (ok_count _ _ _ _ Htree) as [Hc1 Hc2].
  destruct Hcases
    as [(Hnone & -> & ->)|[(a & sa & Hch & Hsa & Hcl & -> & ->)|(j & c & Hch & Hj & Hc & Hg & -> & ->)]];
    cbn [fst snd]; exists q; eexists; (split; [exact Hq|]); (split; [exact Hm|]).
  - split; [apply list_lookup_insert_eq; lia|].
    split; [apply set_children_node|]. split; [|left; reflexivity].
    intros j qj Hne _ Hj. rewrite list_lookup_insert_ne; auto.
  - split; [apply list_lookup_insert_eq; rewrite !length_insert; lia|].
    split; [apply set_children_node|]. split; [|right; exists count; split; [reflexivity | lia]].
    intros j qj Hne Hjl Hj. rewrite list_lookup_insert_ne by auto.
    rewrite list_lookup_insert_ne by lia. rewrite list_lookup_insert_ne; auto.
  - split; [apply list_lookup_insert_eq; lia|].
    split; [reflexivity|]. split; [|right; exists j; split; [reflexivity | lia]].
    intros j0 qj Hne _ Hj0. rewrite list_lookup_insert_ne; auto.
Qed.

Section WeightLoops.

Variable f : node -> Q.
Hypothesis f_zero : f zero_node == 0.
Hypothesis f_add : forall q s,
  ~ mass (quad_node q) + mass s == 0 ->
  f (quad_node (add_star q s)) == f (quad_node q) + f s.
Hypothesis f_node : forall n n',
  node_x n = node_x n' -> node_y n = node_y n' -> mass n = mass n' -> f n = f n'.

Variable stars : list star.
Hypothesis Hstars : stars_ok stars.

(** One insertion keeps the tree well shaped and balanced, and adds the
    share of the star to the root. *)
Lemma insert_loop_balanced (fuel si : nat) (s : star) (quads : list quad)
  (count : nat) (T : Q) (a' : arena) :
  stars !! si = Some s ->
  tree_ok stars si quads count ->
  (forall q, quads !! 0%nat = Some q -> in_square q (star_node s)) ->
  balanced f stars quads count 0 0 ->
  slot_weight f stars quads 0 0 (Some (PQuad 0)) == T ->
  insert_loop fuel stars si (star_node s) (quads, count) (PQuad 0) = Done a' ->
  tree_ok stars (S si) (fst a') (snd a') /\
  balanced f stars (fst a') (snd a') 0 0 /\
  slot_weight f stars (fst a') 0 0 (Some (PQuad 0)) == T + f (star_node s).
Proof.
  intros Hsi Htree Hroot Hbal HT Hrun.
  set (e := f (star_node s)).
  destruct (Hstars si s Hsi) as [Hsz Hmass].
  apply (insert_loop_invariant stars si s
           (fun quads count cur =>
              tree_ok stars si quads count /\ (cur < count)%nat /\
              (forall q, quads !! cur = Some q -> in_square q (star_node s)) /\
              balanced f stars quads count cur e /\
              slot_weight f stars quads cur e (Some (PQuad 0)) == T + e)
           (fun a' =>
              tree_ok stars (S si) (fst a') (snd a') /\
              balanced f stars (fst a') (snd a') 0 0 /\
              slot_weight f stars (fst a') 0 0 (Some (PQuad 0)) == T + e))
    with (fuel := fuel) (quads := quads) (count := count) (cur := 0%nat);
    auto.
  - intros qs cnt cur (Ht & Hc & _).
    destruct (tree_ok_lookup _ _ _ _ _ Ht Hc) as (q & Hq).
    exists q. split; [exact Hq|].
    destruct (ok_size _ _ _ _ Ht cur q Hq Hc) as [Hpos _]. lra.
  - intros qs cnt cur a1 p1 (Ht & Hc & Hin & Hb & Hr) Hbody.
    destruct (insert_body_shape _ _ _ _ _ _ _ _ Hstars Hsi Ht Hc Hin Hbody)
      as [(-> & Hcnt & Ht')|(cur' & -> & Hcur' & _ & Ht' & Hin')].
    + left. split; [reflexivity|]. split; [exact Ht'|].
      destruct (balanced_step f f_zero f_add f_node stars si s qs cnt cur a1 _
                  Hstars Hsi Ht Hc Hb Hbody) as [Hb' _].
      split; [apply Hb'; reflexivity|].
      destruct (insert_body_arena _ _ _ _ _ _ _ _ Hstars Ht Hc Hbody)
        as (q & qc' & Hq & Hm & Hqc' & Hnode & Hsame & _).
      rewrite <- Hr.
      apply (slot_weight_step f f_zero stars qs (fst a1) cnt cur 0 e 0 q qc'); auto.
      * rewrite Hnode. apply f_add. exact Hm.
      * destruct (ok_count _ _ _ _ Ht). lia.
      * right; reflexivity.
      * intros j [= <-]. split; [lia | right; reflexivity].
    + right. exists cur'. split; [reflexivity|].
      split; [exact Ht'|]. split; [lia|]. split; [exact Hin'|].
      destruct (balanced_step f f_zero f_add f_node stars si s qs cnt cur a1 _
                  Hstars Hsi Ht Hc Hb Hbody) as [_ Hb'].
      split; [apply Hb'; reflexivity|].
      destruct (insert_body_arena _ _ _ _ _ _ _ _ Hstars Ht Hc Hbody)
        as (q & qc' & Hq & Hm & Hqc' & Hnode & Hsame & _).
      rewrite <- Hr.
      apply (slot_weight_step f f_zero stars qs (fst a1) cnt cur cur' e e q qc'); auto.
      * rewrite Hnode. apply f_add. exact Hm.
      * destruct (ok_count _ _ _ _ Ht). lia.
      * left; lia.
      * intros j [= <-]. split; [lia | left; lia].
  - split; [exact Htree|]. split; [destruct (ok_count _ _ _ _ Htree); lia|].
    split; [exact Hroot|]. split.
    + eapply balanced_start; eauto.
    + unfold slot_weight in *. simpl in *. rewrite <- HT.
      destruct (quads !! 0%nat); ring.
Qed.

End WeightLoops.

Section WeightBuild.

Variable f : node -> Q.
Hypothesis f_zero : f zero_node == 0.
Hypothesis f_add : forall q s,
  ~ mass (quad_node q) + mass s == 0 ->
  f (quad_node (add_star q s)) == f (quad_node q) + f s.
Hypothesis f_node : forall n n',
  node_x n = node_x n' -> node_y n = node_y n' -> mass n = mass n' -> f n = f n'.

Variable stars : list star.
Hypothesis Hstars : stars_ok stars.

(** The build phase over a zeroed arena, for stars that are not all at one
    place: the tree is well shaped and balanced, and the root holds the
    sum over all the stars. *)
Lemma build_tree_balanced (fuel n : nat) (quads : list quad) (a : arena) :
  zeroed quads -> spread stars n ->
  build_tree fuel n stars quads = Done a ->
  tree_ok stars n (fst a) (snd a) /\
  balanced f stars (fst a) (snd a) 0 0 /\
  slot_weight f stars (fst a) 0 0 (Some (PQuad 0)) == sum_stars f stars (seq 0 n) /\
  (n <= length stars)%nat.
Proof.
  intros Hz Hspread Hbuild.
  destruct (build_tree_Done _ _ _ _ _ Hz Hspread Hbuild)
    as (x0 & y0 & x1 & y1 & Hlen & Hpos & Hcov & Hrun).
  set (root := root_quad x0 y0 x1 y1) in *.
  pose (P := fun (i : nat) (a : arena) =>
            tree_ok stars i (fst a) (snd a) /\
            balanced f stars (fst a) (snd a) 0 0 /\
            slot_weight f stars (fst a) 0 0 (Some (PQuad 0))
              == sum_stars f stars (seq 0 i) /\
            (i <= length stars)%nat /\
            exists q0, fst a !! 0%nat = Some q0 /\ center q0 = center root /\
                       size (quad_node q0) = size (quad_node root)).
  assert (HP : P n a).
  { apply (for_range_invariant P (insert_star fuel stars) n) with (a := 0%nat)
      (s := (<[0%nat := root]> quads, 1%nat)); [|lia| |exact Hrun]; unfold P.
    - intros i [qs cnt] a1 Hi (Ht & Hb & Hr & Hl & q0 & Hq0 & Hc0 & Hs0) Hins.
      cbn [fst snd] in *.
      assert (Hfr := insert_star_frames _ _ _ _ _ Hins).
      unfold insert_star in Hins.
      destruct (stars !! i) as [s|] eqn:Hs; [|discriminate].
      destruct (insert_loop_balanced f f_zero f_add f_node stars Hstars fuel i s
                  qs cnt (sum_stars f stars (seq 0 i)) a1 Hs Ht) as (Ht' & Hb' & Hr');
        auto.
      { intros q Hq. assert (q = q0) by congruence. subst q.
        apply (in_square_same root); auto. apply (Hcov i s); auto. }
      split; [exact Ht'|]. split; [exact Hb'|]. split; [|split].
      + rewrite Hr', seq_S, sum_stars_app. simpl. rewrite Hs. ring.
      + apply lookup_lt_Some in Hs. lia.
      + destruct Hfr as (_ & _ & Hkeep). cbn [fst snd] in Hkeep.
        destruct (Hkeep 0%nat q0 Hq0) as (q0' & Hq0' & Hc' & Hs').
        { destruct (ok_count _ _ _ _ Ht). lia. }
        exists q0'. split; [exact Hq0'|]. split; congruence.
    - cbn [fst snd]. split; [apply tree_ok_root; auto|].
      split; [apply balanced_root; auto|]. split; [|split; [lia|]].
      + unfold slot_weight. simpl. rewrite list_lookup_insert_eq by lia.
        unfold root, root_quad. cbn [quad_node].
        rewrite (f_node _ zero_node) by reflexivity. rewrite f_zero. ring.
      + exists root. split; [apply list_lookup_insert_eq; lia | auto]. }
  unfold P in HP. tauto.
Qed.

End WeightBuild.

Lemma sum_stars_mass_pos (stars : list star) (n : nat) :
  stars_ok stars -> (n <= length stars)%nat ->
  0 <= sum_stars weight_m stars (seq 0 n) /\
  ((1 <= n)%nat -> 0 < sum_stars weight_m stars (seq 0 n)).
Proof.
  intros Hstars. induction n as [|n IH]; intros Hn.
  - simpl. split; [lra | lia].
  - destruct (IH ltac:(lia)) as [IH0 IH1].
    destruct (lookup_lt_is_Some_2 stars n ltac:(lia)) as [s Hs].
    destruct (Hstars n s Hs) as [_ Hm].
    assert (E : sum_stars weight_m stars (seq 0 (S n))
                == sum_stars weight_m stars (seq 0 n) + mass (star_node s)).
    { rewrite seq_S, sum_stars_app. simpl. rewrite Hs. unfold weight_m. ring. }
    rewrite E. split; [lra | intros _; lra].
Qed.

Lemma weight_x_zero : weight_x zero_node == 0.
Proof. reflexivity. Qed.

Lemma weight_y_zero : weight_y zero_node == 0.
Proof. reflexivity. Qed.

Lemma weight_m_zero : weight_m zero_node == 0.
Proof. reflexivity. Qed.

Lemma weight_m_node (n n' : node) :
  node_x n = node_x n' -> node_y n = node_y n' -> mass n = mass n' ->
  weight_m n = weight_m n'.
Proof. unfold weight_m. auto. Qed.

Lemma weight_x_node (n n' : node) :
  node_x n = node_x n' -> node_y n = node_y n' -> mass n = mass n' ->
  weight_x n = weight_x n'.
Proof. unfold weight_x. intros -> _ ->. reflexivity. Qed.

Lemma weight_y_node (n n' : node) :
  node_x n = node_x n' -> node_y n = node_y n' -> mass n = mass n' ->
  weight_y n = weight_y n'.
Proof. unfold weight_y. intros _ -> ->. reflexivity. Qed.

Lemma mean_of_moment (x m sx sm : Q) :
  0 < m -> m == sm -> x * m == sx -> x == sx / sm.
Proof.
  intros Hm Hsm Hx. rewrite <- Hx, <- Hsm. field. lra.
Qed.

(** C4, as the specification states it, fails for stars that are all at
    one place: with two stars of mass 1 at the origin the build phase
    completes, the root has mass 2, and the only star below the root is
    star 0, of mass 1 (the second star went into the mass of the root and
    was dropped: the quad made for it has size 0 and ends the loop). *)
Lemma coincident_stars_counterexample :
  stars_ok [star_at 0 0 1; star_at 0 0 1] /\
  exists a root,
    build_tree 8 2 [star_at 0 0 1; star_at 0 0 1] (replicate 4 zero_quad) = Done a /\
    fst a !! 0%nat = Some root /\
    mass (quad_node root) == 2 /\
    leaves (snd a) (fst a) (PQuad 0) = [0%nat] /\
    sum_stars weight_m [star_at 0 0 1; star_at 0 0 1] (leaves (snd a) (fst a) (PQuad 0))
      == 1 /\
    ~ mass (quad_node root)
      == sum_stars weight_m [star_at 0 0 1; star_at 0 0 1]
           (leaves (snd a) (fst a) (PQuad 0)).
Proof.
  split.
  { intros [|[|i]] s H; try discriminate H; injection H as <-; split; reflexivity. }
  eexists. eexists. split; [vm_compute; reflexivity|].
  split; [reflexivity|]. split; [reflexivity|]. split; [reflexivity|].
  split; [reflexivity|]. intros H. vm_compute in H. discriminate H.
Qed.

(** The sums in exact arithmetic, where [==] is the equality of the
    rationals: for stars of positive mass that are not all at one place,
    after a build phase that completes on a zeroed arena every quad of the
    tree has a positive mass, equal to the sum of the masses of the stars
    below it, and its [(x, y)] is the mass-weighted mean of their
    positions; the root holds the sum and the mean over all the stars.
    On doubles neither the sums nor the shape of the tree that the proof
    goes through are kept; what the doubles keep, the sums operation by
    operation, is the last part of this file. *)
Theorem tree_sums (fuel n : nat) (stars : list star) (quads : list quad) (a : arena) :
  stars_ok stars -> zeroed quads -> spread stars n ->
  build_tree fuel n stars quads = Done a ->
  (forall i q, fst a !! i = Some q -> (i < snd a)%nat ->
     let below := leaves (snd a) (fst a) (PQuad i) in
     0 < mass (quad_node q) /\
     mass (quad_node q) == sum_stars weight_m stars below /\
     node_x (quad_node q)
       == sum_stars weight_x stars below / sum_stars weight_m stars below /\
     node_y (quad_node q)
       == sum_stars weight_y stars below / sum_stars weight_m stars below) /\
  (exists root,
     fst a !! 0%nat = Some root /\
     mass (quad_node root) == sum_stars weight_m stars (seq 0 n) /\
     node_x (quad_node root)
       == sum_stars weight_x stars (seq 0 n) / sum_stars weight_m stars (seq 0 n) /\
     node_y (quad_node root)
       == sum_stars weight_y stars (seq 0 n) / sum_stars weight_m stars (seq 0 n)).
Proof.
  intros Hstars Hz Hspread Hbuild.
  destruct (build_tree_balanced weight_m weight_m_zero weight_m_add_star weight_m_node
              stars Hstars fuel n quads a Hz Hspread Hbuild) as (Ht & Hbm & Hrm & Hn).
  destruct (build_tree_balanced weight_x weight_x_zero weight_x_add_star weight_x_node
              stars Hstars fuel n quads a Hz Hspread Hbuild) as (_ & Hbx & Hrx & _).
  destruct (build_tree_balanced weight_y weight_y_zero weight_y_add_star weight_y_node
              stars Hstars fuel n quads a Hz Hspread Hbuild) as (_ & Hby & Hry & _).
  destruct (ok_count _ _ _ _ Ht) as [Hc1 Hc2].
  destruct (tree_ok_lookup _ _ _ _ 0%nat Ht ltac:(lia)) as (root & Hroot).
  assert (Hn1 : (1 <= n)%nat).
  { destruct Hspread as (ia & _ & _ & _ & Hia & _). lia. }
  destruct (sum_stars_mass_pos stars n Hstars Hn) as [_ Hpos].
  specialize (Hpos Hn1).
  unfold slot_weight in Hrm, Hrx, Hry. simpl in Hrm, Hrx, Hry.
  rewrite Hroot in Hrm, Hrx, Hry.
  assert (Hmroot : mass (quad_node root) == sum_stars weight_m stars (seq 0 n)).
  { rewrite <- Hrm. unfold weight_m. ring. }
  split.
  - intros i q Hi Hil below.
    assert (Hm := balanced_leaves weight_m weight_m_zero stars n (fst a) (snd a) 0
                    Ht Hbm (snd a) i q Hi Hil ltac:(lia)).
    assert (Hx := balanced_leaves weight_x weight_x_zero stars n (fst a) (snd a) 0
                    Ht Hbx (snd a) i q Hi Hil ltac:(lia)).
    assert (Hy := balanced_leaves weight_y weight_y_zero stars n (fst a) (snd a) 0
                    Ht Hby (snd a) i q Hi Hil ltac:(lia)).
    fold below in Hm, Hx, Hy.
    assert (Hqpos : 0 < mass (quad_node q)).
    { destruct (ok_size _ _ _ _ Ht i q Hi Hil) as (_ & _ & Hip).
      destruct i as [|i]; [|apply Hip; lia].
      assert (q = root) by congruence. subst q. rewrite Hmroot. exact Hpos. }
    split; [exact Hqpos|]. split; [exact Hm|].
    split; apply (mean_of_moment _ (mass (quad_node q))); auto.
  - exists root. split; [exact Hroot|]. split; [exact Hmroot|].
    assert (Hrpos : 0 < mass (quad_node root)) by (rewrite Hmroot; exact Hpos).
    split; apply (mean_of_moment _ (mass (quad_node root))); auto.
    + rewrite <- Hrx. unfold weight_x. ring.
    + rewrite <- Hry. unfold weight_y. ring.
Qed.

Lemma two_body_stars_ok : stars_ok (stars two_body).
Proof.
  intros [|[|i]] s H; try discriminate H; injection H as <-; split; reflexivity.
Qed.

Lemma zeroed_replicate (n : nat) : zeroed (replicate n zero_quad).
Proof. intros i q H. apply lookup_replicate in H. tauto. Qed.

Lemma two_body_spread : spread (stars two_body) 2.
Proof.
  exists 0%nat, 1%nat, (star_at (-1) 0 1), (star_at 1 0 1).
  repeat split; try lia. intros [H _]. discriminate H.
Qed.

Lemma tree_sums_witness :
  exists a root,
    build_tree 8 2 (stars two_body) (replicate 4 zero_quad) = Done a /\
    fst a !! 0%nat = Some root /\
    mass (quad_node root) == sum_stars weight_m (stars two_body) (seq 0 2).
Proof.
  eexists.
  destruct (tree_sums 8 2 (stars two_body) (replicate 4 zero_quad) _
              two_body_stars_ok (zeroed_replicate 4) two_body_spread
              ltac:(vm_compute; reflexivity))
    as (_ & root & Hroot & Hm & _).
  exists root. split; [reflexivity|]. split; [exact Hroot | exact Hm].
Defined.

(** ** The depth of the descent in exact arithmetic *)

Lemma pow2_pos (k : nat) : 0 < pow2 k.
Proof. induction k as [|k IH]; simpl; lra. Qed.

Lemma pow2_le (j k : nat) : (j <= k)%nat -> pow2 j <= pow2 k.
Proof.
  induction 1 as [|k Hle IH]; [lra|]. simpl. pose proof (pow2_pos k). lra.
Qed.

Lemma pow2_above (k : nat) : inject_Z (Z.of_nat k) < pow2 k.
Proof.
  induction k as [|k IH]; [reflexivity|].
  rewrite Nat2Z.inj_succ. unfold Z.succ. rewrite inject_Z_plus.
  simpl pow2. pose proof (pow2_pos k).
  assert (H1 : inject_Z 1 == 1) by reflexivity. rewrite H1.
  destruct k as [|k]; [simpl in *; lra|].
  assert (1 <= inject_Z (Z.of_nat (S k))).
  { change 1 with (inject_Z 1). rewrite <- Zle_Qle. lia. }
  lra.
Qed.

(** A positive distance exceeds [side / 2^F] for some [F]. *)
Lemma pow2_archimedean (side d : Q) : 0 < d -> exists F, side < pow2 F * d.
Proof.
  intros Hd. destruct (Qarchimedean (side / d)) as [p Hp].
  exists (Pos.to_nat p).
  assert (Hpp : inject_Z (Z.pos p) < pow2 (Pos.to_nat p)).
  { rewrite <- (positive_nat_Z p) at 1. apply pow2_above. }
  assert (Hs : side < inject_Z (Z.pos p) * d).
  { assert (E : side == side / d * d) by (field; lra).
    rewrite E at 1. apply Qmult_lt_compat_r; [exact Hd | exact Hp]. }
  apply Qlt_trans with (inject_Z (Z.pos p) * d); [exact Hs|].
  apply Qmult_lt_compat_r; assumption.
Qed.

Lemma separated_more (F F' : nat) (side : Q) (s t : node) :
  0 <= side -> (F <= F')%nat -> separated F side s t -> separated F' side s t.
Proof.
  intros Hside Hle Hsep. pose proof (pow2_le F F' Hle) as Hp.
  pose proof (pow2_pos F) as Hpos.
  assert (Hmono : forall d, side < pow2 F * d -> side < pow2 F' * d).
  { intros d Hd. assert (0 < d) by nra. nra. }
  unfold separated in *. destruct Hsep as [H|[H|[H|H]]]; auto.
Qed.

Lemma apart_separated (side : Q) (s t : node) :
  apart s t -> exists F, separated F side s t.
Proof.
  intros Hap. unfold separated.
  destruct (Q_dec (node_x s) (node_x t)) as [[Hx|Hx]|Hx].
  - destruct (pow2_archimedean side (node_x t - node_x s) ltac:(lra)) as [F HF].
    exists F. auto.
  - destruct (pow2_archimedean side (node_x s - node_x t) ltac:(lra)) as [F HF].
    exists F. auto.
  - destruct (Q_dec (node_y s) (node_y t)) as [[Hy|Hy]|Hy].
    + destruct (pow2_archimedean side (node_y t - node_y s) ltac:(lra)) as [F HF].
      exists F. auto.
    + destruct (pow2_archimedean side (node_y s - node_y t) ltac:(lra)) as [F HF].
      exists F. auto 6.
    + exfalso. apply Hap. auto.
Qed.

(** Stars at different places are all separated by one [F]. *)
Lemma distinct_separated (stars : list star) (side : Q) :
  0 <= side -> distinct_positions stars ->
  exists F, forall a b s t,
    stars !! a = Some s -> stars !! b = Some t -> a <> b ->
    separated F side (star_node s) (star_node t).
Proof.
  intros Hside Hd.
  assert (Hone : forall b t, stars !! b = Some t -> forall m,
            exists F, forall a s, (a < m)%nat -> stars !! a = Some s -> a <> b ->
              separated F side (star_node s) (star_node t)).
  { intros b t Ht. induction m as [|m [F IH]].
    - exists 0%nat. intros; lia.
    - destruct (stars !! m) as [sm|] eqn:Hm.
      + destruct (decide (m = b)) as [->|Hne].
        * exists F. intros a s Ha Hs Hab. apply (IH a s); auto. lia.
        * destruct (apart_separated side (star_node sm) (star_node t)
                      (Hd m b sm t Hm Ht Hne)) as [F' HF'].
          exists (Nat.max F F'). intros a s Ha Hs Hab.
          destruct (decide (a = m)) as [->|Ham].
          -- assert (s = sm) by congruence. subst s.
             eapply separated_more; [exact Hside | | exact HF']. lia.
          -- eapply separated_more; [exact Hside | | apply (IH a s); auto; lia]. lia.
      + exists F. intros a s Ha Hs Hab. destruct (decide (a = m)) as [->|Ham].
        * congruence.
        * apply (IH a s); auto. lia. }
  assert (Hall : forall n, exists F, forall a b s t,
            (b < n)%nat -> stars !! a = Some s -> stars !! b = Some t -> a <> b ->
            separated F side (star_node s) (star_node t)).
  { induction n as [|n [F IH]].
    - exists 0%nat. intros; lia.
    - destruct (stars !! n) as [tn|] eqn:Hn.
      + destruct (Hone n tn Hn (length stars)) as [F' HF'].
        exists (Nat.max F F'). intros a b s t Hb Hs Ht Hab.
        destruct (decide (b = n)) as [->|Hbn].
        * assert (t = tn) by congruence. subst t.
          eapply separated_more; [exact Hside | | apply (HF' a s); auto]; [lia|].
          eapply lookup_lt_Some; eauto.
        * eapply separated_more; [exact Hside | | apply (IH a b); auto; lia]. lia.
      + exists F. intros a b s t Hb Hs Ht Hab.
        destruct (decide (b = n)) as [->|Hbn]; [congruence|].
        apply (IH a b); auto. lia. }
  destruct (Hall (length stars)) as [F HF]. exists F.
  intros a b s t Hs Ht Hab. apply (HF a b); auto.
  eapply lookup_lt_Some; eauto.
Qed.

(** From a well-shaped tree a pass completes, unless it needs a quad and
    the arena is full. *)
Lemma insert_body_progress (stars : list star) (si : nat) (s : star)
  (quads : list quad) (count cur : nat) :
  stars_ok stars -> stars !! si = Some s ->
  tree_ok stars si quads count -> (cur < count)%nat ->
  (exists r, insert_body stars si (star_node s) (quads, count) (PQuad cur) = Done r) \/
  (insert_body stars si (star_node s) (quads, count) (PQuad cur) = Fault OutOfArena /\
   count = length quads).
Proof.
  intros Hstars Hsi Htree Hlt.
  destruct (tree_ok_lookup _ _ _ _ _ Htree Hlt) as (q & Hq).
  destruct (ok_size _ _ _ _ Htree cur q Hq Hlt) as (_ & Hm0 & _).
  destruct (Hstars si s Hsi) as [_ Hms].
  destruct (ok_count _ _ _ _ Htree) as [Hc1 Hc2].
  unfold insert_body. rewrite Hq.
  assert (Hm : ~ mass (quad_node q) + mass (star_node s) == 0) by (intros E; lra).
  rewrite !fdiv_Done by exact Hm. cbn [bind].
  fold (add_star q (star_node s)).
  rewrite add_star_children.
  rewrite (get_quadrant_center (add_star q (star_node s)) q) by reflexivity.
  assert (Hk : (0 <= get_quadrant q (star_node s) < 4)%Z) by apply get_quadrant_range.
  destruct (children q (get_quadrant q (star_node s))) as [child|] eqn:Hch;
    [|left; eauto].
  assert (Hd : exists old,
             deref stars (<[cur := add_star q (star_node s)]> quads) child = Done old).
  { destruct child as [a|j]; simpl.
    - destruct (ok_child_star _ _ _ _ Htree cur q _ a Hq Hlt Hk Hch)
        as [_ (sa & -> & _)]. eauto.
    - destruct (ok_child_quad _ _ _ _ Htree cur q _ j Hq Hlt Hk Hch) as [Hj _].
      destruct (lookup_lt_is_Some_2 (<[cur := add_star q (star_node s)]> quads) j)
        as [c ->]; [rewrite length_insert; lia | eauto]. }
  destruct Hd as (old & ->). cbn [bind].
  destruct (Qeq_bool (size old) 0); [|left; eauto].
  destruct (<[cur := add_star q (star_node s)]> quads !! count) as [slot|] eqn:Hslot;
    [left; eauto|].
  right. split; [reflexivity|].
  apply lookup_ge_None in Hslot. rewrite length_insert in Hslot. lia.
Qed.

(** A pass keeps two stars in every quad below the root, and the quad it
    moves to has half the side of the one it leaves. *)
Lemma insert_body_descent (stars : list star) (si : nat) (s : star)
  (quads : list quad) (count cur : nat) (a' : arena) (p' : ptr) :
  stars_ok stars -> stars !! si = Some s ->
  tree_ok stars si quads count -> (cur < count)%nat ->
  (forall q, quads !! cur = Some q -> in_square q (star_node s)) ->
  pairs_ok stars quads count ->
  insert_body stars si (star_node s) (quads, count) (PQuad cur) = Done (a', p') ->
  pairs_ok stars (fst a') (snd a') /\
  (forall cur', p' = PQuad cur' ->
     exists q q', quads !! cur = Some q /\ fst a' !! cur' = Some q' /\
                  size (quad_node q') == size (quad_node q) / 2).
Proof.
  intros Hstars Hsi Htree Hlt Hin Hpairs Hbody.
  assert (Hfr := insert_body_frames _ _ _ _ _ _ _ Hbody).
  destruct Hfr as (_ & Hlen & Hkeep). cbn [fst snd] in Hlen, Hkeep.
  destruct (ok_count _ _ _ _ Htree) as [Hc1 Hc2].
  assert (Hold : forall i q', fst a' !! i = Some q' -> (1 <= i < count)%nat ->
             exists a b sa sb, a <> b /\ stars !! a = Some sa /\ stars !! b = Some sb /\
               in_square q' (star_node sa) /\ in_square q' (star_node sb)).
  { intros i q' Hi Hil.
    destruct (lookup_lt_is_Some_2 quads i ltac:(lia)) as [q0 Hq0].
    destruct (Hkeep i q0 Hq0 ltac:(lia)) as (q'' & Hq'' & Hce & Hsz).
    assert (q'' = q') by congruence. subst q''.
    destruct (Hpairs i q0 Hq0 Hil) as (a & b & sa & sb & Hab & Hsa & Hsb & Ha & Hb).
    exists a, b, sa, sb. repeat split; auto;
      eapply in_square_same; try eassumption; auto. }
  destruct (insert_body_cases _ _ _ _ _ _ _ _ Hstars Htree Hlt Hbody)
    as (q & Hq & Hm & Hcases).
  cbv zeta in Hcases. specialize (Hin q Hq).
  assert (Hk : (0 <= get_quadrant q (star_node s) < 4)%Z) by apply get_quadrant_range.
  destruct Hcases
    as [(Hnone & -> & ->)|[(a & sa & Hch & Hsa & Hcl & -> & ->)|(j & c & Hch & Hj & Hc & Hg & -> & ->)]];
    cbn [fst snd] in *.
  - split; [|intros cur' [=]]. intros i q' Hi Hil. apply (Hold i); auto.
  - set (nq := split_off (add_star q (star_node s)) (get_quadrant q (star_node s))
                 (star_node sa) (PStar a) zero_quad) in *.
    assert (Hnq : <[cur := set_children (add_star q (star_node s))
                             (get_quadrant q (star_node s)) (Some (PQuad count))]>
                    (<[count := nq]> (<[cur := add_star q (star_node s)]> quads))
                  !! count = Some nq).
    { rewrite list_lookup_insert_ne by lia.
      apply list_lookup_insert_eq. rewrite length_insert. lia. }
    split.
    + intros i q' Hi Hil. destruct (decide (i = count)) as [->|Hne].
      * rewrite Hnq in Hi. injection Hi as <-.
        destruct (ok_child_star _ _ _ _ Htree cur q _ a Hq Hlt Hk Hch)
          as [Ha (sa' & Hsa' & Hina & Hqa)].
        assert (sa' = sa) by congruence. subst sa'.
        assert (Hgeo : child_geometry q nq (get_quadrant q (star_node s))).
        { eapply child_geometry_same;
            [| | reflexivity | reflexivity | apply split_off_geometry]; reflexivity. }
        exists a, si, sa, s. split; [lia|]. split; [exact Hsa|]. split; [exact Hsi|].
        split.
        -- apply (in_square_child q nq); [exact Hina|]. rewrite Hqa. exact Hgeo.
        -- apply (in_square_child q nq); [exact Hin | exact Hgeo].
      * apply (Hold i); auto. lia.
    + intros cur' [= <-]. exists q, nq. split; [exact Hq|]. split; [exact Hnq|].
      unfold nq. rewrite split_off_node. cbn. reflexivity.
  - split; [intros i q' Hi Hil; apply (Hold i); auto|].
    intros cur' [= <-]. exists q, c. split; [exact Hq|].
    split; [rewrite list_lookup_insert_ne by lia; exact Hc|].
    destruct Hg as [Hs _]. exact Hs.
Qed.

(** Below the root, the depth of a quad is less than the [F] that
    separates the stars. *)
Lemma depth_bound (stars : list star) (quads : list quad) (count cur d F : nat)
  (side : Q) (q : quad) :
  (forall a b s t, stars !! a = Some s -> stars !! b = Some t -> a <> b ->
     separated F side (star_node s) (star_node t)) ->
  pairs_ok stars quads count -> (1 <= cur < count)%nat ->
  quads !! cur = Some q -> 0 < size (quad_node q) ->
  size (quad_node q) * pow2 d == side ->
  (d < F)%nat.
Proof.
  intros Hsep Hpairs Hcur Hq Hpos Hd.
  destruct (Hpairs cur q Hq Hcur) as (a & b & s & t & Hab & Hs & Ht & Hins & Hint).
  specialize (Hsep a b s t Hs Ht Hab).
  destruct (le_lt_dec F d) as [Hle|]; [exfalso | assumption].
  pose proof (pow2_le F d Hle) as Hp. pose proof (pow2_pos F) as HpF.
  unfold in_square in Hins, Hint.
  destruct Hins as (? & ? & ? & ?). destruct Hint as (? & ? & ? & ?).
  set (z := size (quad_node q)) in *.
  assert (Hw : forall w, w <= z -> side < pow2 F * w -> False).
  { intros w Hwz Hsw. assert (pow2 F * w <= pow2 F * z) by nra.
    assert (z * pow2 F <= z * pow2 d) by nra. lra. }
  unfold separated in Hsep.
  destruct Hsep as [H'|[H'|[H'|H']]]; eapply Hw; try exact H'; qlra.
Qed.

(** The insertion of one star completes within [F + 1] passes, counted from
    the root, and takes at most [F + 1] quads from the arena; the only other
    outcome is a write past a full arena. *)
Lemma insert_loop_terminates (stars : list star) (si : nat) (s : star)
  (F : nat) (side : Q) :
  stars_ok stars -> stars !! si = Some s ->
  (forall a b sa sb, stars !! a = Some sa -> stars !! b = Some sb -> a <> b ->
     separated F side (star_node sa) (star_node sb)) ->
  forall (fuel d : nat) (quads : list quad) (count cur : nat),
    tree_ok stars si quads count -> (cur < count)%nat ->
    (forall q, quads !! cur = Some q -> in_square q (star_node s)) ->
    pairs_ok stars quads count ->
    (exists q, quads !! cur = Some q /\ size (quad_node q) * pow2 d == side) ->
    (cur = 0 -> d = 0)%nat ->
    (F + 1 <= fuel + d)%nat ->
    (exists a', insert_loop fuel stars si (star_node s) (quads, count) (PQuad cur)
                = Done a' /\
                tree_ok stars (S si) (fst a') (snd a') /\
                pairs_ok stars (fst a') (snd a') /\
                (snd a' + d <= count + F + 1)%nat) \/
    (insert_loop fuel stars si (star_node s) (quads, count) (PQuad cur)
     = Fault OutOfArena /\
     (length quads + d <= count + F + 1)%nat).
Proof.
  intros Hstars Hsi Hsep.
  induction fuel as [|fuel IH];
    intros d quads count cur Htree Hlt Hin Hpairs (q & Hq & Hside) Hroot Hfuel.
  - exfalso.
    destruct (ok_size _ _ _ _ Htree cur q Hq Hlt) as (Hpos & _).
    destruct (Nat.eq_dec cur 0%nat) as [E|E]; [specialize (Hroot E); lia|].
    assert (d < F)%nat
      by (eapply depth_bound; eauto; lia).
    lia.
  - assert (Hd : (d <= F)%nat).
    { destruct (Nat.eq_dec cur 0%nat) as [E|E]; [specialize (Hroot E); lia|].
      destruct (ok_size _ _ _ _ Htree cur q Hq Hlt) as (Hpos & _).
      assert (d < F)%nat by (eapply depth_bound; eauto; lia). lia. }
    cbn [insert_loop].
    destruct (insert_body_progress _ _ _ _ _ _ Hstars Hsi Htree Hlt)
      as [([a1 p1] & Hbody)|[Hbody Hfull]].
    2:{ right. rewrite Hbody. split; [reflexivity | lia]. }
    rewrite Hbody. cbn [bind].
    destruct (insert_body_descent _ _ _ _ _ _ _ _ Hstars Hsi Htree Hlt Hin Hpairs Hbody)
      as [Hpairs1 Hhalf].
    pose proof (insert_body_frames _ _ _ _ _ _ _ Hbody) as (_ & Hlen & _).
    cbn [fst snd] in Hlen.
    destruct (insert_body_shape _ _ _ _ _ _ _ _ Hstars Hsi Htree Hlt Hin Hbody)
      as [(-> & Hcount & Htree1)|(cur' & -> & Hcur' & Hcount & Htree1 & Hin1)].
    + left. exists a1. cbn [deref]. rewrite Hsi. cbn [bind].
      destruct (Hstars si s Hsi) as [Hz _].
      apply Qtruth_false in Hz. rewrite Hz.
      split; [reflexivity|]. split; [exact Htree1|]. split; [exact Hpairs1|]. lia.
    + destruct (Hhalf cur' eq_refl) as (q0 & q' & Hq0 & Hq' & Hsz).
      assert (q0 = q) by congruence. subst q0.
      destruct a1 as [quads1 count1]. cbn [fst snd] in *.
      cbn [deref]. rewrite Hq'. cbn [bind].
      destruct (ok_size _ _ _ _ Htree1 cur' q' Hq' ltac:(lia)) as (Hpos' & _).
      assert (Hnz : ~ size (quad_node q') == 0) by (intros E; lra).
      apply Qtruth_true in Hnz. rewrite Hnz.
      destruct (IH (S d) quads1 count1 cur' Htree1 ltac:(lia) Hin1 Hpairs1) as
        [(a' & Hrun & Ht' & Hp' & Hb')|(Hrun & Hb')].
      * exists q'. split; [exact Hq'|]. cbn [pow2]. rewrite Hsz, <- Hside. field.
      * lia.
      * lia.
      * left. exists a'. split; [exact Hrun|]. split; [exact Ht'|].
        split; [exact Hp'|]. lia.
      * right. split; [exact Hrun|]. lia.
Qed.

(** A pass that moves on moves to a quad of half the side. *)
Lemma insert_body_halves (stars : list star) (si : nat) (star : node)
  (quads : list quad) (count cur : nat) (a' : arena) (cur' : nat) :
  stars_ok stars -> tree_ok stars si quads count -> (cur < count)%nat ->
  insert_body stars si star (quads, count) (PQuad cur) = Done (a', PQuad cur') ->
  exists q q', quads !! cur = Some q /\ fst a' !! cur' = Some q' /\
               size (quad_node q') == size (quad_node q) / 2.
Proof.
  intros Hstars Htree Hlt Hbody.
  destruct (ok_count _ _ _ _ Htree) as [Hc1 Hc2].
  destruct (insert_body_cases _ _ _ _ _ _ _ _ Hstars Htree Hlt Hbody)
    as (q & Hq & Hm & Hcases).
  cbv zeta in Hcases.
  destruct Hcases
    as [(_ & _ & [=])|[(a & sa & Hch & Hsa & Hcl & -> & [= ->])|(j & c & Hch & Hj & Hc & Hg & -> & [= ->])]];
    cbn [fst snd].
  - eexists q, _. split; [exact Hq|]. split.
    + rewrite list_lookup_insert_ne by lia.
      apply list_lookup_insert_eq. rewrite length_insert. lia.
    + rewrite split_off_node. cbn. reflexivity.
  - exists q, c. split; [exact Hq|].
    split; [rewrite list_lookup_insert_ne by lia; exact Hc|].
    destruct Hg as [Hs _]. exact Hs.
Qed.

(** A loop whose passes either complete, keeping [P], or stop with the
    fault [f] under [R], completes with [P] or stops with [f] under [R]. *)
Lemma for_range_progress {S : Type} (P : nat -> S -> Prop) (R : Prop) (f : fault)
  (body : nat -> S -> outcome S) (b : nat) :
  (forall i s, (i < b)%nat -> P i s ->
     (exists s', body i s = Done s' /\ P (Datatypes.S i) s') \/
     (body i s = Fault f /\ R)) ->
  forall (a : nat) (s : S),
    (a <= b)%nat -> P a s ->
    (exists s', for_range a b body s = Done s' /\ P b s') \/
    (for_range a b body s = Fault f /\ R).
Proof.
  intros Hstep a s Hab. unfold for_range.
  remember (b - a)%nat as n eqn:Hn. revert a s Hab Hn.
  induction n as [|n IH]; intros a s Hab Hn Ha; cbn [seq for_each].
  - left. exists s. split; [reflexivity|]. replace b with a by lia. exact Ha.
  - destruct (Hstep a s ltac:(lia) Ha) as [(s1 & -> & H1)|[-> HR]]; cbn [bind].
    + apply (IH (Datatypes.S a) s1); [lia | lia | exact H1].
    + right. split; [reflexivity | exact HR].
Qed.

(** The bounding box of stars that exist is computed. *)
Lemma world_bounds_total (stars : list star) (n : nat) :
  (n <= length stars)%nat -> exists b, world_bounds n stars = Done b.
Proof.
  intros Hn. unfold world_bounds.
  destruct (for_range_progress (fun _ _ => True) False WildPointer
              (bounds_body stars) n) with (a := 0%nat)
              (s := mkbounds None None None None)
    as [(b & Hb & _)|[_ []]]; [| lia | exact I | eauto].
  intros i b Hi _. left. unfold bounds_body.
  destruct (lookup_lt_is_Some_2 stars i ltac:(lia)) as [s ->]. eauto.
Qed.

(** The halving argument, in exact arithmetic.  When no two stars share
    their coordinates (and the masses are positive, the arena zeroed), the
    insertion loop of the tree builder terminates: every pass that moves on
    moves to a quad of half the side,
    and there is a number [F] of passes, fixed by the positions alone, that
    is enough for every star: with that much fuel the build phase never
    runs out of it.  It completes, each star ending in a leaf slot of a
    well-shaped tree, or it stops at a write past the end of the arena;
    in an arena of more than [n * F] quads it completes.  On doubles the
    halved size and the shifted centre are rounded and the argument fails;
    what the doubles keep, the climb through the arena, is the last part
    of this file. *)
Theorem insertion_terminates (stars : list star) (n : nat) :
  stars_ok stars -> distinct_positions stars -> (2 <= n <= length stars)%nat ->
  (forall si star quads count cur a' cur',
     tree_ok stars si quads count -> (cur < count)%nat ->
     insert_body stars si star (quads, count) (PQuad cur) = Done (a', PQuad cur') ->
     exists q q', quads !! cur = Some q /\ fst a' !! cur' = Some q' /\
                  size (quad_node q') == size (quad_node q) / 2) /\
  exists F : nat, forall fuel quads,
    (F <= fuel)%nat -> zeroed quads ->
    ((exists a, build_tree fuel n stars quads = Done a /\
                tree_ok stars n (fst a) (snd a)) \/
     build_tree fuel n stars quads = Fault OutOfArena) /\
    ((n * F < length quads)%nat ->
     exists a, build_tree fuel n stars quads = Done a /\
               tree_ok stars n (fst a) (snd a)).
Proof.
  intros Hstars Hdist [Hn2 Hnl].
  split; [intros; eapply insert_body_halves; eauto|].
  destruct (world_bounds_total stars n Hnl) as (b & Hb).
  destruct n as [|n']; [lia|].
  destruct (world_bounds_cover stars n' b Hb) as (x0 & y0 & x1 & y1 & -> & Hcov).
  destruct (lookup_lt_is_Some_2 stars 0 ltac:(lia)) as [s0 Hs0].
  destruct (lookup_lt_is_Some_2 stars 1 ltac:(lia)) as [s1 Hs1].
  assert (Hside : 0 < root_size x0 y0 x1 y1).
  { destruct (Hcov 0%nat s0 ltac:(lia) Hs0) as (? & ? & ? & ?).
    destruct (Hcov 1%nat s1 ltac:(lia) Hs1) as (? & ? & ? & ?).
    apply (root_size_pos x0 y0 x1 y1 (star_node s0) (star_node s1)); auto.
    apply (Hdist 0%nat 1%nat s0 s1); auto. }
  destruct (distinct_separated stars (root_size x0 y0 x1 y1) ltac:(lra) Hdist)
    as (F0 & Hsep).
  exists (F0 + 2)%nat. intros fuel quads Hfuel Hz.
  unfold build_tree. rewrite Hb. cbn [bind].
  destruct (quads !! 0%nat) as [q0|] eqn:Hq0.
  2:{ unfold set_root. cbn [finite bind xmin_world ymin_world xmax_world ymax_world].
      rewrite Hq0. split; [right; reflexivity|].
      intros Hcap. apply lookup_ge_None in Hq0. lia. }
  assert (Hroot : set_root (mkbounds (Some x0) (Some y0) (Some x1) (Some y1)) quads
                  = Done (<[0%nat := root_quad x0 y0 x1 y1]> quads)).
  { unfold set_root. cbn [finite bind xmin_world ymin_world xmax_world ymax_world].
    rewrite Hq0, (Hz 0%nat q0 Hq0). reflexivity. }
  rewrite Hroot. cbn [bind].
  assert (Hlen0 : (1 <= length quads)%nat)
    by (apply lookup_lt_Some in Hq0; lia).
  pose (P := fun (i : nat) (a : arena) =>
    tree_ok stars i (fst a) (snd a) /\ pairs_ok stars (fst a) (snd a) /\
    (exists q, fst a !! 0%nat = Some q /\
               center q = center (root_quad x0 y0 x1 y1) /\
               size (quad_node q) = size (quad_node (root_quad x0 y0 x1 y1))) /\
    length (fst a) = length quads /\ (snd a <= 1 + i * (F0 + 1))%nat).
  destruct (for_range_progress P (length quads <= 1 + S n' * (F0 + 1))%nat OutOfArena
              (insert_star fuel stars) (S n')) with (a := 0%nat)
              (s := (<[0%nat := root_quad x0 y0 x1 y1]> quads, 1%nat))
    as [(a & Ha & HP)|[Ha HR]].
  - intros i [qs c] Hi (Ht & Hp & (q & Hq & Hce & Hsz) & Hlen & Hc).
    cbn [fst snd] in *.
    destruct (lookup_lt_is_Some_2 stars i ltac:(lia)) as [s Hs].
    destruct (ok_count _ _ _ _ Ht) as [Hc1 Hc2].
    unfold insert_star. rewrite Hs.
    destruct (insert_loop_terminates stars i s F0 (root_size x0 y0 x1 y1)
                Hstars Hs Hsep fuel 0%nat qs c 0%nat Ht ltac:(lia))
      as [(a' & Hrun & Ht' & Hp' & Hb')|(Hrun & Hb')].
    + intros q' Hq'. assert (q' = q) by congruence. subst q'.
      apply (in_square_same (root_quad x0 y0 x1 y1) q); [exact Hce | exact Hsz|].
      destruct (Hcov i s ltac:(lia) Hs) as (? & ? & ? & ?).
      apply root_quad_covers; assumption.
    + exact Hp.
    + exists q. split; [exact Hq|]. rewrite Hsz. cbn. ring.
    + reflexivity.
    + lia.
    + left. exists a'. split; [exact Hrun|].
      pose proof (insert_loop_frames _ _ _ _ _ _ _ Hrun) as (_ & Hlen' & Hkeep).
      cbn [fst snd] in Hlen', Hkeep.
      destruct (Hkeep 0%nat q Hq ltac:(lia)) as (q' & Hq' & Hce' & Hsz').
      split; [exact Ht'|]. split; [exact Hp'|].
      split; [exists q'; split; [exact Hq'|]; split; congruence|].
      split; [congruence|]. rewrite Nat.mul_succ_l. lia.
    + right. split; [exact Hrun|].
      assert (S i * (F0 + 1) <= S n' * (F0 + 1))%nat
        by (apply Nat.mul_le_mono_r; lia).
      rewrite Nat.mul_succ_l in *. lia.
  - lia.
  - unfold P. cbn [fst snd].
    split; [apply tree_ok_root; assumption|].
    split; [intros i q _ Hi; lia|].
    split; [exists (root_quad x0 y0 x1 y1); split;
            [apply list_lookup_insert_eq; lia | split; reflexivity]|].
    split; [apply length_insert | lia].
  - destruct HP as (Ht & _).
    split; [left|intros _]; exists a; split; assumption.
  - split; [right; exact Ha|].
    intros Hcap. exfalso. nia.
Qed.

Lemma two_body_distinct : distinct_positions (stars two_body).
Proof.
  intros [|[|a]] [|[|b]] s t Hs Ht Hab; try discriminate; try congruence;
    injection Hs as <-; injection Ht as <-; intros [H _]; discriminate H.
Qed.

Lemma insertion_terminates_witness :
  exists F : nat, forall fuel,
    (F <= fuel)%nat ->
    (exists a, build_tree fuel 2 (stars two_body) (quads two_body) = Done a) \/
    build_tree fuel 2 (stars two_body) (quads two_body) = Fault OutOfArena.
Proof.
  destruct (insertion_terminates (stars two_body) 2
              two_body_stars_ok two_body_distinct ltac:(cbn; lia))
    as (_ & F & HF).
  exists F. intros fuel Hfuel.
  destruct (HF fuel (quads two_body) Hfuel (zeroed_replicate 4))
    as [[(a & Ha & _)|Ha] _]; [left; exists a; exact Ha | right; exact Ha].
Defined.

(** ** The trees of the builder can be walked *)

Lemma children_zero_quad (k : Z) : children zero_quad k = None.
Proof. destruct k as [|[?|[?|?|]|]|?]; reflexivity. Qed.

Lemma tree_ok_walkable (stars : list star) (n : nat) (quads : list quad) (count : nat) :
  stars_ok stars -> tree_ok stars n quads count -> walkable stars quads.
Proof.
  intros Hstars Ht. destruct (ok_count _ _ _ _ Ht) as [Hc1 Hc2]. split.
  - intros a s Hs. apply (Hstars a s Hs).
  - intros i q k c Hq Hk Hc.
    destruct (le_lt_dec count i) as [Hi|Hi].
    + rewrite (ok_fresh _ _ _ _ Ht i q Hq Hi), children_zero_quad in Hc. discriminate.
    + destruct c as [a|j].
      * destruct (ok_child_star _ _ _ _ Ht i q k a Hq Hi Hk Hc) as [_ (s & Hs & _)].
        apply lookup_lt_Some in Hs. exact Hs.
      * destruct (ok_child_quad _ _ _ _ Ht i q k j Hq Hi Hk Hc) as [Hj _]. lia.
Qed.

(** * More of [world.c] *)

(** ** [mass_ascending] and [frand] *)

Lemma Qltb_true (a b : Q) : Qltb a b = true <-> a < b.
Proof.
  unfold Qltb. rewrite Qlt_alt. destruct (a ?= b); split; congruence.
Qed.

Lemma mass_ascending_cases (a b : star) :
  (mass (star_node a) < mass (star_node b) /\ mass_ascending a b = (-1)%Z) \/
  (mass (star_node a) == mass (star_node b) /\ mass_ascending a b = 0%Z) \/
  (mass (star_node b) < mass (star_node a) /\ mass_ascending a b = 1%Z).
Proof.
  unfold mass_ascending, Qltb, Qgtb.
  destruct (mass (star_node a) ?= mass (star_node b)) eqn:E.
  - right; left. split; [now apply Qeq_alt | reflexivity].
  - left. split; [now apply Qlt_alt | reflexivity].
  - right; right. split; [now apply Qgt_alt | reflexivity].
Qed.

(** X11: [mass_ascending] is a comparison as [qsort] needs one: its sign is the
    order of the two masses, swapping the arguments negates it, and the
    order it gives is transitive. *)
Theorem mass_ascending_order (a b c : star) :
  (mass_ascending a b = (-1)%Z <-> mass (star_node a) < mass (star_node b)) /\
  (mass_ascending a b = 0%Z <-> mass (star_node a) == mass (star_node b)) /\
  (mass_ascending a b = 1%Z <-> mass (star_node b) < mass (star_node a)) /\
  mass_ascending b a = (- mass_ascending a b)%Z /\
  ((mass_ascending a b <= 0)%Z -> (mass_ascending b c <= 0)%Z ->
   (mass_ascending a c <= 0)%Z).
Proof.
  destruct (mass_ascending_cases a b) as [[Hab ->]|[[Hab ->]|[Hab ->]]];
    destruct (mass_ascending_cases b a) as [[Hba ->]|[[Hba ->]|[Hba ->]]];
    try lra;
    (split; [split; [intros; try discriminate; lra | intros; try reflexivity; lra]|]);
    (split; [split; [intros; try discriminate; lra | intros; try reflexivity; lra]|]);
    (split; [split; [intros; try discriminate; lra | intros; try reflexivity; lra]|]);
    (split; [reflexivity|]);
    intros H1 H2;
    destruct (mass_ascending_cases b c) as [[Hbc E]|[[Hbc E]|[Hbc E]]];
    rewrite E in H2; try lia;
    destruct (mass_ascending_cases a c) as [[Hac ->]|[[Hac ->]|[Hac ->]]];
    try lia; lra.
Qed.

Lemma frand_Done (C : libc) (calls : nat) (min max : Q) :
  (0 < RAND_MAX C)%Z -> (0 <= rand C calls <= RAND_MAX C)%Z -> min <= max ->
  exists v, frand C calls min max = Done (v, S calls) /\ min <= v <= max /\
            v == inject_Z (rand C calls) / inject_Z (RAND_MAX C) * (max - min) + min.
Proof.
  intros HR [Hr0 Hr1] Hmm. unfold frand.
  assert (HRq : 0 < inject_Z (RAND_MAX C))
    by (change 0 with (inject_Z 0); rewrite <- Zlt_Qlt; exact HR).
  assert (H0 : 0 <= inject_Z (rand C calls))
    by (change 0 with (inject_Z 0); rewrite <- Zle_Qle; exact Hr0).
  assert (H1 : inject_Z (rand C calls) <= inject_Z (RAND_MAX C))
    by (rewrite <- Zle_Qle; exact Hr1).
  rewrite fdiv_Done by (intros E; lra). cbn [bind].
  eexists. split; [reflexivity|]. split; [|reflexivity].
  set (u := inject_Z (rand C calls) / inject_Z (RAND_MAX C)).
  assert (Hu0 : 0 <= u) by (apply Qle_shift_div_l; lra).
  assert (Hu1 : u <= 1) by (apply Qle_shift_div_r; lra).
  split; nra.
Qed.

(** X12: [frand(min, max)] with [min <= max], for a [rand] that answers in
    [0 .. RAND_MAX]: the result lies in [min .. max]; it is [min] when
    [rand] returns 0 and [max] when it returns [RAND_MAX]. *)
Theorem frand_range (C : libc) (calls : nat) (min max : Q) :
  (0 < RAND_MAX C)%Z -> (0 <= rand C calls <= RAND_MAX C)%Z -> min <= max ->
  exists v, frand C calls min max = Done (v, S calls) /\
            min <= v <= max /\
            (rand C calls = 0%Z -> v == min) /\
            (rand C calls = RAND_MAX C -> v == max).
Proof.
  intros HR Hr Hmm.
  destruct (frand_Done C calls min max HR Hr Hmm) as (v & Hv & Hin & Hval).
  exists v. split; [exact Hv|]. split; [exact Hin|].
  assert (HRq : 0 < inject_Z (RAND_MAX C))
    by (change 0 with (inject_Z 0); rewrite <- Zlt_Qlt; exact HR).
  split; intros E; rewrite Hval, E.
  - change (inject_Z 0) with 0. field. lra.
  - field. lra.
Qed.

Lemma frand_range_witness :
  exists v, frand libc0 0 1 10 = Done (v, 1%nat) /\ 1 <= v <= 10.
Proof.
  destruct (frand_range libc0 0 1 10 ltac:(reflexivity)
              ltac:(vm_compute; split; discriminate) ltac:(discriminate))
    as (v & Hv & Hin & _).
  exists v. split; [exact Hv | exact Hin].
Defined.

(** ** The seeding of [init_world] *)

Lemma strongly_sorted_lookup {A : Type} (R : relation A) (l : list A) :
  StronglySorted R l ->
  forall i j a b, (i < j)%nat -> l !! i = Some a -> l !! j = Some b -> R a b.
Proof.
  induction 1 as [|x l Hs IH Hx]; intros i j a b Hij Ha Hb; [discriminate|].
  destruct j as [|j]; [lia|]. cbn in Hb.
  destruct i as [|i]; cbn in Ha.
  - injection Ha as <-. rewrite Forall_lookup in Hx. eapply Hx; eauto.
  - apply (IH i j); auto. lia.
Qed.

Lemma seed_body_step (C : libc) (M : libm) (star_speed rmax : Q) (i : nat)
  (stars : list star) (calls : nat) (s : star) :
  (0 < RAND_MAX C)%Z -> (forall k, 0 <= rand C k <= RAND_MAX C)%Z ->
  stars !! i = Some s ->
  exists s' calls',
    seed_body C M star_speed rmax i (stars, calls) = Done (<[i := s']> stars, calls') /\
    size (star_node s') = size (star_node s) /\ accel s' = accel s /\
    1 <= mass (star_node s') <= 10.
Proof.
  intros HR Hrand Hs. unfold seed_body. rewrite Hs.
  assert (HRq : ~ inject_Z (RAND_MAX C) == 0).
  { intros E. assert (0 < inject_Z (RAND_MAX C))
      by (change 0 with (inject_Z 0); rewrite <- Zlt_Qlt; exact HR). lra. }
  unfold frand at 1. rewrite fdiv_Done by exact HRq. cbn [bind].
  unfold frand at 1. rewrite fdiv_Done by exact HRq. cbn [bind].
  destruct (frand_Done C (S (S calls)) 1 10 HR (Hrand _) ltac:(discriminate))
    as (m & -> & Hm & _).
  cbn [bind]. eexists _, _. split; [reflexivity|]. cbn. auto.
Qed.

(** X13: the stars as [init_world] seeds them, when [rand] answers in
    [0 .. RAND_MAX], [config.galaxy_density] is not zero and [qsort] sorts:
    there are [config.stars] of them, each with a mass between 1 and 10,
    a size of zero and no stored acceleration, in the order of ascending
    mass. *)
Theorem init_stars_sorted (C : libc) (M : libm) (config : configuration)
  (galaxy_density star_speed : Q) :
  (0 < RAND_MAX C)%Z -> (forall k, 0 <= rand C k <= RAND_MAX C)%Z ->
  ~ galaxy_density == 0 -> qsort_contract C ->
  exists stars,
    init_stars C M config galaxy_density star_speed = Done stars /\
    length stars = Z.to_nat (config_stars config) /\
    stars_ok stars /\
    (forall i s, stars !! i = Some s ->
       1 <= mass (star_node s) <= 10 /\ size (star_node s) = 0 /\
       accel s = zero_vecd2) /\
    (forall i j a b, (i < j)%nat -> stars !! i = Some a -> stars !! j = Some b ->
       mass (star_node a) <= mass (star_node b)).
Proof.
  intros HR Hrand Hgd Hsort. unfold init_stars.
  rewrite fdiv_Done by exact Hgd. cbn [bind].
  set (n := Z.to_nat (config_stars config)).
  set (rmax := sqrt M (inject_Z (config_stars config)) / galaxy_density).
  pose (P := fun (i : nat) (st : list star * nat) =>
    length (fst st) = n /\
    forall j s, fst st !! j = Some s ->
      size (star_node s) = 0 /\ accel s = zero_vecd2 /\
      ((j < i)%nat -> 1 <= mass (star_node s) <= 10)).
  destruct (for_range_progress P False WildPointer (seed_body C M star_speed rmax) n)
    with (a := 0%nat) (s := (replicate n zero_star, 0%nat))
    as [([l calls] & -> & Hlen & Hl)|[_ []]].
  - intros i [stars calls] Hi [Hlen Hst]. cbn [fst] in Hlen, Hst. left.
    destruct (lookup_lt_is_Some_2 stars i ltac:(lia)) as [s Hs].
    destruct (seed_body_step C M star_speed rmax i stars calls s HR Hrand Hs)
      as (s' & calls' & -> & Hsz & Hac & Hm).
    eexists. split; [reflexivity|]. split; cbn [fst].
    + rewrite length_insert. exact Hlen.
    + intros j t Ht. destruct (decide (j = i)) as [->|Hne].
      * rewrite list_lookup_insert_eq in Ht by lia. injection Ht as <-.
        destruct (Hst i s Hs) as (Hz & Ha & _).
        split; [congruence|]. split; [congruence|]. intros _. exact Hm.
      * rewrite list_lookup_insert_ne in Ht by auto.
        destruct (Hst j t Ht) as (Hz & Ha & Hmj).
        split; [exact Hz|]. split; [exact Ha|]. intros Hj. apply Hmj. lia.
  - lia.
  - split; cbn [fst]; [apply length_replicate|].
    intros j s Hj. apply lookup_replicate in Hj. destruct Hj as [-> Hj].
    split; [reflexivity|]. split; [reflexivity|]. lia.
  - cbn [bind fst]. cbn [fst] in Hlen, Hl.
    destruct (Hsort l) as [Hperm Hsorted].
    set (l' := qsort C mass_ascending l) in *.
    assert (Hall : forall i s, l' !! i = Some s ->
              1 <= mass (star_node s) <= 10 /\ size (star_node s) = 0 /\
              accel s = zero_vecd2).
    { intros i s Hi.
      assert (Hin : s ∈ l) by (rewrite <- Hperm; eapply list_elem_of_lookup_2; eauto).
      apply list_elem_of_lookup_1 in Hin. destruct Hin as (j & Hj).
      destruct (Hl j s Hj) as (Hz & Ha & Hm).
      split; [apply Hm; apply lookup_lt_Some in Hj; lia | auto]. }
    exists l'. split; [reflexivity|].
    split; [rewrite <- Hlen; apply Permutation_length; exact Hperm|].
    split; [|split; [exact Hall|]].
    + intros a s Ha. destruct (Hall a s Ha) as ([Hm _] & Hz & _).
      rewrite Hz. split; [reflexivity | lra].
    + intros i j a b Hij Ha Hb.
      pose proof (strongly_sorted_lookup mass_le l' Hsorted i j a b Hij Ha Hb) as Hab.
      unfold mass_le in Hab.
      destruct (mass_ascending_cases a b) as [[H E]|[[H E]|[H E]]];
        rewrite E in Hab; try lia; lra.
Qed.

Lemma libc0_rand (k : nat) : (0 <= rand libc0 k <= RAND_MAX libc0)%Z.
Proof.
  cbn [rand RAND_MAX libc0].
  pose proof (Z.mod_pos_bound (Z.of_nat k * 7919) 32768 ltac:(lia)). lia.
Qed.

Lemma libc0_sorts : qsort_contract libc0.
Proof.
  intros l. cbn [qsort libc0]. split; [apply merge_sort_Permutation|].
  assert (Htrans : Transitive mass_le); [|assert (Htotal : Total mass_le)];
    [| |exact (@StronglySorted_merge_sort star mass_le _ Htrans Htotal l)].
  - intros a b c Hab Hbc. unfold mass_le in *.
    destruct (mass_ascending_cases a b) as [[H1 E1]|[[H1 E1]|[H1 E1]]];
      rewrite E1 in Hab; try lia;
      destruct (mass_ascending_cases b c) as [[H2 E2]|[[H2 E2]|[H2 E2]]];
      rewrite E2 in Hbc; try lia;
      destruct (mass_ascending_cases a c) as [[H3 ->]|[[H3 ->]|[H3 ->]]];
      try lia; lra.
  - intros a b. unfold mass_le.
    destruct (mass_ascending_cases a b) as [[H1 ->]|[[H1 ->]|[H1 ->]]];
      try (left; lia).
    destruct (mass_ascending_cases b a) as [[H2 ->]|[[H2 ->]|[H2 ->]]];
      try (right; lia). lra.
Qed.

Lemma init_stars_sorted_witness :
  exists stars,
    init_stars libc0 libm0 two_body_config 1 1 = Done stars /\
    length stars = 2%nat /\ stars_ok stars.
Proof.
  destruct (init_stars_sorted libc0 libm0 two_body_config 1 1
              ltac:(reflexivity) libc0_rand ltac:(discriminate) libc0_sorts)
    as (stars & Hrun & Hlen & Hok & _).
  exists stars. split; [exact Hrun|]. split; [exact Hlen | exact Hok].
Defined.

(** ** The parts of the pool threads *)

Lemma part_width (N P p : Z) :
  (0 <= N)%Z -> (0 < P)%Z -> (0 <= p)%Z ->
  (N ÷ P <= N * (p + 1) ÷ P - N * p ÷ P <= N ÷ P + 1)%Z.
Proof.
  intros HN HP Hp.
  rewrite !Z.quot_div_nonneg by nia.
  pose proof (Z.div_mod (N * p) P ltac:(lia)) as E1.
  pose proof (Z.div_mod N P ltac:(lia)) as E2.
  pose proof (Z.mod_pos_bound (N * p) P HP) as B1.
  pose proof (Z.mod_pos_bound N P HP) as B2.
  set (a := (N * p / P)%Z) in *. set (r := ((N * p) mod P)%Z) in *.
  set (b := (N / P)%Z) in *. set (s := (N mod P)%Z) in *.
  replace (N * (p + 1))%Z with ((a + b) * P + (r + s))%Z by lia.
  rewrite Z.div_add_l by lia.
  assert (0 <= (r + s) / P)%Z by (apply Z.div_pos; lia).
  assert ((r + s) / P < 2)%Z by (apply Z.div_lt_upper_bound; lia).
  lia.
Qed.

(** X10: the thread [part] of a pool of [P] threads, with [config.stars * P] in
    the range of [int], runs the loop body for the stars [lo .. hi - 1],
    where [hi - lo] is the quotient [config.stars / P] or one more; the
    part of thread 0 starts at star 0 and the part of the last thread ends
    at the last star. *)
Theorem update_stars_job_part (config : configuration) (M : libm) (fuel : nat)
  (P : Z) (ft : Q) (tree : list quad) (part : Z) (bodies : list star) :
  (0 <= config_stars config)%Z -> (0 < P)%Z -> (0 <= part < P)%Z ->
  (config_stars config * P <= INT_MAX)%Z ->
  exists lo hi : nat,
    update_stars_job config M fuel P ft tree part bodies
    = for_each (job_body config M fuel ft tree) (seq lo (hi - lo)) bodies /\
    (lo <= hi <= Z.to_nat (config_stars config))%nat /\
    (Z.to_nat (config_stars config ÷ P) <= hi - lo
     <= Z.to_nat (config_stars config ÷ P) + 1)%nat /\
    (part = 0%Z -> lo = 0%nat) /\
    (part = (P - 1)%Z -> hi = Z.to_nat (config_stars config)).
Proof.
  intros HN HP Hpart Hmax.
  exists (Z.to_nat (config_stars config * part ÷ P)),
         (Z.to_nat (config_stars config * (part + 1) ÷ P)).
  split; [apply update_stars_job_range; assumption|].
  pose proof (part_width (config_stars config) P part HN HP ltac:(lia)) as Hw.
  assert (H0 : (0 <= config_stars config ÷ P)%Z)
    by (apply Z.quot_pos; lia).
  assert (Hlo : (0 <= config_stars config * part ÷ P)%Z)
    by (apply Z.quot_pos; nia).
  assert (Hhi : (config_stars config * (part + 1) ÷ P <= config_stars config)%Z).
  { rewrite Z.quot_div_nonneg by nia. apply Z.div_le_upper_bound; nia. }
  split; [lia|]. split; [lia|]. split.
  - intros ->. rewrite Z.mul_0_r. reflexivity.
  - intros ->. replace (P - 1 + 1)%Z with P by lia.
    rewrite Z.quot_mul by lia. reflexivity.
Qed.

Lemma update_stars_job_part_witness :
  exists lo hi : nat,
    update_stars_job two_body_config libm0 8 2 1 (replicate 4 zero_quad) 1
      (stars two_body)
    = for_each (job_body two_body_config libm0 8 1 (replicate 4 zero_quad))
        (seq lo (hi - lo)) (stars two_body) /\
    (1 <= hi - lo <= 2)%nat.
Proof.
  destruct (update_stars_job_part two_body_config libm0 8 2 1
              (replicate 4 zero_quad) 1 (stars two_body)
              ltac:(vm_compute; congruence) ltac:(reflexivity)
              ltac:(split; [vm_compute; congruence | reflexivity])
              ltac:(vm_compute; congruence))
    as (lo & hi & Hrun & Hle & Hw & _).
  exists lo, hi. split; [exact Hrun | exact Hw].
Defined.

(** ** The root, as the frame sets it up *)

Lemma lower_bound_attained (m : option Q) (v : Q) :
  lower_bound m v = Some v \/ exists b, m = Some b /\ lower_bound m v = Some b.
Proof.
  destruct m as [b|]; simpl; [|left; reflexivity].
  destruct (Qgtb b v); [left; reflexivity | right; eauto].
Qed.

Lemma upper_bound_attained (m : option Q) (v : Q) :
  upper_bound m v = Some v \/ exists b, m = Some b /\ upper_bound m v = Some b.
Proof.
  destruct m as [b|]; simpl; [|left; reflexivity].
  destruct (Qgtb v b); [left; reflexivity | right; eauto].
Qed.

(** Each bound of the box is a coordinate of one of the stars. *)
Lemma world_bounds_attained (stars : list star) (n : nat) (b : bounds) :
  world_bounds n stars = Done b ->
  (n = 0%nat /\ b = mkbounds None None None None) \/
  ((0 < n)%nat /\
   forall (proj : bounds -> option Q) (f : node -> Q),
     (proj = xmin_world /\ f = node_x) \/ (proj = ymin_world /\ f = node_y) \/
     (proj = xmax_world /\ f = node_x) \/ (proj = ymax_world /\ f = node_y) ->
     exists j s, (j < n)%nat /\ stars !! j = Some s /\ proj b = Some (f (star_node s))).
Proof.
  unfold world_bounds.
  pose (P := fun (i : nat) (b : bounds) =>
    (i = 0%nat /\ b = mkbounds None None None None) \/
    ((0 < i)%nat /\
     forall (proj : bounds -> option Q) (f : node -> Q),
       (proj = xmin_world /\ f = node_x) \/ (proj = ymin_world /\ f = node_y) \/
       (proj = xmax_world /\ f = node_x) \/ (proj = ymax_world /\ f = node_y) ->
       exists j s, (j < i)%nat /\ stars !! j = Some s /\
                   proj b = Some (f (star_node s)))).
  intros H.
  apply (for_range_invariant P (bounds_body stars) n) with (a := 0%nat)
    (s := mkbounds None None None None) (s' := b); [| lia | left; auto | exact H].
  clear H b. intros i b b' Hi HP Hbody. right. split; [lia|].
  unfold bounds_body in Hbody.
  destruct (stars !! i) as [s|] eqn:Hs; [|discriminate]. injection Hbody as <-.
  assert (Hold : forall (proj : bounds -> option Q) (f : node -> Q) v,
            (proj = xmin_world /\ f = node_x) \/ (proj = ymin_world /\ f = node_y) \/
            (proj = xmax_world /\ f = node_x) \/ (proj = ymax_world /\ f = node_y) ->
            proj b = Some v ->
            exists j t, (j < S i)%nat /\ stars !! j = Some t /\
                        Some v = Some (f (star_node t))).
  { intros proj f v Hpf Hv. destruct HP as [[_ ->]|[_ HP]].
    - destruct Hpf as [[-> _]|[[-> _]|[[-> _]|[-> _]]]]; discriminate.
    - destruct (HP proj f Hpf) as (j & t & Hj & Ht & E).
      exists j, t. split; [lia|]. split; [exact Ht|]. congruence. }
  intros proj f Hpf.
  destruct Hpf as [[-> ->]|[[-> ->]|[[-> ->]|[-> ->]]]]; cbn.
  - destruct (lower_bound_attained (xmin_world b) (node_x (star_node s)))
      as [->|(v & Hv & ->)]; [exists i, s; auto|].
    apply (Hold xmin_world node_x v); auto.
  - destruct (lower_bound_attained (ymin_world b) (node_y (star_node s)))
      as [->|(v & Hv & ->)]; [exists i, s; auto|].
    apply (Hold ymin_world node_y v); auto.
  - destruct (upper_bound_attained (xmax_world b) (node_x (star_node s)))
      as [->|(v & Hv & ->)]; [exists i, s; auto|].
    apply (Hold xmax_world node_x v); auto 6.
  - destruct (upper_bound_attained (ymax_world b) (node_y (star_node s)))
      as [->|(v & Hv & ->)]; [exists i, s; auto|].
    apply (Hold ymax_world node_y v); auto 6.
Qed.

(** X5: lines 214-232 on a star array with [n] stars to look at: only
    [quads[0]] is written, and only its centre and size.  The four bounds
    that the loop leaves are coordinates of stars, and no star has a
    coordinate beyond them: each of the four tests of lines 215-222 fails
    for every star and the final bounds.  The centre is the half of the sum
    of the two bounds of each axis, operation by operation, and the size
    the larger of the two differences. *)
Theorem set_root_box (stars : list star) (n : nat) (quads quads' : list quad)
  (b : bounds) :
  world_bounds n stars = Done b -> set_root b quads = Done quads' ->
  exists q0 root xmin ymin xmax ymax,
    b = mkbounds (Some xmin) (Some ymin) (Some xmax) (Some ymax) /\
    quads !! 0%nat = Some q0 /\ quads' = <[0%nat := root]> quads /\
    node_x (quad_node root) = node_x (quad_node q0) /\
    node_y (quad_node root) = node_y (quad_node q0) /\
    mass (quad_node root) = mass (quad_node q0) /\
    (forall k, children root k = children q0 k) /\
    center root = mkvecd2 ((xmin + xmax) / 2) ((ymin + ymax) / 2) /\
    size (quad_node root)
    = (if Qgtb (xmax - xmin) (ymax - ymin) then xmax - xmin else ymax - ymin) /\
    (forall i s, (i < n)%nat -> stars !! i = Some s ->
       Qgtb xmin (node_x (star_node s)) = false /\
       Qgtb (node_x (star_node s)) xmax = false /\
       Qgtb ymin (node_y (star_node s)) = false /\
       Qgtb (node_y (star_node s)) ymax = false) /\
    (exists i0 i1 i2 i3 s0 s1 s2 s3,
       ((i0 < n)%nat /\ stars !! i0 = Some s0 /\ xmin = node_x (star_node s0)) /\
       ((i1 < n)%nat /\ stars !! i1 = Some s1 /\ ymin = node_y (star_node s1)) /\
       ((i2 < n)%nat /\ stars !! i2 = Some s2 /\ xmax = node_x (star_node s2)) /\
       ((i3 < n)%nat /\ stars !! i3 = Some s3 /\ ymax = node_y (star_node s3))).
Proof.
  intros Hb Hroot.
  destruct (world_bounds_attained stars n b Hb) as [[-> ->]|[Hn Hatt]];
    [discriminate Hroot|].
  destruct n as [|n']; [lia|].
  destruct (world_bounds_cover stars n' b Hb) as (x0 & y0 & x1 & y1 & -> & Hcov).
  destruct (Hatt xmin_world node_x ltac:(auto)) as (ix0 & sx0 & Hix0 & Hsx0 & Ex0).
  destruct (Hatt ymin_world node_y ltac:(auto)) as (iy0 & sy0 & Hiy0 & Hsy0 & Ey0).
  destruct (Hatt xmax_world node_x ltac:(auto 6)) as (ix1 & sx1 & Hix1 & Hsx1 & Ex1).
  destruct (Hatt ymax_world node_y ltac:(auto 6)) as (iy1 & sy1 & Hiy1 & Hsy1 & Ey1).
  cbn in Ex0, Ey0, Ex1, Ey1.
  injection Ex0 as Ex0. injection Ey0 as Ey0. injection Ex1 as Ex1. injection Ey1 as Ey1.
  unfold set_root in Hroot.
  cbn [finite bind xmin_world ymin_world xmax_world ymax_world] in Hroot.
  destruct (quads !! 0%nat) as [q0|] eqn:Hq0; [|discriminate].
  cbv zeta in Hroot. injection Hroot as <-.
  eexists q0, _, x0, y0, x1, y1.
  split; [reflexivity|]. split; [reflexivity|]. split; [reflexivity|].
  split; [reflexivity|]. split; [reflexivity|]. split; [reflexivity|].
  split; [intros k; destruct k as [|[?|[?|?|]|]|?]; reflexivity|].
  split; [reflexivity|]. split; [reflexivity|]. split.
  - intros i s Hi Hs. rewrite !Qgtb_false. apply (Hcov i s); [lia | exact Hs].
  - exists ix0, iy0, ix1, iy1, sx0, sy0, sx1, sy1. repeat split; assumption.
Qed.

Lemma set_root_box_witness :
  exists b quads' root,
    world_bounds 3 (stars crowded) = Done b /\
    set_root b (quads crowded) = Done quads' /\
    quads' !! 0%nat = Some root /\
    center root = mkvecd2 ((0 + 1024) / 2) ((0 + 1024) / 2) /\
    size (quad_node root) = 1024 - 0.
Proof.
  assert (Hb : exists b, world_bounds 3 (stars crowded) = Done b)
    by (eexists; vm_compute; reflexivity).
  destruct Hb as (b & Hb).
  assert (Hr : exists quads', set_root b (quads crowded) = Done quads').
  { assert (Hb' := Hb). vm_compute in Hb'. injection Hb' as <-.
    eexists. vm_compute. reflexivity. }
  destruct Hr as (quads' & Hr).
  destruct (set_root_box (stars crowded) 3 (quads crowded) quads' b Hb Hr)
    as (q0 & root & xmin & ymin & xmax & ymax & Eb & _ & Eq & _ & _ & _ & _ & Ec & Es & _).
  exists b, quads', root. split; [exact Hb|]. split; [exact Hr|].
  split; [rewrite Eq; reflexivity|].
  assert (Hb' := Hb). vm_compute in Hb'. rewrite Eb in Hb'.
  injection Hb' as <- <- <- <-.
  split; [exact Ec|]. rewrite Es. reflexivity.
Defined.

(** ** The frame, phase by phase *)

Lemma world_frame_Done (config : configuration) (M : libm) (fuel : nat) (sched : list nat)
  (w : world) (time : Q) (w' : world) :
  world_frame config M fuel sched w time = Done w' ->
  exists ft a stars1 stars2 disp quads',
    clamp_time config time = Done ft /\
    build_tree fuel (Z.to_nat (config_stars config)) (stars w) (quads w) = Done a /\
    (if (1 <? cores w)%Z
     then run_pool config M fuel (cores w) ft (fst a) sched (stars w)
     else run_inline config M fuel ft (fst a) (stars w)) = Done stars1 /\
    for_each (move_body ft) (seq 0 (Z.to_nat (config_stars config))) stars1
    = Done stars2 /\
    for_each (display_body M stars2) (seq 0 (Z.to_nat (config_stars config)))
      (disp_stars w) = Done disp /\
    clear_quads a = Done quads' /\
    w' = mkworld stars2 quads' disp (cores w) ft.
Proof.
  intros H. unfold world_frame in H.
  apply bind_Done in H. destruct H as (ft & Hft & H).
  apply bind_Done in H. destruct H as (a & Ha & H).
  apply bind_Done in H. destruct H as (stars1 & H1 & H).
  apply bind_Done in H. destruct H as (stars2 & H2 & H).
  apply bind_Done in H. destruct H as (disp & Hd & H).
  apply bind_Done in H. destruct H as (quads' & Hq & H).
  injection H as <-. unfold for_range in H2, Hd. rewrite Nat.sub_0_r in H2, Hd.
  exists ft, a, stars1, stars2, disp, quads'. repeat split; assumption.
Qed.

(** ** The display buffer *)

Lemma display_loop (M : libm) (stars : list star) (l : list nat) :
  forall disp disp',
    for_each (display_body M stars) l disp = Done disp' ->
    forall i,
      (i ∈ l -> exists s, stars !! i = Some s /\
         disp' !! i = Some (to_float M (node_x (star_node s)),
                            to_float M (node_y (star_node s)))) /\
      (i ∉ l -> disp' !! i = disp !! i).
Proof.
  induction l as [|x l IH]; intros disp disp' H i; cbn [for_each] in H.
  - injection H as <-. split; [|reflexivity].
    intros Hin. apply elem_of_nil in Hin. contradiction.
  - apply bind_Done in H. destruct H as (d1 & Hx & H).
    unfold display_body in Hx.
    destruct (stars !! x) as [s|] eqn:Hs; [|discriminate].
    destruct (x <? length disp)%nat eqn:Hlt; [|discriminate].
    injection Hx as <-. apply Nat.ltb_lt in Hlt.
    destruct (IH _ _ H i) as [Hin Hout].
    destruct (decide (i ∈ l)) as [Hil|Hil].
    + split; [intros _; apply Hin; exact Hil|].
      intros Hn. exfalso. apply Hn. now apply list_elem_of_further.
    + split.
      * intros Hix. apply elem_of_cons in Hix. destruct Hix as [->|Hix]; [|contradiction].
        exists s. split; [exact Hs|]. rewrite (Hout Hil).
        apply list_lookup_insert_eq. exact Hlt.
      * intros Hn. rewrite (Hout Hil). apply list_lookup_insert_ne.
        intros ->. apply Hn. apply list_elem_of_here.
Qed.

(** X8: after a frame that completes, the display buffer holds, for each of
    the [config.stars] stars, the [x] and the [y] that the frame left in
    the star, each narrowed to a [float]; the entries beyond are
    untouched. *)
Theorem display_mirrors_stars (config : configuration) (M : libm) (fuel : nat)
  (sched : list nat) (w : world) (time : Q) (w' : world) :
  world_frame config M fuel sched w time = Done w' ->
  (forall i, (i < Z.to_nat (config_stars config))%nat ->
     exists s', stars w' !! i = Some s' /\
       disp_stars w' !! i = Some (to_float M (node_x (star_node s')),
                                  to_float M (node_y (star_node s')))) /\
  (forall i, (Z.to_nat (config_stars config) <= i)%nat ->
     disp_stars w' !! i = disp_stars w !! i).
Proof.
  intros H. apply world_frame_Done in H.
  destruct H as (ft & a & stars1 & stars2 & disp & quads' & _ & _ & _ & _ & Hd & _ & ->).
  cbn [stars disp_stars].
  split; intros i Hi; destruct (display_loop _ _ _ _ _ Hd i) as [Hin Hout].
  - apply Hin. apply elem_of_seq. lia.
  - apply Hout. rewrite elem_of_seq. lia.
Qed.

Lemma display_mirrors_stars_witness :
  exists w',
    world_frame two_body_config libm_coarse 8 [] drifting_alone 1 = Done w' /\
    exists s' dx dy,
      stars w' !! 1%nat = Some s' /\
      node_x (star_node s') == 2363 # 2250 /\
      disp_stars w' !! 1%nat = Some (dx, dy) /\ dx == 1 /\ dy == 0.
Proof.
  eexists. split; [vm_compute; reflexivity|].
  destruct (display_mirrors_stars two_body_config libm_coarse 8 [] drifting_alone 1 _
              ltac:(vm_compute; reflexivity)) as [H _].
  destruct (H 1%nat ltac:(vm_compute; lia)) as (s' & Hs & Hd).
  exists s'. do 2 eexists. split; [exact Hs|].
  assert (Hs1 := Hs). vm_compute in Hs1. injection Hs1 as <-.
  split; [vm_compute; reflexivity|].
  split; [exact Hd|]. split; vm_compute; reflexivity.
Defined.

(** ** The arena after the frame *)

(** A pass of the insertion loop writes the current quad and, when it
    splits, the slot at the counter: the slots beyond stay untouched and
    the children stay among the quads in use. *)
Lemma insert_body_fresh (stars : list star) (si : nat) (star : node)
  (quads : list quad) (count cur : nat) (a' : arena) (p' : ptr) :
  fresh_beyond quads count -> links_below quads count -> (cur < count)%nat ->
  insert_body stars si star (quads, count) (PQuad cur) = Done (a', p') ->
  fresh_beyond (fst a') (snd a') /\ links_below (fst a') (snd a') /\
  (forall j, p' = PQuad j -> (j < snd a')%nat).
Proof.
  intros Hfresh Hlinks Hcur H. apply insert_body_Done in H.
  destruct H as (qi & q & [= <-] & Hq & _ & Hcases). cbv zeta in Hcases.
  assert (Hk : (0 <= get_quadrant q star < 4)%Z) by apply get_quadrant_range.
  assert (Hcl : (cur < length quads)%nat) by (apply lookup_lt_Some in Hq; exact Hq).
  assert (Hq1 : forall k j, (0 <= k < 4)%Z ->
            children (add_star q star) k = Some (PQuad j) -> (j < count)%nat).
  { intros k j Hk' Hc. rewrite add_star_children in Hc. eapply Hlinks; eauto. }
  destruct Hcases
    as [(Hnone & -> & ->)
       |[(child & old & slot & Hch & _ & _ & Hslot & -> & ->)
        |(child & n & Hch & _ & _ & -> & ->)]]; cbn [fst snd].
  - split; [|split; [|intros j [=]]].
    + intros i x Hi Hge. rewrite list_lookup_insert_ne in Hi by lia. eauto.
    + intros i x k j Hi Hk' Hc. destruct (decide (i = cur)) as [->|Hne].
      * rewrite list_lookup_insert_eq in Hi by exact Hcl. injection Hi as <-.
        destruct (decide (k = get_quadrant q star)) as [->|Hkk].
        -- rewrite children_set_same in Hc by exact Hk. discriminate.
        -- rewrite children_set_other in Hc by auto. eauto.
      * rewrite list_lookup_insert_ne in Hi by auto. eauto.
  - rewrite list_lookup_insert_ne in Hslot by lia.
    assert (slot = zero_quad) by (eapply Hfresh; eauto). subst slot.
    assert (Hcount : (count < length quads)%nat)
      by (apply lookup_lt_Some in Hslot; exact Hslot).
    split; [|split; [|intros j [= <-]; lia]].
    + intros i x Hi Hge.
      rewrite !list_lookup_insert_ne in Hi by lia. eapply Hfresh; eauto. lia.
    + intros i x k j Hi Hk' Hc. destruct (decide (i = cur)) as [->|Hne].
      * rewrite list_lookup_insert_eq in Hi by (rewrite !length_insert; exact Hcl).
        injection Hi as <-.
        destruct (decide (k = get_quadrant q star)) as [->|Hkk].
        -- rewrite children_set_same in Hc by exact Hk. injection Hc as <-. lia.
        -- rewrite children_set_other in Hc by auto.
           specialize (Hq1 k j Hk' Hc). lia.
      * rewrite list_lookup_insert_ne in Hi by auto.
        destruct (decide (i = count)) as [->|Hnc].
        -- rewrite list_lookup_insert_eq in Hi by (rewrite length_insert; exact Hcount).
           injection Hi as <-.
           apply split_off_children in Hc; [|exact Hk']. destruct Hc as [_ Hc].
           subst child. pose proof (Hlinks cur q _ j Hq Hk Hch). lia.
        -- rewrite !list_lookup_insert_ne in Hi by auto.
           assert (j < count)%nat by (eapply Hlinks; eauto). lia.
  - split; [|split].
    + intros i x Hi Hge. rewrite list_lookup_insert_ne in Hi by lia. eauto.
    + intros i x k j Hi Hk' Hc. destruct (decide (i = cur)) as [->|Hne].
      * rewrite list_lookup_insert_eq in Hi by exact Hcl. injection Hi as <-. eauto.
      * rewrite list_lookup_insert_ne in Hi by auto. eauto.
    + intros j ->. eapply Hlinks; eauto.
Qed.

Lemma insert_loop_fresh (stars : list star) (si : nat) (star : node) (fuel : nat) :
  forall quads count cur a',
    fresh_beyond quads count -> links_below quads count -> (cur < count)%nat ->
    insert_loop fuel stars si star (quads, count) (PQuad cur) = Done a' ->
    fresh_beyond (fst a') (snd a') /\ links_below (fst a') (snd a') /\
    (1 <= snd a')%nat.
Proof.
  induction fuel as [|fuel IH]; intros quads count cur a' Hf Hl Hc H; [discriminate|].
  cbn [insert_loop] in H. apply bind_Done in H.
  destruct H as ([[quads1 count1] p1] & Hbody & H).
  destruct (insert_body_fresh _ _ _ _ _ _ _ _ Hf Hl Hc Hbody) as (Hf1 & Hl1 & Hp1).
  pose proof (insert_body_frames _ _ _ _ _ _ _ Hbody) as (Hmono & _).
  cbn [fst snd] in *.
  apply bind_Done in H. destruct H as (n & _ & H).
  destruct (Qtruth (size n)).
  - destruct p1 as [t|j].
    + destruct fuel; discriminate H.
    + apply (IH quads1 count1 j); auto.
  - injection H as <-. cbn [fst snd]. split; [exact Hf1|]. split; [exact Hl1 | lia].
Qed.

Lemma build_tree_fresh (fuel n : nat) (stars : list star) (quads : list quad)
  (a : arena) :
  zeroed quads -> build_tree fuel n stars quads = Done a ->
  fresh_beyond (fst a) (snd a).
Proof.
  intros Hz H. unfold build_tree in H.
  apply bind_Done in H. destruct H as (b & _ & H).
  apply bind_Done in H. destruct H as (quads0 & Hroot & H).
  destruct b as [[x0|] [y0|] [x1|] [y1|]]; try discriminate Hroot.
  apply set_root_zeroed in Hroot; [|exact Hz]. destruct Hroot as [-> Hlen].
  pose (P := fun (i : nat) (a : arena) =>
    fresh_beyond (fst a) (snd a) /\ links_below (fst a) (snd a) /\ (1 <= snd a)%nat).
  apply (for_range_invariant P (insert_star fuel stars) n) with (a := 0%nat)
    (s := (<[0%nat := root_quad x0 y0 x1 y1]> quads, 1%nat)) (s' := a);
    [| lia | | exact H].
  - intros i [qs c] a1 _ (Hf & Hl & Hc) Hrun. cbn [fst snd] in *.
    unfold insert_star in Hrun. destruct (stars !! i) as [s|]; [|discriminate].
    apply (insert_loop_fresh stars i (star_node s) fuel qs c 0%nat a1 Hf Hl
             ltac:(lia) Hrun).
  - unfold P. cbn [fst snd]. split; [|split; [|lia]].
    + intros i q Hi Hge. rewrite list_lookup_insert_ne in Hi by lia. eauto.
    + intros i q k j Hi Hk Hc. destruct (decide (i = 0%nat)) as [->|Hne].
      * rewrite list_lookup_insert_eq in Hi by lia. injection Hi as <-.
        destruct k as [|[?|[?|?|]|]|?]; discriminate Hc.
      * rewrite list_lookup_insert_ne in Hi by auto.
        rewrite (Hz i q Hi), children_zero_quad in Hc. discriminate.
Qed.

(** X7: the [memset] at the end of the frame clears every quad that the build
    phase wrote: a frame that starts with a zeroed arena and completes
    leaves a zeroed arena of the same length to the next frame. *)
Theorem world_frame_clears_arena (config : configuration) (M : libm) (fuel : nat) (sched : list nat)
  (w : world) (time : Q) (w' : world) :
  zeroed (quads w) -> world_frame config M fuel sched w time = Done w' ->
  zeroed (quads w') /\ length (quads w') = length (quads w).
Proof.
  intros Hz H. apply world_frame_Done in H.
  destruct H as (ft & a & stars1 & stars2 & disp & quads' & _ & Ha & _ & _ & _ & Hq & ->).
  cbn [quads].
  pose proof (build_tree_fresh _ _ _ _ _ Hz Ha) as Hfresh.
  pose proof (build_tree_length _ _ _ _ _ Ha) as [Hlen _].
  split; [|rewrite (clear_quads_length _ _ Hq); exact Hlen].
  destruct a as [qs c]. unfold clear_quads in Hq.
  destruct (c <=? length qs)%nat eqn:E; [|discriminate]. injection Hq as <-.
  cbn [fst snd] in Hfresh. intros i q Hi.
  destruct (le_lt_dec c i) as [Hge|Hlt].
  - rewrite lookup_app_r in Hi by (rewrite length_replicate; exact Hge).
    rewrite length_replicate, lookup_drop in Hi. eapply Hfresh; eauto. lia.
  - rewrite lookup_app_l in Hi by (rewrite length_replicate; exact Hlt).
    apply lookup_replicate in Hi. tauto.
Qed.

Lemma world_frame_clears_arena_witness :
  exists w',
    world_frame two_body_config libm0 8 [] two_body 1 = Done w' /\
    zeroed (quads w').
Proof.
  eexists. split; [vm_compute; reflexivity|].
  apply (world_frame_clears_arena two_body_config libm0 8 [] two_body 1 _
           (zeroed_replicate 4) ltac:(vm_compute; reflexivity)).
Defined.

(** ** The integration step *)

Lemma for_each_pointwise_inv (Inv : list star -> Prop) (R : star -> star -> Prop)
  (body : nat -> list star -> outcome (list star)) (l : list nat) :
  NoDup l ->
  (forall i st st', Inv st -> body i st = Done st' ->
     Inv st' /\ exists s s', st !! i = Some s /\ st' = <[i := s']> st /\ R s s') ->
  forall st st',
    Inv st -> for_each body l st = Done st' ->
    forall i s, st !! i = Some s ->
      (i ∈ l -> exists s', st' !! i = Some s' /\ R s s') /\
      (i ∉ l -> st' !! i = Some s).
Proof.
  intros Hnd Hbody.
  induction Hnd as [|x l Hx Hnd IH]; intros st st' HI Hrun i s Hi; cbn [for_each] in Hrun.
  - injection Hrun as <-. split; [|auto].
    intros Hin. apply elem_of_nil in Hin. contradiction.
  - apply bind_Done in Hrun. destruct Hrun as (st1 & H1 & H2).
    destruct (Hbody x st st1 HI H1) as (HI1 & sx & sx' & Hsx & -> & HR).
    assert (Hxl : (x < length st)%nat) by (apply lookup_lt_Some in Hsx; exact Hsx).
    destruct (decide (i = x)) as [->|Hne].
    + assert (s = sx) by congruence. subst sx.
      destruct (IH _ _ HI1 H2 x sx' (list_lookup_insert_eq _ _ _ Hxl)) as [_ Hout].
      split; [|intros Hn; exfalso; apply Hn; apply list_elem_of_here].
      intros _. exists sx'. split; [apply Hout; exact Hx | exact HR].
    + assert (Hi1 : <[x := sx']> st !! i = Some s)
        by (rewrite list_lookup_insert_ne by auto; exact Hi).
      destruct (IH _ _ HI1 H2 i s Hi1) as [Hin Hout]. split.
      * intros Hil. apply elem_of_cons in Hil. destruct Hil as [->|Hil]; [congruence|].
        apply Hin. exact Hil.
      * intros Hn. apply Hout. intros Hil. apply Hn. now apply list_elem_of_further.
Qed.

(** X6: one frame is one step of velocity Verlet for every star, each on the
    state the frame started with: with [g] the sum that [get_accel] walks
    up for the star over the tree of this frame and the positions at the
    start of the frame, the stored acceleration becomes
    [g * frame_time * gravity / 2], the speed grows by the old and the new
    stored acceleration, and the position by [frame_time] times the sum of
    the new speed and the new stored acceleration.  No star sees the
    update of another.  This is the single-threaded path, and the pool when
    every thread takes one token of the frame ([sched] is then an order of
    the threads [0 .. cores - 1]). *)
Theorem world_frame_step (config : configuration) (M : libm) (fuel : nat)
  (sched : list nat) (w : world) (time : Q) (w' : world) :
  Z.to_nat (config_stars config) = length (stars w) ->
  ((1 < cores w)%Z ->
   (config_stars config * cores w <= INT_MAX)%Z /\
   Permutation sched (seq 0 (Z.to_nat (cores w)))) ->
  world_frame config M fuel sched w time = Done w' ->
  exists a,
    build_tree fuel (Z.to_nat (config_stars config)) (stars w) (quads w) = Done a /\
    forall i s, stars w !! i = Some s ->
      exists g s',
        get_accel config M (stars w) (fst a) fuel (star_node s) (PQuad 0) zero_vecd2
        = Done g /\
        stars w' !! i = Some s' /\
        let ft := frame_time w' in
        accel s' = mkvecd2 (vec_x g * (ft * config_gravity config / 2))
                           (vec_y g * (ft * config_gravity config / 2)) /\
        speed s' = mkvecd2 (vec_x (speed s) + (vec_x (accel s) + vec_x (accel s')))
                           (vec_y (speed s) + (vec_y (accel s) + vec_y (accel s'))) /\
        star_node s'
        = mknode (node_x (star_node s) + ft * (vec_x (speed s') + vec_x (accel s')))
                 (node_y (star_node s) + ft * (vec_y (speed s') + vec_y (accel s')))
                 (mass (star_node s)) (size (star_node s)).
Proof.
  intros Hlen Hmax H. apply world_frame_Done in H.
  destruct H as (ft & a & stars1 & stars2 & disp & quads' & _ & Ha & H1 & H2 & _ & _ & ->).
  exists a. split; [exact Ha|]. intros i s Hi. cbn [stars frame_time]. cbv zeta.
  assert (HN : (0 <= config_stars config)%Z).
  { apply lookup_lt_Some in Hi. lia. }
  assert (H1' : for_each (job_body config M fuel ft (fst a))
                  (seq 0 (Z.to_nat (config_stars config))) (stars w) = Done stars1).
  { destruct (1 <? cores w)%Z eqn:Ec.
    - apply Z.ltb_lt in Ec. destruct (Hmax Ec) as [Hint Hperm].
      apply run_pool_fair in H1; [|auto; lia..].
      unfold run_inline, for_range in H1. now rewrite Nat.sub_0_r in H1.
    - unfold run_inline, for_range in H1. now rewrite Nat.sub_0_r in H1. }
  assert (Hin : i ∈ seq 0 (Z.to_nat (config_stars config))).
  { apply elem_of_seq. apply lookup_lt_Some in Hi. lia. }
  destruct (for_each_pointwise_inv
              (fun st => map star_node st = map star_node (stars w))
              (fun s s1 => exists g,
                 get_accel config M (stars w) (fst a) fuel (star_node s) (PQuad 0)
                   zero_vecd2 = Done g /\
                 s1 = accelerated config ft s g)
              (job_body config M fuel ft (fst a))
              (seq 0 (Z.to_nat (config_stars config)))
              (NoDup_seq 0 _)) with (st := stars w) (st' := stars1) (i := i) (s := s)
    as [Hacc _]; auto.
  { intros j st st' HI Hb. rewrite job_body_unfold in Hb.
    destruct (st !! j) as [sj|] eqn:Ej; [|discriminate].
    apply bind_Done in Hb. destruct Hb as (g & Hg & [= <-]).
    split; [rewrite <- HI; now apply accelerated_nodes|].
    exists sj, (accelerated config ft sj g). split; [reflexivity|].
    split; [reflexivity|]. exists g. split; [|reflexivity].
    rewrite <- Hg. symmetry. now apply get_accel_ext. }
  destruct (Hacc Hin) as (s1 & Hs1 & g & Hg & ->).
  destruct (for_each_pointwise
              (fun s1 s2 =>
                 s2 = mkstar
                        (mknode
                           (node_x (star_node s1)
                            + ft * (vec_x (speed s1) + vec_x (accel s1)))
                           (node_y (star_node s1)
                            + ft * (vec_y (speed s1) + vec_y (accel s1)))
                           (mass (star_node s1)) (size (star_node s1)))
                        (speed s1) (accel s1))
              (move_body ft)
              (seq 0 (Z.to_nat (config_stars config)))
              (NoDup_seq 0 _)) with (st := stars1) (st' := stars2) (i := i)
              (s := accelerated config ft s g)
    as [Hmov _]; auto.
  { intros j st st' Hb. apply move_body_Done in Hb. destruct Hb as (sj & Ej & ->).
    exists sj. eexists. split; [exact Ej|]. split; reflexivity. }
  destruct (Hmov Hin) as (s2 & Hs2 & ->).
  exists g. eexists. split; [exact Hg|]. split; [exact Hs2|].
  cbn. repeat split; reflexivity.
Qed.

Lemma world_frame_step_witness :
  exists w',
    world_frame dyadic_config libm0 8 [1; 0]%nat drifting 1 = Done w' /\
    exists a g s',
      build_tree 8 2 (stars drifting) (quads drifting) = Done a /\
      get_accel dyadic_config libm0 (stars drifting) (fst a) 8
        (mknode (-1) 0 1 0) (PQuad 0) zero_vecd2 = Done g /\
      vec_x g == 1 # 8 /\
      stars w' !! 0%nat = Some s' /\
      accel s' = mkvecd2 (vec_x g * (frame_time w' * 1 / 2))
                         (vec_y g * (frame_time w' * 1 / 2)) /\
      vec_x (speed s') = 1 + ((1 # 2) + vec_x (accel s')).
Proof.
  eexists. split; [vm_compute; reflexivity|].
  destruct (world_frame_step dyadic_config libm0 8 [1; 0]%nat drifting 1 _
              ltac:(reflexivity)
              ltac:(intros _; split;
                    [vm_compute; congruence | apply perm_swap])
              ltac:(vm_compute; reflexivity))
    as (a & Ha & Hstep).
  destruct (Hstep 0%nat _ ltac:(reflexivity))
    as (g & s' & Hg & Hs' & Hacc & Hsp & _).
  exists a, g, s'. split; [exact Ha|].
  split; [exact Hg|].
  split.
  { assert (Hg1 := Hg). cbn [star_node] in Hg1.
    assert (Ha1 := Ha). vm_compute in Ha1. injection Ha1 as <-.
    vm_compute in Hg1. injection Hg1 as <-. reflexivity. }
  split; [exact Hs'|]. split; [exact Hacc|].
  rewrite Hsp. reflexivity.
Defined.

(** ** The accumulator of [get_accel] *)



(** ** [init_world] and [finalize_world]: the resources *)

Lemma NoDup_map_seq {A : Type} (f : nat -> A) (n : nat) :
  (forall i j, f i = f j -> i = j) -> NoDup (map f (seq 0 n)).
Proof.
  intros Hf. apply (@NoDup_fmap_2 _ _ f Hf). apply NoDup_seq.
Qed.

(** X14: [finalize_world] may be called in any state and any number of times:
    it frees exactly the arrays whose pointer is not [NULL], destroys the
    semaphores only together with the thread array, leaves every pointer
    [NULL], and a second call does nothing. *)
Theorem finalize_world_idempotent (h : handles) :
  let '(e, h') := finalize_world h in
  (In (Free Threads) e <-> h_threads h = true) /\
  (In (Free Stars) e <-> h_stars h = true) /\
  (In (Free Quads) e <-> h_quads h = true) /\
  (In (Free DispStars) e <-> h_disp_stars h = true) /\
  (forall s, In (SemDestroy s) e <-> h_threads h = true) /\
  h' = mkhandles (h_cores h) false false false false /\
  finalize_world h' = ([], h').
Proof.
  assert (Hno : forall (a : array) (f : nat -> event) n,
            (forall i, f i <> Free a) -> ~ In (Free a) (map f (seq 0 n))).
  { intros a f n Hf Hin. apply in_map_iff in Hin. destruct Hin as (i & E & _).
    exact (Hf i E). }
  assert (Hno' : forall (s : semaphore) (f : nat -> event) n,
            (forall i, f i <> SemDestroy s) -> ~ In (SemDestroy s) (map f (seq 0 n))).
  { intros s f n Hf Hin. apply in_map_iff in Hin. destruct Hin as (i & E & _).
    exact (Hf i E). }
  destruct h as [c [|] [|] [|] [|]]; cbn [finalize_world h_threads h_stars h_quads
    h_disp_stars h_cores app];
    (split; [|split; [|split; [|split; [|split; [|split; reflexivity]]]]]);
    try (intros s); rewrite ?app_nil_r, ?in_app_iff; cbn [In];
    (split;
     [ intros H;
       repeat match goal with
         | H : _ \/ _ |- _ => destruct H as [H|H]
         | H : In _ (map _ _) |- _ =>
             exfalso; revert H; first [apply Hno | apply Hno']; intros; discriminate
         | H : False |- _ => contradiction
         | H : _ = _ |- _ => try discriminate H; try reflexivity
         end
     | intros H; try discriminate H; try (destruct s); auto 12 ]).
Qed.

(** X15: [init_world] followed by [finalize_world], from the statics as the
    program starts with them and for any number of cores: what the first
    takes the second gives back, once.  Every array allocated is freed,
    every thread created is cancelled and joined, the semaphores are
    destroyed exactly when they were initialised (with more than one
    core), no call is made twice, and all pointers are [NULL] again. *)
Theorem init_finalize_round_trip (config : configuration) (online : Z) :
  (1 < config_stars config)%Z ->
  exists e1 h1,
    init_world_resources config online no_handles = Done (e1, h1) /\
    let '(e2, h2) := finalize_world h1 in
    (forall a, In (Alloc a) e1 <-> In (Free a) e2) /\
    (forall i, In (PthreadCreate i) e1 <-> In (PthreadCancel i) e2) /\
    (forall i, In (PthreadCreate i) e1 <-> In (PthreadJoin i) e2) /\
    (forall s, In (SemInit s) e1 <-> In (SemDestroy s) e2) /\
    NoDup e2 /\
    h2 = mkhandles online false false false false.
Proof.
  intros HN. unfold init_world_resources.
  replace (1 <? config_stars config)%Z with true by (symmetry; apply Z.ltb_lt; lia).
  destruct (1 <? online)%Z eqn:Ec; eexists _, _; (split; [reflexivity|]);
    cbn [finalize_world h_threads h_stars h_quads h_disp_stars h_cores no_handles];
    (split; [|split; [|split; [|split; [|split; [|reflexivity]]]]]);
    try (intros x; rewrite ?app_nil_r, ?in_app_iff; cbn [In app];
         rewrite ?in_app_iff, ?in_map_iff; cbn [In];
         try destruct x;
         split; intros H;
         repeat match goal with
           | H : _ \/ _ |- _ => destruct H as [H|H]
           | H : False |- _ => contradiction
           | H : exists _, _ /\ _ |- _ =>
               let y := fresh "y" in let E := fresh "E" in
               destruct H as (y & E & H); try discriminate E;
               try (injection E as ->)
           | H : _ = _ |- _ => discriminate H
           end;
         eauto 20).
  - rewrite <- !app_assoc. cbn [app].
    assert (Hfixed : NoDup [SemDestroy JobStart; SemDestroy JobFinish; Free Threads;
                            Free Stars; Free Quads; Free DispStars]).
    { repeat (apply NoDup_cons; split;
              [rewrite list_elem_of_In; cbn [In]; intros H;
               repeat (destruct H as [H|H]; try discriminate H); contradiction|]).
      apply NoDup_nil; exact I. }
    apply NoDup_app. split; [apply NoDup_map_seq; intros i j [= ->]; reflexivity|].
    split.
    + intros x Hx Hin. rewrite list_elem_of_In in Hx, Hin.
      apply in_map_iff in Hx. destruct Hx as (i & <- & _).
      rewrite in_app_iff, in_map_iff in Hin. cbn [In] in Hin.
      destruct Hin as [(j & E & _)|Hin]; [discriminate E|].
      repeat (destruct Hin as [Hin|Hin]; try discriminate Hin). contradiction.
    + apply NoDup_app. split; [apply NoDup_map_seq; intros i j [= ->]; reflexivity|].
      split; [|exact Hfixed].
      intros x Hx Hin. rewrite list_elem_of_In in Hx, Hin.
      apply in_map_iff in Hx. destruct Hx as (i & <- & _). cbn [In] in Hin.
      repeat (destruct Hin as [Hin|Hin]; try discriminate Hin). contradiction.
  - cbn [app].
    repeat (apply NoDup_cons; split;
            [rewrite list_elem_of_In; cbn [In]; intros H;
             repeat (destruct H as [H|H]; try discriminate H); contradiction|]).
    apply NoDup_nil; exact I.
Qed.

Lemma init_finalize_round_trip_witness :
  exists e1 h1,
    init_world_resources two_body_config 4 no_handles = Done (e1, h1) /\
    NoDup (fst (finalize_world h1)).
Proof.
  destruct (init_finalize_round_trip two_body_config 4 ltac:(reflexivity))
    as (e1 & h1 & Hinit & H).
  exists e1, h1. split; [exact Hinit|].
  destruct (finalize_world h1) as [e2 h2].
  destruct H as (_ & _ & _ & _ & Hnd & _). exact Hnd.
Defined.

(** * The builder, whatever the arithmetic *)

(** ** The arena, pass by pass

    What follows does not look at the values that the arithmetic gives:
    it holds of the builder whether the size is halved exactly or rounded. *)

Lemma flat_kept (quads quads' : list quad) (count count' j : nat) :
  frames_kept (quads, count) (quads', count') -> (j < count)%nat ->
  flat quads j -> flat quads' j.
Proof.
  intros (_ & _ & Hk) Hj (q & Hq & Hz). cbn [fst snd] in Hk.
  destruct (Hk j q Hq Hj) as (q' & Hq' & _ & Hs).
  exists q'. split; [exact Hq'|]. now rewrite Hs.
Qed.

(** One pass keeps the arena in shape.  It ends the loop with the star in
    a leaf, or it goes on at the quad that it has just allocated, or at a
    child of non-zero size, which lies further up the arena. *)
Lemma insert_body_structure (stars : list star) (si : nat) (s : star)
  (quads : list quad) (count cur : nat) (a' : arena) (p' : ptr) :
  stars_ok stars -> stars !! si = Some s ->
  arena_ok stars quads count -> (cur < count)%nat ->
  insert_body stars si (star_node s) (quads, count) (PQuad cur) = Done (a', p') ->
  arena_ok stars (fst a') (snd a') /\
  ((p' = PStar si /\ snd a' = count /\ is_leaf (fst a') (snd a') si) \/
   (p' = PQuad count /\ snd a' = S count) \/
   (exists j, p' = PQuad j /\ (cur < j < count)%nat /\ snd a' = count /\
      ~ flat (fst a') j)).
Proof.
  intros Hstars Hs (Hcount & Hfresh & Hmass & Hlinks) Hcur H.
  pose proof (insert_body_frames _ _ _ _ _ _ _ H) as Hframes.
  apply insert_body_Done in H.
  destruct H as (qi & q & [= <-] & Hq & _ & Hcases). cbv zeta in Hcases.
  set (star := star_node s) in *.
  assert (Hk : (0 <= get_quadrant q star < 4)%Z) by apply get_quadrant_range.
  assert (Hcl : (cur < length quads)%nat) by lia.
  assert (Hsi : (si < length stars)%nat) by (apply lookup_lt_Some in Hs; exact Hs).
  assert (Hms : 0 < mass star) by (apply (Hstars si s Hs)).
  assert (Hm1 : 0 <= mass (quad_node (add_star q star))).
  { rewrite add_star_mass. pose proof (Hmass cur q Hq). lra. }
  assert (Hflat : forall j, (j < count)%nat -> flat quads j -> flat (fst a') j).
  { intros j Hj. destruct a' as [quads' count']. now apply (flat_kept quads quads' count count'). }
  destruct Hcases
    as [(Hnone & -> & ->)
       |[(child & old & slot & Hch & Hold & Hsz & Hslot & -> & ->)
        |(child & n & Hch & Hn & Hsz & -> & ->)]]; cbn [fst snd] in *.
  - (* empty slot *)
    split.
    + split; [rewrite length_insert; exact Hcount|]. split; [|split].
      * intros i x Hi Hge. rewrite list_lookup_insert_ne in Hi by lia. eauto.
      * intros i x Hi. destruct (decide (i = cur)) as [->|Hne].
        -- rewrite list_lookup_insert_eq in Hi by exact Hcl. injection Hi as <-.
           now rewrite set_children_node.
        -- rewrite list_lookup_insert_ne in Hi by auto. eauto.
      * intros i x k c Hi Hk' Hc.
        assert (Hold : exists y, quads !! i = Some y /\
                  (children y k = Some c \/ c = PStar si)).
        { destruct (decide (i = cur)) as [->|Hne].
          - rewrite list_lookup_insert_eq in Hi by exact Hcl. injection Hi as <-.
            exists q. split; [exact Hq|].
            destruct (decide (k = get_quadrant q star)) as [->|Hkk].
            + rewrite children_set_same in Hc by exact Hk. right. congruence.
            + rewrite children_set_other in Hc by auto.
              rewrite add_star_children in Hc. auto.
          - rewrite list_lookup_insert_ne in Hi by auto. eauto. }
        destruct Hold as (y & Hy & [Hc'| ->]); [|exact Hsi].
        specialize (Hlinks i y k c Hy Hk' Hc'). destruct c as [a|j]; [exact Hlinks|].
        destruct Hlinks as [Hj [Hij|Hfl]]; (split; [exact Hj|]); [left; exact Hij|].
        right. apply Hflat; [lia | exact Hfl].
    + left. split; [reflexivity|]. split; [reflexivity|].
      exists cur. eexists. exists (get_quadrant q star).
      split; [exact Hcur|].
      split; [apply list_lookup_insert_eq; exact Hcl|].
      split; [exact Hk|]. apply children_set_same. exact Hk.
  - (* a leaf in the slot: split *)
    rewrite list_lookup_insert_ne in Hslot by lia.
    assert (slot = zero_quad) by (eapply Hfresh; eauto). subst slot.
    assert (Hcn : (count < length quads)%nat)
      by (apply lookup_lt_Some in Hslot; exact Hslot).
    pose proof (Hlinks cur q _ child Hq Hk Hch) as Hchild.
    assert (Hold0 : 0 <= mass old).
    { destruct child as [a|j]; cbn [deref] in Hold.
      - destruct (stars !! a) as [sa|] eqn:Ha; [|discriminate]. injection Hold as <-.
        apply Qlt_le_weak. apply (Hstars a sa Ha).
      - destruct (decide (j = cur)) as [->|Hne].
        + rewrite list_lookup_insert_eq in Hold by exact Hcl. injection Hold as <-.
          exact Hm1.
        + rewrite list_lookup_insert_ne in Hold by auto.
          destruct (quads !! j) as [qj|] eqn:Hqj; [|discriminate].
          injection Hold as <-. eapply Hmass; eauto. }
    split; [|right; left; auto].
    split; [rewrite !length_insert; lia|]. split; [|split].
    + intros i x Hi Hge.
      rewrite !list_lookup_insert_ne in Hi by lia. eapply Hfresh; eauto. lia.
    + intros i x Hi. destruct (decide (i = cur)) as [->|Hne].
      * rewrite list_lookup_insert_eq in Hi by (rewrite !length_insert; exact Hcl).
        injection Hi as <-. now rewrite set_children_node.
      * rewrite list_lookup_insert_ne in Hi by auto.
        destruct (decide (i = count)) as [->|Hnc].
        -- rewrite list_lookup_insert_eq in Hi by (rewrite length_insert; exact Hcn).
           injection Hi as <-. rewrite split_off_node. exact Hold0.
        -- rewrite !list_lookup_insert_ne in Hi by auto. eauto.
    + intros i x k c Hi Hk' Hc.
      destruct (decide (i = cur)) as [->|Hne].
      * rewrite list_lookup_insert_eq in Hi by (rewrite !length_insert; exact Hcl).
        injection Hi as <-.
        destruct (decide (k = get_quadrant q star)) as [->|Hkk].
        -- rewrite children_set_same in Hc by exact Hk. injection Hc as <-.
           split; [lia|]. left. exact Hcur.
        -- rewrite children_set_other in Hc by auto.
           rewrite add_star_children in Hc.
           specialize (Hlinks cur q k c Hq Hk' Hc). destruct c as [a|j]; [exact Hlinks|].
           destruct Hlinks as [Hj [Hij|Hfl]]; (split; [lia|]); [left; exact Hij|].
           right. apply Hflat; [lia | exact Hfl].
      * rewrite list_lookup_insert_ne in Hi by auto.
        destruct (decide (i = count)) as [->|Hnc].
        -- rewrite list_lookup_insert_eq in Hi by (rewrite length_insert; exact Hcn).
           injection Hi as <-.
           apply split_off_children in Hc; [|exact Hk']. destruct Hc as [_ ->].
           destruct child as [a|j]; [exact Hchild|].
           destruct Hchild as [Hj _]. split; [lia|]. right.
           cbn [deref] in Hold.
           destruct (<[cur := add_star q star]> quads !! j) as [qj|] eqn:Hqj;
             [|discriminate].
           injection Hold as <-.
           apply Hflat; [lia|].
           destruct (decide (j = cur)) as [->|Hjc].
           ++ rewrite list_lookup_insert_eq in Hqj by exact Hcl. injection Hqj as <-.
              exists q. split; [exact Hq | exact Hsz].
           ++ rewrite list_lookup_insert_ne in Hqj by auto.
              exists qj. split; [exact Hqj | exact Hsz].
        -- rewrite !list_lookup_insert_ne in Hi by auto.
           specialize (Hlinks i x k c Hi Hk' Hc). destruct c as [a|j]; [exact Hlinks|].
           destruct Hlinks as [Hj [Hij|Hfl]]; (split; [lia|]); [left; exact Hij|].
           right. apply Hflat; [lia | exact Hfl].
  - (* a quad in the slot: descend *)
    pose proof (Hlinks cur q _ child Hq Hk Hch) as Hchild.
    split.
    + split; [rewrite length_insert; exact Hcount|]. split; [|split].
      * intros i x Hi Hge. rewrite list_lookup_insert_ne in Hi by lia. eauto.
      * intros i x Hi. destruct (decide (i = cur)) as [->|Hne].
        -- rewrite list_lookup_insert_eq in Hi by exact Hcl. injection Hi as <-.
           exact Hm1.
        -- rewrite list_lookup_insert_ne in Hi by auto. eauto.
      * intros i x k c Hi Hk' Hc.
        assert (Hy : exists y, quads !! i = Some y /\ children y k = Some c).
        { destruct (decide (i = cur)) as [->|Hne].
          - rewrite list_lookup_insert_eq in Hi by exact Hcl. injection Hi as <-.
            exists q. split; [exact Hq|]. now rewrite add_star_children in Hc.
          - rewrite list_lookup_insert_ne in Hi by auto. eauto. }
        destruct Hy as (y & Hy & Hc').
        specialize (Hlinks i y k c Hy Hk' Hc'). destruct c as [a|j]; [exact Hlinks|].
        destruct Hlinks as [Hj [Hij|Hfl]]; (split; [exact Hj|]); [left; exact Hij|].
        right. apply Hflat; [lia | exact Hfl].
    + right. right. destruct child as [a|j].
      * exfalso. cbn [deref] in Hn.
        destruct (stars !! a) as [sa|] eqn:Ha; [|discriminate]. injection Hn as <-.
        apply Hsz. apply (Hstars a sa Ha).
      * exists j. split; [reflexivity|].
        assert (Hnf : ~ flat (<[cur := add_star q star]> quads) j).
        { intros (qj & Hqj & Hz). apply Hsz. cbn [deref] in Hn.
          rewrite Hqj in Hn. injection Hn as <-. exact Hz. }
        split; [|split; [reflexivity | exact Hnf]].
        destruct Hchild as [Hj [Hij|Hfl]]; [lia|].
        exfalso. apply Hnf. apply Hflat; [lia | exact Hfl].
Qed.

(** What one pass writes: the node of the current quad gets the star
    added; apart from the current quad, the quads in use stay as they
    are. *)
Lemma insert_body_writes (stars : list star) (si : nat) (star : node)
  (quads : list quad) (count cur : nat) (a' : arena) (p' : ptr) :
  (cur < count)%nat ->
  insert_body stars si star (quads, count) (PQuad cur) = Done (a', p') ->
  exists q qc',
    quads !! cur = Some q /\ fst a' !! cur = Some qc' /\
    quad_node qc' = add_node (quad_node q) star /\
    (forall j, j <> cur -> (j < count)%nat -> fst a' !! j = quads !! j).
Proof.
  intros Hcur H. apply insert_body_Done in H.
  destruct H as (qi & q & [= <-] & Hq & _ & Hcases). cbv zeta in Hcases.
  assert (Hcl : (cur < length quads)%nat) by (apply lookup_lt_Some in Hq; exact Hq).
  exists q.
  destruct Hcases
    as [(Hnone & -> & ->)
       |[(child & old & slot & Hch & Hold & Hsz & Hslot & -> & ->)
        |(child & n & Hch & Hn & Hsz & -> & ->)]]; cbn [fst snd] in *.
  - eexists. split; [exact Hq|].
    split; [apply list_lookup_insert_eq; exact Hcl|].
    split; [now rewrite set_children_node|].
    intros j Hj _. now rewrite list_lookup_insert_ne by auto.
  - eexists. split; [exact Hq|].
    split; [apply list_lookup_insert_eq; rewrite !length_insert; exact Hcl|].
    split; [now rewrite set_children_node|].
    intros j Hj Hjc. now rewrite !list_lookup_insert_ne by lia.
  - eexists. split; [exact Hq|].
    split; [apply list_lookup_insert_eq; exact Hcl|].
    split; [reflexivity|].
    intros j Hj _. now rewrite list_lookup_insert_ne by auto.
Qed.

(** A star that is a leaf stays a leaf. *)
Lemma insert_body_keeps_leaves (stars : list star) (si : nat) (star : node)
  (quads : list quad) (count cur : nat) (a' : arena) (p' : ptr) (a : nat) :
  fresh_beyond quads count -> (cur < count)%nat ->
  insert_body stars si star (quads, count) (PQuad cur) = Done (a', p') ->
  is_leaf quads count a -> is_leaf (fst a') (snd a') a.
Proof.
  intros Hfresh Hcur H (i & x & k & Hi & Hx & Hk' & Hc). apply insert_body_Done in H.
  destruct H as (qi & q & [= <-] & Hq & _ & Hcases). cbv zeta in Hcases.
  assert (Hk : (0 <= get_quadrant q star < 4)%Z) by apply get_quadrant_range.
  assert (Hcl : (cur < length quads)%nat) by (apply lookup_lt_Some in Hq; exact Hq).
  destruct Hcases
    as [(Hnone & -> & ->)
       |[(child & old & slot & Hch & Hold & Hsz & Hslot & -> & ->)
        |(child & n & Hch & Hn & Hsz & -> & ->)]]; cbn [fst snd] in *.
  - exists i. destruct (decide (i = cur)) as [->|Hne].
    + assert (x = q) by congruence. subst x.
      eexists. exists k. split; [exact Hi|].
      split; [apply list_lookup_insert_eq; exact Hcl|]. split; [exact Hk'|].
      rewrite children_set_other, add_star_children; auto. congruence.
    + exists x, k. split; [exact Hi|].
      split; [now rewrite list_lookup_insert_ne by auto|]. auto.
  - rewrite list_lookup_insert_ne in Hslot by lia.
    assert (slot = zero_quad) by (eapply Hfresh; eauto). subst slot.
    assert (Hcn : (count < length quads)%nat)
      by (apply lookup_lt_Some in Hslot; exact Hslot).
    destruct (decide (i = cur)) as [->|Hne].
    + assert (x = q) by congruence. subst x.
      destruct (decide (k = get_quadrant q star)) as [->|Hkk].
      * assert (child = PStar a) by congruence. subst child.
        exists count. eexists. eexists. split; [lia|].
        split; [rewrite list_lookup_insert_ne by lia;
                apply list_lookup_insert_eq; rewrite length_insert; exact Hcn|].
        split; [apply get_quadrant_range|].
        unfold split_off. cbv zeta. apply children_set_same. apply get_quadrant_range.
      * exists cur. eexists. exists k. split; [lia|].
        split; [apply list_lookup_insert_eq; rewrite !length_insert; exact Hcl|].
        split; [exact Hk'|].
        rewrite children_set_other, add_star_children; auto.
    + exists i, x, k. split; [lia|].
      split; [now rewrite !list_lookup_insert_ne by lia|]. auto.
  - exists i. destruct (decide (i = cur)) as [->|Hne].
    + assert (x = q) by congruence. subst x.
      eexists. exists k. split; [exact Hi|].
      split; [apply list_lookup_insert_eq; exact Hcl|]. split; [exact Hk'|].
      now rewrite add_star_children.
    + exists x, k. split; [exact Hi|].
      split; [now rewrite list_lookup_insert_ne by auto|]. auto.
Qed.

(** ** C9: the loop for one star ends

    Under the invariant a pass completes, unless it needs the slot past
    the end of the arena. *)
Lemma insert_body_runs (stars : list star) (si : nat) (s : star)
  (quads : list quad) (count cur : nat) :
  stars_ok stars -> stars !! si = Some s ->
  arena_ok stars quads count -> (cur < count)%nat ->
  (exists r, insert_body stars si (star_node s) (quads, count) (PQuad cur) = Done r) \/
  (insert_body stars si (star_node s) (quads, count) (PQuad cur) = Fault OutOfArena /\
   count = length quads).
Proof.
  intros Hstars Hs (Hcount & Hfresh & Hmass & Hlinks) Hcur.
  assert (Hcl : (cur < length quads)%nat) by lia.
  destruct (lookup_lt_is_Some_2 quads cur Hcl) as [q Hq].
  unfold insert_body. rewrite Hq.
  assert (Hm : ~ mass (quad_node q) + mass (star_node s) == 0).
  { pose proof (Hmass cur q Hq). pose proof (proj2 (Hstars si s Hs)). lra. }
  rewrite !fdiv_Done by exact Hm. cbn [bind].
  fold (add_star q (star_node s)).
  set (q1 := add_star q (star_node s)).
  destruct (children q1 (get_quadrant q1 (star_node s))) as [child|] eqn:Hch;
    [|left; eauto].
  unfold q1 in Hch. rewrite add_star_children in Hch.
  specialize (Hlinks cur q _ child Hq (get_quadrant_range _ _) Hch).
  assert (Hd : exists n, deref stars (<[cur := q1]> quads) child = Done n).
  { destruct child as [a|j]; cbn [deref].
    - destruct (lookup_lt_is_Some_2 stars a Hlinks) as [sa ->]. eauto.
    - assert (Hj : (j < length (<[cur := q1]> quads))%nat)
        by (rewrite length_insert; lia).
      destruct (lookup_lt_is_Some_2 _ j Hj) as [qj ->]. eauto. }
  destruct Hd as (n & ->). cbn [bind].
  destruct (Qeq_bool (size n) 0); [|left; eauto].
  destruct (<[cur := q1]> quads !! count) as [slot|] eqn:Hslot; [left; eauto|].
  right. split; [reflexivity|].
  apply lookup_ge_None in Hslot. rewrite length_insert in Hslot. lia.
Qed.

(** The loop for one star ends before its fuel does when the fuel is the
    length of the arena: every pass that goes on goes on at a quad
    further up the arena.  It ends with the star in a leaf, or at a
    split that gave a quad of size zero, or at the slot past the end of
    the arena. *)
Lemma insert_loop_ends (stars : list star) (si : nat) (s : star) :
  stars_ok stars -> stars !! si = Some s ->
  forall fuel quads count cur,
    arena_ok stars quads count -> (cur < count)%nat ->
    (length quads - cur <= fuel)%nat ->
    insert_loop fuel stars si (star_node s) (quads, count) (PQuad cur)
    = Fault OutOfArena \/
    exists a',
      insert_loop fuel stars si (star_node s) (quads, count) (PQuad cur) = Done a' /\
      arena_ok stars (fst a') (snd a') /\
      length (fst a') = length quads /\ (count <= snd a')%nat /\
      (is_leaf (fst a') (snd a') si \/
       ((count < snd a')%nat /\ flat (fst a') (snd a' - 1))).
Proof.
  intros Hstars Hs. induction fuel as [|fuel IH]; intros quads count cur Hok Hcur Hfuel.
  { destruct Hok as (Hcount & _). lia. }
  cbn [insert_loop].
  destruct (insert_body_runs stars si s quads count cur Hstars Hs Hok Hcur)
    as [([[quads1 count1] p1] & Hbody)|[Hbody _]];
    [|left; rewrite Hbody; reflexivity].
  rewrite Hbody. cbn [bind fst].
  pose proof (insert_body_frames _ _ _ _ _ _ _ Hbody) as (Hmono & Hlen & _).
  cbn [fst snd] in Hmono, Hlen.
  destruct (insert_body_structure _ _ _ _ _ _ _ _ Hstars Hs Hok Hcur Hbody)
    as (Hok1 & Hcases). cbn [fst snd] in Hok1, Hcases.
  destruct Hcases as [(-> & -> & Hleaf)|[(-> & ->)|(j & -> & Hj & -> & Hnf)]].
  - cbn [deref]. rewrite Hs. cbn [bind].
    replace (Qtruth (size (star_node s))) with false
      by (symmetry; apply Qtruth_false; apply (Hstars si s Hs)).
    right. exists (quads1, count). cbn [fst snd].
    split; [reflexivity|]. split; [exact Hok1|]. split; [exact Hlen|].
    split; [lia|]. left. exact Hleaf.
  - assert (Hc1 : (count < length quads1)%nat) by (destruct Hok1 as (? & _); lia).
    destruct (lookup_lt_is_Some_2 quads1 count Hc1) as [qn Hqn].
    cbn [deref]. rewrite Hqn. cbn [bind].
    destruct (Qtruth (size (quad_node qn))) eqn:Hsz.
    + destruct (IH quads1 (S count) count Hok1 ltac:(lia) ltac:(lia))
        as [Hf|(a' & Hrun & Hok' & Hlen' & Hmono' & Hend)]; [left; exact Hf|].
      right. exists a'. split; [exact Hrun|]. split; [exact Hok'|].
      split; [congruence|]. split; [lia|].
      destruct Hend as [Hl|[Hlt Hfl]]; [left; exact Hl|]. right. split; [lia | exact Hfl].
    + right. exists (quads1, S count). cbn [fst snd].
      split; [reflexivity|]. split; [exact Hok1|]. split; [exact Hlen|].
      split; [lia|]. right. split; [lia|].
      replace (S count - 1)%nat with count by lia.
      exists qn. split; [exact Hqn|]. now apply Qtruth_false.
  - assert (Hj1 : (j < length quads1)%nat) by (destruct Hok1 as (? & _); lia).
    destruct (lookup_lt_is_Some_2 quads1 j Hj1) as [qj Hqj].
    cbn [deref]. rewrite Hqj. cbn [bind].
    destruct (Qtruth (size (quad_node qj))) eqn:Hsz.
    + destruct (IH quads1 count j Hok1 ltac:(lia) ltac:(lia))
        as [Hf|(a' & Hrun & Hok' & Hlen' & Hmono' & Hend)]; [left; exact Hf|].
      right. exists a'. split; [exact Hrun|]. split; [exact Hok'|].
      split; [congruence|]. split; [lia|]. exact Hend.
    + exfalso. apply Hnf. exists qj. split; [exact Hqj|]. now apply Qtruth_false.
Qed.


Lemma insert_loop_keeps_leaves (stars : list star) (si : nat) (s : star) (a : nat) :
  stars_ok stars -> stars !! si = Some s ->
  forall fuel quads count cur a',
    arena_ok stars quads count -> (cur < count)%nat ->
    insert_loop fuel stars si (star_node s) (quads, count) (PQuad cur) = Done a' ->
    is_leaf quads count a -> is_leaf (fst a') (snd a') a.
Proof.
  intros Hstars Hs.
  induction fuel as [|fuel IH]; intros quads count cur a' Hok Hcur H Hleaf;
    [discriminate|].
  cbn [insert_loop] in H. apply bind_Done in H.
  destruct H as ([[quads1 count1] p1] & Hbody & H).
  destruct (insert_body_structure _ _ _ _ _ _ _ _ Hstars Hs Hok Hcur Hbody)
    as (Hok1 & Hcases). cbn [fst snd] in Hok1, Hcases.
  assert (Hleaf1 : is_leaf quads1 count1 a).
  { destruct Hok as (_ & Hfresh & _).
    apply (insert_body_keeps_leaves _ _ _ _ _ _ _ _ a Hfresh Hcur Hbody Hleaf). }
  apply bind_Done in H. destruct H as (n & _ & H).
  destruct (Qtruth (size n)).
  - destruct Hcases as [(-> & _)|[(-> & ->)|(j & -> & Hj & -> & _)]].
    + destruct fuel; discriminate H.
    + apply (IH quads1 (S count) count); auto.
    + apply (IH quads1 count j); auto. lia.
  - injection H as <-. exact Hleaf1.
Qed.

(** The arena after lines 214-232, when it was zeroed. *)
Lemma set_root_arena (stars : list star) (b : bounds) (quads quads0 : list quad) :
  zeroed quads -> set_root b quads = Done quads0 ->
  arena_ok stars quads0 1 /\ length quads0 = length quads /\
  exists root,
    quads0 !! 0%nat = Some root /\ node_x (quad_node root) = 0 /\
    node_y (quad_node root) = 0 /\ mass (quad_node root) = 0.
Proof.
  intros Hz H. pose proof (set_root_length _ _ _ H) as Hlen.
  unfold set_root in H.
  repeat (apply bind_Done in H; destruct H as (? & _ & H)).
  destruct (quads !! 0%nat) as [q|] eqn:Hq; [|discriminate].
  assert (q = zero_quad) by (eapply Hz; eauto). subst q.
  cbv zeta in H. injection H as <-.
  assert (H0 : (0 < length quads)%nat) by (apply lookup_lt_Some in Hq; exact Hq).
  split; [|split; [exact Hlen|]].
  - split; [rewrite length_insert; lia|]. split; [|split].
    + intros i q Hi Hge. rewrite list_lookup_insert_ne in Hi by lia. eauto.
    + intros i q Hi. destruct (decide (i = 0%nat)) as [->|Hne].
      * rewrite list_lookup_insert_eq in Hi by exact H0. injection Hi as <-.
        cbn. apply Qle_refl.
      * rewrite list_lookup_insert_ne in Hi by auto.
        rewrite (Hz i q Hi). cbn. apply Qle_refl.
    + intros i q k c Hi Hk Hc. exfalso.
      destruct (decide (i = 0%nat)) as [->|Hne].
      * rewrite list_lookup_insert_eq in Hi by exact H0. injection Hi as <-.
        quadrants k Hk; discriminate Hc.
      * rewrite list_lookup_insert_ne in Hi by auto.
        rewrite (Hz i q Hi) in Hc. quadrants k Hk; discriminate Hc.
  - eexists. split; [apply list_lookup_insert_eq; exact H0|].
    cbn. auto.
Qed.

Lemma set_root_runs (stars : list star) (n : nat) (b : bounds) (quads : list quad) :
  (1 <= n)%nat -> world_bounds n stars = Done b ->
  (exists quads0, set_root b quads = Done quads0) \/
  set_root b quads = Fault OutOfArena.
Proof.
  intros Hn Hb.
  destruct (world_bounds_attained stars n b Hb) as [[-> _]|[_ Hatt]]; [lia|].
  destruct (Hatt xmin_world node_x ltac:(auto)) as (? & ? & _ & _ & E0).
  destruct (Hatt ymin_world node_y ltac:(auto)) as (? & ? & _ & _ & E1).
  destruct (Hatt xmax_world node_x ltac:(auto 6)) as (? & ? & _ & _ & E2).
  destruct (Hatt ymax_world node_y ltac:(auto 6)) as (? & ? & _ & _ & E3).
  unfold set_root. rewrite E0, E1, E2, E3. cbn [finite bind].
  destruct (quads !! 0%nat); [left; eauto | right; reflexivity].
Qed.

(** The build phase with the length of the arena for fuel: it completes,
    or it takes the slot past the end of the arena.  When it completes,
    every star is a leaf of the tree unless the tree has a quad of size
    zero below the root. *)
Lemma build_tree_ends (fuel n : nat) (stars : list star) (quads : list quad) :
  stars_ok stars -> zeroed quads -> (1 <= n <= length stars)%nat ->
  (length quads <= fuel)%nat ->
  build_tree fuel n stars quads = Fault OutOfArena \/
  exists a,
    build_tree fuel n stars quads = Done a /\
    arena_ok stars (fst a) (snd a) /\ length (fst a) = length quads /\
    forall si, (si < n)%nat ->
      is_leaf (fst a) (snd a) si \/
      exists j, (1 <= j < snd a)%nat /\ flat (fst a) j.
Proof.
  intros Hstars Hz Hn Hfuel. unfold build_tree.
  destruct (world_bounds_total stars n ltac:(lia)) as (b & Hb). rewrite Hb.
  cbn [bind].
  destruct (set_root_runs stars n b quads ltac:(lia) Hb) as [(quads0 & H0)|H0];
    [|left; rewrite H0; reflexivity].
  rewrite H0. cbn [bind].
  destruct (set_root_arena stars b quads quads0 Hz H0) as (Hok0 & Hlen0 & _).
  pose (P := fun (i : nat) (a : arena) =>
    arena_ok stars (fst a) (snd a) /\ length (fst a) = length quads /\
    forall si, (si < i)%nat ->
      is_leaf (fst a) (snd a) si \/
      exists j, (1 <= j < snd a)%nat /\ flat (fst a) j).
  destruct (for_range_progress P True OutOfArena (insert_star fuel stars) n)
    with (a := 0%nat) (s := (quads0, 1%nat))
    as [(a & Ha & Hok & Hlen & Hall)|[Hf _]];
    [| lia | | right; exists a; auto | left; exact Hf].
  - intros i [quads1 count1] Hi (Hok & Hlen & Hall). cbn [fst snd] in *.
    unfold insert_star.
    destruct (lookup_lt_is_Some_2 stars i ltac:(lia)) as [s Hs]. rewrite Hs.
    assert (Hc1 : (0 < count1)%nat) by (destruct Hok as (? & _); lia).
    destruct (insert_loop_ends stars i s Hstars Hs fuel quads1 count1 0%nat
                Hok Hc1 ltac:(lia))
      as [Hf|(a' & Hrun & Hok' & Hlen' & Hmono & Hend)]; [right; auto|].
    left. exists a'. split; [exact Hrun|]. split; [exact Hok'|].
    split; [congruence|]. intros si Hsi.
    pose proof (insert_loop_frames _ _ _ _ _ _ _ Hrun) as Hframes.
    destruct (decide (si = i)) as [->|Hne].
    + destruct Hend as [Hl|[Hlt Hfl]]; [left; exact Hl|].
      right. exists (snd a' - 1)%nat. split; [lia | exact Hfl].
    + destruct (Hall si ltac:(lia)) as [Hl|(j & Hj & Hfl)].
      * left. apply (insert_loop_keeps_leaves stars i s si Hstars Hs fuel quads1 count1
                      0%nat a' Hok Hc1 Hrun Hl).
      * right. exists j. split; [lia|]. destruct a' as [quads' count'].
        apply (flat_kept quads1 quads' count1 count'); [exact Hframes | lia | exact Hfl].
  - split; [exact Hok0|]. split; [exact Hlen0|]. intros si Hsi. lia.
Qed.


Lemma insert_loop_structure (stars : list star) (si : nat) (s : star) :
  stars_ok stars -> stars !! si = Some s ->
  forall fuel quads count cur a',
    arena_ok stars quads count -> (cur < count)%nat ->
    insert_loop fuel stars si (star_node s) (quads, count) (PQuad cur) = Done a' ->
    arena_ok stars (fst a') (snd a').
Proof.
  intros Hstars Hs.
  induction fuel as [|fuel IH]; intros quads count cur a' Hok Hcur H; [discriminate|].
  cbn [insert_loop] in H. apply bind_Done in H.
  destruct H as ([[quads1 count1] p1] & Hbody & H).
  destruct (insert_body_structure _ _ _ _ _ _ _ _ Hstars Hs Hok Hcur Hbody)
    as (Hok1 & Hcases). cbn [fst snd] in Hok1, Hcases.
  apply bind_Done in H. destruct H as (n & _ & H).
  destruct (Qtruth (size n)).
  - destruct Hcases as [(-> & _)|[(-> & ->)|(j & -> & Hj & -> & _)]].
    + destruct fuel; discriminate H.
    + apply (IH quads1 (S count) count); auto.
    + apply (IH quads1 count j); auto. lia.
  - injection H as <-. exact Hok1.
Qed.

(** The arena that a completed build phase leaves. *)
Lemma build_tree_structure (fuel n : nat) (stars : list star) (quads : list quad)
  (a : arena) :
  stars_ok stars -> zeroed quads ->
  build_tree fuel n stars quads = Done a ->
  arena_ok stars (fst a) (snd a) /\ length (fst a) = length quads.
Proof.
  intros Hstars Hz H. pose proof (build_tree_length _ _ _ _ _ H) as [Hlen _].
  split; [|exact Hlen]. unfold build_tree in H.
  apply bind_Done in H. destruct H as (b & _ & H).
  apply bind_Done in H. destruct H as (quads0 & H0 & H).
  destruct (set_root_arena stars b quads quads0 Hz H0) as (Hok0 & _).
  unfold for_range in H.
  apply (for_each_invariant (fun a => arena_ok stars (fst a) (snd a)) _ _)
    with (s := (quads0, 1%nat)) (3 := H); [|exact Hok0].
  intros i [quads1 count1] a' _ Hok Hb. cbn [fst snd] in Hok.
  unfold insert_star in Hb. destruct (stars !! i) as [s|] eqn:Hs; [|discriminate].
  apply (insert_loop_structure stars i s Hstars Hs fuel quads1 count1 0%nat a' Hok);
    [|exact Hb].
  destruct Hok as (? & _). lia.
Qed.

Lemma crowded_stars_ok : stars_ok (stars crowded).
Proof.
  intros [|[|[|i]]] s H; try discriminate H; injection H as <-; split; reflexivity.
Qed.

(** ** C4: what the quads add up, operation by operation *)

(** The loop for one star adds the star to the quad it starts at, once,
    and leaves the quads before it as they are. *)
Lemma insert_loop_writes (stars : list star) (si : nat) (s : star) :
  stars_ok stars -> stars !! si = Some s ->
  forall fuel quads count cur a',
    arena_ok stars quads count -> (cur < count)%nat ->
    insert_loop fuel stars si (star_node s) (quads, count) (PQuad cur) = Done a' ->
    (forall j, (j < cur)%nat -> fst a' !! j = quads !! j) /\
    exists q qc',
      quads !! cur = Some q /\ fst a' !! cur = Some qc' /\
      quad_node qc' = add_node (quad_node q) (star_node s).
Proof.
  intros Hstars Hs.
  induction fuel as [|fuel IH]; intros quads count cur a' Hok Hcur H; [discriminate|].
  cbn [insert_loop] in H. apply bind_Done in H.
  destruct H as ([[quads1 count1] p1] & Hbody & H).
  destruct (insert_body_structure _ _ _ _ _ _ _ _ Hstars Hs Hok Hcur Hbody)
    as (Hok1 & Hcases). cbn [fst snd] in Hok1, Hcases.
  destruct (insert_body_writes _ _ _ _ _ _ _ _ Hcur Hbody)
    as (q & qc' & Hq & Hqc' & Hnode & Hrest). cbn [fst snd] in Hqc', Hrest.
  apply bind_Done in H. destruct H as (n & _ & H).
  assert (Hnext : forall j, (cur < j < count1)%nat ->
            insert_loop fuel stars si (star_node s) (quads1, count1) (PQuad j) = Done a' ->
            (forall j, (j < cur)%nat -> fst a' !! j = quads !! j) /\
            exists q qc',
              quads !! cur = Some q /\ fst a' !! cur = Some qc' /\
              quad_node qc' = add_node (quad_node q) (star_node s)).
  { intros j Hj Hrun.
    destruct (IH quads1 count1 j a' Hok1 ltac:(lia) Hrun) as (Hbefore & _).
    split.
    - intros i Hi. rewrite Hbefore by lia. apply Hrest; lia.
    - exists q, qc'. split; [exact Hq|]. split; [|exact Hnode].
      rewrite Hbefore by lia. exact Hqc'. }
  destruct (Qtruth (size n)).
  - destruct Hcases as [(-> & _)|[(-> & ->)|(j & -> & Hj & -> & _)]].
    + destruct fuel; discriminate H.
    + apply (Hnext count); [lia | exact H].
    + apply (Hnext j); [lia | exact H].
  - injection H as <-. cbn [fst]. split.
    + intros j Hj. apply Hrest; lia.
    + exists q, qc'. auto.
Qed.

(** The root after the build phase: every star was added to it, in the
    order of the array. *)
Lemma build_tree_root (fuel n : nat) (stars : list star) (quads : list quad)
  (a : arena) :
  stars_ok stars -> zeroed quads ->
  build_tree fuel n stars quads = Done a ->
  exists root,
    fst a !! 0%nat = Some root /\
    quad_node root
    = fold_left add_node (map star_node (take n stars))
        (mknode 0 0 0 (size (quad_node root))).
Proof.
  intros Hstars Hz H. unfold build_tree in H.
  apply bind_Done in H. destruct H as (b & _ & H).
  apply bind_Done in H. destruct H as (quads0 & H0 & H).
  destruct (set_root_arena stars b quads quads0 Hz H0)
    as (Hok0 & _ & root0 & Hroot0 & Hx0 & Hy0 & Hm0).
  pose (P := fun (i : nat) (a : arena) =>
    arena_ok stars (fst a) (snd a) /\
    exists root,
      fst a !! 0%nat = Some root /\
      quad_node root
      = fold_left add_node (map star_node (take i stars))
          (mknode 0 0 0 (size (quad_node root)))).
  apply (for_range_invariant P (insert_star fuel stars) n) with (a := 0%nat)
    (s := (quads0, 1%nat)) (s' := a); [| lia | | exact H].
  - intros i [quads1 count1] a' Hi (Hok & root & Hroot & Hsum) Hb.
    cbn [fst snd] in Hok, Hroot.
    unfold insert_star in Hb. destruct (stars !! i) as [s|] eqn:Hs; [|discriminate].
    assert (Hc1 : (0 < count1)%nat) by (destruct Hok as (? & _); lia).
    split; [apply (insert_loop_structure stars i s Hstars Hs fuel quads1 count1
                     0%nat a' Hok Hc1 Hb)|].
    destruct (insert_loop_writes stars i s Hstars Hs fuel quads1 count1 0%nat a'
                Hok Hc1 Hb) as (_ & q & qc' & Hq & Hqc' & Hnode).
    assert (q = root) by congruence. subst q.
    exists qc'. split; [exact Hqc'|].
    rewrite (take_S_r stars i s Hs), map_app, fold_left_app. cbn [map fold_left].
    assert (Hsz : size (quad_node qc') = size (quad_node root))
      by (rewrite Hnode; reflexivity).
    rewrite Hsz, Hnode. f_equal. exact Hsum.
  - split; [exact Hok0|]. exists root0. split; [exact Hroot0|].
    cbn [take map fold_left]. destruct root0 as [[x y m sz] ? ? ? ? ?].
    cbn [quad_node node_x node_y mass size] in *. subst x y m. reflexivity.
Qed.

Lemma node_of_members_snoc (stars : list star) (b : bool) (sz : Q) (l : list nat)
  (a : nat) :
  b = true \/ l <> [] ->
  node_of_members stars b sz (l ++ [a])
  = add_node (node_of_members stars b sz l) (node_at stars a).
Proof.
  intros H. unfold node_of_members.
  destruct b.
  - rewrite map_app, fold_left_app. reflexivity.
  - destruct l as [|x l]; [destruct H; congruence|].
    cbn [app]. rewrite map_app, fold_left_app. reflexivity.
Qed.

Lemma quad_members_slot (F : nat -> list nat) (q : quad) (k : Z) :
  (0 <= k < 4)%Z ->
  quad_members F q
  ≡ₚ slot_members F (children q k) ++ quad_members F (set_children q k None).
Proof.
  intros Hk. unfold quad_members.
  quadrants k Hk;
    cbn [children set_children child0 child1 child2 child3 slot_members];
    solve_Permutation.
Qed.

Lemma quad_members_ext (F F' : nat -> list nat) (q q' : quad) :
  (forall k, (0 <= k < 4)%Z ->
     slot_members F (children q k) = slot_members F' (children q' k)) ->
  quad_members F q = quad_members F' q'.
Proof.
  intros H. unfold quad_members.
  pose proof (H 0%Z ltac:(lia)) as H0. pose proof (H 1%Z ltac:(lia)) as H1.
  pose proof (H 2%Z ltac:(lia)) as H2. pose proof (H 3%Z ltac:(lia)) as H3.
  cbn [children] in H0, H1, H2, H3. rewrite H0, H1, H2, H3. reflexivity.
Qed.

Lemma children_set_twice (q : quad) (k : Z) (v w : option ptr) :
  set_children (set_children q k v) k w = set_children q k w.
Proof. unfold set_children. destruct k as [|[?|[?|?|]|]|?]; reflexivity. Qed.

Lemma arena_ok_upward (stars : list star) (quads : list quad) (count : nat) :
  arena_ok stars quads count -> no_flat quads count ->
  forall i q k j, quads !! i = Some q -> (0 <= k < 4)%Z ->
    children q k = Some (PQuad j) -> (i < j < count)%nat.
Proof.
  intros (_ & _ & _ & Hlinks) Hnf i q k j Hq Hk Hc.
  destruct (Hlinks i q k _ Hq Hk Hc) as [Hj [Hij|Hfl]]; [lia|].
  exfalso. now apply (Hnf j).
Qed.

Lemma no_flat_before (quads quads' : list quad) (count count' : nat) :
  frames_kept (quads, count) (quads', count') ->
  no_flat quads' count' -> no_flat quads count.
Proof.
  intros Hf Hnf j Hj Hfl. pose proof Hf as (Hmono & _). cbn [fst snd] in Hmono.
  apply (Hnf j); [lia|]. apply (flat_kept quads quads' count count'); auto. lia.
Qed.

Lemma on_the_way_other (members : nat -> list nat) (cur si : nat) (extra : bool)
  (j : nat) :
  j <> cur -> on_the_way members cur si extra j = members j.
Proof.
  intros H. unfold on_the_way. destruct extra; [|reflexivity].
  cbn [andb]. destruct (Nat.eqb_spec j cur); [contradiction | reflexivity].
Qed.

Lemma on_the_way_here (members : nat -> list nat) (cur si : nat) :
  on_the_way members cur si true cur = members cur ++ [si].
Proof. unfold on_the_way. cbn [andb]. now rewrite Nat.eqb_refl. Qed.

Lemma StronglySorted_snoc (l : list nat) (a : nat) :
  StronglySorted lt l -> (forall x, x ∈ l -> (x < a)%nat) ->
  StronglySorted lt (l ++ [a]).
Proof.
  induction 1 as [|x l Hl IH Hx]; intros Hall; cbn [app].
  - repeat constructor.
  - constructor.
    + apply IH. intros y Hy. apply Hall. now apply list_elem_of_further.
    + apply Forall_app. split; [exact Hx|]. constructor; [|constructor].
      apply Hall. apply list_elem_of_here.
Qed.

Section MembersStep.

Variables (stars : list star) (si : nat) (s : star).
Variables (quads : list quad) (count cur : nat) (members : nat -> list nat) (q : quad).
Hypothesis Hs : stars !! si = Some s.
Hypothesis Hok : arena_ok stars quads count.
Hypothesis Hnf : no_flat quads count.
Hypothesis Hcur : (cur < count)%nat.
Hypothesis Hq : quads !! cur = Some q.
Hypothesis Hmem : members_ok stars quads count cur si true members.

(** The members once the star is added to the current quad. *)
Let members1 (j : nat) : list nat :=
  if (j =? cur)%nat then members cur ++ [si] else members j.

Let q1 : quad := add_star q (star_node s).

Lemma members1_way (j : nat) : on_the_way members cur si true j = members1 j.
Proof.
  unfold on_the_way, members1. cbn [andb].
  destruct (Nat.eqb_spec j cur) as [->|_]; reflexivity.
Qed.

Lemma members1_slots (i : nat) (x : quad) :
  (i < count)%nat -> quads !! i = Some x -> members i ≡ₚ quad_members members1 x.
Proof.
  intros Hi Hx. rewrite (mo_slots _ _ _ _ _ _ _ Hmem i x Hi Hx).
  rewrite (quad_members_ext _ members1 x x); [reflexivity|].
  intros k _. destruct (children x k) as [[a|j]|]; cbn [slot_members]; auto.
  apply members1_way.
Qed.

Lemma members1_upward (i : nat) (x : quad) (k : Z) (j : nat) :
  quads !! i = Some x -> (0 <= k < 4)%Z -> children x k = Some (PQuad j) ->
  (i < j < count)%nat.
Proof. apply (arena_ok_upward stars quads count Hok Hnf). Qed.

Lemma members1_node :
  quad_node q1
  = node_of_members stars (cur =? 0)%nat (size (quad_node q1)) (members1 cur).
Proof.
  unfold members1. rewrite Nat.eqb_refl.
  assert (Hside : (cur =? 0)%nat = true \/ members cur <> []).
  { destruct (Nat.eqb_spec cur 0) as [E|E]; [left; reflexivity|].
    right. apply (mo_nonempty _ _ _ _ _ _ _ Hmem). lia. }
  rewrite node_of_members_snoc by exact Hside.
  change (size (quad_node q1)) with (size (quad_node q)).
  rewrite <- (mo_node _ _ _ _ _ _ _ Hmem cur q Hcur Hq).
  unfold node_at. rewrite Hs. reflexivity.
Qed.

Lemma members1_sorted (i : nat) : (i < count)%nat -> StronglySorted lt (members1 i).
Proof.
  intros Hi. unfold members1. destruct (Nat.eqb_spec i cur) as [->|Hne].
  - apply StronglySorted_snoc; [apply (mo_sorted _ _ _ _ _ _ _ Hmem); exact Hcur|].
    intros x Hx.
    destruct (mo_bound _ _ _ _ _ _ _ Hmem cur x Hcur Hx) as [H|(_ & _ & H)]; lia.
  - apply (mo_sorted _ _ _ _ _ _ _ Hmem). exact Hi.
Qed.

Lemma members1_bound (i a : nat) :
  (i < count)%nat -> a ∈ members1 i ->
  (a < si)%nat \/ (a = si /\ (i <= cur)%nat).
Proof.
  intros Hi Ha. unfold members1 in Ha. destruct (Nat.eqb_spec i cur) as [->|Hne].
  - apply elem_of_app in Ha. destruct Ha as [Ha|Ha].
    + destruct (mo_bound _ _ _ _ _ _ _ Hmem cur a Hcur Ha) as [H|(_ & _ & H)]; [auto | lia].
    + apply list_elem_of_singleton in Ha. right. split; [exact Ha | lia].
  - destruct (mo_bound _ _ _ _ _ _ _ Hmem i a Hi Ha) as [H|(_ & H1 & H2)];
      [auto | right; split; [exact H1 | lia]].
Qed.

Lemma members1_nonempty (i : nat) : (1 <= i < count)%nat -> members1 i <> [].
Proof.
  intros Hi. unfold members1. destruct (i =? cur)%nat.
  - intros E. apply app_eq_nil in E. destruct E as [_ E]. discriminate E.
  - apply (mo_nonempty _ _ _ _ _ _ _ Hmem). exact Hi.
Qed.

(** The slots of the other quads, and the other slots of the current quad,
    do not lead to the child [j] of the slot [k]. *)
Lemma members1_elsewhere (k : Z) (j : nat) (i : nat) (x : quad) (k' : Z) :
  (0 <= k < 4)%Z -> children q k = Some (PQuad j) ->
  quads !! i = Some x -> (0 <= k' < 4)%Z -> (i <> cur \/ k' <> k) ->
  children x k' <> Some (PQuad j).
Proof.
  intros Hk Hc Hx Hk' Hne E.
  destruct (mo_parent _ _ _ _ _ _ _ Hmem i cur x q k' k j Hx Hq Hk' Hk E Hc) as [-> ->].
  destruct Hne; congruence.
Qed.

(** Line 246: the star becomes a leaf of the current quad. *)
Lemma members_ok_place (k : Z) :
  (0 <= k < 4)%Z -> children q k = None ->
  members_ok stars (<[cur := set_children q1 k (Some (PStar si))]> quads) count
    0 (S si) false members1.
Proof.
  intros Hk Hnone.
  assert (Hcl : (cur < length quads)%nat) by (apply lookup_lt_Some in Hq; exact Hq).
  split.
  - intros i x Hi Hx. destruct (decide (i = cur)) as [->|Hne].
    + rewrite list_lookup_insert_eq in Hx by exact Hcl. injection Hx as <-.
      rewrite set_children_node. apply members1_node.
    + rewrite list_lookup_insert_ne in Hx by auto.
      unfold members1. destruct (Nat.eqb_spec i cur); [contradiction|].
      apply (mo_node _ _ _ _ _ _ _ Hmem i x Hi Hx).
  - intros i x Hi Hx.
    rewrite (quad_members_ext (on_the_way members1 0 (S si) false) members1 x x)
      by (intros; reflexivity).
    destruct (decide (i = cur)) as [->|Hne].
    + rewrite list_lookup_insert_eq in Hx by exact Hcl. injection Hx as <-.
      rewrite (quad_members_slot members1 _ k Hk).
      rewrite children_set_same by exact Hk. rewrite children_set_twice.
      cbn [slot_members].
      rewrite (quad_members_ext members1 members1 (set_children q1 k None)
                 (set_children q k None)).
      * unfold members1 at 1. rewrite Nat.eqb_refl.
        rewrite (members1_slots cur q Hcur Hq).
        rewrite (quad_members_slot members1 q k Hk), Hnone. cbn [slot_members].
        solve_Permutation.
      * intros k' Hk'. destruct (decide (k' = k)) as [->|Hkk].
        -- now rewrite !children_set_same.
        -- rewrite !children_set_other by auto. unfold q1.
           now rewrite add_star_children.
    + rewrite list_lookup_insert_ne in Hx by auto.
      unfold members1 at 1. destruct (Nat.eqb_spec i cur); [contradiction|].
      apply members1_slots; assumption.
  - intros i Hi. apply members1_sorted. exact Hi.
  - intros i a Hi Ha. left.
    destruct (members1_bound i a Hi Ha) as [H|[H _]]; lia.
  - intros i Hi. apply members1_nonempty. exact Hi.
  - intros i i' x x' k1 k2 j Hx Hx' Hk1 Hk2 Hc Hc'.
    assert (Hold : forall i x k1, <[cur := set_children q1 k (Some (PStar si))]> quads !! i
                     = Some x -> (0 <= k1 < 4)%Z -> children x k1 = Some (PQuad j) ->
                   exists y, quads !! i = Some y /\ children y k1 = Some (PQuad j)).
    { clear i i' x x' k1 k2 Hx Hx' Hk1 Hk2 Hc Hc'. intros i x k1 Hx Hk1 Hc.
      destruct (decide (i = cur)) as [->|Hne].
      - rewrite list_lookup_insert_eq in Hx by exact Hcl. injection Hx as <-.
        exists q. split; [exact Hq|].
        destruct (decide (k1 = k)) as [->|Hkk].
        + rewrite children_set_same in Hc by exact Hk. discriminate.
        + rewrite children_set_other in Hc by auto. unfold q1 in Hc.
          now rewrite add_star_children in Hc.
      - rewrite list_lookup_insert_ne in Hx by auto. eauto. }
    destruct (Hold i x k1 Hx Hk1 Hc) as (y & Hy & Hcy).
    destruct (Hold i' x' k2 Hx' Hk2 Hc') as (y' & Hy' & Hcy').
    apply (mo_parent _ _ _ _ _ _ _ Hmem i i' y y' k1 k2 j); assumption.
Qed.

(** Line 260, when the slot holds a quad: the loop goes on there. *)
Lemma members_ok_descend (k : Z) (j : nat) :
  (0 <= k < 4)%Z -> children q k = Some (PQuad j) ->
  members_ok stars (<[cur := q1]> quads) count j si true members1.
Proof.
  intros Hk Hc.
  assert (Hcl : (cur < length quads)%nat) by (apply lookup_lt_Some in Hq; exact Hq).
  pose proof (members1_upward cur q k j Hq Hk Hc) as Hj.
  assert (Hway : forall i x k', <[cur := q1]> quads !! i = Some x -> (0 <= k' < 4)%Z ->
            (i <> cur \/ k' <> k) ->
            slot_members (on_the_way members1 j si true) (children x k')
            = slot_members members1 (children x k')).
  { intros i x k' Hx Hk' Hne.
    assert (Hy : exists y, quads !! i = Some y /\ children y k' = children x k').
    { destruct (decide (i = cur)) as [->|Hic].
      - rewrite list_lookup_insert_eq in Hx by exact Hcl. injection Hx as <-.
        exists q. split; [exact Hq|]. unfold q1. now rewrite add_star_children.
      - rewrite list_lookup_insert_ne in Hx by auto. eauto. }
    destruct Hy as (y & Hy & Hcy).
    destruct (children x k') as [[b|z]|] eqn:E; cbn [slot_members]; auto.
    apply on_the_way_other. intros ->.
    apply (members1_elsewhere k j i y k' Hk Hc Hy Hk' Hne). exact Hcy. }
  split.
  - intros i x Hi Hx. destruct (decide (i = cur)) as [->|Hne].
    + rewrite list_lookup_insert_eq in Hx by exact Hcl. injection Hx as <-.
      apply members1_node.
    + rewrite list_lookup_insert_ne in Hx by auto.
      unfold members1. destruct (Nat.eqb_spec i cur); [contradiction|].
      apply (mo_node _ _ _ _ _ _ _ Hmem i x Hi Hx).
  - intros i x Hi Hx. destruct (decide (i = cur)) as [->|Hne].
    + pose proof Hx as Hx'.
      rewrite list_lookup_insert_eq in Hx' by exact Hcl. injection Hx' as <-.
      rewrite (quad_members_slot _ q1 k Hk).
      replace (children q1 k) with (Some (PQuad j))
        by (unfold q1; now rewrite add_star_children).
      cbn [slot_members]. rewrite on_the_way_here.
      rewrite (quad_members_ext (on_the_way members1 j si true) members1
                 (set_children q1 k None) (set_children q k None)).
      * unfold members1 at 1. rewrite Nat.eqb_refl.
        rewrite (members1_slots cur q Hcur Hq).
        rewrite (quad_members_slot members1 q k Hk), Hc. cbn [slot_members].
        solve_Permutation.
      * intros k' Hk'. destruct (decide (k' = k)) as [->|Hkk].
        -- now rewrite !children_set_same.
        -- rewrite !children_set_other by auto.
           rewrite (Hway cur q1 k' Hx Hk' ltac:(auto)). unfold q1.
           now rewrite add_star_children.
    + rewrite (quad_members_ext (on_the_way members1 j si true) members1 x x)
        by (intros k' Hk'; apply (Hway i x k' Hx Hk'); auto).
      rewrite list_lookup_insert_ne in Hx by auto.
      unfold members1 at 1. destruct (Nat.eqb_spec i cur); [contradiction|].
      apply members1_slots; assumption.
  - intros i Hi. apply members1_sorted. exact Hi.
  - intros i a Hi Ha.
    destruct (members1_bound i a Hi Ha) as [H|[H1 H2]]; [left; exact H|].
    right. split; [reflexivity|]. split; [exact H1 | lia].
  - intros i Hi. apply members1_nonempty. exact Hi.
  - intros i i' x x' k1 k2 z Hx Hx' Hk1 Hk2 Hcx Hcx'.
    assert (Hold : forall i x k1, <[cur := q1]> quads !! i = Some x ->
                   children x k1 = Some (PQuad z) ->
                   exists y, quads !! i = Some y /\ children y k1 = Some (PQuad z)).
    { clear i i' x x' k1 k2 Hx Hx' Hk1 Hk2 Hcx Hcx'. intros i x k1 Hx Hcx.
      destruct (decide (i = cur)) as [->|Hne].
      - rewrite list_lookup_insert_eq in Hx by exact Hcl. injection Hx as <-.
        exists q. split; [exact Hq|]. unfold q1 in Hcx.
        now rewrite add_star_children in Hcx.
      - rewrite list_lookup_insert_ne in Hx by auto. eauto. }
    destruct (Hold i x k1 Hx Hcx) as (y & Hy & Hcy).
    destruct (Hold i' x' k2 Hx' Hcx') as (y' & Hy' & Hcy').
    apply (mo_parent _ _ _ _ _ _ _ Hmem i i' y y' k1 k2 z); assumption.
Qed.

(** Lines 248-259: the leaf of the slot goes into a new quad, and the loop
    goes on there. *)
Lemma members_ok_split (k : Z) (a : nat) (sa : star) :
  (0 <= k < 4)%Z -> children q k = Some (PStar a) -> stars !! a = Some sa ->
  quads !! count = Some zero_quad ->
  members_ok stars
    (<[cur := set_children q1 k (Some (PQuad count))]>
       (<[count := split_off q1 k (star_node sa) (PStar a) zero_quad]>
          (<[cur := q1]> quads)))
    (S count) count si true
    (fun j => if (j =? count)%nat then [a] else members1 j).
Proof.
  intros Hk Hc Ha Hslot.
  set (members2 := fun j => if (j =? count)%nat then [a] else members1 j).
  set (new := split_off q1 k (star_node sa) (PStar a) zero_quad).
  assert (Hcl : (cur < length quads)%nat) by (apply lookup_lt_Some in Hq; exact Hq).
  assert (Hcn : (count < length quads)%nat) by (apply lookup_lt_Some in Hslot; exact Hslot).
  assert (Hc1 : (1 <= count)%nat) by lia.
  assert (Hlook : forall i x,
            <[cur := set_children q1 k (Some (PQuad count))]>
              (<[count := new]> (<[cur := q1]> quads)) !! i = Some x ->
            (i < S count)%nat ->
            (i = cur /\ x = set_children q1 k (Some (PQuad count))) \/
            (i = count /\ x = new) \/
            (i <> cur /\ (i < count)%nat /\ quads !! i = Some x)).
  { intros i x Hx Hi. destruct (decide (i = cur)) as [->|Hne].
    - rewrite list_lookup_insert_eq in Hx by (rewrite !length_insert; exact Hcl).
      left. split; congruence.
    - rewrite list_lookup_insert_ne in Hx by auto.
      destruct (decide (i = count)) as [->|Hnc].
      + rewrite list_lookup_insert_eq in Hx by (rewrite length_insert; exact Hcn).
        right. left. split; congruence.
      + rewrite !list_lookup_insert_ne in Hx by auto.
        right. right. split; [exact Hne|]. split; [lia | exact Hx]. }
  assert (Hnew : forall k' p, (0 <= k' < 4)%Z -> children new k' = Some p ->
            p = PStar a).
  { intros k' p Hk' Hp. apply split_off_children in Hp; [|exact Hk']. tauto. }
  assert (Hain : a ∈ members cur).
  { rewrite (members1_slots cur q Hcur Hq).
    rewrite (quad_members_slot members1 q k Hk), Hc. cbn [slot_members].
    apply list_elem_of_here. }
  assert (Hway : forall x, x <> count ->
            on_the_way members2 count si true x = members1 x).
  { intros x Hx. rewrite on_the_way_other by exact Hx.
    unfold members2. destruct (Nat.eqb_spec x count); [contradiction | reflexivity]. }
  assert (Hsame : forall i x k', quads !! i = Some x -> (0 <= k' < 4)%Z ->
            slot_members (on_the_way members2 count si true) (children x k')
            = slot_members members1 (children x k')).
  { intros i x k' Hx Hk'.
    destruct (children x k') as [[b|z]|] eqn:E; cbn [slot_members]; auto.
    apply Hway. pose proof (members1_upward i x k' z Hx Hk' E). lia. }
  split.
  - intros i x Hi Hx.
    destruct (Hlook i x Hx Hi) as [(-> & ->)|[(-> & ->)|(Hne & Hic & Hx')]].
    + rewrite set_children_node. unfold members2.
      destruct (Nat.eqb_spec cur count); [lia|]. apply members1_node.
    + unfold members2. rewrite Nat.eqb_refl.
      destruct (Nat.eqb_spec count 0); [lia|].
      unfold new. rewrite split_off_node. unfold node_of_members, node_at.
      rewrite Ha. reflexivity.
    + unfold members2. destruct (Nat.eqb_spec i count); [lia|].
      unfold members1. destruct (Nat.eqb_spec i cur); [contradiction|].
      apply (mo_node _ _ _ _ _ _ _ Hmem i x Hic Hx').
  - intros i x Hi Hx.
    destruct (Hlook i x Hx Hi) as [(-> & ->)|[(-> & ->)|(Hne & Hic & Hx')]].
    + rewrite (quad_members_slot _ _ k Hk).
      rewrite children_set_same by exact Hk. rewrite children_set_twice.
      cbn [slot_members]. rewrite on_the_way_here.
      unfold members2 at 2. rewrite Nat.eqb_refl.
      rewrite (quad_members_ext (on_the_way members2 count si true) members1
                 (set_children q1 k None) (set_children q k None)).
      * unfold members2. destruct (Nat.eqb_spec cur count); [lia|].
        unfold members1 at 1. rewrite Nat.eqb_refl.
        rewrite (members1_slots cur q Hcur Hq).
        rewrite (quad_members_slot members1 q k Hk), Hc. cbn [slot_members].
        solve_Permutation.
      * intros k' Hk'. destruct (decide (k' = k)) as [->|Hkk].
        -- now rewrite !children_set_same.
        -- rewrite !children_set_other by auto. unfold q1.
           rewrite add_star_children. apply (Hsame cur q k' Hq Hk').
    + unfold members2 at 1. rewrite Nat.eqb_refl.
      set (k2 := get_quadrant new (star_node sa)).
      assert (Hk2 : (0 <= k2 < 4)%Z) by apply get_quadrant_range.
      assert (Hck2 : children new k2 = Some (PStar a)).
      { destruct (children new k2) as [p|] eqn:E.
        - now rewrite (Hnew k2 p Hk2 E).
        - exfalso. unfold new, split_off in E. cbv zeta in E.
          set (base := mkquad _ _ _ _ _ _) in E.
          assert (Hg : k2 = get_quadrant base (star_node sa)).
          { unfold k2, new, split_off. cbv zeta. fold base.
            apply get_quadrant_center. apply set_children_center. }
          rewrite <- Hg in E. rewrite children_set_same in E by exact Hk2.
          discriminate E. }
      rewrite (quad_members_slot _ new k2 Hk2), Hck2. cbn [slot_members].
      rewrite (quad_members_ext _ members1 (set_children new k2 None) zero_quad).
      * reflexivity.
      * intros k' Hk'.
        assert (Hzero : children zero_quad k' = None)
          by (destruct k' as [|[?|[?|?|]|]|?]; reflexivity).
        rewrite Hzero. destruct (decide (k' = k2)) as [->|Hkk].
        -- rewrite children_set_same by exact Hk2. reflexivity.
        -- rewrite children_set_other by auto.
           destruct (children new k') as [p|] eqn:E; [|reflexivity].
           exfalso. apply split_off_children in E; [|exact Hk'].
           destruct E as [E _]. apply Hkk. exact E.
    + rewrite (quad_members_ext (on_the_way members2 count si true) members1 x x)
        by (intros k' Hk'; apply (Hsame i x k' Hx' Hk')).
      unfold members2. destruct (Nat.eqb_spec i count); [lia|].
      unfold members1 at 1. destruct (Nat.eqb_spec i cur); [contradiction|].
      apply members1_slots; assumption.
  - intros i Hi. unfold members2. destruct (Nat.eqb_spec i count) as [->|Hne].
    + repeat constructor.
    + apply members1_sorted. lia.
  - intros i b Hi Hb. unfold members2 in Hb.
    destruct (Nat.eqb_spec i count) as [->|Hne].
    + apply list_elem_of_singleton in Hb. subst b. left.
      destruct (mo_bound _ _ _ _ _ _ _ Hmem cur a Hcur Hain) as [H|(_ & _ & H)]; lia.
    + destruct (members1_bound i b ltac:(lia) Hb) as [H|[H1 H2]]; [left; exact H|].
      right. split; [reflexivity|]. split; [exact H1 | lia].
  - intros i Hi. unfold members2. destruct (Nat.eqb_spec i count) as [->|Hne].
    + discriminate.
    + apply members1_nonempty. lia.
  - intros i i' x x' k1 k2 z Hx Hx' Hk1 Hk2 Hcx Hcx'.
    assert (Hold : forall i x k1,
              <[cur := set_children q1 k (Some (PQuad count))]>
                (<[count := new]> (<[cur := q1]> quads)) !! i = Some x ->
              (0 <= k1 < 4)%Z -> children x k1 = Some (PQuad z) ->
              (i = cur /\ k1 = k /\ z = count) \/
              ((z < count)%nat /\
               exists y, quads !! i = Some y /\ children y k1 = Some (PQuad z))).
    { clear i i' x x' k1 k2 Hx Hx' Hk1 Hk2 Hcx Hcx'. intros i x k1 Hx Hk1 Hcx.
      destruct (decide (i = cur)) as [->|Hne].
      - rewrite list_lookup_insert_eq in Hx by (rewrite !length_insert; exact Hcl).
        injection Hx as <-.
        destruct (decide (k1 = k)) as [->|Hkk].
        + rewrite children_set_same in Hcx by exact Hk. left.
          split; [reflexivity|]. split; [reflexivity|]. congruence.
        + rewrite children_set_other in Hcx by auto. unfold q1 in Hcx.
          rewrite add_star_children in Hcx. right.
          pose proof (members1_upward cur q k1 z Hq Hk1 Hcx).
          split; [lia|]. eauto.
      - rewrite list_lookup_insert_ne in Hx by auto.
        destruct (decide (i = count)) as [->|Hnc].
        + rewrite list_lookup_insert_eq in Hx by (rewrite length_insert; exact Hcn).
          injection Hx as <-. fold new in Hcx.
          pose proof (Hnew k1 _ Hk1 Hcx). discriminate.
        + rewrite !list_lookup_insert_ne in Hx by auto. right.
          pose proof (members1_upward i x k1 z Hx Hk1 Hcx).
          split; [lia|]. eauto. }
    destruct (Hold i x k1 Hx Hk1 Hcx) as [(Ei & Ek & Ez)|(Hz & y & Hy & Hcy)];
      destruct (Hold i' x' k2 Hx' Hk2 Hcx') as [(Ei' & Ek' & Ez')|(Hz' & y' & Hy' & Hcy')].
    + split; congruence.
    + lia.
    + lia.
    + apply (mo_parent _ _ _ _ _ _ _ Hmem i i' y y' k1 k2 z); assumption.
Qed.

End MembersStep.

(** One pass keeps the members, while no quad below the root has size
    zero. *)
Lemma insert_body_members (stars : list star) (si : nat) (s : star)
  (quads : list quad) (count cur : nat) (members : nat -> list nat)
  (a' : arena) (p' : ptr) :
  stars_ok stars -> stars !! si = Some s ->
  arena_ok stars quads count -> no_flat quads count -> (cur < count)%nat ->
  members_ok stars quads count cur si true members ->
  insert_body stars si (star_node s) (quads, count) (PQuad cur) = Done (a', p') ->
  exists members',
    match p' with
    | PStar _ => members_ok stars (fst a') (snd a') 0 (S si) false members'
    | PQuad cur' => members_ok stars (fst a') (snd a') cur' si true members'
    end.
Proof.
  intros Hstars Hs Hok Hnf Hcur Hmem H.
  apply insert_body_Done in H.
  destruct H as (qi & q & [= <-] & Hq & _ & Hcases). cbv zeta in Hcases.
  assert (Hk : (0 <= get_quadrant q (star_node s) < 4)%Z) by apply get_quadrant_range.
  assert (Hcl : (cur < length quads)%nat) by (apply lookup_lt_Some in Hq; exact Hq).
  destruct Hcases
    as [(Hnone & -> & ->)
       |[(child & old & slot & Hch & Hold & Hsz & Hslot & -> & ->)
        |(child & n & Hch & Hn & Hsz & -> & ->)]]; cbn [fst snd].
  - eexists. eapply members_ok_place; eauto.
  - rewrite list_lookup_insert_ne in Hslot by lia.
    assert (slot = zero_quad).
    { destruct Hok as (_ & Hfresh & _). eapply Hfresh; eauto. }
    subst slot.
    destruct child as [a|j].
    + cbn [deref] in Hold. destruct (stars !! a) as [sa|] eqn:Ha; [|discriminate].
      injection Hold as <-.
      eexists. eapply members_ok_split; eauto.
    + exfalso.
      pose proof (arena_ok_upward stars quads count Hok Hnf cur q _ j Hq Hk Hch) as Hj.
      apply (Hnf j); [lia|]. cbn [deref] in Hold.
      rewrite list_lookup_insert_ne in Hold by lia.
      destruct (quads !! j) as [qj|] eqn:Hqj; [|discriminate]. injection Hold as <-.
      exists qj. auto.
  - destruct child as [a|j].
    + exfalso. cbn [deref] in Hn.
      destruct (stars !! a) as [sa|] eqn:Ha; [|discriminate]. injection Hn as <-.
      apply Hsz. apply (Hstars a sa Ha).
    + eexists. eapply members_ok_descend; eauto.
Qed.

(** At the start of a descent no slot leads to the root. *)
Lemma members_ok_start (stars : list star) (quads : list quad) (count si : nat)
  (members : nat -> list nat) :
  arena_ok stars quads count ->
  members_ok stars quads count 0 si false members ->
  members_ok stars quads count 0 si true members.
Proof.
  intros (_ & _ & _ & Hlinks) [H1 H2 H3 H4 H5 H6]. split; auto.
  - intros i q Hi Hq. rewrite (H2 i q Hi Hq).
    rewrite (quad_members_ext (on_the_way members 0 si false)
               (on_the_way members 0 si true) q q); [reflexivity|].
    intros k Hk. destruct (children q k) as [[a|j]|] eqn:E; cbn [slot_members]; auto.
    pose proof (Hlinks i q k _ Hq Hk E) as [Hj _].
    rewrite !on_the_way_other by lia. reflexivity.
  - intros i a Hi Ha. destruct (H4 i a Hi Ha) as [H|(H & _)]; [auto | discriminate].
Qed.

Lemma insert_loop_members (stars : list star) (si : nat) (s : star) :
  stars_ok stars -> stars !! si = Some s ->
  forall fuel quads count cur a' members,
    arena_ok stars quads count -> (cur < count)%nat ->
    members_ok stars quads count cur si true members ->
    insert_loop fuel stars si (star_node s) (quads, count) (PQuad cur) = Done a' ->
    no_flat (fst a') (snd a') ->
    exists members', members_ok stars (fst a') (snd a') 0 (S si) false members'.
Proof.
  intros Hstars Hs.
  induction fuel as [|fuel IH]; intros quads count cur a' members Hok Hcur Hmem H Hnf;
    [discriminate|].
  cbn [insert_loop] in H. apply bind_Done in H.
  destruct H as ([[quads1 count1] p1] & Hbody & H).
  pose proof (insert_body_frames _ _ _ _ _ _ _ Hbody) as Hframes.
  destruct (insert_body_structure _ _ _ _ _ _ _ _ Hstars Hs Hok Hcur Hbody)
    as (Hok1 & Hcases). cbn [fst snd] in Hok1, Hcases.
  apply bind_Done in H. destruct H as (n & Hn & H). cbn [fst] in Hn.
  assert (Hnf1 : no_flat quads1 count1).
  { destruct (Qtruth (size n)).
    - destruct p1 as [t|j]; [destruct fuel; discriminate H|].
      apply insert_loop_frames in H. destruct a' as [quads' count'].
      apply (no_flat_before quads1 quads' count1 count' H Hnf).
    - injection H as <-. exact Hnf. }
  assert (Hnf0 : no_flat quads count)
    by (apply (no_flat_before quads quads1 count count1 Hframes Hnf1)).
  destruct (insert_body_members stars si s quads count cur members _ _
              Hstars Hs Hok Hnf0 Hcur Hmem Hbody) as (members1 & Hmem1).
  cbn [fst snd] in Hmem1.
  destruct (Qtruth (size n)) eqn:Hsz.
  - destruct p1 as [t|j]; [destruct fuel; discriminate H|].
    apply (IH quads1 count1 j a' members1); auto.
    destruct Hcases as [(E & _)|[(E & ->)|(j' & E & Hj & -> & _)]];
      [discriminate | injection E as ->; lia | injection E as ->; lia].
  - injection H as <-. cbn [fst snd].
    destruct p1 as [t|j]; [exists members1; exact Hmem1|].
    exfalso. apply Qtruth_false in Hsz. cbn [deref] in Hn.
    destruct (quads1 !! j) as [qj|] eqn:Hqj; [|discriminate]. injection Hn as <-.
    apply (Hnf1 j).
    + destruct Hcases as [(E & _)|[(E & ->)|(j' & E & Hj & -> & _)]];
        [discriminate | injection E as ->; lia | injection E as ->; lia].
    + exists qj. auto.
Qed.

(** The members are the stars of the leaves below the quad. *)
Lemma members_leaves (stars : list star) (quads : list quad) (count si : nat)
  (members : nat -> list nat) :
  arena_ok stars quads count -> no_flat quads count ->
  members_ok stars quads count 0 si false members ->
  forall fuel i, (i < count)%nat -> (count - i <= fuel)%nat ->
    members i ≡ₚ leaves fuel quads (PQuad i).
Proof.
  intros Hok Hnf Hmem. pose proof Hok as ((_ & Hcount) & _).
  induction fuel as [|fuel IH]; intros i Hi Hfuel; [lia|].
  cbn [leaves].
  destruct (lookup_lt_is_Some_2 quads i ltac:(lia)) as [q Hq]. rewrite Hq.
  rewrite (mo_slots _ _ _ _ _ _ _ Hmem i q Hi Hq).
  assert (Hslot : forall k, (0 <= k < 4)%Z ->
            slot_members (on_the_way members 0 si false) (children q k)
            ≡ₚ match children q k with
               | Some p => leaves fuel quads p
               | None => []
               end).
  { intros k Hk. destruct (children q k) as [[a|j]|] eqn:E; cbn [slot_members].
    - destruct fuel; reflexivity.
    - pose proof (arena_ok_upward stars quads count Hok Hnf i q k j Hq Hk E) as Hj.
      unfold on_the_way. cbn [andb]. apply IH; lia.
    - reflexivity. }
  pose proof (Hslot 0%Z ltac:(lia)) as H0. pose proof (Hslot 1%Z ltac:(lia)) as H1.
  pose proof (Hslot 2%Z ltac:(lia)) as H2. pose proof (Hslot 3%Z ltac:(lia)) as H3.
  cbn [children] in H0, H1, H2, H3.
  unfold quad_members, non_null_children. rewrite H0, H1, H2, H3.
  destruct (child0 q), (child1 q), (child2 q), (child3 q);
    cbn [omap option_bind list_omap id flat_map app]; rewrite ?app_nil_r; reflexivity.
Qed.

(** The members after the build phase. *)
Lemma build_tree_members (fuel n : nat) (stars : list star) (quads : list quad)
  (a : arena) :
  stars_ok stars -> zeroed quads ->
  build_tree fuel n stars quads = Done a ->
  no_flat (fst a) (snd a) ->
  exists members, members_ok stars (fst a) (snd a) 0 n false members.
Proof.
  intros Hstars Hz H. unfold build_tree in H.
  apply bind_Done in H. destruct H as (b & _ & H).
  apply bind_Done in H. destruct H as (quads0 & H0 & H).
  destruct (set_root_arena stars b quads quads0 Hz H0)
    as (Hok0 & _ & root0 & Hroot0 & Hx0 & Hy0 & Hm0).
  pose (P := fun (i : nat) (a : arena) =>
    arena_ok stars (fst a) (snd a) /\
    (no_flat (fst a) (snd a) ->
     exists members, members_ok stars (fst a) (snd a) 0 i false members)).
  assert (HP : P n a); [|apply HP].
  apply (for_range_invariant P (insert_star fuel stars) n) with (a := 0%nat)
    (s := (quads0, 1%nat)) (s' := a); [| lia | | exact H].
  - intros i [quads1 count1] a' Hi (Hok & Hmem) Hb. cbn [fst snd] in Hok, Hmem.
    pose proof (insert_star_frames _ _ _ _ _ Hb) as Hframes.
    unfold insert_star in Hb. destruct (stars !! i) as [s|] eqn:Hs; [|discriminate].
    assert (Hc1 : (0 < count1)%nat) by (destruct Hok as (? & _); lia).
    split; [apply (insert_loop_structure stars i s Hstars Hs fuel quads1 count1
                     0%nat a' Hok Hc1 Hb)|].
    intros Hnf.
    destruct Hmem as (members & Hmem).
    { destruct a' as [quads' count'].
      apply (no_flat_before quads1 quads' count1 count' Hframes Hnf). }
    apply (insert_loop_members stars i s Hstars Hs fuel quads1 count1 0%nat a' members);
      auto.
    apply members_ok_start; assumption.
  - split; [exact Hok0|]. intros _. exists (fun _ => []). cbn [fst snd].
    assert (Hkids : forall i q k, quads0 !! i = Some q -> (0 <= k < 4)%Z ->
              children q k = None).
    { intros i q k Hq Hk.
      destruct (children q k) as [c|] eqn:E; [|reflexivity]. exfalso.
      destruct Hok0 as (_ & Hfresh & _ & Hlinks).
      specialize (Hlinks i q k c Hq Hk E). destruct c as [t|j]; [|lia].
      unfold set_root in H0.
      repeat (apply bind_Done in H0; destruct H0 as (? & _ & H0)).
      destruct (quads !! 0%nat) as [q0|] eqn:Hq0; [|discriminate].
      assert (q0 = zero_quad) by (eapply Hz; eauto). subst q0.
      cbv zeta in H0. injection H0 as <-.
      destruct (decide (i = 0%nat)) as [->|Hne].
      - rewrite list_lookup_insert_eq in Hq by (apply lookup_lt_Some in Hq0; exact Hq0).
        injection Hq as <-. quadrants k Hk; discriminate E.
      - rewrite list_lookup_insert_ne in Hq by auto.
        rewrite (Hz i q Hq) in E. quadrants k Hk; discriminate E. }
    split.
    + intros i q Hi Hq. assert (i = 0%nat) by lia. subst i.
      assert (q = root0) by congruence. subst q.
      cbn. destruct root0 as [[x y m sz] ? ? ? ? ?].
      cbn [quad_node node_x node_y mass size] in *. subst x y m. reflexivity.
    + intros i q Hi Hq. unfold quad_members.
      pose proof (Hkids i q 0%Z Hq ltac:(lia)) as E0.
      pose proof (Hkids i q 1%Z Hq ltac:(lia)) as E1.
      pose proof (Hkids i q 2%Z Hq ltac:(lia)) as E2.
      pose proof (Hkids i q 3%Z Hq ltac:(lia)) as E3.
      cbn [children] in E0, E1, E2, E3. rewrite E0, E1, E2, E3. reflexivity.
    + intros i _. constructor.
    + intros i x _ Hx. apply elem_of_nil in Hx. contradiction.
    + intros i Hi. lia.
    + intros i i' q q' k k' j Hq _ Hk _ Hc _.
      rewrite (Hkids i q k Hq Hk) in Hc. discriminate Hc.
Qed.

(** C4 (amended).  After a build phase that completes on a zeroed arena,
    for stars of positive mass:
    - the node of the root is what lines 240-243 make of the cleared node
      and the stars [0 .. n-1], one after the other: its mass is the sum
      [((0 + m0) + m1) + ...] and its [x] the running mean
      [(x * mass + x_i * m_i) / (mass + m_i)], operation by operation;
    - when no quad below the root has size zero, the same holds of every
      quad and the stars of the leaves below it, taken in the order of the
      array: the root starts from the cleared node, another quad from the
      copy of the first of its stars (lines 251-253). *)
Theorem quad_sums_in_order (fuel n : nat) (stars : list star) (quads : list quad)
  (a : arena) :
  stars_ok stars -> zeroed quads ->
  build_tree fuel n stars quads = Done a ->
  (exists root,
     fst a !! 0%nat = Some root /\
     quad_node root
     = fold_left add_node (map star_node (take n stars))
         (mknode 0 0 0 (size (quad_node root)))) /\
  (no_flat (fst a) (snd a) ->
   forall i q, (i < snd a)%nat -> fst a !! i = Some q ->
     exists order,
       StronglySorted lt order /\
       order ≡ₚ leaves (snd a) (fst a) (PQuad i) /\
       quad_node q
       = node_of_members stars (i =? 0)%nat (size (quad_node q)) order).
Proof.
  intros Hstars Hz H. split; [apply (build_tree_root fuel n stars quads a); assumption|].
  intros Hnf i q Hi Hq.
  destruct (build_tree_structure fuel n stars quads a Hstars Hz H) as (Hok & _).
  destruct (build_tree_members fuel n stars quads a Hstars Hz H Hnf) as (members & Hmem).
  exists (members i).
  split; [apply (mo_sorted _ _ _ _ _ _ _ Hmem); exact Hi|].
  split; [apply (members_leaves stars (fst a) (snd a) n members Hok Hnf Hmem); lia|].
  apply (mo_node _ _ _ _ _ _ _ Hmem i q Hi Hq).
Qed.

Lemma all_sized_no_flat (quads : list quad) (count : nat) :
  all_sized quads count = true -> no_flat quads count.
Proof.
  unfold all_sized. intros H j Hj (q & Hq & Hz).
  rewrite forallb_forall in H.
  assert (Hin : In q (drop 1 (take count quads))).
  { apply list_elem_of_In. apply (list_elem_of_lookup_2 _ (j - 1)%nat).
    rewrite lookup_drop. replace (1 + (j - 1))%nat with j by lia.
    rewrite lookup_take_lt by lia. exact Hq. }
  specialize (H q Hin). apply Qtruth_true in H. contradiction.
Qed.

Lemma quad_sums_in_order_witness :
  exists a q order,
    build_tree 16 3 (stars crowded) (replicate 16 zero_quad) = Done a /\
    fst a !! 1%nat = Some q /\
    order ≡ₚ [0; 1]%nat /\ StronglySorted lt order /\
    quad_node q = node_of_members (stars crowded) false (size (quad_node q)) order /\
    mass (quad_node q) == 2.
Proof.
  assert (Hbuild : exists a,
            build_tree 16 3 (stars crowded) (replicate 16 zero_quad) = Done a)
    by (eexists; vm_compute; reflexivity).
  destruct Hbuild as (a & Ha).
  destruct (quad_sums_in_order 16 3 (stars crowded) (replicate 16 zero_quad) a
              crowded_stars_ok (zeroed_replicate 16) Ha) as [_ Hquads].
  assert (Ha' := Ha). vm_compute in Ha'. injection Ha' as <-.
  destruct (Hquads ltac:(apply all_sized_no_flat; vm_compute; reflexivity)
              1%nat _ ltac:(cbn; lia) ltac:(reflexivity))
    as (order & Hsorted & Hperm & Hnode).
  eexists. eexists. exists order.
  split; [exact Ha|]. split; [reflexivity|].
  split; [rewrite Hperm; vm_compute; reflexivity|]. split; [exact Hsorted|].
  split; [exact Hnode|]. vm_compute. reflexivity.
Defined.

(** On doubles the sums of C4 fail for two stars at different places as
    well: the two smallest positive doubles are one unit in the last place
    apart, the root gets the size [2^-1074], and the half of it is zero.
    The build phase completes, the root has the mass 2, and the only leaf
    of the tree is star 0. *)
Lemma tiny_pair_root_mass :
  PrimFloat.ltb 0x1p-1074 0x1p-1073 = true /\
  match Binary64.build_tree 8 2 tiny_pair (replicate 4 Binary64.zero_quad) with
  | Done (tree, count) =>
      count = 2%nat /\
      option_map (fun q => Binary64.mass (Binary64.quad_node q)) (tree !! 0%nat)
      = Some 2%float /\
      Binary64.has_leaf tree count 0 = true /\ Binary64.has_leaf tree count 1 = false
  | Fault _ => False
  end.
Proof. split; vm_compute; repeat split. Qed.

(** ** The walk over the tree of the builder *)

(** The walk goes into the quads of non-zero size only; their children
    are stars, quads of size zero, or quads further up the arena. *)
Lemma get_accel_on_arena (config : configuration) (M : libm)
  (stars : list star) (quads : list quad) (count : nat) (star : node) :
  0 < config_epsilon config -> stars_ok stars -> arena_ok stars quads count ->
  forall fuel p accel,
    match p with
    | PStar a => (a < length stars)%nat /\ (1 <= fuel)%nat
    | PQuad i => (i < length quads)%nat /\
                 ((length quads - i + 1 <= fuel)%nat \/
                  (flat quads i /\ (1 <= fuel)%nat))
    end ->
    exists v, get_accel config M stars quads fuel star p accel = Done v.
Proof.
  intros Heps Hstars (Hcount & _ & _ & Hlinks).
  induction fuel as [|fuel IH]; intros p accel Hp.
  - destruct p; [lia|]. destruct Hp as [_ [?|[_ ?]]]; lia.
  - rewrite get_accel_S.
    assert (Hd : exists n, deref stars quads p = Done n).
    { destruct p as [a|i]; destruct Hp as [Hp _]; simpl.
      - destruct (lookup_lt_is_Some_2 stars a Hp) as [s ->]. eauto.
      - destruct (lookup_lt_is_Some_2 quads i Hp) as [q ->]. eauto. }
    destruct Hd as (n & Hn). rewrite Hn. simpl.
    destruct (Qgtb _ _).
    + fold (distance_sqr star n). rewrite fdiv_Done; [simpl; eauto|].
      pose proof (distance_sqr_nonneg star n). intros E. lra.
    + destruct (Qtruth (size n)) eqn:Hsz; [|eauto].
      apply Qtruth_true in Hsz.
      destruct p as [a|i].
      * exfalso. simpl in Hn. destruct (stars !! a) as [s|] eqn:Hs; [|discriminate].
        injection Hn as <-. apply Hsz. apply (Hstars a s Hs).
      * destruct Hp as [Hi Hfuel].
        destruct (lookup_lt_is_Some_2 quads i Hi) as [q Hq]. rewrite Hq.
        simpl in Hn. rewrite Hq in Hn. injection Hn as <-.
        assert (Hfuel' : (length quads - i + 1 <= S fuel)%nat).
        { destruct Hfuel as [?|[(q' & Hq' & Hz) _]]; [assumption|].
          exfalso. apply Hsz. congruence. }
        apply walk_each_total. intros c a Hc.
        apply non_null_children_elem in Hc. destruct Hc as (k & Hk & Hc).
        apply IH. specialize (Hlinks i q k c Hq Hk Hc).
        destruct c as [b|j]; [lia|].
        destruct Hlinks as [Hj [Hij|Hfl]]; (split; [lia|]); [left; lia|].
        right. split; [exact Hfl | lia].
Qed.

(** X2: for stars of positive mass and a zeroed arena, the arena that a
    completed build phase leaves can be walked: the counter is inside the
    arena, every child is a star of the array or a quad in use, allocated
    after its parent unless its size is zero; and with [epsilon > 0] the
    walk of [get_accel] from the root returns for every target and
    accumulator, with any fuel above the length of the arena. *)
Theorem get_accel_on_built_tree (config : configuration) (M : libm) (fuel n : nat)
  (stars : list star) (quads : list quad) (a : arena) :
  stars_ok stars -> zeroed quads ->
  0 < config_epsilon config ->
  build_tree fuel n stars quads = Done a ->
  arena_ok stars (fst a) (snd a) /\
  forall fuel' star accel,
    (length quads < fuel')%nat ->
    exists v, get_accel config M stars (fst a) fuel' star (PQuad 0) accel = Done v.
Proof.
  intros Hstars Hz Heps Ha.
  destruct (build_tree_structure fuel n stars quads a Hstars Hz Ha) as (Hok & Hlen).
  split; [exact Hok|]. intros fuel' star accel Hfuel.
  apply (get_accel_on_arena config M stars (fst a) (snd a) star Heps Hstars Hok).
  destruct Hok as (Hcount & _). split; [lia|]. left. lia.
Qed.

Lemma get_accel_on_built_tree_witness :
  exists a v,
    build_tree 16 3 (stars crowded) (replicate 16 zero_quad) = Done a /\
    get_accel crowded_config libm0 (stars crowded) (fst a) 17
      (star_node (star_at 0 0 1)) (PQuad 0) zero_vecd2 = Done v.
Proof.
  assert (Hbuild : exists a,
            build_tree 16 3 (stars crowded) (replicate 16 zero_quad) = Done a)
    by (eexists; vm_compute; reflexivity).
  destruct Hbuild as (a & Ha).
  destruct (get_accel_on_built_tree crowded_config libm0 16 3 (stars crowded)
              (replicate 16 zero_quad) a crowded_stars_ok (zeroed_replicate 16)
              ltac:(reflexivity) Ha) as [_ Hwalk].
  destruct (Hwalk 17%nat (star_node (star_at 0 0 1)) zero_vecd2
              ltac:(rewrite length_replicate; lia)) as (v & Hv).
  exists a, v. split; [exact Ha | exact Hv].
Defined.

(** ** A whole frame *)

(** The loop body over any stars of the array, on a tree that can be
    walked. *)
Lemma job_loop_total (config : configuration) (M : libm) (fuel : nat) (ft : Q)
  (tree : list quad) (count : nat) (bodies : list star) (l : list nat) :
  0 < config_epsilon config -> stars_ok bodies -> arena_ok bodies tree count ->
  (length tree < fuel)%nat ->
  Forall (fun i => (i < length bodies)%nat) l ->
  forall st, map star_node st = map star_node bodies ->
    exists st', for_each (job_body config M fuel ft tree) l st = Done st' /\
                map star_node st' = map star_node bodies.
Proof.
  intros Heps Hstars Hok Hfuel Hl.
  induction Hl as [|i l Hi Hl IH]; intros st HI; cbn [for_each]; [eauto|].
  assert (Hlen : length st = length bodies).
  { rewrite <- (length_map star_node st), HI. apply length_map. }
  destruct (lookup_lt_is_Some_2 st i ltac:(lia)) as [s Hs].
  rewrite job_body_unfold, Hs.
  rewrite (get_accel_ext config M st bodies tree fuel HI).
  destruct (get_accel_on_arena config M bodies tree count (star_node s) Heps Hstars Hok
              fuel (PQuad 0) zero_vecd2) as (g & ->).
  { destruct Hok as (Hcount & _). split; [lia|]. left. lia. }
  cbn [bind]. apply IH. rewrite <- HI. now apply accelerated_nodes.
Qed.

Lemma part_indices_bound (config : configuration) (P : Z) (part : nat) :
  (0 <= config_stars config)%Z -> (0 < P)%Z -> (Z.of_nat part < P)%Z ->
  Forall (fun i => (i < Z.to_nat (config_stars config))%nat)
    (part_indices config P part).
Proof.
  intros HN HP Hpart. apply Forall_forall. intros i Hi.
  unfold part_indices in Hi. apply elem_of_seq in Hi.
  assert (Hhi : (config_stars config * (Z.of_nat part + 1) ÷ P
                 <= config_stars config)%Z).
  { rewrite Z.quot_div_nonneg by nia. apply Z.div_le_upper_bound; nia. }
  assert (Hlo : (0 <= config_stars config * Z.of_nat part ÷ P)%Z)
    by (apply Z.quot_pos; nia).
  lia.
Qed.

Lemma move_loop_total (ft : Q) (n : nat) (bodies : list star) :
  (n <= length bodies)%nat ->
  exists stars2, for_range 0 n (move_body ft) bodies = Done stars2 /\
                 length stars2 = length bodies.
Proof.
  intros Hn.
  destruct (for_range_progress (fun (_ : nat) st => length st = length bodies)
              False WildPointer (move_body ft) n) with (a := 0%nat) (s := bodies)
    as [(stars2 & H2 & HP)|[_ []]]; [| lia | reflexivity | eauto].
  intros i st Hi Hlen. left. unfold move_body.
  destruct (lookup_lt_is_Some_2 st i ltac:(lia)) as [s ->].
  eexists. split; [reflexivity|]. rewrite length_insert. exact Hlen.
Qed.

Lemma display_loop_total (M : libm) (bodies : list star) (n : nat)
  (disp : list (Q * Q)) :
  (n <= length bodies)%nat -> (n <= length disp)%nat ->
  exists disp', for_range 0 n (display_body M bodies) disp = Done disp'.
Proof.
  intros Hn Hd.
  destruct (for_range_progress (fun (_ : nat) d => length d = length disp)
              False WildPointer (display_body M bodies) n) with (a := 0%nat) (s := disp)
    as [(disp' & H2 & HP)|[_ []]]; [| lia | reflexivity | eauto].
  intros i d Hi Hlen. left. unfold display_body.
  destruct (lookup_lt_is_Some_2 bodies i ltac:(lia)) as [s ->].
  replace (i <? length d)%nat with true by (symmetry; apply Nat.ltb_lt; lia).
  eexists. split; [reflexivity|]. rewrite length_insert. exact Hlen.
Qed.

(** X9: a frame on stars of positive mass, with a zeroed arena,
    [epsilon > 0], a non-zero [min_fps], [config.stars >= 1] stars in the
    array and as many display entries, the products of the pool in the
    range of [int] and any schedule of its threads: with more fuel than
    the arena is long, the frame completes or stops at the slot past the
    end of the arena.  No loop of the frame runs on, and no other fault
    ends it, whatever the duration and whatever the places of the
    stars. *)
Theorem world_frame_completes (config : configuration) (M : libm) (w : world)
  (sched : list nat) :
  stars_ok (stars w) -> zeroed (quads w) ->
  (1 <= config_stars config)%Z ->
  Z.to_nat (config_stars config) = length (stars w) ->
  (Z.to_nat (config_stars config) <= length (disp_stars w))%nat ->
  0 < config_epsilon config -> ~ config_min_fps config == 0 ->
  ((1 < cores w)%Z ->
   (config_stars config * cores w <= INT_MAX)%Z /\
   Forall (fun part => (Z.of_nat part < cores w)%Z) sched) ->
  forall fuel time,
    (length (quads w) < fuel)%nat ->
    (exists w', world_frame config M fuel sched w time = Done w') \/
    world_frame config M fuel sched w time = Fault OutOfArena.
Proof.
  intros Hstars Hz HN Hlen Hdisp Heps Hfps Hpool fuel time Hfuel.
  unfold world_frame. rewrite clamp_time_Done by exact Hfps. cbn [bind].
  set (ft := Qmin time (1 / config_min_fps config) * config_speed config).
  destruct (build_tree_ends fuel (Z.to_nat (config_stars config)) (stars w) (quads w)
              Hstars Hz ltac:(lia) ltac:(lia))
    as [Hf|(a & Ha & Hok & Hla & _)]; [right; rewrite Hf; reflexivity|].
  left. rewrite Ha. cbn [bind].
  assert (H1 : exists stars1,
            (if (1 <? cores w)%Z
             then run_pool config M fuel (cores w) ft (fst a) sched (stars w)
             else run_inline config M fuel ft (fst a) (stars w)) = Done stars1 /\
            map star_node stars1 = map star_node (stars w)).
  { destruct (1 <? cores w)%Z eqn:Ec.
    - apply Z.ltb_lt in Ec. destruct (Hpool Ec) as [Hint Hsched].
      rewrite run_pool_passes by (auto; lia).
      apply (job_loop_total config M fuel ft (fst a) (snd a) (stars w)); auto; [lia|].
      apply Forall_flat_map. apply Forall_forall. intros part Hpart.
      rewrite Forall_forall in Hsched. rewrite <- Hlen.
      apply part_indices_bound; [lia | lia | apply Hsched; exact Hpart].
    - unfold run_inline, for_range. rewrite Nat.sub_0_r.
      change (inline_body config M) with (job_body config M).
      apply (job_loop_total config M fuel ft (fst a) (snd a) (stars w)); auto; [lia|].
      apply Forall_forall. intros i Hi. apply elem_of_seq in Hi. lia. }
  destruct H1 as (stars1 & -> & Hnodes). cbn [bind].
  assert (Hl1 : length stars1 = length (stars w)).
  { rewrite <- (length_map star_node stars1), Hnodes. apply length_map. }
  destruct (move_loop_total ft (Z.to_nat (config_stars config)) stars1 ltac:(lia))
    as (stars2 & -> & Hl2).
  cbn [bind].
  destruct (display_loop_total M stars2 (Z.to_nat (config_stars config)) (disp_stars w)
              ltac:(lia) Hdisp) as (disp' & ->).
  cbn [bind]. destruct a as [qs c]. unfold clear_quads. cbn [fst snd] in *.
  replace (c <=? length qs)%nat with true
    by (symmetry; apply Nat.leb_le; destruct Hok as (? & _); lia).
  cbn [bind]. eauto.
Qed.

Lemma world_frame_completes_witness :
  (exists w', world_frame dyadic_config libm0 8 [0; 0]%nat drifting 1 = Done w') \/
  world_frame dyadic_config libm0 8 [0; 0]%nat drifting 1 = Fault OutOfArena.
Proof.
  assert (Hstars : stars_ok (stars drifting)).
  { intros [|[|i]] s H; try discriminate H; injection H as <-; split; reflexivity. }
  apply (world_frame_completes dyadic_config libm0 drifting [0; 0]%nat
           Hstars (zeroed_replicate 4)
           ltac:(vm_compute; congruence) ltac:(reflexivity)
           ltac:(vm_compute; lia) ltac:(reflexivity) ltac:(discriminate)
           ltac:(intros _; split; [vm_compute; congruence
                                  | repeat constructor]) 8%nat 1
           ltac:(vm_compute; lia)).
Defined.

(** * The builder on doubles

    The climb through the arena once more, for the builder over the
    binary64 floats. *)
Module Binary64Facts.

Import Binary64.

Lemma b64_children_set_same (q : quad) (k : Z) (v : option ptr) :
  (0 <= k < 4)%Z -> children (set_children q k v) k = v.
Proof. intros H. quadrants k H; reflexivity. Qed.

Lemma b64_children_set_other (q : quad) (k k' : Z) (v : option ptr) :
  (0 <= k < 4)%Z -> (0 <= k' < 4)%Z -> k <> k' ->
  children (set_children q k v) k' = children q k'.
Proof.
  intros H H' Hne. quadrants k H; quadrants k' H'; try reflexivity; congruence.
Qed.

Lemma b64_set_children_node (q : quad) (k : Z) (v : option ptr) :
  quad_node (set_children q k v) = quad_node q.
Proof. unfold set_children. destruct k as [|[?|[?|?|]|]|?]; reflexivity. Qed.

Lemma b64_set_children_center (q : quad) (k : Z) (v : option ptr) :
  center (set_children q k v) = center q.
Proof. unfold set_children. destruct k as [|[?|[?|?|]|]|?]; reflexivity. Qed.

Lemma b64_add_star_children (q : quad) (s : node) (k : Z) :
  children (add_star q s) k = children q k.
Proof. unfold children. destruct k as [|[?|[?|?|]|]|?]; reflexivity. Qed.

Lemma b64_get_quadrant_range (q : quad) (s : node) : (0 <= get_quadrant q s < 4)%Z.
Proof.
  unfold get_quadrant.
  destruct (gt (node_x s) (vec_x (center q))), (gt (node_y s) (vec_y (center q)));
    simpl; lia.
Qed.

Lemma b64_split_off_children (q : quad) (k : Z) (old_star : node) (child : ptr)
  (k' : Z) (p : ptr) :
  (0 <= k' < 4)%Z ->
  children (split_off q k old_star child zero_quad) k' = Some p -> p = child.
Proof.
  intros Hk'. unfold split_off. cbv zeta.
  set (base := mkquad _ _ _ _ _ _).
  assert (Hbase : children base k' = None) by (quadrants k' Hk'; reflexivity).
  assert (Hk2 : (0 <= get_quadrant base old_star < 4)%Z)
    by apply b64_get_quadrant_range.
  revert Hk2. generalize (get_quadrant base old_star). intros k2 Hk2 Hp.
  destruct (decide (k' = k2)) as [->|Hne].
  - rewrite b64_children_set_same in Hp by assumption. congruence.
  - rewrite b64_children_set_other in Hp by auto. congruence.
Qed.

Lemma b64_split_off_leaf (q : quad) (k : Z) (old_star : node) (child : ptr)
  (slot : quad) :
  exists k', (0 <= k' < 4)%Z /\ children (split_off q k old_star child slot) k' = Some child.
Proof.
  unfold split_off. cbv zeta. set (base := mkquad _ _ _ _ _ _).
  exists (get_quadrant base old_star).
  split; [apply b64_get_quadrant_range|].
  apply b64_children_set_same. apply b64_get_quadrant_range.
Qed.

(** One pass of the insertion loop, by cases. *)
Lemma b64_insert_body_Done (stars : list star) (si : nat) (star : node)
  (quads : list quad) (count : nat) (p : ptr) (a' : arena) (p' : ptr) :
  insert_body stars si star (quads, count) p = Done (a', p') ->
  exists qi q,
    p = PQuad qi /\ quads !! qi = Some q /\
    let q1 := add_star q star in
    let quads1 := <[qi := q1]> quads in
    let k := get_quadrant q star in
    (children q k = None /\
     a' = (<[qi := set_children q1 k (Some (PStar si))]> quads, count) /\
     p' = PStar si) \/
    (exists child old_star slot,
       children q k = Some child /\
       deref stars quads1 child = Done old_star /\
       PrimFloat.eqb (size old_star) 0 = true /\
       quads1 !! count = Some slot /\
       a' = (<[qi := set_children q1 k (Some (PQuad count))]>
               (<[count := split_off q1 k old_star child slot]> quads1),
             S count) /\
       p' = PQuad count) \/
    (exists child n,
       children q k = Some child /\
       deref stars quads1 child = Done n /\
       PrimFloat.eqb (size n) 0 = false /\
       a' = (quads1, count) /\ p' = child).
Proof.
  unfold insert_body. destruct p as [i|qi]; [discriminate|].
  destruct (quads !! qi) as [q|] eqn:Hq; [|discriminate].
  intros H. cbv zeta in H. fold (add_star q star) in H.
  rewrite b64_add_star_children in H.
  change (get_quadrant (add_star q star) star) with (get_quadrant q star) in H.
  exists qi, q. split; [reflexivity|]. split; [exact Hq|]. cbv zeta.
  destruct (children q (get_quadrant q star)) as [child|] eqn:Hc.
  - right. apply bind_Done in H. destruct H as (old & Hold & H).
    destruct (PrimFloat.eqb (size old) 0) eqn:Hsz.
    + left. destruct (<[qi:=add_star q star]> quads !! count) as [slot|] eqn:Hslot;
        [|discriminate].
      injection H as <- <-. exists child, old, slot. repeat split; auto.
    + right. injection H as <- <-. exists child, old. repeat split; auto.
  - left. injection H as <- <-.
    rewrite list_insert_insert_eq. repeat split; auto.
Qed.

(** A pass keeps the length of the arena and the sizes of the quads in
    use, and the counter does not go back. *)
Lemma b64_insert_body_sizes (stars : list star) (si : nat) (star : node)
  (quads : list quad) (count : nat) (p : ptr) (a' : arena) (p' : ptr) :
  insert_body stars si star (quads, count) p = Done (a', p') ->
  (count <= snd a')%nat /\ length (fst a') = length quads /\
  forall j q, quads !! j = Some q -> (j < count)%nat ->
    exists q', fst a' !! j = Some q' /\ size (quad_node q') = size (quad_node q).
Proof.
  intros H. apply b64_insert_body_Done in H.
  destruct H as (qi & q & -> & Hq & Hcases). cbv zeta in Hcases.
  assert (Hqi : (qi < length quads)%nat) by (apply lookup_lt_Some in Hq; exact Hq).
  destruct Hcases as [(_ & -> & _)|[(c & o & sl & _ & _ & _ & Hsl & -> & _)|(c & n & _ & _ & _ & -> & _)]];
    cbn [fst snd]; rewrite ?length_insert;
    (split; [lia|]); (split; [reflexivity|]); intros j x Hx Hj.
  - destruct (decide (j = qi)) as [->|Hne].
    + rewrite list_lookup_insert_eq by assumption.
      eexists; split; [reflexivity|]. rewrite b64_set_children_node.
      assert (x = q) by congruence. subst x. reflexivity.
    + rewrite list_lookup_insert_ne by auto. eauto.
  - destruct (decide (j = qi)) as [->|Hne].
    + rewrite list_lookup_insert_eq by (rewrite !length_insert; assumption).
      eexists; split; [reflexivity|]. rewrite b64_set_children_node.
      assert (x = q) by congruence. subst x. reflexivity.
    + rewrite !list_lookup_insert_ne by lia. eauto.
  - destruct (decide (j = qi)) as [->|Hne].
    + rewrite list_lookup_insert_eq by assumption.
      eexists; split; [reflexivity|].
      assert (x = q) by congruence. subst x. reflexivity.
    + rewrite list_lookup_insert_ne by auto. eauto.
Qed.

Lemma b64_flat_kept (quads quads' : list quad) (count j : nat) :
  (forall j q, quads !! j = Some q -> (j < count)%nat ->
     exists q', quads' !! j = Some q' /\ size (quad_node q') = size (quad_node q)) ->
  (j < count)%nat -> flat quads j -> flat quads' j.
Proof.
  intros Hk Hj (q & Hq & Hz).
  destruct (Hk j q Hq Hj) as (q' & Hq' & Hs).
  exists q'. split; [exact Hq'|]. now rewrite Hs.
Qed.

(** One pass keeps the arena in shape.  It ends the loop with the star in
    a leaf, or it goes on at the quad that it has just allocated, or at a
    child of non-zero size, which lies further up the arena. *)
Lemma b64_insert_body_structure (stars : list star) (si : nat) (s : star)
  (quads : list quad) (count cur : nat) (a' : arena) (p' : ptr) :
  stars_ok stars -> stars !! si = Some s ->
  arena_ok stars quads count -> (cur < count)%nat ->
  insert_body stars si (star_node s) (quads, count) (PQuad cur) = Done (a', p') ->
  arena_ok stars (fst a') (snd a') /\
  ((p' = PStar si /\ snd a' = count /\ is_leaf (fst a') (snd a') si) \/
   (p' = PQuad count /\ snd a' = S count) \/
   (exists j, p' = PQuad j /\ (cur < j < count)%nat /\ snd a' = count /\
      ~ flat (fst a') j)).
Proof.
  intros Hstars Hs (Hcount & Hfresh & Hlinks) Hcur H.
  pose proof (b64_insert_body_sizes _ _ _ _ _ _ _ _ H) as (_ & _ & Hsizes).
  apply b64_insert_body_Done in H.
  destruct H as (qi & q & [= <-] & Hq & Hcases). cbv zeta in Hcases.
  set (star := star_node s) in *.
  assert (Hk : (0 <= get_quadrant q star < 4)%Z) by apply b64_get_quadrant_range.
  assert (Hcl : (cur < length quads)%nat) by lia.
  assert (Hsi : (si < length stars)%nat) by (apply lookup_lt_Some in Hs; exact Hs).
  assert (Hflat : forall j, (j < count)%nat -> flat quads j -> flat (fst a') j).
  { intros j Hj. now apply (b64_flat_kept quads (fst a') count j). }
  destruct Hcases
    as [(Hnone & -> & ->)
       |[(child & old & slot & Hch & Hold & Hsz & Hslot & -> & ->)
        |(child & n & Hch & Hn & Hsz & -> & ->)]]; cbn [fst snd] in *.
  - (* empty slot *)
    split.
    + split; [rewrite length_insert; exact Hcount|]. split.
      * intros i x Hi Hge. rewrite list_lookup_insert_ne in Hi by lia. eauto.
      * intros i x k c Hi Hk' Hc.
        assert (Hold : exists y, quads !! i = Some y /\
                  (children y k = Some c \/ c = PStar si)).
        { destruct (decide (i = cur)) as [->|Hne].
          - rewrite list_lookup_insert_eq in Hi by exact Hcl. injection Hi as <-.
            exists q. split; [exact Hq|].
            destruct (decide (k = get_quadrant q star)) as [->|Hkk].
            + rewrite b64_children_set_same in Hc by exact Hk. right. congruence.
            + rewrite b64_children_set_other in Hc by auto.
              rewrite b64_add_star_children in Hc. auto.
          - rewrite list_lookup_insert_ne in Hi by auto. eauto. }
        destruct Hold as (y & Hy & [Hc'| ->]); [|exact Hsi].
        specialize (Hlinks i y k c Hy Hk' Hc'). destruct c as [a|j]; [exact Hlinks|].
        destruct Hlinks as [Hj [Hij|Hfl]]; (split; [exact Hj|]); [left; exact Hij|].
        right. apply Hflat; [lia | exact Hfl].
    + left. split; [reflexivity|]. split; [reflexivity|].
      exists cur. eexists. exists (get_quadrant q star).
      split; [exact Hcur|].
      split; [apply list_lookup_insert_eq; exact Hcl|].
      split; [exact Hk|]. apply b64_children_set_same. exact Hk.
  - (* a leaf in the slot: split *)
    rewrite list_lookup_insert_ne in Hslot by lia.
    assert (slot = zero_quad) by (eapply Hfresh; eauto). subst slot.
    assert (Hcn : (count < length quads)%nat)
      by (apply lookup_lt_Some in Hslot; exact Hslot).
    pose proof (Hlinks cur q _ child Hq Hk Hch) as Hchild.
    split; [|right; left; auto].
    split; [rewrite !length_insert; lia|]. split.
    + intros i x Hi Hge.
      rewrite !list_lookup_insert_ne in Hi by lia. eapply Hfresh; eauto. lia.
    + intros i x k c Hi Hk' Hc.
      destruct (decide (i = cur)) as [->|Hne].
      * rewrite list_lookup_insert_eq in Hi by (rewrite !length_insert; exact Hcl).
        injection Hi as <-.
        destruct (decide (k = get_quadrant q star)) as [->|Hkk].
        -- rewrite b64_children_set_same in Hc by exact Hk. injection Hc as <-.
           split; [lia|]. left. exact Hcur.
        -- rewrite b64_children_set_other in Hc by auto.
           rewrite b64_add_star_children in Hc.
           specialize (Hlinks cur q k c Hq Hk' Hc). destruct c as [a|j]; [exact Hlinks|].
           destruct Hlinks as [Hj [Hij|Hfl]]; (split; [lia|]); [left; exact Hij|].
           right. apply Hflat; [lia | exact Hfl].
      * rewrite list_lookup_insert_ne in Hi by auto.
        destruct (decide (i = count)) as [->|Hnc].
        -- rewrite list_lookup_insert_eq in Hi by (rewrite length_insert; exact Hcn).
           injection Hi as <-.
           apply b64_split_off_children in Hc; [|exact Hk']. subst c.
           destruct child as [a|j]; [exact Hchild|].
           destruct Hchild as [Hj _]. split; [lia|]. right.
           cbn [deref] in Hold.
           destruct (<[cur := add_star q star]> quads !! j) as [qj|] eqn:Hqj;
             [|discriminate].
           injection Hold as <-.
           apply Hflat; [lia|].
           destruct (decide (j = cur)) as [->|Hjc].
           ++ rewrite list_lookup_insert_eq in Hqj by exact Hcl. injection Hqj as <-.
              exists q. split; [exact Hq | exact Hsz].
           ++ rewrite list_lookup_insert_ne in Hqj by auto.
              exists qj. split; [exact Hqj | exact Hsz].
        -- rewrite !list_lookup_insert_ne in Hi by auto.
           specialize (Hlinks i x k c Hi Hk' Hc). destruct c as [a|j]; [exact Hlinks|].
           destruct Hlinks as [Hj [Hij|Hfl]]; (split; [lia|]); [left; exact Hij|].
           right. apply Hflat; [lia | exact Hfl].
  - (* a quad in the slot: descend *)
    pose proof (Hlinks cur q _ child Hq Hk Hch) as Hchild.
    split.
    + split; [rewrite length_insert; exact Hcount|]. split.
      * intros i x Hi Hge. rewrite list_lookup_insert_ne in Hi by lia. eauto.
      * intros i x k c Hi Hk' Hc.
        assert (Hy : exists y, quads !! i = Some y /\ children y k = Some c).
        { destruct (decide (i = cur)) as [->|Hne].
          - rewrite list_lookup_insert_eq in Hi by exact Hcl. injection Hi as <-.
            exists q. split; [exact Hq|]. now rewrite b64_add_star_children in Hc.
          - rewrite list_lookup_insert_ne in Hi by auto. eauto. }
        destruct Hy as (y & Hy & Hc').
        specialize (Hlinks i y k c Hy Hk' Hc'). destruct c as [a|j]; [exact Hlinks|].
        destruct Hlinks as [Hj [Hij|Hfl]]; (split; [exact Hj|]); [left; exact Hij|].
        right. apply Hflat; [lia | exact Hfl].
    + right. right. destruct child as [a|j].
      * exfalso. cbn [deref] in Hn.
        destruct (stars !! a) as [sa|] eqn:Ha; [|discriminate]. injection Hn as <-.
        rewrite (Hstars a sa Ha) in Hsz. discriminate Hsz.
      * exists j. split; [reflexivity|].
        assert (Hnf : ~ flat (<[cur := add_star q star]> quads) j).
        { intros (qj & Hqj & Hz). cbn [deref] in Hn.
          rewrite Hqj in Hn. injection Hn as <-. congruence. }
        split; [|split; [reflexivity | exact Hnf]].
        destruct Hchild as [Hj [Hij|Hfl]]; [lia|].
        exfalso. apply Hnf. apply Hflat; [lia | exact Hfl].
Qed.

(** A star that is a leaf stays a leaf. *)
Lemma b64_insert_body_keeps_leaves (stars : list star) (si : nat) (star : node)
  (quads : list quad) (count cur : nat) (a' : arena) (p' : ptr) (a : nat) :
  fresh_beyond quads count -> (cur < count)%nat ->
  insert_body stars si star (quads, count) (PQuad cur) = Done (a', p') ->
  is_leaf quads count a -> is_leaf (fst a') (snd a') a.
Proof.
  intros Hfresh Hcur H (i & x & k & Hi & Hx & Hk' & Hc). apply b64_insert_body_Done in H.
  destruct H as (qi & q & [= <-] & Hq & Hcases). cbv zeta in Hcases.
  assert (Hk : (0 <= get_quadrant q star < 4)%Z) by apply b64_get_quadrant_range.
  assert (Hcl : (cur < length quads)%nat) by (apply lookup_lt_Some in Hq; exact Hq).
  destruct Hcases
    as [(Hnone & -> & ->)
       |[(child & old & slot & Hch & Hold & Hsz & Hslot & -> & ->)
        |(child & n & Hch & Hn & Hsz & -> & ->)]]; cbn [fst snd] in *.
  - exists i. destruct (decide (i = cur)) as [->|Hne].
    + assert (x = q) by congruence. subst x.
      eexists. exists k. split; [exact Hi|].
      split; [apply list_lookup_insert_eq; exact Hcl|]. split; [exact Hk'|].
      rewrite b64_children_set_other, b64_add_star_children; auto. congruence.
    + exists x, k. split; [exact Hi|].
      split; [now rewrite list_lookup_insert_ne by auto|]. auto.
  - rewrite list_lookup_insert_ne in Hslot by lia.
    assert (Hcn : (count < length quads)%nat)
      by (apply lookup_lt_Some in Hslot; exact Hslot).
    destruct (decide (i = cur)) as [->|Hne].
    + assert (x = q) by congruence. subst x.
      destruct (decide (k = get_quadrant q star)) as [->|Hkk].
      * assert (child = PStar a) by congruence. subst child.
        destruct (b64_split_off_leaf (add_star q star) (get_quadrant q star) old
                    (PStar a) slot) as (k2 & Hk2 & Hc2).
        exists count. eexists. exists k2. split; [lia|].
        split; [rewrite list_lookup_insert_ne by lia;
                apply list_lookup_insert_eq; rewrite length_insert; exact Hcn|].
        split; [exact Hk2 | exact Hc2].
      * exists cur. eexists. exists k. split; [lia|].
        split; [apply list_lookup_insert_eq; rewrite !length_insert; exact Hcl|].
        split; [exact Hk'|].
        rewrite b64_children_set_other, b64_add_star_children; auto.
    + exists i, x, k. split; [lia|].
      split; [now rewrite !list_lookup_insert_ne by lia|]. auto.
  - exists i. destruct (decide (i = cur)) as [->|Hne].
    + assert (x = q) by congruence. subst x.
      eexists. exists k. split; [exact Hi|].
      split; [apply list_lookup_insert_eq; exact Hcl|]. split; [exact Hk'|].
      now rewrite b64_add_star_children.
    + exists x, k. split; [exact Hi|].
      split; [now rewrite list_lookup_insert_ne by auto|]. auto.
Qed.

(** Under the invariant a pass completes, unless it needs the slot past
    the end of the arena. *)
Lemma b64_insert_body_runs (stars : list star) (si : nat) (star : node)
  (quads : list quad) (count cur : nat) :
  arena_ok stars quads count -> (cur < count)%nat ->
  (exists r, insert_body stars si star (quads, count) (PQuad cur) = Done r) \/
  (insert_body stars si star (quads, count) (PQuad cur) = Fault OutOfArena /\
   count = length quads).
Proof.
  intros (Hcount & Hfresh & Hlinks) Hcur.
  assert (Hcl : (cur < length quads)%nat) by lia.
  destruct (lookup_lt_is_Some_2 quads cur Hcl) as [q Hq].
  unfold insert_body. rewrite Hq. cbv zeta.
  fold (add_star q star).
  set (q1 := add_star q star).
  destruct (children q1 (get_quadrant q1 star)) as [child|] eqn:Hch;
    [|left; eauto].
  unfold q1 in Hch. rewrite b64_add_star_children in Hch.
  specialize (Hlinks cur q _ child Hq (b64_get_quadrant_range _ _) Hch).
  assert (Hd : exists n, deref stars (<[cur := q1]> quads) child = Done n).
  { destruct child as [a|j]; cbn [deref].
    - destruct (lookup_lt_is_Some_2 stars a Hlinks) as [sa ->]. eauto.
    - assert (Hj : (j < length (<[cur := q1]> quads))%nat)
        by (rewrite length_insert; lia).
      destruct (lookup_lt_is_Some_2 _ j Hj) as [qj ->]. eauto. }
  destruct Hd as (n & ->). cbn [bind].
  destruct (PrimFloat.eqb (size n) 0); [|left; eauto].
  destruct (<[cur := q1]> quads !! count) as [slot|] eqn:Hslot; [left; eauto|].
  right. split; [reflexivity|].
  apply lookup_ge_None in Hslot. rewrite length_insert in Hslot. lia.
Qed.

Lemma b64_insert_loop_ends (stars : list star) (si : nat) (s : star) :
  stars_ok stars -> stars !! si = Some s ->
  forall fuel quads count cur,
    arena_ok stars quads count -> (cur < count)%nat ->
    (length quads - cur <= fuel)%nat ->
    insert_loop fuel stars si (star_node s) (quads, count) (PQuad cur)
    = Fault OutOfArena \/
    exists a',
      insert_loop fuel stars si (star_node s) (quads, count) (PQuad cur) = Done a' /\
      arena_ok stars (fst a') (snd a') /\
      length (fst a') = length quads /\ (count <= snd a')%nat /\
      (is_leaf (fst a') (snd a') si \/
       ((count < snd a')%nat /\ flat (fst a') (snd a' - 1))).
Proof.
  intros Hstars Hs. induction fuel as [|fuel IH]; intros quads count cur Hok Hcur Hfuel.
  { destruct Hok as (Hcount & _). lia. }
  cbn [insert_loop].
  destruct (b64_insert_body_runs stars si (star_node s) quads count cur Hok Hcur)
    as [([[quads1 count1] p1] & Hbody)|[Hbody _]];
    [|left; rewrite Hbody; reflexivity].
  rewrite Hbody. cbn [bind fst].
  pose proof (b64_insert_body_sizes _ _ _ _ _ _ _ _ Hbody) as (Hmono & Hlen & _).
  cbn [fst snd] in Hmono, Hlen.
  destruct (b64_insert_body_structure _ _ _ _ _ _ _ _ Hstars Hs Hok Hcur Hbody)
    as (Hok1 & Hcases). cbn [fst snd] in Hok1, Hcases.
  destruct Hcases as [(-> & -> & Hleaf)|[(-> & ->)|(j & -> & Hj & -> & Hnf)]].
  - cbn [deref]. rewrite Hs. cbn [bind]. unfold truth.
    rewrite (Hstars si s Hs). cbn [negb].
    right. exists (quads1, count). cbn [fst snd].
    split; [reflexivity|]. split; [exact Hok1|]. split; [exact Hlen|].
    split; [lia|]. left. exact Hleaf.
  - assert (Hc1 : (count < length quads1)%nat) by (destruct Hok1 as (? & _); lia).
    destruct (lookup_lt_is_Some_2 quads1 count Hc1) as [qn Hqn].
    cbn [deref]. rewrite Hqn. cbn [bind]. unfold truth.
    destruct (PrimFloat.eqb (size (quad_node qn)) 0) eqn:Hsz; cbn [negb].
    + right. exists (quads1, S count). cbn [fst snd].
      split; [reflexivity|]. split; [exact Hok1|]. split; [exact Hlen|].
      split; [lia|]. right. split; [lia|].
      replace (S count - 1)%nat with count by lia.
      exists qn. split; [exact Hqn | exact Hsz].
    + destruct (IH quads1 (S count) count Hok1 ltac:(lia) ltac:(lia))
        as [Hf|(a' & Hrun & Hok' & Hlen' & Hmono' & Hend)]; [left; exact Hf|].
      right. exists a'. split; [exact Hrun|]. split; [exact Hok'|].
      split; [congruence|]. split; [lia|].
      destruct Hend as [Hl|[Hlt Hfl]]; [left; exact Hl|]. right. split; [lia | exact Hfl].
  - assert (Hj1 : (j < length quads1)%nat) by (destruct Hok1 as (? & _); lia).
    destruct (lookup_lt_is_Some_2 quads1 j Hj1) as [qj Hqj].
    cbn [deref]. rewrite Hqj. cbn [bind]. unfold truth.
    destruct (PrimFloat.eqb (size (quad_node qj)) 0) eqn:Hsz; cbn [negb].
    + exfalso. apply Hnf. exists qj. split; [exact Hqj | exact Hsz].
    + destruct (IH quads1 count j Hok1 ltac:(lia) ltac:(lia))
        as [Hf|(a' & Hrun & Hok' & Hlen' & Hmono' & Hend)]; [left; exact Hf|].
      right. exists a'. split; [exact Hrun|]. split; [exact Hok'|].
      split; [congruence|]. split; [lia|]. exact Hend.
Qed.

Lemma b64_insert_loop_keeps (stars : list star) (si : nat) (s : star) :
  stars_ok stars -> stars !! si = Some s ->
  forall fuel quads count cur a',
    arena_ok stars quads count -> (cur < count)%nat ->
    insert_loop fuel stars si (star_node s) (quads, count) (PQuad cur) = Done a' ->
    (forall a, is_leaf quads count a -> is_leaf (fst a') (snd a') a) /\
    (forall j, (j < count)%nat -> flat quads j -> flat (fst a') j).
Proof.
  intros Hstars Hs.
  induction fuel as [|fuel IH]; intros quads count cur a' Hok Hcur H; [discriminate|].
  cbn [insert_loop] in H. apply bind_Done in H.
  destruct H as ([[quads1 count1] p1] & Hbody & H).
  pose proof (b64_insert_body_sizes _ _ _ _ _ _ _ _ Hbody) as (Hmono & _ & Hsizes).
  cbn [fst snd] in Hmono, Hsizes.
  destruct (b64_insert_body_structure _ _ _ _ _ _ _ _ Hstars Hs Hok Hcur Hbody)
    as (Hok1 & Hcases). cbn [fst snd] in Hok1, Hcases.
  assert (Hleaf1 : forall a, is_leaf quads count a -> is_leaf quads1 count1 a).
  { intros a Hleaf. destruct Hok as (_ & Hfresh & _).
    apply (b64_insert_body_keeps_leaves _ _ _ _ _ _ _ _ a Hfresh Hcur Hbody Hleaf). }
  assert (Hflat1 : forall j, (j < count)%nat -> flat quads j -> flat quads1 j).
  { intros j Hj. now apply (b64_flat_kept quads quads1 count j). }
  apply bind_Done in H. destruct H as (n & _ & H).
  destruct (truth (size n)).
  - assert (Hnext : exists j, p1 = PQuad j /\ (j < count1)%nat).
    { destruct Hcases as [(-> & _)|[(-> & ->)|(j & -> & Hj & -> & _)]].
      - destruct fuel; discriminate H.
      - exists count. split; [reflexivity | lia].
      - exists j. split; [reflexivity | lia]. }
    destruct Hnext as (j & -> & Hj).
    destruct (IH quads1 count1 j a' Hok1 Hj H) as (Hl & Hf).
    split; [intros a Ha; apply Hl, Hleaf1, Ha|].
    intros x Hx Hfl. apply Hf; [lia|]. apply Hflat1; assumption.
  - injection H as <-. cbn [fst snd]. split; assumption.
Qed.

Lemma b64_world_bounds_total (stars : list star) (n : nat) :
  (n <= length stars)%nat -> exists b, world_bounds n stars = Done b.
Proof.
  intros Hn. unfold world_bounds.
  destruct (for_range_progress (fun _ _ => True) False WildPointer
              (bounds_body stars) n) with (a := 0%nat)
              (s := mkbounds infinity infinity neg_infinity neg_infinity)
    as [(b & Hb & _)|[_ []]]; [| lia | exact I | eauto].
  intros i b Hi _. left. unfold bounds_body.
  destruct (lookup_lt_is_Some_2 stars i ltac:(lia)) as [s ->]. eauto.
Qed.

(** The arena after lines 214-232, when it was zeroed. *)
Lemma b64_set_root_arena (stars : list star) (b : bounds) (quads quads0 : list quad) :
  zeroed quads -> set_root b quads = Done quads0 ->
  arena_ok stars quads0 1 /\ length quads0 = length quads.
Proof.
  intros Hz H. unfold set_root in H.
  destruct (quads !! 0%nat) as [q|] eqn:Hq; [|discriminate].
  assert (q = zero_quad) by (eapply Hz; eauto). subst q.
  cbv zeta in H. injection H as <-.
  assert (H0 : (0 < length quads)%nat) by (apply lookup_lt_Some in Hq; exact Hq).
  split; [|apply length_insert].
  split; [rewrite length_insert; lia|]. split.
  - intros i q Hi Hge. rewrite list_lookup_insert_ne in Hi by lia. eauto.
  - intros i q k c Hi Hk Hc. exfalso.
    destruct (decide (i = 0%nat)) as [->|Hne].
    + rewrite list_lookup_insert_eq in Hi by exact H0. injection Hi as <-.
      quadrants k Hk; discriminate Hc.
    + rewrite list_lookup_insert_ne in Hi by auto.
      rewrite (Hz i q Hi) in Hc. quadrants k Hk; discriminate Hc.
Qed.

(** The build phase with the length of the arena for fuel. *)
Lemma b64_build_tree_ends (fuel n : nat) (stars : list star) (quads : list quad) :
  stars_ok stars -> zeroed quads -> (n <= length stars)%nat ->
  (length quads <= fuel)%nat ->
  build_tree fuel n stars quads = Fault OutOfArena \/
  exists a,
    build_tree fuel n stars quads = Done a /\
    arena_ok stars (fst a) (snd a) /\ length (fst a) = length quads /\
    forall si, (si < n)%nat ->
      is_leaf (fst a) (snd a) si \/
      exists j, (1 <= j < snd a)%nat /\ flat (fst a) j.
Proof.
  intros Hstars Hz Hn Hfuel. unfold build_tree.
  destruct (b64_world_bounds_total stars n Hn) as (b & Hb). rewrite Hb.
  cbn [bind].
  destruct (set_root b quads) as [quads0|f] eqn:H0.
  2:{ left. cbn [bind]. unfold set_root in H0.
      destruct (quads !! 0%nat); [discriminate|]. congruence. }
  cbn [bind].
  destruct (b64_set_root_arena stars b quads quads0 Hz H0) as (Hok0 & Hlen0).
  pose (P := fun (i : nat) (a : arena) =>
    arena_ok stars (fst a) (snd a) /\ length (fst a) = length quads /\
    forall si, (si < i)%nat ->
      is_leaf (fst a) (snd a) si \/
      exists j, (1 <= j < snd a)%nat /\ flat (fst a) j).
  destruct (for_range_progress P True OutOfArena (insert_star fuel stars) n)
    with (a := 0%nat) (s := (quads0, 1%nat))
    as [(a & Ha & Hok & Hlen & Hall)|[Hf _]];
    [| lia | | right; exists a; auto | left; exact Hf].
  - intros i [quads1 count1] Hi (Hok & Hlen & Hall). cbn [fst snd] in *.
    unfold insert_star.
    destruct (lookup_lt_is_Some_2 stars i ltac:(lia)) as [s Hs]. rewrite Hs.
    assert (Hc1 : (0 < count1)%nat) by (destruct Hok as (? & _); lia).
    destruct (b64_insert_loop_ends stars i s Hstars Hs fuel quads1 count1 0%nat
                Hok Hc1 ltac:(lia))
      as [Hf|(a' & Hrun & Hok' & Hlen' & Hmono & Hend)]; [right; auto|].
    left. exists a'. split; [exact Hrun|]. split; [exact Hok'|].
    split; [congruence|]. intros si Hsi.
    destruct (b64_insert_loop_keeps stars i s Hstars Hs fuel quads1 count1 0%nat a'
                Hok Hc1 Hrun) as (Hkl & Hkf).
    destruct (decide (si = i)) as [->|Hne].
    + destruct Hend as [Hl|[Hlt Hfl]]; [left; exact Hl|].
      right. exists (snd a' - 1)%nat. split; [lia | exact Hfl].
    + destruct (Hall si ltac:(lia)) as [Hl|(j & Hj & Hfl)].
      * left. apply Hkl. exact Hl.
      * right. exists j. split; [lia|]. apply Hkf; [lia | exact Hfl].
  - split; [exact Hok0|]. split; [exact Hlen0|]. intros si Hsi. lia.
Qed.

End Binary64Facts.

(** ** C9: the loop for one star ends, on doubles *)

(** C9 (amended).  On doubles, for stars whose nodes have size zero,
    whatever their places and masses:
    - a pass of the insertion loop that does not end it goes on at a quad
      further up the arena: the quad it has just allocated, or a child of
      non-zero size, allocated after its parent;
    - so the loop for one star ends within as many passes as the arena has
      quads beyond the current one: with the star in a leaf, or at a split
      that gave a quad of size zero, or at the slot past the end of the
      arena;
    - and the build phase on a zeroed arena, with the length of the arena
      for fuel, completes or takes the slot past the end of the arena; when
      it completes, every star is the leaf of a quad unless the tree has a
      quad of size zero below the root. *)
Theorem insertion_ends (stars : list Binary64.star) :
  Binary64.stars_ok stars ->
  (forall si s quads count cur a' p',
     stars !! si = Some s -> Binary64.arena_ok stars quads count ->
     (cur < count)%nat ->
     Binary64.insert_body stars si (Binary64.star_node s) (quads, count) (PQuad cur)
     = Done (a', p') ->
     Binary64.arena_ok stars (fst a') (snd a') /\
     ((p' = PStar si /\ snd a' = count /\ Binary64.is_leaf (fst a') (snd a') si) \/
      (p' = PQuad count /\ snd a' = S count) \/
      (exists j, p' = PQuad j /\ (cur < j < count)%nat /\ snd a' = count /\
         ~ Binary64.flat (fst a') j))) /\
  (forall si s fuel quads count cur,
     stars !! si = Some s -> Binary64.arena_ok stars quads count ->
     (cur < count)%nat -> (length quads - cur <= fuel)%nat ->
     Binary64.insert_loop fuel stars si (Binary64.star_node s) (quads, count)
       (PQuad cur) = Fault OutOfArena \/
     exists a',
       Binary64.insert_loop fuel stars si (Binary64.star_node s) (quads, count)
         (PQuad cur) = Done a' /\
       Binary64.arena_ok stars (fst a') (snd a') /\
       length (fst a') = length quads /\ (count <= snd a')%nat /\
       (Binary64.is_leaf (fst a') (snd a') si \/
        ((count < snd a')%nat /\ Binary64.flat (fst a') (snd a' - 1)))) /\
  (forall fuel n quads,
     Binary64.zeroed quads -> (1 <= n <= length stars)%nat ->
     (length quads <= fuel)%nat ->
     Binary64.build_tree fuel n stars quads = Fault OutOfArena \/
     exists a,
       Binary64.build_tree fuel n stars quads = Done a /\
       Binary64.arena_ok stars (fst a) (snd a) /\ length (fst a) = length quads /\
       forall si, (si < n)%nat ->
         Binary64.is_leaf (fst a) (snd a) si \/
         exists j, (1 <= j < snd a)%nat /\ Binary64.flat (fst a) j).
Proof.
  intros Hstars. split; [|split].
  - intros si s quads count cur a' p' Hs Hok Hcur H.
    apply (Binary64Facts.b64_insert_body_structure stars si s quads count cur a' p');
      assumption.
  - intros si s fuel quads count cur Hs Hok Hcur Hfuel.
    apply Binary64Facts.b64_insert_loop_ends; assumption.
  - intros fuel n quads Hz Hn Hfuel.
    apply Binary64Facts.b64_build_tree_ends; [assumption | assumption | lia | assumption].
Qed.

Lemma insertion_ends_witness :
  Binary64.stars_ok far_apart /\
  exists a,
    Binary64.build_tree 8 3 far_apart (replicate 8 Binary64.zero_quad) = Done a /\
    snd a = 2%nat /\ Binary64.has_leaf (fst a) (snd a) 2 = true /\
    (Binary64.is_leaf (fst a) (snd a) 2 \/
     exists j, (1 <= j < snd a)%nat /\ Binary64.flat (fst a) j).
Proof.
  assert (Hstars : Binary64.stars_ok far_apart).
  { intros [|[|[|i]]] s H; try discriminate H; injection H as <-; reflexivity. }
  split; [exact Hstars|].
  assert (Hz : Binary64.zeroed (replicate 8 Binary64.zero_quad)).
  { intros i q H. apply lookup_replicate in H. tauto. }
  destruct (insertion_ends far_apart Hstars) as (_ & _ & Hbuild).
  destruct (Hbuild 8%nat 3%nat (replicate 8 Binary64.zero_quad) Hz
              ltac:(cbn; lia) ltac:(cbn; lia))
    as [Hf|(a & Ha & _ & _ & Hall)].
  - vm_compute in Hf. discriminate Hf.
  - exists a. split; [exact Ha|].
    vm_compute in Ha. injection Ha as <-.
    split; [reflexivity|]. split; [vm_compute; reflexivity|]. apply Hall. lia.
Defined.

(** C9, as the specification states it, fails on doubles.  The two stars of
    [close_pair] do not share their coordinates, and the build phase never
    separates them: the centre [(x0 + x1) / 2] of the root rounds to the
    [x] of star 1, every centre below it is that [x] again, and both stars
    stay in the same quadrant of every quad.  On the arena of [2 * 2] quads
    that [init_world] allocates the loop for star 1 goes on until it takes
    the slot past the end of the arena.  With room for them it allocates
    1076 quads, until the halved size is zero: it then ends with star 1 in
    no leaf. *)
Lemma close_pair_counterexample :
  PrimFloat.ltb 9007199254740994 9007199254740996 = true /\
  Binary64.build_tree 2000 2 close_pair (replicate 4 Binary64.zero_quad)
  = Fault OutOfArena /\
  match Binary64.build_tree 2000 2 close_pair (replicate 1200 Binary64.zero_quad) with
  | Done (tree, count) =>
      count = 1077%nat /\
      Binary64.has_leaf tree count 0 = true /\ Binary64.has_leaf tree count 1 = false /\
      option_map (fun q => PrimFloat.eqb (Binary64.size (Binary64.quad_node q)) 0)
        (tree !! 1076%nat) = Some true
  | Fault _ => False
  end.
Proof.
  split; [vm_compute; reflexivity|]. split; [vm_compute; reflexivity|].
  vm_compute. repeat split.
Qed.
